(** * leakcheck: the analysis pipeline of a C++ leak detector, embedded in Rocq

    The development follows the Go packages of the repository:
    - the shared data types ([Token], [Class], [Function], ... of package
      [parser]);
    - the rule engine of package [analyzer] ([analyzeClass],
      [collectDeallocations], [buildAliasMap], [isVarDeallocated],
      [findDeallocation]);
    - the lexer ([Tokenize] and its helpers);
    - the class registry ([AddClasses], [MergeClasses], [mergeClassInto],
      [isHeaderFile]);
    - the parser ([parse], [parseClass], [parseDestructor],
      [parseFunctionBody], ... and the out-of-class definitions);
    - the entry points of the analyzer ([Analyze], [AnalyzeClasses]), the
      file scanner ([ScanPaths], [isCppFile], [shouldExclude]; the walk of
      the file system is an argument) and the class count of [main].

    Go maps are [gmap]s, Go's [map[string]bool] used as a set is a [gset],
    [*Function] is [option Function], slices are lists, a Go string read
    byte by byte is a [list ascii].  Line numbers are [Z]: they are only
    ever produced by counting the newlines of one input, so the 64-bit
    wrap-around of Go's [int] is never reached; positions into the input
    and into the token list are [nat].  Fields keep their Go names behind
    the name of their struct ([Fn_Name] is [Function.Name]); the lexer's
    [advance] and [peek] are [lx_advance] and [lx_peek], the parser's keep
    their names.

    The definitions come first: the embedding of the code, then the
    vocabulary of the specification and the concrete classes of the
    examples.  The properties follow, grouped by the part of the pipeline
    they are about. *)

From Stdlib Require Import ZArith Ascii String List.
From stdpp Require Import base gmap sets list strings.

#[local] Set Warnings "-clear-no-such-hyp".

Local Open Scope string_scope.
Local Open Scope list_scope.
Local Open Scope nat_scope.

(** ** Shared data types (package parser) *)

Inductive TokenType :=
| TokenEOF | TokenIdent | TokenNumber | TokenString
| TokenKeyword | TokenOperator | TokenPunctuation | TokenNewline.

Record Token := mkToken {
  Token_Type : TokenType;
  Token_Value : string;
  Token_Line : Z;
  Token_Column : Z
}.

Record Member := mkMember {
  Member_Name : string;
  Member_Type : string;
  Member_IsPointer : bool;
  Member_IsArray : bool;
  Member_Line : Z
}.

Record Allocation := mkAllocation {
  Alloc_VarName : string;
  Alloc_IsArray : bool;
  Alloc_Line : Z
}.

Record Deallocation := mkDeallocation {
  Dealloc_VarName : string;
  Dealloc_IsArray : bool;
  Dealloc_Line : Z
}.

Record PointerAlias := mkPointerAlias {
  Alias_SourceVar : string;
  Alias_TargetVar : string;
  Alias_Line : Z
}.

Record Function := mkFunction {
  Fn_Name : string;
  Fn_IsDestructor : bool;
  Fn_StartLine : Z;
  Fn_EndLine : Z;
  Fn_Allocations : list Allocation;
  Fn_Deallocations : list Deallocation;
  Fn_MethodCalls : list string;
  Fn_Aliases : list PointerAlias
}.

Record Class := mkClass {
  Class_Name : string;
  Class_File : string;
  Class_StartLine : Z;
  Class_EndLine : Z;
  Class_Members : list Member;
  Class_Constructor : option Function;
  Class_Destructor : option Function;
  Class_Methods : list Function
}.

Record Leak := mkLeak {
  Leak_File : string;
  Leak_Line : Z;
  Leak_ClassName : string;
  Leak_VarName : string;
  Leak_Reason : string;
  Leak_Severity : string
}.

#[global] Instance TokenType_eq_dec : EqDecision TokenType.
Proof. solve_decision. Defined.
#[global] Instance Token_eq_dec : EqDecision Token.
Proof. solve_decision. Defined.
#[global] Instance Member_eq_dec : EqDecision Member.
Proof. solve_decision. Defined.
#[global] Instance Allocation_eq_dec : EqDecision Allocation.
Proof. solve_decision. Defined.
#[global] Instance Deallocation_eq_dec : EqDecision Deallocation.
Proof. solve_decision. Defined.
#[global] Instance PointerAlias_eq_dec : EqDecision PointerAlias.
Proof. solve_decision. Defined.
#[global] Instance Function_eq_dec : EqDecision Function.
Proof. solve_decision. Defined.
#[global] Instance Leak_eq_dec : EqDecision Leak.
Proof. solve_decision. Defined.

(** ** The analyzer (package analyzer) *)

(** [const MaxMethodDepth = 5].  The depth is a [nat]: the Go parameter is
    an [int] that starts at 5, is only decremented, and stops the recursion
    as soon as it is [<= 0]. *)
Definition MaxMethodDepth : nat := 5.

(** The two maps [collectDeallocations] mutates through its callers. *)
Record CollectState := mkCollectState {
  cs_result : gmap string Deallocation;
  cs_visited : gset string
}.

(** [for _, dealloc := range fn.Deallocations { result[dealloc.VarName] = dealloc }] *)
Definition addDeallocations (result : gmap string Deallocation)
    (ds : list Deallocation) : gmap string Deallocation :=
  foldl (fun r d => <[Dealloc_VarName d := d]> r) result ds.

Fixpoint collectDeallocations (depth : nat) (fn : option Function)
    (methodMap : gmap string Function) (st : CollectState) : CollectState :=
  match depth with
  | O => st
  | S depth' =>
    match fn with
    | None => st
    | Some f =>
      if decide (Fn_Name f ∈ cs_visited st) then st
      else
        let st1 := {| cs_result := addDeallocations (cs_result st) (Fn_Deallocations f);
                      cs_visited := {[ Fn_Name f ]} ∪ cs_visited st |} in
        foldl (fun s methodName =>
                 match methodMap !! methodName with
                 | Some calledMethod =>
                     collectDeallocations depth' (Some calledMethod) methodMap s
                 | None => s
                 end) st1 (Fn_MethodCalls f)
    end
  end.

(** The same traversal with a ghost log: every function whose body is
    processed is recorded, in order, with the depth budget it was entered
    with.  [callsLog] is the loop over [fn.MethodCalls]. *)
Fixpoint callsLog (run : Function → CollectState → CollectState * list (Function * nat))
    (methodMap : gmap string Function) (calls : list string) (st : CollectState)
    : CollectState * list (Function * nat) :=
  match calls with
  | [] => (st, [])
  | methodName :: rest =>
    match methodMap !! methodName with
    | Some calledMethod =>
        let r := run calledMethod st in
        let r' := callsLog run methodMap rest r.1 in
        (r'.1, r.2 ++ r'.2)
    | None => callsLog run methodMap rest st
    end
  end.

Fixpoint collectLog (depth : nat) (fn : option Function)
    (methodMap : gmap string Function) (st : CollectState)
    : CollectState * list (Function * nat) :=
  match depth with
  | O => (st, [])
  | S depth' =>
    match fn with
    | None => (st, [])
    | Some f =>
      if decide (Fn_Name f ∈ cs_visited st) then (st, [])
      else
        let st1 := {| cs_result := addDeallocations (cs_result st) (Fn_Deallocations f);
                      cs_visited := {[ Fn_Name f ]} ∪ cs_visited st |} in
        let r := callsLog (fun g s => collectLog depth' (Some g) methodMap s)
                          methodMap (Fn_MethodCalls f) st1 in
        (r.1, (f, depth) :: r.2)
    end
  end.

(** [aliasMap[k] = append(aliasMap[k], v)] *)
Definition appendAlias (k v : string) (am : gmap string (list string))
    : gmap string (list string) :=
  <[k := default [] (am !! k) ++ [v]]> am.

Definition collectAliasesFromFunc (am : gmap string (list string))
    (fn : Function) : gmap string (list string) :=
  foldl (fun m alias =>
           appendAlias (Alias_TargetVar alias) (Alias_SourceVar alias)
             (appendAlias (Alias_SourceVar alias) (Alias_TargetVar alias) m))
        am (Fn_Aliases fn).

Definition buildAliasMap (class : Class) : gmap string (list string) :=
  let am0 : gmap string (list string) := ∅ in
  let am1 := match Class_Constructor class with
             | Some f => collectAliasesFromFunc am0 f | None => am0 end in
  let am2 := match Class_Destructor class with
             | Some f => collectAliasesFromFunc am1 f | None => am1 end in
  foldl collectAliasesFromFunc am2 (Class_Methods class).

Definition isDeleted (deallocatedVars : gmap string Deallocation) (v : string) : bool :=
  bool_decide (is_Some (deallocatedVars !! v)).

Definition isVarDeallocated (varName : string)
    (deallocatedVars : gmap string Deallocation)
    (aliasMap : gmap string (list string)) : bool :=
  if isDeleted deallocatedVars varName then true
  else match aliasMap !! varName with
       | Some aliases => existsb (isDeleted deallocatedVars) aliases
       | None => false
       end.

Fixpoint firstDeallocation (deallocatedVars : gmap string Deallocation)
    (aliases : list string) : option Deallocation :=
  match aliases with
  | [] => None
  | aliasName :: rest =>
    match deallocatedVars !! aliasName with
    | Some dealloc => Some dealloc
    | None => firstDeallocation deallocatedVars rest
    end
  end.

Definition findDeallocation (varName : string)
    (deallocatedVars : gmap string Deallocation)
    (aliasMap : gmap string (list string)) : option Deallocation :=
  match deallocatedVars !! varName with
  | Some dealloc => Some dealloc
  | None =>
    match aliasMap !! varName with
    | Some aliases => firstDeallocation deallocatedVars aliases
    | None => None
    end
  end.

(** The maps [analyzeClass] builds before it applies the rules. *)
Definition pointerMembers (class : Class) : gmap string Member :=
  foldl (fun pm m => if Member_IsPointer m then <[Member_Name m := m]> pm else pm)
        ∅ (Class_Members class).

Definition allocatedVars (class : Class) : gmap string Allocation :=
  match Class_Constructor class with
  | Some ctor => foldl (fun av alloc => <[Alloc_VarName alloc := alloc]> av)
                       ∅ (Fn_Allocations ctor)
  | None => ∅
  end.

Definition buildMethodMap (class : Class) : gmap string Function :=
  foldl (fun mm f => <[Fn_Name f := f]> mm) ∅ (Class_Methods class).

Definition deallocatedVars (class : Class) : gmap string Deallocation :=
  match Class_Destructor class with
  | Some dtor =>
      cs_result (collectDeallocations MaxMethodDepth (Some dtor)
                   (buildMethodMap class) (mkCollectState ∅ ∅))
  | None => ∅
  end.

Definition reasonNotDeleted : string :=
  "allocated with 'new' but not deleted in destructor".
Definition reasonArrayAsScalar : string :=
  "allocated with 'new[]' but deleted with 'delete' instead of 'delete[]'".
Definition reasonScalarAsArray : string :=
  "allocated with 'new' but deleted with 'delete[]' instead of 'delete'".
Definition reasonReassigned (methodName : string) : string :=
  "pointer reassigned with 'new' without deleting previous allocation (in "
    +:+ methodName +:+ ")".
Definition reasonDoubleFree (target : string) : string :=
  "pointer aliased to '" +:+ target +:+ "' and both are deleted (potential double-free)".
Definition reasonNoDestructor : string :=
  "pointer member allocated but class has no destructor".

(** Rule 1, the body of [for varName, alloc := range allocatedVars]. *)
Definition rule1Body (class : Class) (entry : string * Allocation) : list Leak :=
  let '(varName, alloc) := entry in
  let dv := deallocatedVars class in
  let am := buildAliasMap class in
  if negb (isVarDeallocated varName dv am) then
    [ mkLeak (Class_File class) (Alloc_Line alloc) (Class_Name class) varName
             reasonNotDeleted "error" ]
  else
    match findDeallocation varName dv am with
    | Some dealloc =>
      if Alloc_IsArray alloc && negb (Dealloc_IsArray dealloc) then
        [ mkLeak (Class_File class) (Dealloc_Line dealloc) (Class_Name class) varName
                 reasonArrayAsScalar "error" ]
      else if negb (Alloc_IsArray alloc) && Dealloc_IsArray dealloc then
        [ mkLeak (Class_File class) (Dealloc_Line dealloc) (Class_Name class) varName
                 reasonScalarAsArray "warning" ]
      else []
    | None => []
    end.

(** Rule 2: the inner [for _, dealloc := range method.Deallocations] with
    its [break], then the body of the loop over [method.Allocations]. *)
Definition hasDeleteBeforeNew (method : Function) (alloc : Allocation) : bool :=
  existsb (fun dealloc =>
             bool_decide (Dealloc_VarName dealloc = Alloc_VarName alloc)
             && bool_decide (Dealloc_Line dealloc < Alloc_Line alloc)%Z)
          (Fn_Deallocations method).

Definition rule2Body (class : Class) (method : Function) (alloc : Allocation)
    : list Leak :=
  match pointerMembers class !! Alloc_VarName alloc with
  | Some _ =>
    if negb (hasDeleteBeforeNew method alloc) then
      match allocatedVars class !! Alloc_VarName alloc with
      | Some _ =>
        [ mkLeak (Class_File class) (Alloc_Line alloc) (Class_Name class)
                 (Alloc_VarName alloc) (reasonReassigned (Fn_Name method)) "warning" ]
      | None => []
      end
    else []
  | None => []
  end.

Definition rule2 (class : Class) : list Leak :=
  flat_map (fun method => flat_map (rule2Body class method) (Fn_Allocations method))
           (Class_Methods class).

(** Rule 3: the two flags set by the loop over [method.Deallocations]. *)
Definition deletedIn (method : Function) (v : string) : bool :=
  existsb (fun dealloc => bool_decide (Dealloc_VarName dealloc = v))
          (Fn_Deallocations method).

Definition rule3Body (class : Class) (method : Function) (alias : PointerAlias)
    : list Leak :=
  match pointerMembers class !! Alias_SourceVar alias with
  | Some _ =>
    if deletedIn method (Alias_SourceVar alias)
       && deletedIn method (Alias_TargetVar alias) then
      [ mkLeak (Class_File class) (Alias_Line alias) (Class_Name class)
               (Alias_SourceVar alias) (reasonDoubleFree (Alias_TargetVar alias))
               "error" ]
    else []
  | None => []
  end.

Definition rule3 (class : Class) : list Leak :=
  flat_map (fun method => flat_map (rule3Body class method) (Fn_Aliases method))
           (Class_Methods class).

(** Rule 4, the body of [for _, member := range pointerMembers]. *)
Definition rule4Body (class : Class) (entry : string * Member) : list Leak :=
  let member := entry.2 in
  match allocatedVars class !! Member_Name member with
  | Some _ =>
    [ mkLeak (Class_File class) (Member_Line member) (Class_Name class)
             (Member_Name member) reasonNoDestructor "error" ]
  | None => []
  end.

(** [analyzeClass] ranges over two Go maps, whose iteration order the
    language leaves open.  [analyzeClassWith] takes the two orders as
    arguments; [analyzeClass] fixes one of them, and [analyzeClassOutput]
    describes every list a run of the Go function may return. *)
Definition analyzeClassWith (order1 : list (string * Allocation))
    (order4 : list (string * Member)) (class : Class) : list Leak :=
  if decide (pointerMembers class = ∅) then []
  else
    flat_map (rule1Body class) order1
    ++ rule2 class
    ++ rule3 class
    ++ match Class_Destructor class with
       | None => flat_map (rule4Body class) order4
       | Some _ => []
       end.

Definition analyzeClass (class : Class) : list Leak :=
  analyzeClassWith (map_to_list (allocatedVars class))
                   (map_to_list (pointerMembers class)) class.

Definition analyzeClassOutput (class : Class) (leaks : list Leak) : Prop :=
  ∃ order1 order4,
    order1 ≡ₚ map_to_list (allocatedVars class) ∧
    order4 ≡ₚ map_to_list (pointerMembers class) ∧
    leaks = analyzeClassWith order1 order4 class.


(** ** The lexer (lexer.go) *)

(** The input is a Go string, i.e. a sequence of bytes. *)
Record Lexer := mkLexer {
  lx_input : list ascii;
  lx_pos : nat;
  lx_line : Z;
  lx_column : Z;
  lx_tokens : list Token
}.

Definition keywords : list string :=
  ["class"; "struct"; "public"; "private"; "protected";
   "new"; "delete"; "virtual"; "const"; "static";
   "void"; "int"; "char"; "float"; "double";
   "bool"; "long"; "short"; "unsigned"; "signed";
   "if"; "else"; "for"; "while"; "do";
   "return"; "nullptr"; "NULL"; "this";
   "template"; "typename"; "namespace"; "using"].

Definition isKeyword (value : string) : bool := bool_decide (value ∈ keywords).

Definition NewLexer (input : list ascii) : Lexer := mkLexer input 0 1 1 [].

(** [l.input[l.pos]], read only where the code has checked the bound. *)
Definition byteAt (l : Lexer) (i : nat) : ascii :=
  default zero (lx_input l !! i).

Definition lx_len (l : Lexer) : nat := length (lx_input l).

Definition lx_advance (l : Lexer) : Lexer :=
  if lx_pos l <? lx_len l then
    if (byteAt l (lx_pos l) =? "010")%char then
      mkLexer (lx_input l) (S (lx_pos l)) (lx_line l + 1) 1 (lx_tokens l)
    else
      mkLexer (lx_input l) (S (lx_pos l)) (lx_line l) (lx_column l + 1) (lx_tokens l)
  else l.

Definition lx_peek (l : Lexer) : ascii :=
  if lx_pos l + 1 <? lx_len l then byteAt l (lx_pos l + 1) else zero.

Definition pushToken (l : Lexer) (t : Token) : Lexer :=
  mkLexer (lx_input l) (lx_pos l) (lx_line l) (lx_column l) (lx_tokens l ++ [t]).

Definition addToken (l : Lexer) (tokenType : TokenType) (value : string) : Lexer :=
  pushToken l (mkToken tokenType value (lx_line l) (lx_column l)).

(** [l.input[start:stop]] *)
Definition slice (l : Lexer) (start stop : nat) : string :=
  string_of_list_ascii (take (stop - start) (drop start (lx_input l))).

(** [unicode.IsLetter(rune(ch))] and [unicode.IsDigit(rune(ch))] for a
    byte: the conversion gives a code point of Latin-1, whose letters are
    A-Z, a-z, U+00AA, U+00B5, U+00BA, U+00C0-U+00D6, U+00D8-U+00F6 and
    U+00F8-U+00FF, and whose only digits are 0-9. *)
Definition inRange (lo hi : nat) (ch : ascii) : bool :=
  (lo <=? nat_of_ascii ch) && (nat_of_ascii ch <=? hi).

Definition isLetter (ch : ascii) : bool :=
  inRange 65 90 ch || inRange 97 122 ch
  || inRange 170 170 ch || inRange 181 181 ch || inRange 186 186 ch
  || inRange 192 214 ch || inRange 216 246 ch || inRange 248 255 ch.

Definition isDigit (ch : ascii) : bool := inRange 48 57 ch.

Definition isOperator (ch : ascii) : bool :=
  bool_decide (ch ∈ ["+"; "-"; "*"; "/"; "="; "<"; ">"; "!"; "&"; "|"; "^"; "%"; "~"]%char).

Definition isPunctuation (ch : ascii) : bool :=
  bool_decide (ch ∈ ["{"; "}"; "("; ")"; "["; "]"; ";"; ","; ":"; "."]%char).

Definition twoCharOperators : list string :=
  ["::"; "->"; "=="; "!="; "<="; ">="; "&&"; "||"; "++"; "--"; "+="; "-="; "*="; "/="].

(** Every loop of the lexer consumes one byte per round or stops, so the
    number of bytes left bounds the number of rounds; that number is the
    fuel of the loops below. *)
Definition bytesLeft (l : Lexer) : nat := lx_len l - lx_pos l.

(** [for l.pos < len(l.input) && l.input[l.pos] != '\n' { l.advance() }] *)
Fixpoint skipToNewline (fuel : nat) (l : Lexer) : Lexer :=
  match fuel with
  | O => l
  | S fuel' =>
    if (lx_pos l <? lx_len l) && negb (byteAt l (lx_pos l) =? "010")%char
    then skipToNewline fuel' (lx_advance l)
    else l
  end.

(** The loop of the multi-line comment:
    [for l.pos < len(l.input)-1 { if "*/" { advance; advance; break }; advance }] *)
Fixpoint skipBlockComment (fuel : nat) (l : Lexer) : Lexer :=
  match fuel with
  | O => l
  | S fuel' =>
    if lx_pos l + 1 <? lx_len l then
      if (byteAt l (lx_pos l) =? "*")%char && (lx_peek l =? "/")%char
      then lx_advance (lx_advance l)
      else skipBlockComment fuel' (lx_advance l)
    else l
  end.

Definition isSpace (ch : ascii) : bool :=
  (ch =? " ")%char || (ch =? "009")%char || (ch =? "013")%char || (ch =? "010")%char.

Fixpoint skipWhitespaceAndCommentsLoop (fuel : nat) (l : Lexer) : Lexer :=
  match fuel with
  | O => l
  | S fuel' =>
    if lx_pos l <? lx_len l then
      let ch := byteAt l (lx_pos l) in
      if isSpace ch then
        skipWhitespaceAndCommentsLoop fuel' (lx_advance l)
      else if (ch =? "/")%char && (lx_peek l =? "/")%char then
        skipWhitespaceAndCommentsLoop fuel' (skipToNewline (bytesLeft l) l)
      else if (ch =? "/")%char && (lx_peek l =? "*")%char then
        let l2 := lx_advance (lx_advance l) in
        skipWhitespaceAndCommentsLoop fuel' (skipBlockComment (bytesLeft l2) l2)
      else l
    else l
  end.

Definition skipWhitespaceAndComments (l : Lexer) : Lexer :=
  skipWhitespaceAndCommentsLoop (bytesLeft l) l.

Fixpoint skipPreprocessorLoop (fuel : nat) (l : Lexer) : Lexer :=
  match fuel with
  | O => l
  | S fuel' =>
    if (lx_pos l <? lx_len l) && negb (byteAt l (lx_pos l) =? "010")%char then
      if (byteAt l (lx_pos l) =? "\")%char && (lx_peek l =? "010")%char
      then skipPreprocessorLoop fuel' (lx_advance (lx_advance l))
      else skipPreprocessorLoop fuel' (lx_advance l)
    else l
  end.

Definition skipPreprocessor (l : Lexer) : Lexer :=
  skipPreprocessorLoop (bytesLeft l) l.

(** The loop of [readString]; [sb] is the string builder. *)
Fixpoint readStringLoop (fuel : nat) (quote : ascii) (sb : list ascii) (l : Lexer)
    : list ascii * Lexer :=
  match fuel with
  | O => (sb, l)
  | S fuel' =>
    if lx_pos l <? lx_len l then
      let ch := byteAt l (lx_pos l) in
      if (ch =? "\")%char && (lx_pos l + 1 <? lx_len l) then
        let l1 := lx_advance l in
        if lx_pos l1 <? lx_len l1 then
          readStringLoop fuel' quote (sb ++ [ch; byteAt l1 (lx_pos l1)]) (lx_advance l1)
        else readStringLoop fuel' quote (sb ++ [ch]) l1
      else if (ch =? quote)%char then (sb ++ [ch], lx_advance l)
      else if (ch =? "010")%char then (sb, l)
      else readStringLoop fuel' quote (sb ++ [ch]) (lx_advance l)
    else (sb, l)
  end.

Definition readString (quote : ascii) (l : Lexer) : Lexer :=
  let startLine := lx_line l in
  let startCol := lx_column l in
  let l1 := lx_advance l in
  let '(sb, l2) := readStringLoop (bytesLeft l1) quote [quote] l1 in
  pushToken l2 (mkToken TokenString (string_of_list_ascii sb) startLine startCol).

Fixpoint advanceWhile (fuel : nat) (keep : ascii → bool) (l : Lexer) : Lexer :=
  match fuel with
  | O => l
  | S fuel' =>
    if (lx_pos l <? lx_len l) && keep (byteAt l (lx_pos l))
    then advanceWhile fuel' keep (lx_advance l)
    else l
  end.

Definition readIdentifier (l : Lexer) : Lexer :=
  let startLine := lx_line l in
  let startCol := lx_column l in
  let start := lx_pos l in
  let l1 := advanceWhile (bytesLeft l)
              (fun ch => isLetter ch || isDigit ch || (ch =? "_")%char) l in
  let value := slice l start (lx_pos l1) in
  let tokenType := if isKeyword value then TokenKeyword else TokenIdent in
  pushToken l1 (mkToken tokenType value startLine startCol).

Definition isNumberByte (ch : ascii) : bool :=
  isDigit ch || (ch =? ".")%char || (ch =? "x")%char || (ch =? "X")%char
  || inRange 97 102 ch || inRange 65 70 ch.

Definition readNumber (l : Lexer) : Lexer :=
  let startLine := lx_line l in
  let startCol := lx_column l in
  let start := lx_pos l in
  let l1 := advanceWhile (bytesLeft l) isNumberByte l in
  pushToken l1 (mkToken TokenNumber (slice l start (lx_pos l1)) startLine startCol).

Definition readOperator (l : Lexer) : Lexer :=
  let startLine := lx_line l in
  let startCol := lx_column l in
  let start := lx_pos l in
  let two := slice l (lx_pos l) (lx_pos l + 2) in
  if (lx_pos l + 1 <? lx_len l) && bool_decide (two ∈ twoCharOperators) then
    pushToken (lx_advance (lx_advance l)) (mkToken TokenOperator two startLine startCol)
  else
    let l1 := lx_advance l in
    pushToken l1 (mkToken TokenOperator (slice l start (lx_pos l1)) startLine startCol).

(** One round of the loop of [Tokenize], after the test [l.pos < len]. *)
Inductive LoopStep := Continue (l : Lexer) | Break (l : Lexer).

Definition tokenizeStep (l : Lexer) : LoopStep :=
  let l := skipWhitespaceAndComments l in
  if negb (lx_pos l <? lx_len l) then Break l
  else
    let ch := byteAt l (lx_pos l) in
    if (ch =? ":")%char && (lx_peek l =? ":")%char then
      Continue (lx_advance (lx_advance (addToken l TokenOperator "::")))
    else if (ch =? "034")%char || (ch =? "'")%char then Continue (readString ch l)
    else if (ch =? "#")%char then Continue (skipPreprocessor l)
    else if isLetter ch || (ch =? "_")%char then Continue (readIdentifier l)
    else if isDigit ch then Continue (readNumber l)
    else if isOperator ch then Continue (readOperator l)
    else if isPunctuation ch then
      Continue (lx_advance (addToken l TokenPunctuation (String ch EmptyString)))
    else Continue (lx_advance l).

Fixpoint tokenizeLoop (fuel : nat) (l : Lexer) : Lexer :=
  match fuel with
  | O => l
  | S fuel' =>
    if lx_pos l <? lx_len l then
      match tokenizeStep l with
      | Continue l' => tokenizeLoop fuel' l'
      | Break l' => l'
      end
    else l
  end.

(** [Tokenize], returning the lexer after the final [append] of the
    end-of-file token; the token list is its [lx_tokens]. *)
Definition TokenizeState (input : list ascii) : Lexer :=
  let l := tokenizeLoop (S (length input)) (NewLexer input) in
  pushToken l (mkToken TokenEOF EmptyString (lx_line l) (lx_column l)).

Definition Tokenize (input : string) : list Token :=
  lx_tokens (TokenizeState (list_ascii_of_string input)).

(** ** The class registry (registry.go) *)

(** *** The library functions it calls, on a Unix path *)

Definition isPathSeparator (c : ascii) : bool := (c =? "/")%char.

(** [filepath.Ext]: the suffix that starts at the last dot of the last
    path element, scanning from the end. *)
Fixpoint extScan (reversed suffix : list ascii) : list ascii :=
  match reversed with
  | [] => []
  | c :: rest =>
    if isPathSeparator c then []
    else if (c =? ".")%char then c :: suffix
    else extScan rest (c :: suffix)
  end.

Definition filepath_Ext (path : string) : string :=
  string_of_list_ascii (extScan (rev (list_ascii_of_string path)) []).

(** [strings.ToLower] on the ASCII letters.  Go also maps letters outside
    ASCII; none of them is mapped to a byte of [.h], [.hpp] or [.hxx], so
    the comparisons of [isHeaderFile] come out the same. *)
Definition toLowerByte (c : ascii) : ascii :=
  if inRange 65 90 c then ascii_of_nat (nat_of_ascii c + 32) else c.

Definition strings_ToLower (s : string) : string :=
  string_of_list_ascii (map toLowerByte (list_ascii_of_string s)).

(** [strings.Contains] *)
Fixpoint strings_Contains (s substr : string) : bool :=
  if String.prefix substr s then true
  else match s with
       | EmptyString => false
       | String _ s' => strings_Contains s' substr
       end.

(** [filepath.Base] *)
Fixpoint dropSeparators (reversed : list ascii) : list ascii :=
  match reversed with
  | c :: rest => if isPathSeparator c then dropSeparators rest else reversed
  | [] => []
  end.

Fixpoint lastElement (reversed acc : list ascii) : list ascii :=
  match reversed with
  | c :: rest => if isPathSeparator c then acc else lastElement rest (c :: acc)
  | [] => acc
  end.

Definition filepath_Base (path : string) : string :=
  if String.eqb path EmptyString then "."
  else
    let element := lastElement (dropSeparators (rev (list_ascii_of_string path))) [] in
    match element with
    | [] => "/"
    | _ => string_of_list_ascii element
    end.

Definition isHeaderFile (filename : string) : bool :=
  let ext := strings_ToLower (filepath_Ext filename) in
  String.eqb ext ".h" || String.eqb ext ".hpp" || String.eqb ext ".hxx".

(** *** mergeClassInto *)

(** [methodMap[target.Methods[i].Name] = &target.Methods[i]]: the pointer
    is kept as the index [i] into the slice. *)
Fixpoint indexMethods (i : nat) (methods : list Function) (m : gmap string nat)
    : gmap string nat :=
  match methods with
  | [] => m
  | f :: rest => indexMethods (S i) rest (<[Fn_Name f := i]> m)
  end.

(** The loop over [source.Methods].  [append] writes in place while the
    length is below the capacity [cap] of [target.Methods]; the first
    append beyond it moves the slice to a new array, and from then on the
    pointers of [methodMap] refer to the array left behind: [shared] is
    [false] and [*existing = method] no longer changes [target.Methods]. *)
Definition mergeMethodStep (cap : nat) (methodMap : gmap string nat)
    (st : list Function * bool) (method : Function) : list Function * bool :=
  let '(methods, shared) := st in
  match methodMap !! Fn_Name method with
  | None => (methods ++ [method], shared && (length methods <? cap))
  | Some i =>
    if (0 <? length (Fn_Allocations method)) || (0 <? length (Fn_Deallocations method))
    then ((if shared then <[i := method]> methods else methods), shared)
    else (methods, shared)
  end.

Definition mergeMethods (cap : nat) (targetMethods sourceMethods : list Function)
    : list Function :=
  (foldl (mergeMethodStep cap (indexMethods 0 targetMethods ∅))
         (targetMethods, true) sourceMethods).1.

(** Prefer [source]'s function when it has a body and [target]'s has not. *)
Definition mergeFunction (count : Function → nat) (target source : option Function)
    : option Function :=
  match target, source with
  | None, Some s => Some s
  | Some t, Some s => if (0 <? count s) && (count t =? 0) then Some s else Some t
  | t, None => t
  end.

Definition mergeMembers (target source : Class) : list Member :=
  let targetIsHeader := isHeaderFile (Class_File target) in
  let sourceIsHeader := isHeaderFile (Class_File source) in
  if sourceIsHeader && negb targetIsHeader then
    if 0 <? length (Class_Members source) then Class_Members source
    else Class_Members target
  else if negb sourceIsHeader && targetIsHeader then Class_Members target
  else if (length (Class_Members target) =? 0) && (0 <? length (Class_Members source))
  then Class_Members source
  else Class_Members target.

Definition mergeFile (target source : Class) : string :=
  if negb (strings_Contains (Class_File target) (Class_File source))
     && negb (String.eqb (Class_File target) (Class_File source))
  then Class_File target +:+ ", " +:+ filepath_Base (Class_File source)
  else Class_File target.

(** [mergeClassInto(target, source)], returning the updated target; [cap]
    is the capacity of the slice [target.Methods]. *)
Definition mergeClassInto (cap : nat) (target source : Class) : Class :=
  mkClass (Class_Name target)
          (mergeFile target source)
          (Class_StartLine target) (Class_EndLine target)
          (mergeMembers target source)
          (mergeFunction (fun f => length (Fn_Allocations f))
             (Class_Constructor target) (Class_Constructor source))
          (mergeFunction (fun f => length (Fn_Deallocations f))
             (Class_Destructor target) (Class_Destructor source))
          (mergeMethods cap (Class_Methods target) (Class_Methods source)).

(** ** The parser (parser.go) *)

Record Parser := mkParser {
  p_tokens : list Token;
  p_pos : nat;
  p_file : string;
  p_classes : list Class
}.

(** [Token{Type: TokenEOF}], all other fields zero. *)
Definition zeroToken : Token := mkToken TokenEOF EmptyString 0 0.

(** [p.tokens[i]], read only where the code has checked the bound. *)
Definition tokenAt (p : Parser) (i : nat) : Token :=
  default zeroToken (p_tokens p !! i).

Definition p_len (p : Parser) : nat := length (p_tokens p).

Definition setPos (p : Parser) (pos : nat) : Parser :=
  mkParser (p_tokens p) pos (p_file p) (p_classes p).

Definition valueIs (t : Token) (value : string) : bool :=
  String.eqb (Token_Value t) value.

Definition typeIs (t : Token) (tokenType : TokenType) : bool :=
  bool_decide (Token_Type t = tokenType).

(** *** Token navigation helpers *)

Definition current (p : Parser) : Token :=
  if p_pos p <? p_len p then tokenAt p (p_pos p) else zeroToken.

Definition advance (p : Parser) : Parser :=
  if p_pos p <? p_len p then setPos p (S (p_pos p)) else p.

Definition isAtEnd (p : Parser) : bool :=
  (p_len p <=? p_pos p) || typeIs (tokenAt p (p_pos p)) TokenEOF.

Definition check (p : Parser) (tokenType : TokenType) : bool :=
  negb (isAtEnd p) && typeIs (current p) tokenType.

Definition checkValue (p : Parser) (value : string) : bool :=
  negb (isAtEnd p) && valueIs (current p) value.

Definition checkKeyword (p : Parser) (keyword : string) : bool :=
  check p TokenKeyword && valueIs (current p) keyword.

Definition matchValue (p : Parser) (value : string) : bool * Parser :=
  if checkValue p value then (true, advance p) else (false, p).

Definition matchKeyword (p : Parser) (keyword : string) : bool * Parser :=
  if checkKeyword p keyword then (true, advance p) else (false, p).

(** Every loop of the class parser consumes one token per round or stops,
    so the number of tokens left bounds the number of rounds. *)
Definition tokensLeft (p : Parser) : nat := p_len p - p_pos p.

(** [for !p.isAtEnd() && keep(p) { p.advance() }] *)
Fixpoint skipWhile (fuel : nat) (keep : Parser → bool) (p : Parser) : Parser :=
  match fuel with
  | O => p
  | S fuel' =>
    if negb (isAtEnd p) && keep p then skipWhile fuel' keep (advance p) else p
  end.

(** The balanced skip of a parameter list, entered after its [(]:
    [for !p.isAtEnd() && parenCount > 0 { ...; p.advance() }] *)
Fixpoint skipParens (fuel : nat) (parenCount : nat) (p : Parser) : Parser :=
  match fuel with
  | O => p
  | S fuel' =>
    if negb (isAtEnd p) && (0 <? parenCount) then
      let parenCount' :=
        if checkValue p "(" then S parenCount
        else if checkValue p ")" then parenCount - 1
        else parenCount in
      skipParens fuel' parenCount' (advance p)
    else p
  end.

(** *** Function bodies *)

Definition checkPointerAlias (p : Parser) (targetName : string) (line : Z)
    : option PointerAlias :=
  if p_len p <=? p_pos p + 3 then None
  else if negb (valueIs (tokenAt p (p_pos p + 1)) "=") then None
  else
    let nextTok := tokenAt p (p_pos p + 2) in
    if negb (typeIs nextTok TokenIdent) then None
    else if valueIs nextTok "new" then None
    else
      let afterSource := tokenAt p (p_pos p + 3) in
      if valueIs afterSource ";" || valueIs afterSource "}" || valueIs afterSource ","
      then Some (mkPointerAlias (Token_Value nextTok) targetName line)
      else None.

(** The indices [hi-1, hi-2, ..., lo] of a backwards loop. *)
Definition descending (lo hi : nat) : list nat := rev (seq lo (hi - lo)).

Fixpoint firstSome {A B : Type} (f : A → option B) (l : list A) : option B :=
  match l with
  | [] => None
  | x :: rest => match f x with Some y => Some y | None => firstSome f rest end
  end.

(** [for i := p.pos - 1; i >= 0 && i > p.pos-10; i--], with the inner loop
    [for j := i - 1; j >= 0 && j > i-5; j--]. *)
Definition findAssignmentTarget (p : Parser) : string :=
  default EmptyString
    (firstSome
       (fun i =>
          if valueIs (tokenAt p i) "=" then
            firstSome
              (fun j =>
                 if typeIs (tokenAt p j) TokenIdent
                    && negb (valueIs (tokenAt p j) "this")
                 then Some (Token_Value (tokenAt p j)) else None)
              (descending (i - 4) i)
          else None)
       (descending (p_pos p - 9) (p_pos p))).

(** The loop of [parseAllocation] that runs to the end of the statement. *)
Fixpoint skipStatement (fuel : nat) (isArray : bool) (p : Parser) : bool * Parser :=
  match fuel with
  | O => (isArray, p)
  | S fuel' =>
    if negb (isAtEnd p) && negb (checkValue p ";") && negb (checkValue p "{") then
      skipStatement fuel' (if checkValue p "[" then true else isArray) (advance p)
    else (isArray, p)
  end.

Definition parseAllocation (p : Parser) : option Allocation * Parser :=
  let line := Token_Line (current p) in
  let p := advance p in
  let isArray := checkValue p "[" in
  let varName := findAssignmentTarget p in
  if String.eqb varName EmptyString then (None, p)
  else
    let '(isArray, p) := skipStatement (tokensLeft p) isArray p in
    (Some (mkAllocation varName isArray line), p).

Definition parseDeallocation (p : Parser) : option Deallocation * Parser :=
  let line := Token_Line (current p) in
  let p := advance p in
  let '(isArray, p) :=
    if checkValue p "[" then (true, (matchValue (advance p) "]").2)
    else (false, p) in
  let '(varName, p) :=
    if checkKeyword p "this" then
      let p := advance p in
      if checkValue p "->" then
        let p := advance p in
        if check p TokenIdent then (Token_Value (current p), p) else (EmptyString, p)
      else (EmptyString, p)
    else if check p TokenIdent then (Token_Value (current p), p)
    else (EmptyString, p) in
  if String.eqb varName EmptyString then (None, p)
  else (Some (mkDeallocation varName isArray line), p).

Definition setEndLine (fn : Function) (line : Z) : Function :=
  mkFunction (Fn_Name fn) (Fn_IsDestructor fn) (Fn_StartLine fn) line
    (Fn_Allocations fn) (Fn_Deallocations fn) (Fn_MethodCalls fn) (Fn_Aliases fn).

Definition addAllocation (fn : Function) (a : Allocation) : Function :=
  mkFunction (Fn_Name fn) (Fn_IsDestructor fn) (Fn_StartLine fn) (Fn_EndLine fn)
    (Fn_Allocations fn ++ [a]) (Fn_Deallocations fn) (Fn_MethodCalls fn) (Fn_Aliases fn).

Definition addDeallocation (fn : Function) (d : Deallocation) : Function :=
  mkFunction (Fn_Name fn) (Fn_IsDestructor fn) (Fn_StartLine fn) (Fn_EndLine fn)
    (Fn_Allocations fn) (Fn_Deallocations fn ++ [d]) (Fn_MethodCalls fn) (Fn_Aliases fn).

Definition addMethodCall (fn : Function) (name : string) : Function :=
  mkFunction (Fn_Name fn) (Fn_IsDestructor fn) (Fn_StartLine fn) (Fn_EndLine fn)
    (Fn_Allocations fn) (Fn_Deallocations fn) (Fn_MethodCalls fn ++ [name]) (Fn_Aliases fn).

Definition addAlias (fn : Function) (a : PointerAlias) : Function :=
  mkFunction (Fn_Name fn) (Fn_IsDestructor fn) (Fn_StartLine fn) (Fn_EndLine fn)
    (Fn_Allocations fn) (Fn_Deallocations fn) (Fn_MethodCalls fn) (Fn_Aliases fn ++ [a]).

(** One round of the loop of [parseFunctionBody]. *)
Definition functionBodyStep (braceCount : nat) (fn : Function) (p : Parser)
    : nat * Function * Parser :=
  if checkValue p "{" then (S braceCount, fn, advance p)
  else if checkValue p "}" then
    let braceCount := braceCount - 1 in
    let fn := if braceCount =? 0 then setEndLine fn (Token_Line (current p)) else fn in
    (braceCount, fn, advance p)
  else if checkKeyword p "new" then
    let '(alloc, p) := parseAllocation p in
    (braceCount, match alloc with Some a => addAllocation fn a | None => fn end, p)
  else if checkKeyword p "delete" then
    let '(dealloc, p) := parseDeallocation p in
    (braceCount, match dealloc with Some d => addDeallocation fn d | None => fn end, p)
  else if check p TokenIdent then
    let identName := Token_Value (current p) in
    let identLine := Token_Line (current p) in
    let fn := if (p_pos p + 1 <? p_len p) && valueIs (tokenAt p (p_pos p + 1)) "("
              then addMethodCall fn identName else fn in
    let fn := match checkPointerAlias p identName identLine with
              | Some alias => addAlias fn alias
              | None => fn
              end in
    (braceCount, fn, advance p)
  else (braceCount, fn, advance p).

Fixpoint functionBodyLoop (fuel : nat) (braceCount : nat) (fn : Function) (p : Parser)
    : Function * Parser :=
  match fuel with
  | O => (fn, p)
  | S fuel' =>
    if negb (isAtEnd p) && (0 <? braceCount) then
      let '(braceCount, fn, p) := functionBodyStep braceCount fn p in
      functionBodyLoop fuel' braceCount fn p
    else (fn, p)
  end.

Definition parseFunctionBody (fn : Function) (p : Parser) : Function * Parser :=
  let '(matched, p) := matchValue p "{" in
  if negb matched then (fn, p)
  else functionBodyLoop (tokensLeft p) 1 fn p.

(** [&Function{Name: ..., IsDestructor: ..., StartLine: ...}] *)
Definition newFunction (name : string) (isDestructor : bool) (startLine : Z) : Function :=
  mkFunction name isDestructor startLine 0 [] [] [] [].

(** *** Destructor, constructor, member, method *)

Definition isDestructorStart (p : Parser) (className : string) : bool :=
  (checkValue p "~"
   && (p_pos p + 1 <? p_len p) && valueIs (tokenAt p (p_pos p + 1)) className)
  || (checkKeyword p "virtual"
      && (p_pos p + 1 <? p_len p) && valueIs (tokenAt p (p_pos p + 1)) "~").

Definition isConstructorStart (p : Parser) (className : string) : bool :=
  check p TokenIdent && valueIs (current p) className
  && (p_pos p + 1 <? p_len p) && valueIs (tokenAt p (p_pos p + 1)) "(".

Definition parseDestructor (p : Parser) (className : string)
    : option Function * Parser :=
  let startLine := Token_Line (current p) in
  let p := if checkKeyword p "virtual" then advance p else p in
  let p := (matchValue p "~").2 in
  let p := advance p in
  let '(matched, p) := matchValue p "(" in
  if negb matched then (None, p)
  else
    let p := skipWhile (tokensLeft p) (fun q => negb (checkValue q ")")) p in
    let p := (matchValue p ")").2 in
    let fn := newFunction ("~" +:+ className) true startLine in
    if checkValue p ";" then (Some fn, advance p)
    else if checkValue p "{" then
      let '(fn, p) := parseFunctionBody fn p in (Some fn, p)
    else (Some fn, p).

Definition skipInitializerList (p : Parser) : Parser :=
  if checkValue p ":" then
    let p := advance p in
    skipWhile (tokensLeft p)
      (fun q => negb (checkValue q "{") && negb (checkValue q ";")) p
  else p.

Definition parseConstructor (p : Parser) (className : string)
    : option Function * Parser :=
  let startLine := Token_Line (current p) in
  let p := advance p in
  let '(matched, p) := matchValue p "(" in
  if negb matched then (None, p)
  else
    let p := skipWhile (tokensLeft p) (fun q => negb (checkValue q ")")) p in
    let p := (matchValue p ")").2 in
    let fn := newFunction className false startLine in
    let p := skipInitializerList p in
    if checkValue p ";" then (Some fn, advance p)
    else if checkValue p "{" then
      let '(fn, p) := parseFunctionBody fn p in (Some fn, p)
    else (Some fn, p).

(** The look-ahead of [isMemberDeclaration] over a window of tokens. *)
Fixpoint memberWindow (window : list Token) (hasPointer hasIdent : bool) : bool :=
  match window with
  | [] => hasPointer && hasIdent
  | tok :: rest =>
    if valueIs tok ";" then hasPointer && hasIdent
    else if valueIs tok "(" || valueIs tok "{" then false
    else memberWindow rest (if valueIs tok "*" then true else hasPointer)
                           (if typeIs tok TokenIdent then true else hasIdent)
  end.

Definition isMemberDeclaration (p : Parser) : bool :=
  memberWindow (take 10 (drop (p_pos p) (p_tokens p))) false false.

(** The loop of [parseMember] over the collected tokens. *)
Fixpoint memberScan (tokens : list Token) (isPointer isArray : bool)
    (varName : string) (typeTokens : list string)
    : bool * bool * string * list string :=
  match tokens with
  | [] => (isPointer, isArray, varName, typeTokens)
  | tok :: rest =>
    if valueIs tok "*" then memberScan rest true isArray varName typeTokens
    else if valueIs tok "[" then memberScan rest isPointer true varName typeTokens
    else if typeIs tok TokenIdent then
      match rest with
      | [] => memberScan rest isPointer isArray (Token_Value tok) typeTokens
      | next :: _ =>
        if valueIs next "[" || valueIs next "=" then
          memberScan rest isPointer isArray (Token_Value tok) typeTokens
        else memberScan rest isPointer isArray varName (typeTokens ++ [Token_Value tok])
      end
    else memberScan rest isPointer isArray varName typeTokens
  end.

(** [strings.Join(elems, sep)] *)
Fixpoint strings_Join (elems : list string) (sep : string) : string :=
  match elems with
  | [] => EmptyString
  | [e] => e
  | e :: rest => e +:+ sep +:+ strings_Join rest sep
  end.

Definition parseMember (p : Parser) : option Member * Parser :=
  let startLine := Token_Line (current p) in
  let start := p_pos p in
  let p := skipWhile (tokensLeft p) (fun q => negb (checkValue q ";")) p in
  let tokens := take (p_pos p - start) (drop start (p_tokens p)) in
  let p := (matchValue p ";").2 in
  if length tokens <? 2 then (None, p)
  else
    let '(isPointer, isArray, varName, typeTokens) :=
      memberScan tokens false false EmptyString [] in
    if negb isPointer || String.eqb varName EmptyString then (None, p)
    else (Some (mkMember varName (strings_Join typeTokens " ") isPointer isArray
                         startLine), p).

(** The look-ahead of [isFunctionStart] over a window of tokens. *)
Fixpoint functionWindow (window : list Token) : bool :=
  match window with
  | [] => false
  | tok :: rest =>
    if valueIs tok ";" then false
    else if valueIs tok "(" then true
    else if valueIs tok "{" || valueIs tok "}" then false
    else functionWindow rest
  end.

Definition isFunctionStart (p : Parser) : bool :=
  functionWindow (take 15 (drop (p_pos p) (p_tokens p))).

(** [for p.checkKeyword("const") || p.check(TokenIdent) { if ... break; p.advance() }] *)
Fixpoint skipQualifiers (fuel : nat) (p : Parser) : Parser :=
  match fuel with
  | O => p
  | S fuel' =>
    if checkKeyword p "const" || check p TokenIdent then
      if checkValue p "{" || checkValue p ";" then p
      else skipQualifiers fuel' (advance p)
    else p
  end.

Definition parseMethod (p : Parser) : option Function * Parser :=
  let startLine := Token_Line (current p) in
  let p := skipWhile (tokensLeft p)
             (fun q => negb (checkValue q "(") && negb (checkValue q ";")
                       && negb (checkValue q "{")) p in
  if checkValue p ";" then (None, advance p)
  else
    let funcName := if 0 <? p_pos p then Token_Value (tokenAt p (p_pos p - 1)) else EmptyString in
    let '(matched, p) := matchValue p "(" in
    if negb matched then (None, p)
    else
      let p := skipParens (tokensLeft p) 1 p in
      let fn := newFunction funcName false startLine in
      let p := skipQualifiers (tokensLeft p) p in
      if checkValue p ";" then (Some fn, advance p)
      else if checkValue p "{" then
        let '(fn, p) := parseFunctionBody fn p in (Some fn, p)
      else (Some fn, p).

(** *** Classes *)

Definition setEndLineC (c : Class) (line : Z) : Class :=
  mkClass (Class_Name c) (Class_File c) (Class_StartLine c) line (Class_Members c)
    (Class_Constructor c) (Class_Destructor c) (Class_Methods c).

Definition setDestructor (c : Class) (fn : Function) : Class :=
  mkClass (Class_Name c) (Class_File c) (Class_StartLine c) (Class_EndLine c)
    (Class_Members c) (Class_Constructor c) (Some fn) (Class_Methods c).

Definition setConstructor (c : Class) (fn : Function) : Class :=
  mkClass (Class_Name c) (Class_File c) (Class_StartLine c) (Class_EndLine c)
    (Class_Members c) (Some fn) (Class_Destructor c) (Class_Methods c).

Definition addMember (c : Class) (m : Member) : Class :=
  mkClass (Class_Name c) (Class_File c) (Class_StartLine c) (Class_EndLine c)
    (Class_Members c ++ [m]) (Class_Constructor c) (Class_Destructor c) (Class_Methods c).

Definition addMethod (c : Class) (fn : Function) : Class :=
  mkClass (Class_Name c) (Class_File c) (Class_StartLine c) (Class_EndLine c)
    (Class_Members c) (Class_Constructor c) (Class_Destructor c) (Class_Methods c ++ [fn]).

(** One round of the loop over the class body in [parseClass]. *)
Definition classBodyStep (className : string) (braceCount : nat) (class : Class)
    (p : Parser) : nat * Class * Parser :=
  if checkValue p "{" then (S braceCount, class, advance p)
  else if checkValue p "}" then
    let braceCount := braceCount - 1 in
    let class := if braceCount =? 0 then setEndLineC class (Token_Line (current p))
                 else class in
    (braceCount, class, advance p)
  else if checkKeyword p "public" || checkKeyword p "private"
          || checkKeyword p "protected" then
    (braceCount, class, (matchValue (advance p) ":").2)
  else if isDestructorStart p className then
    let '(fn, p) := parseDestructor p className in
    (braceCount, match fn with Some f => setDestructor class f | None => class end, p)
  else if isConstructorStart p className then
    let '(fn, p) := parseConstructor p className in
    (braceCount, match fn with Some f => setConstructor class f | None => class end, p)
  else if isMemberDeclaration p then
    let '(member, p) := parseMember p in
    (braceCount, match member with Some m => addMember class m | None => class end, p)
  else if isFunctionStart p then
    let '(fn, p) := parseMethod p in
    (braceCount, match fn with Some f => addMethod class f | None => class end, p)
  else (braceCount, class, advance p).

Fixpoint classBodyLoop (fuel : nat) (className : string) (braceCount : nat)
    (class : Class) (p : Parser) : Class * Parser :=
  match fuel with
  | O => (class, p)
  | S fuel' =>
    if negb (isAtEnd p) && (0 <? braceCount) then
      let '(braceCount, class, p) := classBodyStep className braceCount class p in
      classBodyLoop fuel' className braceCount class p
    else (class, p)
  end.

Definition parseClass (p : Parser) : option Class * Parser :=
  if negb (check p TokenIdent) then (None, p)
  else
    let className := Token_Value (current p) in
    let startLine := Token_Line (current p) in
    let p := advance p in
    let p := skipWhile (tokensLeft p)
               (fun q => negb (checkValue q "{") && negb (checkValue q ";")) p in
    if checkValue p ";" then (None, p)
    else
      let '(matched, p) := matchValue p "{" in
      if negb matched then (None, p)
      else
        let class := mkClass className (p_file p) startLine 0 [] None None [] in
        let '(class, p) := classBodyLoop (tokensLeft p) className 1 class p in
        (Some class, p).

(** *** Out-of-class definitions and the top level *)

(** The inner loop of [isOutOfClassMethod], over the tokens after [::]. *)
Fixpoint scopeWindow (window : list Token) : option bool :=
  match window with
  | [] => None
  | tok :: rest =>
    if valueIs tok "(" then Some true
    else if valueIs tok ";" then Some false
    else scopeWindow rest
  end.

(** The outer loop: [n] rounds are left, [window] starts at the token of
    the round. *)
Fixpoint outOfClassWindow (n : nat) (window : list Token) : bool :=
  match n, window with
  | S n', tok :: rest =>
    let continue :=
      if valueIs tok ";" || valueIs tok "{" || valueIs tok "}" then false
      else outOfClassWindow n' rest in
    if valueIs tok "::" then
      match scopeWindow (take 4 rest) with
      | Some answer => answer
      | None => continue
      end
    else continue
  | _, _ => false
  end.

Definition isOutOfClassMethod (p : Parser) : bool :=
  outOfClassWindow 10 (drop (p_pos p) (p_tokens p)).

(** The first loop of [parseOutOfClassMethod]: the last identifier before
    [::] is the class name. *)
Fixpoint scanClassName (fuel : nat) (className : string) (p : Parser)
    : string * Parser :=
  match fuel with
  | O => (className, p)
  | S fuel' =>
    if negb (isAtEnd p) && negb (checkValue p "::") then
      scanClassName fuel'
        (if check p TokenIdent then Token_Value (current p) else className)
        (advance p)
    else (className, p)
  end.

Definition setClasses (p : Parser) (classes : list Class) : Parser :=
  mkParser (p_tokens p) (p_pos p) (p_file p) classes.

(** [// Attach method to class], on the class record itself. *)
Definition attachMethod (className methodName : string) (isDestructor : bool)
    (fn : Function) (class : Class) : Class :=
  if isDestructor then setDestructor class fn
  else if String.eqb methodName className then setConstructor class fn
  else addMethod class fn.

(** The first class of that name is the target; none: a placeholder class
    is appended and becomes the target. *)
Fixpoint attachToFirst (className : string) (attach : Class → Class)
    (classes : list Class) : option (list Class) :=
  match classes with
  | [] => None
  | c :: rest =>
    if String.eqb (Class_Name c) className then Some (attach c :: rest)
    else match attachToFirst className attach rest with
         | Some rest' => Some (c :: rest')
         | None => None
         end
  end.

Definition parseOutOfClassMethod (p : Parser) : Parser :=
  let startLine := Token_Line (current p) in
  let '(className, p) := scanClassName (tokensLeft p) EmptyString p in
  if String.eqb className EmptyString then p
  else
    let '(matched, p) := matchValue p "::" in
    if negb matched then p
    else
      let isDestructor := checkValue p "~" in
      let p := if isDestructor then advance p else p in
      if negb (check p TokenIdent) then p
      else
        let methodName := Token_Value (current p) in
        let p := advance p in
        let '(matched, p) := matchValue p "(" in
        if negb matched then p
        else
          let p := skipParens (tokensLeft p) 1 p in
          let p := if checkValue p ":" && negb isDestructor
                   then skipInitializerList p else p in
          if negb (checkValue p "{") then p
          else
            let fn := newFunction methodName isDestructor startLine in
            let '(fn, p) := parseFunctionBody fn p in
            let attach := attachMethod className methodName isDestructor fn in
            match attachToFirst className attach (p_classes p) with
            | Some classes => setClasses p classes
            | None =>
              setClasses p (p_classes p
                            ++ [attach (mkClass className (p_file p) 0 0 [] None None [])])
            end.

(** One round of the loop of [parse]. *)
Definition parseStep (p : Parser) : Parser :=
  let '(isClass, p1) := matchKeyword p "class" in
  let '(isClass, p1) := if isClass then (true, p1) else matchKeyword p "struct" in
  if isClass then
    let '(class, p2) := parseClass p1 in
    match class with
    | Some c => setClasses p2 (p_classes p2 ++ [c])
    | None => p2
    end
  else if isOutOfClassMethod p then parseOutOfClassMethod p
  else advance p.

(** The loop of [parse].  A round may leave the position where it was
    (an input that starts a statement with [::]), so this loop, unlike the
    others, is not bounded by the tokens left: [None] is returned when the
    fuel is used up before the end of the tokens is reached. *)
Fixpoint parseLoop (fuel : nat) (p : Parser) : option (list Class) :=
  if isAtEnd p then Some (p_classes p)
  else match fuel with
       | O => None
       | S fuel' => parseLoop fuel' (parseStep p)
       end.

(** [ParseFile] after the file has been read: lex, then parse. *)
Definition parseSource (fuel : nat) (file : string) (content : string)
    : option (list Class) :=
  parseLoop fuel (mkParser (Tokenize content) 0 file []).

(** ** The entry points of the analyzer *)

(** [type Analyzer struct { classes []parser.Class }] *)
Record Analyzer := mkAnalyzer { an_classes : list Class }.

Definition NewAnalyzer : Analyzer := mkAnalyzer [].

(** [AddClasses] of the analyzer *)
Definition Analyzer_AddClasses (a : Analyzer) (classes : list Class) : Analyzer :=
  mkAnalyzer (an_classes a ++ classes).

(** [Analyze], every class analysed with the iteration order that
    [analyzeClass] fixes. *)
Definition Analyze (a : Analyzer) : list Leak :=
  foldl (fun leaks class => leaks ++ analyzeClass class) [] (an_classes a).

Definition AnalyzeClasses (classes : list Class) : list Leak :=
  Analyze (Analyzer_AddClasses NewAnalyzer classes).

(** Every list a run of [Analyze] may return over [classes]: the leaks of
    the classes one after the other, each in one of the orders its maps
    may be visited in. *)
Inductive AnalyzeOutput : list Class → list Leak → Prop :=
| AnalyzeOutput_nil : AnalyzeOutput [] []
| AnalyzeOutput_cons class classes classLeaks leaks :
    analyzeClassOutput class classLeaks →
    AnalyzeOutput classes leaks →
    AnalyzeOutput (class :: classes) (classLeaks ++ leaks).

(** ** The class count of the command line (main.go) *)

(** The inner loop leaves at the first pointer member. *)
Definition countClassesWithPointers (classes : list Class) : nat :=
  foldl (fun count c =>
           if existsb Member_IsPointer (Class_Members c) then S count else count)
        0 classes.

(** ** The file scanner (scanner.go) *)

Record Scanner := mkScanner { Excludes : list string }.

Definition NewScanner (excludes : list string) : Scanner := mkScanner excludes.

(** [strings.HasSuffix] *)
Definition strings_HasSuffix (s suffix : string) : bool :=
  (String.length suffix <=? String.length s)
  && String.eqb (substring (String.length s - String.length suffix)
                           (String.length suffix) s) suffix.

(** [isCppFile]; the receiver is not used.  As in [isHeaderFile], the
    letters [strings.ToLower] maps outside ASCII never yield one of the
    six extensions. *)
Definition isCppFile (path : string) : bool :=
  let ext := strings_ToLower (filepath_Ext path) in
  String.eqb ext ".cpp" || String.eqb ext ".h" || String.eqb ext ".hpp"
  || String.eqb ext ".cc" || String.eqb ext ".cxx" || String.eqb ext ".hxx".

(** One round of the loop of [shouldExclude]; [filepath.Separator] is the
    slash. *)
Definition excludedBy (path exclude : string) : bool :=
  String.eqb (filepath_Base path) exclude
  || strings_Contains path ("/" +:+ exclude +:+ "/")
  || strings_HasSuffix path ("/" +:+ exclude).

Definition shouldExclude (s : Scanner) (path : string) : bool :=
  existsb (excludedBy path) (Excludes s).

(** [ScanPaths].  The two calls that read the file system are arguments:
    [scanPath path] is what [s.ScanPath(path)] returns ([None] for an
    error), [abs f] what [filepath.Abs(f)] returns.  The state of the loop
    is the slice [allFiles] and the set [seen]. *)
Definition addUnique (abs : string → string) (st : list string * gset string)
    (f : string) : list string * gset string :=
  let absPath := abs f in
  if decide (absPath ∈ st.2) then st
  else (st.1 ++ [absPath], {[ absPath ]} ∪ st.2).

Fixpoint scanPathsLoop (scanPath : string → option (list string))
    (abs : string → string) (paths : list string)
    (st : list string * gset string) : option (list string) :=
  match paths with
  | [] => Some st.1
  | path :: rest =>
    match scanPath path with
    | None => None
    | Some files => scanPathsLoop scanPath abs rest (foldl (addUnique abs) st files)
    end
  end.

Definition ScanPaths (scanPath : string → option (list string))
    (abs : string → string) (paths : list string) : option (list string) :=
  scanPathsLoop scanPath abs paths ([], ∅).

(** ** The registry of classes (registry.go) *)

(** [classesByName] holds pointers into the slices handed to [AddClasses];
    nothing is ever written through them, so the classes themselves stand
    for the pointers. *)
Record ClassRegistry := mkClassRegistry {
  classesByName : gmap string (list Class);
  allClasses : list Class
}.

Definition NewClassRegistry : ClassRegistry := mkClassRegistry ∅ [].

(** [AddClasses] of the registry *)
Definition ClassRegistry_AddClasses (r : ClassRegistry) (classes : list Class)
    : ClassRegistry :=
  foldl (fun r class =>
           mkClassRegistry
             (<[Class_Name class :=
                  default [] (classesByName r !! Class_Name class) ++ [class]]>
                (classesByName r))
             (allClasses r ++ [class]))
        r classes.

(** The first loop of [MergeClasses].  The capacity of the slice
    [existing.Methods] is decided by the Go runtime; [capAt i] is that
    capacity when the class at index [i] of [allClasses] is merged.  The
    classes of the registry do not share the arrays of their [Methods], as
    is the case for the classes that [ParseFile] returns. *)
Definition mergeStep (cap : nat) (merged : gmap string Class) (class : Class)
    : gmap string Class :=
  match merged !! Class_Name class with
  | None => <[Class_Name class := class]> merged
  | Some existing =>
      <[Class_Name class := mergeClassInto cap existing class]> merged
  end.

Fixpoint mergeLoop (capAt : nat → nat) (i : nat) (merged : gmap string Class)
    (classes : list Class) : gmap string Class :=
  match classes with
  | [] => merged
  | class :: rest => mergeLoop capAt (S i) (mergeStep (capAt i) merged class) rest
  end.

(** [MergeClasses], the classes of the map in the canonical order of its
    keys; [MergeClassesOutput] describes every slice a run may return,
    whatever the capacities and whatever the order in which the map is
    read. *)
Definition MergeClassesWith (capAt : nat → nat) (r : ClassRegistry) : list Class :=
  (map_to_list (mergeLoop capAt 0 ∅ (allClasses r))).*2.

Definition MergeClassesOutput (r : ClassRegistry) (result : list Class) : Prop :=
  ∃ capAt, result ≡ₚ MergeClassesWith capAt r.

(** ** Vocabulary of the specification, defined on the class record *)

(** Constructor, destructor and methods: the functions [buildAliasMap]
    reads aliases from. *)
Definition allFunctions (class : Class) : list Function :=
  option_list (Class_Constructor class)
  ++ option_list (Class_Destructor class)
  ++ Class_Methods class.

(** One alias record joins its two names, read in either direction. *)
Definition aliasJoins (alias : PointerAlias) (x y : string) : Prop :=
  (Alias_SourceVar alias = x ∧ Alias_TargetVar alias = y) ∨
  (Alias_SourceVar alias = y ∧ Alias_TargetVar alias = x).

(** One alias edge of the class. *)
Definition aliasEdge (class : Class) (x y : string) : Prop :=
  ∃ fn alias, fn ∈ allFunctions class ∧ alias ∈ Fn_Aliases fn ∧ aliasJoins alias x y.

(** Reachability in the undirected alias relation. *)
Definition aliasReachable (class : Class) : string → string → Prop :=
  rtc (aliasEdge class).

(** [chain mm k f g]: [g] is reached from [f] through [k] invocation edges,
    an edge being an invoked name that the method index resolves. *)
Inductive chain (methodMap : gmap string Function) : nat → Function → Function → Prop :=
| chain_O f : chain methodMap 0 f f
| chain_S k f g h name :
    chain methodMap k f g →
    name ∈ Fn_MethodCalls g →
    methodMap !! name = Some h →
    chain methodMap (S k) f h.

(** The functions at the end of a chain of exactly [k] edges. *)
Definition callees (methodMap : gmap string Function) (f : Function) : list Function :=
  omap (fun name => methodMap !! name) (Fn_MethodCalls f).

Fixpoint level (methodMap : gmap string Function) (root : Function) (k : nat)
    : list Function :=
  match k with
  | O => [root]
  | S k' => flat_map (callees methodMap) (level methodMap root k')
  end.

(** [f] has a [delete] of [v] in its body. *)
Definition deletes (f : Function) (v : string) : Prop :=
  ∃ d, d ∈ Fn_Deallocations f ∧ Dealloc_VarName d = v.

(** What the ghost log of a traversal says: the names it processed, the
    variables deleted in the functions it processed. *)
Definition logNames (log : list (Function * nat)) : list string :=
  (fun e => Fn_Name e.1) <$> log.

Definition logDeletes (log : list (Function * nat)) (k : string) : Prop :=
  ∃ e, e ∈ log ∧ deletes e.1 k.

(** The deallocations of the logged functions, recorded in log order on
    top of [result]. *)
Definition replayLog (result : gmap string Deallocation)
    (log : list (Function * nat)) : gmap string Deallocation :=
  foldl (fun r e => addDeallocations r (Fn_Deallocations e.1)) result log.

(** Every method invoked by [g] is in the visited set of [st]. *)
Definition allCalleesVisited (methodMap : gmap string Function)
    (g : Function) (st : CollectState) : Prop :=
  ∀ name h, name ∈ Fn_MethodCalls g → methodMap !! name = Some h →
            Fn_Name h ∈ cs_visited st.

(** The functions the collection started by [analyzeClass] processes. *)
Definition visitedFunctions (class : Class) : list Function :=
  match Class_Destructor class with
  | Some dtor =>
      (collectLog MaxMethodDepth (Some dtor) (buildMethodMap class)
                  (mkCollectState ∅ ∅)).2.*1
  | None => []
  end.

(** The leaks of Rule 1 about variable [v]. *)
Definition rule1Reasons : list string :=
  [reasonNotDeleted; reasonArrayAsScalar; reasonScalarAsArray].

Definition isRule1LeakFor (v : string) (l : Leak) : Prop :=
  Leak_VarName l = v ∧ Leak_Reason l ∈ rule1Reasons.

#[global] Instance isRule1LeakFor_dec v l : Decision (isRule1LeakFor v l).
Proof. unfold isRule1LeakFor. apply _. Defined.

(** [callPath mm f path g]: [path] lists the functions behind [f] on a
    chain of invocation edges from [f] to [g]. *)
Fixpoint callPath (methodMap : gmap string Function) (f : Function)
    (path : list Function) (g : Function) : Prop :=
  match path with
  | [] => g = f
  | h :: rest =>
      (∃ name, name ∈ Fn_MethodCalls f ∧ methodMap !! name = Some h) ∧
      callPath methodMap h rest g
  end.

(** A chain of [k] invocation edges through functions of pairwise
    different names: the shape of the call stack of the traversal, which
    never enters a name twice. *)
Definition simpleChain (methodMap : gmap string Function) (k : nat)
    (f g : Function) : Prop :=
  ∃ path, length path = k ∧ callPath methodMap f path g ∧
          NoDup (Fn_Name <$> f :: path).

(** The ends of the simple chains of [k] edges from [f] that avoid the
    names [seen]. *)
Fixpoint simpleEnds (methodMap : gmap string Function) (k : nat)
    (seen : list string) (f : Function) : list Function :=
  if bool_decide (Fn_Name f ∈ seen) then []
  else match k with
       | O => [f]
       | S k' => flat_map (simpleEnds methodMap k' (Fn_Name f :: seen))
                          (callees methodMap f)
       end.

(** The log of the collection started by [analyzeClass]: [enteredWith
    class g b] says that the body of [g] was processed, entered with depth
    budget [b]. *)
Definition enteredWith (class : Class) (g : Function) (b : nat) : Prop :=
  (g, b) ∈ (collectLog MaxMethodDepth (Class_Destructor class)
              (buildMethodMap class) (mkCollectState ∅ ∅)).2.

(** A chain of invocation edges from [root] along which every caller is
    entered with budget to spare: no function on it is also the end of a
    simple chain of exactly 4 edges. *)
Inductive roomyChain (methodMap : gmap string Function) (root : Function)
    : Function → Prop :=
| roomy_root : roomyChain methodMap root root
| roomy_step g name h :
    roomyChain methodMap root g →
    name ∈ Fn_MethodCalls g →
    methodMap !! name = Some h →
    ¬ simpleChain methodMap 4 root h →
    roomyChain methodMap root h.

(** [m] is the destructor itself or is invoked by a function on a roomy
    chain from the destructor. *)
Definition reachedWithBudget (methodMap : gmap string Function)
    (dtor m : Function) : Prop :=
  m = dtor ∨
  ∃ g name, roomyChain methodMap dtor g ∧
            name ∈ Fn_MethodCalls g ∧ methodMap !! name = Some m.

(** No output of the analyzer reports [v] as allocated but not deleted. *)
Definition noMissingLeak (class : Class) (v : string) : Prop :=
  ∀ leaks l, analyzeClassOutput class leaks → l ∈ leaks →
             ¬ (Leak_VarName l = v ∧ Leak_Reason l = reasonNotDeleted).

(** [v] names a member declared with a [*]. *)
Definition isPointerMember (class : Class) (v : string) : Prop :=
  ∃ m, m ∈ Class_Members class ∧ Member_IsPointer m = true ∧ Member_Name m = v.

(** [v] is assigned a [new] in the constructor. *)
Definition allocatedInConstructor (class : Class) (v : string) : Prop :=
  ∃ ctor alloc, Class_Constructor class = Some ctor ∧
                alloc ∈ Fn_Allocations ctor ∧ Alloc_VarName alloc = v.

(** [method] holds a [delete] of the variable of [alloc] on a line
    strictly before the line of [alloc]. *)
Definition deletedBefore (method : Function) (alloc : Allocation) : Prop :=
  ∃ d, d ∈ Fn_Deallocations method ∧
       Dealloc_VarName d = Alloc_VarName alloc ∧
       (Dealloc_Line d < Alloc_Line alloc)%Z.

(** The three conditions of Rule 2, in the words of the specification. *)
Definition rule2Condition (class : Class) (method : Function) (alloc : Allocation)
    : Prop :=
  isPointerMember class (Alloc_VarName alloc) ∧
  ¬ deletedBefore method alloc ∧
  allocatedInConstructor class (Alloc_VarName alloc).

Definition rule2Leak (class : Class) (method : Function) (alloc : Allocation) : Leak :=
  mkLeak (Class_File class) (Alloc_Line alloc) (Class_Name class)
         (Alloc_VarName alloc) (reasonReassigned (Fn_Name method)) "warning".

Definition rule3Leak (class : Class) (alias : PointerAlias) : Leak :=
  mkLeak (Class_File class) (Alias_Line alias) (Class_Name class)
         (Alias_SourceVar alias) (reasonDoubleFree (Alias_TargetVar alias)) "error".

(** The tokens at the parser's position start with [ts]. *)
Definition lookingAt (p : Parser) (ts : list Token) : Prop :=
  take (length ts) (drop (p_pos p) (p_tokens p)) = ts.

(** The tokens of a destructor declaration without a body, [~C();], as
    the lexer produces them. *)
Definition destructorDeclaration (className : string)
    (l1 c1 l2 c2 l3 c3 l4 c4 l5 c5 : Z) : list Token :=
  [ mkToken TokenOperator "~" l1 c1;
    mkToken TokenIdent className l2 c2;
    mkToken TokenPunctuation "(" l3 c3;
    mkToken TokenPunctuation ")" l4 c4;
    mkToken TokenPunctuation ";" l5 c5 ].

(** The same behind the keyword [virtual]. *)
Definition virtualDestructorDeclaration (className : string)
    (l0 c0 l1 c1 l2 c2 l3 c3 l4 c4 l5 c5 : Z) : list Token :=
  mkToken TokenKeyword "virtual" l0 c0
  :: destructorDeclaration className l1 c1 l2 c2 l3 c3 l4 c4 l5 c5.

(** [l'] is a later state of the lexer [l] on the same input. *)
Definition lexerAhead (l l' : Lexer) : Prop :=
  lx_input l' = lx_input l ∧ bytesLeft l' ≤ bytesLeft l.

(** [l'] is strictly later than [l]: at least one byte was consumed. *)
Definition lexerMoved (l l' : Lexer) : Prop :=
  lx_input l' = lx_input l ∧ bytesLeft l' < bytesLeft l.

(** An input made of a block comment that is never closed: the opener, a
    body without any star, and a last byte. *)
Definition unterminatedComment (body : list ascii) (last : ascii) : list ascii :=
  "/"%char :: "*"%char :: body ++ [last].

(** The parser of [parseClass] where the loop over the class body starts,
    behind the opening brace, and the class record the loop starts from. *)
Definition classBodyEntry (q : Parser) : Parser :=
  let p := advance q in
  let p := skipWhile (tokensLeft p)
             (fun q' => negb (checkValue q' "{") && negb (checkValue q' ";")) p in
  (matchValue p "{").2.

Definition emptyClass (q : Parser) : Class :=
  mkClass (Token_Value (current q)) (p_file (classBodyEntry q))
          (Token_Line (current q)) 0 [] None None [].

(** The state of the loop over the class body after [n] rounds; a loop
    that has stopped stays where it is. *)
Definition classBodyRunning (s : nat * Class * Parser) : bool :=
  negb (isAtEnd s.2) && (0 <? s.1.1).

Fixpoint classBodySteps (n : nat) (className : string) (s : nat * Class * Parser)
    : nat * Class * Parser :=
  match n with
  | O => s
  | S n' =>
    if classBodyRunning s
    then classBodySteps n' className (classBodyStep className s.1.1 s.1.2 s.2)
    else s
  end.

(** No [~] among the tokens from the position of the parser on. *)
Definition noTildeAhead (p : Parser) : Prop :=
  Forall (fun t => Token_Value t ≠ "~") (drop (p_pos p) (p_tokens p)).

(** The loop over the class body stands at no destructor start in a round
    after the [n]-th. *)
Definition noLaterDestructor (n : nat) (className : string)
    (s : nat * Class * Parser) : Prop :=
  ∀ m, n < m → classBodyRunning (classBodySteps m className s) = true →
       isDestructorStart (classBodySteps m className s).2 className = false.

(** The class at index [idx] of the parser's list is named [className]
    and has [fn] as its destructor, and no [~] is ahead. *)
Definition keepsDestructor (idx : nat) (className : string) (fn : Function)
    (p : Parser) : Prop :=
  noTildeAhead p ∧
  ∃ c, p_classes p !! idx = Some c ∧ Class_Name c = className ∧
       Class_Destructor c = Some fn.

(** ** Vocabulary of the further properties *)

(** The reasons that go with the severity [error], and those that go with
    [warning]. *)
Definition errorReason (class : Class) (reason : string) : Prop :=
  reason = reasonNotDeleted ∨ reason = reasonArrayAsScalar ∨
  reason = reasonNoDestructor ∨
  ∃ method alias, method ∈ Class_Methods class ∧ alias ∈ Fn_Aliases method ∧
                  reason = reasonDoubleFree (Alias_TargetVar alias).

Definition warningReason (class : Class) (reason : string) : Prop :=
  reason = reasonScalarAsArray ∨
  ∃ method, method ∈ Class_Methods class ∧ reason = reasonReassigned (Fn_Name method).

(** What the loop over [source.Methods] keeps true of [target.Methods]. *)
Definition methodsMerged (targetMethods seen merged : list Function) : Prop :=
  Fn_Name <$> take (length targetMethods) merged = Fn_Name <$> targetMethods ∧
  drop (length targetMethods) merged
  = filter (fun f => Fn_Name f ∉ Fn_Name <$> targetMethods) seen ∧
  ∀ i f, i < length targetMethods → merged !! i = Some f →
         targetMethods !! i = Some f ∨
         (f ∈ seen ∧ (Fn_Allocations f ≠ [] ∨ Fn_Deallocations f ≠ [])).

(** [o] is a function that records an allocation, a deallocation. *)
Definition recordsAllocation (o : option Function) : Prop :=
  ∃ f, o = Some f ∧ Fn_Allocations f ≠ [].

Definition recordsDeallocation (o : option Function) : Prop :=
  ∃ f, o = Some f ∧ Fn_Deallocations f ≠ [].

(** What the first loop of [MergeClasses] keeps true of the map [merged]
    once it has read the classes [seen]: the map has one class for every
    name that occurs in [seen], and that class has the name and the lines
    of the first class of [seen] with the name. *)
Definition mergedFrom (seen : list Class) (merged : gmap string Class) : Prop :=
  ∀ name,
    match list_find (fun c => Class_Name c = name) seen with
    | Some (_, first) =>
        ∃ c, merged !! name = Some c ∧ Class_Name c = name ∧
             Class_StartLine c = Class_StartLine first ∧
             Class_EndLine c = Class_EndLine first
    | None => merged !! name = None
    end.

(** The elements of a path, the pieces between its slashes. *)
Fixpoint pathElements (path : string) : list string :=
  match path with
  | EmptyString => [EmptyString]
  | String c rest =>
    if isPathSeparator c then EmptyString :: pathElements rest
    else match pathElements rest with
         | first :: others => String c first :: others
         | [] => [String c EmptyString]
         end
  end.

(** A name without a slash. *)
Definition plainName (name : string) : Prop :=
  Forall (fun c => isPathSeparator c = false) (list_ascii_of_string name).

(** The path that has the given elements. *)
Fixpoint joinElements (elements : list string) : string :=
  match elements with
  | [] => EmptyString
  | [e] => e
  | e :: rest => e +:+ "/" +:+ joinElements rest
  end.

(** A file extension: no dot and no slash in it. *)
Definition extensionName (e : string) : Prop :=
  Forall (fun c => (c =? ".")%char = false ∧ isPathSeparator c = false)
         (list_ascii_of_string e).

Definition cppExtensions : list string := ["cpp"; "h"; "hpp"; "cc"; "cxx"; "hxx"].

Definition headerExtensions : list string := ["h"; "hpp"; "hxx"].

(** The state of the loop of [ScanPaths]: [seen] is the set of the files
    collected so far, none of them twice. *)
Definition scanState (st : list string * gset string) : Prop :=
  NoDup st.1 ∧ ∀ f, f ∈ st.2 ↔ f ∈ st.1.

(** The number of newlines in a piece of the input, and the number of
    bytes after the last of them. *)
Definition newlinesIn (bytes : list ascii) : nat :=
  length (filter (fun c => c = "010"%char) bytes).

Definition lastLineLength (bytes : list ascii) : nat :=
  foldl (fun n c => if (c =? "010")%char then 0 else S n) 0 bytes.

(** The line and the column of the byte at offset [k] of [input]: lines
    and columns count from 1, a column is a count of bytes. *)
Definition lineOf (input : list ascii) (k : nat) : Z :=
  1 + Z.of_nat (newlinesIn (take k input)).

Definition columnOf (input : list ascii) (k : nat) : Z :=
  1 + Z.of_nat (lastLineLength (take k input)).

(** The lexer is inside its input and its line and column are those of
    its position. *)
Definition lexerPositioned (l : Lexer) : Prop :=
  lx_pos l ≤ lx_len l ∧
  lx_line l = lineOf (lx_input l) (lx_pos l) ∧
  lx_column l = columnOf (lx_input l) (lx_pos l).

(** [l'] is a later state of [l] that has read on without a token. *)
Definition lexerRuns (l l' : Lexer) : Prop :=
  lx_input l' = lx_input l ∧ lx_tokens l' = lx_tokens l ∧
  lx_pos l ≤ lx_pos l' ∧ (lexerPositioned l → lexerPositioned l').

(** The [n] bytes of the input from offset [k]. *)
Definition inputSlice (input : list ascii) (k n : nat) : list ascii :=
  take n (drop k input).

(** The token [t] is the text of the [n] bytes from offset [k], at least
    one, and is stamped with the line and the column of offset [k]. *)
Definition tokenSpans (input : list ascii) (k n : nat) (t : Token) : Prop :=
  0 < n ∧ k + n ≤ length input ∧
  Token_Value t = string_of_list_ascii (inputSlice input k n) ∧
  Token_Line t = lineOf input k ∧ Token_Column t = columnOf input k.

(** The bytes of an identifier after its first. *)
Definition identByte (ch : ascii) : bool :=
  isLetter ch || isDigit ch || (ch =? "_")%char.

(** No byte at offset [k], or one that [keep] refuses. *)
Definition stopsAt (keep : ascii → bool) (input : list ascii) (k : nat) : Prop :=
  ∀ c, input !! k = Some c → keep c = false.

(** What the type of a token says about its text, the [n] bytes from
    offset [k]: a word is a longest run of identifier bytes that starts
    with a letter or an underscore, and is a keyword exactly when it is in
    the table; a number is a longest run of number bytes that starts with
    a digit; a string starts with its quote; an operator is one operator
    byte or one of the two-byte operators; a punctuation is one
    punctuation byte.  The other two types never occur. *)
Definition tokenShape (input : list ascii) (k n : nat) (t : Token) : Prop :=
  match Token_Type t with
  | TokenIdent | TokenKeyword =>
      (∃ c rest, inputSlice input k n = c :: rest ∧
                 isLetter c || (c =? "_")%char = true ∧
                 Forall (fun b => identByte b = true) rest) ∧
      stopsAt identByte input (k + n) ∧
      (Token_Type t = TokenKeyword ↔ Token_Value t ∈ keywords)
  | TokenNumber =>
      (∃ c rest, inputSlice input k n = c :: rest ∧ isDigit c = true ∧
                 Forall (fun b => isNumberByte b = true) rest) ∧
      stopsAt isNumberByte input (k + n)
  | TokenString =>
      ∃ q rest, inputSlice input k n = q :: rest ∧ (q = "034"%char ∨ q = "'"%char)
  | TokenOperator =>
      (n = 2 ∧ Token_Value t ∈ twoCharOperators) ∨
      (n = 1 ∧ ∃ c, inputSlice input k n = [c] ∧ isOperator c = true)
  | TokenPunctuation =>
      n = 1 ∧ ∃ c, inputSlice input k n = [c] ∧ isPunctuation c = true
  | TokenEOF | TokenNewline => False
  end.

(** [tokensUpTo P tokens k]: the tokens stand for pieces of the first [k]
    bytes of the input that follow one another without overlap, in the
    order of the list; [P k n t] holds of every token [t] and its piece,
    the [n] bytes from offset [k]. *)
Inductive tokensUpTo (P : nat → nat → Token → Prop) : list Token → nat → Prop :=
| tokensUpTo_nil : tokensUpTo P [] 0
| tokensUpTo_skip tokens k k' :
    tokensUpTo P tokens k → k ≤ k' → tokensUpTo P tokens k'
| tokensUpTo_token tokens k n t :
    tokensUpTo P tokens k → P k n t → tokensUpTo P (tokens ++ [t]) (k + n).

(** The state of a lexer whose position, line and column agree and whose
    tokens are the pieces of the input read so far. *)
Definition lexerSound (l : Lexer) : Prop :=
  lexerPositioned l ∧
  tokensUpTo (fun k n t => tokenSpans (lx_input l) k n t ∧ tokenShape (lx_input l) k n t)
             (lx_tokens l) (lx_pos l).

(** [a] stands before [b] in the source. *)
Definition tokenBefore (a b : Token) : Prop :=
  (Token_Line a < Token_Line b)%Z ∨
  (Token_Line a = Token_Line b ∧ Token_Column a < Token_Column b)%Z.

(** The same of two positions. *)
Definition positionBefore (input : list ascii) (j k : nat) : Prop :=
  (lineOf input j < lineOf input k)%Z ∨
  (lineOf input j = lineOf input k ∧ columnOf input j < columnOf input k)%Z.

(** [tokens] are in source order. *)
Definition sourceOrdered (tokens : list Token) : Prop :=
  ∀ i j a b, i < j → tokens !! i = Some a → tokens !! j = Some b → tokenBefore a b.

(** [p'] is a later state of the parser [p] on the same tokens, with the
    same classes. *)
Definition parserAhead (p p' : Parser) : Prop :=
  p_tokens p' = p_tokens p ∧ p_file p' = p_file p ∧ p_classes p' = p_classes p ∧
  tokensLeft p' ≤ tokensLeft p.

(** [p'] is strictly later than [p]: at least one token was consumed. *)
Definition parserMoved (p p' : Parser) : Prop :=
  p_tokens p' = p_tokens p ∧ p_file p' = p_file p ∧ p_classes p' = p_classes p ∧
  tokensLeft p' < tokensLeft p.

(** [p'] is a later state of [p] on the same tokens; its classes may
    differ. *)
Definition parserOn (p p' : Parser) : Prop :=
  p_tokens p' = p_tokens p ∧ p_file p' = p_file p ∧ tokensLeft p' ≤ tokensLeft p.

(** [n] rounds of the loop of [parse]. *)
Fixpoint parseSteps (n : nat) (p : Parser) : Parser :=
  match n with
  | O => p
  | S n' => parseSteps n' (parseStep p)
  end.

(** The parser stands at a [::] that starts what [isOutOfClassMethod]
    takes for a method defined out of its class. *)
Definition stuckAtScope (p : Parser) : Prop :=
  isAtEnd p = false ∧ checkValue p "::" = true ∧ isOutOfClassMethod p = true.

(** Every allocation and deallocation of the function names a variable. *)
Definition functionWellFormed (f : Function) : Prop :=
  Forall (fun a => Alloc_VarName a ≠ EmptyString) (Fn_Allocations f) ∧
  Forall (fun d => Dealloc_VarName d ≠ EmptyString) (Fn_Deallocations f).

(** A class as the parser builds it from [file]: every member is a named
    pointer, the constructor bears the name of the class, the destructor
    and only the destructor is flagged as one. *)
Definition classWellFormed (file : string) (c : Class) : Prop :=
  Class_File c = file ∧
  Forall (fun m => Member_IsPointer m = true ∧ Member_Name m ≠ EmptyString)
         (Class_Members c) ∧
  (∀ f, Class_Constructor c = Some f →
        Fn_IsDestructor f = false ∧ Fn_Name f = Class_Name c ∧ functionWellFormed f) ∧
  (∀ f, Class_Destructor c = Some f →
        Fn_IsDestructor f = true ∧ functionWellFormed f) ∧
  Forall (fun f => Fn_IsDestructor f = false ∧ functionWellFormed f) (Class_Methods c).

(** [fn'] is [fn] with more read into it. *)
Definition functionKept (fn fn' : Function) : Prop :=
  Fn_Name fn' = Fn_Name fn ∧ Fn_IsDestructor fn' = Fn_IsDestructor fn ∧
  (functionWellFormed fn → functionWellFormed fn').

(** ** Concrete classes used by the examples below

    Each record is given with a source text that the lexer and the parser
    turn into it (see the examples [*_parsed]). *)

(** A function whose text stands on one line. *)
Definition plainFunction (name : string) (isDtor : bool) (line : Z)
    (allocs : list Allocation) (deallocs : list Deallocation)
    (calls : list string) (aliases : list PointerAlias) : Function :=
  mkFunction name isDtor line line allocs deallocs calls aliases.

(** The only class of a file, or an empty record. *)
Definition parseOne (file source : string) : Class :=
  match parseSource (2 * String.length source) file source with
  | Some [class] => class
  | _ => mkClass EmptyString EmptyString 0 0 [] None None []
  end.

(** The destructor deletes [z], two alias edges away from the member [x]. *)
Definition aliasChainSource : string :=
"class A {
  int *x;
  A() { x = new int; }
  ~A() { int *y = x; int *z = y; delete z; }
};".

Definition aliasChainClass : Class :=
  mkClass "A" "a.cpp" 1 5 [mkMember "x" EmptyString true false 2]
    (Some (plainFunction "A" false 3 [mkAllocation "x" false 3] [] [] []))
    (Some (plainFunction "~A" true 4 []
             [mkDeallocation "z" false 4] []
             [mkPointerAlias "x" "y" 4; mkPointerAlias "y" "z" 4]))
    [].

(** The same with a single alias. *)
Definition aliasOnceSource : string :=
"class B {
  int *x;
  B() { x = new int; }
  ~B() { int *y = x; delete y; }
};".

Definition aliasOnceClass : Class :=
  mkClass "B" "b.cpp" 1 5 [mkMember "x" EmptyString true false 2]
    (Some (plainFunction "B" false 3 [mkAllocation "x" false 3] [] [] []))
    (Some (plainFunction "~B" true 4 []
             [mkDeallocation "y" false 4] []
             [mkPointerAlias "x" "y" 4]))
    [].

(** Edge case 1 of the test data, with a method that takes an alias of the
    member and never deletes it. *)
Definition basicLeakSource : string :=
"class BasicLeak {
private:
  int *ptr;

public:
  BasicLeak() { ptr = new int(42); }
  ~BasicLeak() { /* missing delete */ }
  void peek() { int *tmp = ptr; }
};".

Definition basicLeakClass : Class :=
  mkClass "BasicLeak" "edge_cases.cpp" 1 9 [mkMember "ptr" EmptyString true false 3]
    (Some (plainFunction "BasicLeak" false 6 [mkAllocation "ptr" false 6] [] [] []))
    (Some (plainFunction "~BasicLeak" true 7 [] [] [] []))
    [plainFunction "peek" false 8 [] [] [] [mkPointerAlias "ptr" "tmp" 8]].

(** Edge case 3 of the test data. *)
Definition arrayMismatchSource : string :=
"class ArrayMismatchNewArray {
private:
  int *arr;

public:
  ArrayMismatchNewArray() { arr = new int[50]; }
  ~ArrayMismatchNewArray() { delete arr; } // Wrong! Should be delete[]
};".

Definition arrayMismatchNewArray : Class :=
  mkClass "ArrayMismatchNewArray" "edge_cases.cpp" 1 8
    [mkMember "arr" EmptyString true false 3]
    (Some (plainFunction "ArrayMismatchNewArray" false 6
             [mkAllocation "arr" true 6] [] [] []))
    (Some (plainFunction "~ArrayMismatchNewArray" true 7 []
             [mkDeallocation "arr" false 7] [] []))
    [].

(** A destructor that reaches [m] through two invocation edges
    ([~D -> c -> m]) but enters [c] first at the end of the longer chain
    [~D -> x -> y -> z -> c]. *)
Definition lateEntrySource : string :=
"class D {
  int *p;
  D() { p = new int; }
  ~D() { x(); c(); }
  void x() { y(); }
  void y() { z(); }
  void z() { c(); }
  void c() { m(); }
  void m() { delete p; }
};".

Definition lateEntryClass : Class :=
  mkClass "D" "d.cpp" 1 10 [mkMember "p" EmptyString true false 2]
    (Some (plainFunction "D" false 3 [mkAllocation "p" false 3] [] [] []))
    (Some (plainFunction "~D" true 4 [] [] ["x"; "c"] []))
    [plainFunction "x" false 5 [] [] ["y"] [];
     plainFunction "y" false 6 [] [] ["z"] [];
     plainFunction "z" false 7 [] [] ["c"] [];
     plainFunction "c" false 8 [] [] ["m"] [];
     plainFunction "m" false 9 [] [mkDeallocation "p" false 9] [] []].

(** A straight chain [~E -> m1 -> m2 -> m3 -> m4 -> m5]; [m4] deletes [q],
    [m5] deletes [p]. *)
Definition sixLevelSource : string :=
"class E {
  int *p; int *q;
  E() { p = new int; q = new int; }
  ~E() { m1(); }
  void m1() { m2(); }
  void m2() { m3(); }
  void m3() { m4(); }
  void m4() { delete q; m5(); }
  void m5() { delete p; }
};".

Definition sixLevelClass : Class :=
  mkClass "E" "e.cpp" 1 10
    [mkMember "p" EmptyString true false 2; mkMember "q" EmptyString true false 2]
    (Some (plainFunction "E" false 3
             [mkAllocation "p" false 3; mkAllocation "q" false 3] [] [] []))
    (Some (plainFunction "~E" true 4 [] [] ["m1"] []))
    [plainFunction "m1" false 5 [] [] ["m2"] [];
     plainFunction "m2" false 6 [] [] ["m3"] [];
     plainFunction "m3" false 7 [] [] ["m4"] [];
     plainFunction "m4" false 8 [] [mkDeallocation "q" false 8] ["m5"] [];
     plainFunction "m5" false 9 [] [mkDeallocation "p" false 9] [] []].

(** The destructor reaches [m] through the recursive method [a]. *)
Definition selfCallSource : string :=
"class S {
  int *p;
  S() { p = new int; }
  ~S() { a(); }
  void a() { a(); m(); }
  void m() { delete p; }
};".

Definition selfCallClass : Class :=
  mkClass "S" "s.cpp" 1 7 [mkMember "p" EmptyString true false 2]
    (Some (plainFunction "S" false 3 [mkAllocation "p" false 3] [] [] []))
    (Some (plainFunction "~S" true 4 [] [] ["a"] []))
    [plainFunction "a" false 5 [] [] ["a"; "m"] [];
     plainFunction "m" false 6 [] [mkDeallocation "p" false 6] [] []].

(** The chain of [sixLevelClass] with an alias of [p] deleted in the
    destructor. *)
Definition sixLevelAliasSource : string :=
"class E {
  int *p;
  E() { p = new int; }
  ~E() { int *t = p; delete t; m1(); }
  void m1() { m2(); }
  void m2() { m3(); }
  void m3() { m4(); }
  void m4() { m5(); }
  void m5() { delete p; }
};".

(** The [ThreadPool] class of the test data (complex_project.cpp):
    destructor -> shutdown -> releaseAll -> releaseQueues, releaseThreads. *)
Definition threadPoolSource : string :=
"class ThreadPool {
private:
  int *threadIds;
  char *taskQueue;
  int *priorityQueue;

public:
  ThreadPool(int numThreads) {
    threadIds = new int[numThreads];
    taskQueue = new char[1024];
    priorityQueue = new int[256];
  }

  void releaseQueues() {
    delete[] taskQueue;
    delete[] priorityQueue;
  }

  void releaseThreads() { delete[] threadIds; }

  void releaseAll() {
    releaseQueues();
    releaseThreads();
  }

  void shutdown() { releaseAll(); }

  ~ThreadPool() {
    shutdown(); // 4-level deep: dtor -> shutdown -> releaseAll ->
                // releaseQueues/releaseThreads
  }
};".

Definition threadPoolClass : Class :=
  mkClass "ThreadPool" "complex_project.cpp" 1 32
    [mkMember "threadIds" EmptyString true false 3;
     mkMember "taskQueue" EmptyString true false 4;
     mkMember "priorityQueue" EmptyString true false 5]
    (Some (mkFunction "ThreadPool" false 8 12
             [mkAllocation "threadIds" true 9; mkAllocation "taskQueue" true 10;
              mkAllocation "priorityQueue" true 11] [] [] []))
    (Some (mkFunction "~ThreadPool" true 28 31 [] [] ["shutdown"] []))
    [mkFunction "releaseQueues" false 14 17 []
       [mkDeallocation "taskQueue" true 15; mkDeallocation "priorityQueue" true 16]
       [] [];
     plainFunction "releaseThreads" false 19 []
       [mkDeallocation "threadIds" true 19] [] [];
     mkFunction "releaseAll" false 21 24 [] []
       ["releaseQueues"; "releaseThreads"] [];
     plainFunction "shutdown" false 26 [] [] ["releaseAll"] []].

(** Edge cases 8 and 9 of the test data in one class: [reassign]
    allocates without deleting, [renew] deletes on line 7 and allocates on
    line 8. *)
Definition reassignSource : string :=
"class Reassign {
  int *ptr;
  Reassign() { ptr = new int(1); }
  void reassign() { ptr = new int(2); }
  void renew() {
    // Properly delete first
    delete ptr;
    ptr = new int(2);
  }
  ~Reassign() { delete ptr; }
};".

Definition reassignClass : Class :=
  mkClass "Reassign" "edge_cases.cpp" 1 11 [mkMember "ptr" EmptyString true false 2]
    (Some (plainFunction "Reassign" false 3 [mkAllocation "ptr" false 3] [] [] []))
    (Some (plainFunction "~Reassign" true 10 [] [mkDeallocation "ptr" false 10] [] []))
    [plainFunction "reassign" false 4 [mkAllocation "ptr" false 4] [] [] [];
     mkFunction "renew" false 5 9 [mkAllocation "ptr" false 8]
       [mkDeallocation "ptr" false 7] [] []].

(** A method that allocates on line 5, deletes on line 6 and allocates
    again on line 7. *)
Definition renewTwiceSource : string :=
"class Twice {
  int *x;
  Twice() { x = new int(0); }
  void swap() {
    x = new int(1);
    delete x;
    x = new int(2);
  }
  ~Twice() { delete x; }
};".

Definition renewTwiceMethod : Function :=
  mkFunction "swap" false 4 8 [mkAllocation "x" false 5; mkAllocation "x" false 7]
    [mkDeallocation "x" false 6] [] [].

Definition renewTwiceClass : Class :=
  mkClass "Twice" "t.cpp" 1 10 [mkMember "x" EmptyString true false 2]
    (Some (plainFunction "Twice" false 3 [mkAllocation "x" false 3] [] [] []))
    (Some (plainFunction "~Twice" true 9 [] [mkDeallocation "x" false 9] [] []))
    [renewTwiceMethod].

(** Edge case 11 of the test data. *)
Definition doubleDeleteSource : string :=
"class DoubleDeleteViaAlias {
private:
  int *original;

public:
  DoubleDeleteViaAlias() { original = new int(42); }
  void badFunction() {
    int *alias = original;
    delete alias;
    delete original; // Double delete!
  }
  ~DoubleDeleteViaAlias() { delete original; }
};".

Definition doubleDeleteClass : Class :=
  mkClass "DoubleDeleteViaAlias" "edge_cases.cpp" 1 13
    [mkMember "original" EmptyString true false 3]
    (Some (plainFunction "DoubleDeleteViaAlias" false 6
             [mkAllocation "original" false 6] [] [] []))
    (Some (plainFunction "~DoubleDeleteViaAlias" true 12 []
             [mkDeallocation "original" false 12] [] []))
    [mkFunction "badFunction" false 7 11 []
       [mkDeallocation "alias" false 9; mkDeallocation "original" false 10] []
       [mkPointerAlias "original" "alias" 8]].

(** A diamond and a cycle. *)
Definition diamondSource : string :=
"class G {
  int *p;
  ~G() { a(); b(); }
  void a() { c(); }
  void b() { c(); }
  void c() { delete p; a(); }
};".

Definition diamondClass : Class :=
  mkClass "G" "g.cpp" 1 7 [mkMember "p" EmptyString true false 2]
    None
    (Some (plainFunction "~G" true 3 [] [] ["a"; "b"] []))
    [plainFunction "a" false 4 [] [] ["c"] [];
     plainFunction "b" false 5 [] [] ["c"] [];
     plainFunction "c" false 6 [] [mkDeallocation "p" false 6] ["a"] []].

(** A class whose destructor is only declared. *)
Definition declaredOnlySource : string :=
  "class C { int *p; C() { p = new int; } ~C(); };".

Definition declaredOnlyParser : Parser :=
  mkParser (Tokenize declaredOnlySource) 17 "c.h" [].

Definition declaredOnlyClass : Class :=
  mkClass "C" "c.h" 1 1 [mkMember "p" EmptyString true false 1]
    (Some (mkFunction "C" false 1 1 [mkAllocation "p" false 1] [] [] []))
    (Some (newFunction "~C" true 1))
    [].

(** The parser of [declaredOnlySource] at the keyword [class], where
    [parse] starts, and behind it, where [parseClass] starts. *)
Definition declaredOnlyStart : Parser :=
  mkParser (Tokenize declaredOnlySource) 0 "c.h" [].

Definition declaredOnlyEntry : Parser :=
  mkParser (Tokenize declaredOnlySource) 1 "c.h" [].

(** The class record when the loop over the class body arrives at the
    destructor declaration. *)
Definition declaredOnlyHalf : Class :=
  mkClass "C" "c.h" 1 0 [mkMember "p" EmptyString true false 1]
    (Some (mkFunction "C" false 1 1 [mkAllocation "p" false 1] [] [] []))
    None [].

(** A destructor declared without a body behind another specifier. *)
Definition inlineDeclaredSource : string :=
  "class C { int *p; C() { p = new int; } inline ~C(); };".

Definition virtualDeclaredOnlySource : string :=
  "struct V { char *s; V() { s = new char[8]; } virtual ~V(); };".

(** A destructor defined out of class is named after the class, and so is
    the method that [explicit F(int)] is parsed to. *)
Definition nameClashSource : string :=
  "class F { int *p; explicit F(int n) { delete p; } };
F::~F() { F(0); }".

Definition nameClashClass : Class :=
  mkClass "F" "f.cpp" 1 1 [mkMember "p" EmptyString true false 1]
    None
    (Some (mkFunction "F" true 2 2 [] [] ["F"] []))
    [mkFunction "F" false 1 1 [] [mkDeallocation "p" false 1] [] []].

(** An implementation file that holds the class with its pointer member,
    and headers whose record of the class has or has not a member. *)
Definition implSource : string :=
"struct W {
  char *buf;
  W() { buf = new char[64]; }
};".

Definition implRecord : Class :=
  mkClass "W" "src/w.cpp" 1 4 [mkMember "buf" EmptyString true false 2]
    (Some (plainFunction "W" false 3 [mkAllocation "buf" true 3] [] [] []))
    None [].

Definition headerSource : string :=
"struct W {
  int size;
  ~W();
};".

Definition headerRecord : Class :=
  mkClass "W" "include/w.HPP" 1 4 [] None (Some (newFunction "~W" true 3)) [].

Definition headerWithMembersSource : string :=
"struct W {
  Buffer *buf;
  ~W();
};".

Definition headerRecordWithMembers : Class :=
  mkClass "W" "include/w.h" 1 4 [mkMember "buf" "Buffer" true false 2]
    None (Some (newFunction "~W" true 3)) [].

(** ** Further records used by the examples *)

(** A class that allocates in its constructor and declares no pointer. *)
Definition noMemberSource : string :=
"class Local {
  int n;
  Local() { int *tmp = new int; }
  ~Local() { }
};".

Definition noMemberClass : Class :=
  mkClass "Local" "n.cpp" 1 5 []
    (Some (plainFunction "Local" false 3 [mkAllocation "tmp" false 3] [] [] []))
    (Some (plainFunction "~Local" true 4 [] [] [] []))
    [].

(** The class [NoDestructor] of the sample file. *)
Definition noDestructorSource : string :=
"class NoDestructor {
  int *leaked;
  NoDestructor() { leaked = new int[100]; }
};".

Definition noDestructorClass : Class :=
  mkClass "NoDestructor" "leak_sample.cpp" 1 4
    [mkMember "leaked" EmptyString true false 2]
    (Some (plainFunction "NoDestructor" false 3 [mkAllocation "leaked" true 3] [] [] []))
    None [].

(** A header that declares a method, and the file that defines it after a
    method the header does not declare. *)
Definition declaredMethodSource : string :=
"class H {
  int *p;
  void release();
};".

Definition declaredMethodClass : Class :=
  mkClass "H" "h.h" 1 4 [mkMember "p" EmptyString true false 2] None None
    [newFunction "release" false 3].

Definition definedMethodsSource : string :=
"void H::helper() { }
void H::release() { delete p; }".

Definition definedMethodsClass : Class :=
  mkClass "H" "h.cpp" 0 0 [] None None
    [plainFunction "helper" false 1 [] [] [] [];
     plainFunction "release" false 2 [] [mkDeallocation "p" false 2] [] []].

(** The two records of the class [W], added header first. *)
Definition crossFileRegistry : ClassRegistry :=
  ClassRegistry_AddClasses
    (ClassRegistry_AddClasses NewClassRegistry [headerRecordWithMembers])
    [implRecord].

(** A call through the global scope inside a function body: [parse] arrives
    at the [::] after five rounds. *)
Definition scopeSource : string := "void f() { ::g(); }".

Definition scopeParser : Parser := mkParser (Tokenize scopeSource) 0 "a.cpp" [].

Definition plainSource : string := "class A { int* p; };".

(* ================================================================== *)
(** * Properties *)

(** ** The example records are what the parser reads from their sources *)

Example aliasChain_parsed : parseOne "a.cpp" aliasChainSource = aliasChainClass.
Proof. by vm_compute. Qed.

Example aliasOnce_parsed : parseOne "b.cpp" aliasOnceSource = aliasOnceClass.
Proof. by vm_compute. Qed.

Example basicLeak_parsed : parseOne "edge_cases.cpp" basicLeakSource = basicLeakClass.
Proof. by vm_compute. Qed.

Example arrayMismatch_parsed :
  parseOne "edge_cases.cpp" arrayMismatchSource = arrayMismatchNewArray.
Proof. by vm_compute. Qed.

Example lateEntry_parsed : parseOne "d.cpp" lateEntrySource = lateEntryClass.
Proof. by vm_compute. Qed.

Example sixLevel_parsed : parseOne "e.cpp" sixLevelSource = sixLevelClass.
Proof. by vm_compute. Qed.

Example selfCall_parsed : parseOne "s.cpp" selfCallSource = selfCallClass.
Proof. by vm_compute. Qed.

Example threadPool_parsed :
  parseOne "complex_project.cpp" threadPoolSource = threadPoolClass.
Proof. by vm_compute. Qed.

Example reassign_parsed : parseOne "edge_cases.cpp" reassignSource = reassignClass.
Proof. by vm_compute. Qed.

Example renewTwice_parsed : parseOne "t.cpp" renewTwiceSource = renewTwiceClass.
Proof. by vm_compute. Qed.

Example doubleDelete_parsed :
  parseOne "edge_cases.cpp" doubleDeleteSource = doubleDeleteClass.
Proof. by vm_compute. Qed.

Example diamond_parsed : parseOne "g.cpp" diamondSource = diamondClass.
Proof. by vm_compute. Qed.

Example declaredOnly_parsed : parseOne "c.h" declaredOnlySource = declaredOnlyClass.
Proof. by vm_compute. Qed.

Example nameClash_parsed : parseOne "f.cpp" nameClashSource = nameClashClass.
Proof. by vm_compute. Qed.

Example impl_parsed : parseOne "src/w.cpp" implSource = implRecord.
Proof. by vm_compute. Qed.

Example header_parsed : parseOne "include/w.HPP" headerSource = headerRecord.
Proof. by vm_compute. Qed.

Example headerWithMembers_parsed :
  parseOne "include/w.h" headerWithMembersSource = headerRecordWithMembers.
Proof. by vm_compute. Qed.

Example noMember_parsed : parseOne "n.cpp" noMemberSource = noMemberClass.
Proof. by vm_compute. Qed.

Example noDestructor_parsed :
  parseOne "leak_sample.cpp" noDestructorSource = noDestructorClass.
Proof. by vm_compute. Qed.

Example declaredMethod_parsed : parseOne "h.h" declaredMethodSource = declaredMethodClass.
Proof. by vm_compute. Qed.

Example definedMethods_parsed :
  parseOne "h.cpp" definedMethodsSource = definedMethodsClass.
Proof. by vm_compute. Qed.
(* ================================================================== *)
(** * Properties *)

(** ** Go maps filled by a loop of assignments *)

Section InsertLoop.
Context {A : Type} (key : A → string).

Lemma insert_loop_lookup_Some (l : list A) (m : gmap string A) k v :
  foldl (fun m a => <[key a := a]> m) m l !! k = Some v →
  m !! k = Some v ∨ (v ∈ l ∧ key v = k).
Proof.
  revert m. induction l as [|a l IH]; intros m; simpl; [by left|].
  intros H. apply IH in H as [H|[H1 H2]].
  - destruct (decide (key a = k)) as [<-|Hne].
    + rewrite lookup_insert_eq in H. injection H as <-.
      right. split; [apply list_elem_of_here | done].
    + rewrite lookup_insert_ne in H by done. by left.
  - right. split; [by apply list_elem_of_further | done].
Qed.

Lemma insert_loop_is_Some (l : list A) (m : gmap string A) k :
  is_Some (foldl (fun m a => <[key a := a]> m) m l !! k) ↔
  is_Some (m !! k) ∨ ∃ a, a ∈ l ∧ key a = k.
Proof.
  revert m. induction l as [|a l IH]; intros m; simpl.
  - split; [by left|]. intros [H|(a & Ha & _)]; [done|]. by apply elem_of_nil in Ha.
  - rewrite IH. split.
    + intros [H|(b & Hb & Hk)].
      * destruct (decide (key a = k)) as [<-|Hne].
        -- right. exists a. split; [apply list_elem_of_here | done].
        -- rewrite lookup_insert_ne in H by done. by left.
      * right. exists b. split; [by apply list_elem_of_further | done].
    + intros [H|(b & Hb & Hk)].
      * left. destruct (decide (key a = k)) as [<-|Hne].
        -- rewrite lookup_insert_eq. by eexists.
        -- by rewrite lookup_insert_ne.
      * apply elem_of_cons in Hb as [->|Hb].
        -- left. rewrite <- Hk, lookup_insert_eq. by eexists.
        -- right. by exists b.
Qed.

Lemma insert_loop_dom (l : list A) (m : gmap string A) :
  dom (foldl (fun m a => <[key a := a]> m) m l)
  = dom m ∪ list_to_set (key <$> l).
Proof.
  apply set_eq. intros k.
  rewrite elem_of_dom, insert_loop_is_Some, elem_of_union, elem_of_dom,
    elem_of_list_to_set, list_elem_of_fmap.
  split; (intros [H|(a & H1 & H2)]; [by left | right]).
  - by exists a.
  - by exists a.
Qed.
End InsertLoop.

Lemma addDeallocations_dom result ds :
  dom (addDeallocations result ds)
  = dom result ∪ list_to_set (Dealloc_VarName <$> ds).
Proof. apply insert_loop_dom. Qed.

Lemma allocatedVars_lookup_Some class v alloc :
  allocatedVars class !! v = Some alloc →
  ∃ ctor, Class_Constructor class = Some ctor ∧
          alloc ∈ Fn_Allocations ctor ∧ Alloc_VarName alloc = v.
Proof.
  unfold allocatedVars. destruct (Class_Constructor class) as [ctor|]; [|done].
  intros [H|H]%insert_loop_lookup_Some; [done|]. by exists ctor.
Qed.

Lemma allocatedVars_is_Some class v :
  is_Some (allocatedVars class !! v) ↔
  ∃ ctor alloc, Class_Constructor class = Some ctor ∧
                alloc ∈ Fn_Allocations ctor ∧ Alloc_VarName alloc = v.
Proof.
  unfold allocatedVars. destruct (Class_Constructor class) as [ctor|].
  - rewrite insert_loop_is_Some. split.
    + intros [[? H]|(a & Ha & Hk)]; [done|]. by exists ctor, a.
    + intros (? & a & [= <-] & Ha & Hk). right. by exists a.
  - split; [by intros [? ?] | by intros (? & ? & ? & _)].
Qed.

Lemma pointerMembers_is_Some class v :
  is_Some (pointerMembers class !! v) ↔
  ∃ m, m ∈ Class_Members class ∧ Member_IsPointer m = true ∧ Member_Name m = v.
Proof.
  unfold pointerMembers.
  assert (∀ l (pm : gmap string Member),
    is_Some (foldl (fun pm m => if Member_IsPointer m
                                then <[Member_Name m := m]> pm else pm) pm l !! v)
    ↔ is_Some (pm !! v)
      ∨ ∃ m, m ∈ l ∧ Member_IsPointer m = true ∧ Member_Name m = v) as H.
  { induction l as [|a l IH]; intros pm; simpl.
    - split; [by left|]. intros [H|(m & Hm & _)]; [done|]. by apply elem_of_nil in Hm.
    - rewrite IH. destruct (Member_IsPointer a) eqn:Hp.
      + split.
        * intros [H|(b & Hb & Hq & Hk)].
          -- destruct (decide (Member_Name a = v)) as [<-|Hne].
             ++ right. exists a. split_and!; [apply list_elem_of_here | done | done].
             ++ rewrite lookup_insert_ne in H by done. by left.
          -- right. exists b. split_and!; [by apply list_elem_of_further | done | done].
        * intros [H|(b & Hb & Hq & Hk)].
          -- left. destruct (decide (Member_Name a = v)) as [<-|Hne].
             ++ rewrite lookup_insert_eq. by eexists.
             ++ by rewrite lookup_insert_ne.
          -- apply elem_of_cons in Hb as [->|Hb].
             ++ left. rewrite <- Hk, lookup_insert_eq. by eexists.
             ++ right. by exists b.
      + split.
        * intros [H|(b & Hb & Hq & Hk)]; [by left|].
          right. exists b. split_and!; [by apply list_elem_of_further | done | done].
        * intros [H|(b & Hb & Hq & Hk)]; [by left|].
          apply elem_of_cons in Hb as [->|Hb]; [congruence|].
          right. by exists b. }
  rewrite H. split.
  - intros [[? Hx]|Hx]; [by rewrite lookup_empty in Hx | done].
  - intros Hx. by right.
Qed.

Lemma buildMethodMap_lookup_Some class name f :
  buildMethodMap class !! name = Some f →
  f ∈ Class_Methods class ∧ Fn_Name f = name.
Proof.
  unfold buildMethodMap. by intros [H|H]%insert_loop_lookup_Some.
Qed.

(** ** The multi-level collection *)


Lemma logNames_app l1 l2 : logNames (l1 ++ l2) = logNames l1 ++ logNames l2.
Proof. apply fmap_app. Qed.

Lemma elem_of_logNames n log :
  n ∈ logNames log ↔ ∃ g b, (g, b) ∈ log ∧ Fn_Name g = n.
Proof.
  unfold logNames. rewrite list_elem_of_fmap. split.
  - intros ([g b] & -> & H). by exists g, b.
  - intros (g & b & H & <-). by exists (g, b).
Qed.

Section Collect.
Variable methodMap : gmap string Function.

Local Abbreviation run d := (fun g s => collectLog d (Some g) methodMap s).

Lemma collectLog_fresh d f st :
  Fn_Name f ∉ cs_visited st →
  collectLog (S d) (Some f) methodMap st =
    let st1 := {| cs_result := addDeallocations (cs_result st) (Fn_Deallocations f);
                  cs_visited := {[ Fn_Name f ]} ∪ cs_visited st |} in
    let r := callsLog (run d) methodMap (Fn_MethodCalls f) st1 in
    (r.1, (f, S d) :: r.2).
Proof. intros H. simpl. by destruct (decide _). Qed.

Lemma collectLog_seen d f st :
  Fn_Name f ∈ cs_visited st →
  collectLog d (Some f) methodMap st = (st, []).
Proof. intros H. destruct d; simpl; [done|]. by destruct (decide _). Qed.

(** The log is ghost: dropping it gives back the function of the code. *)
Lemma collectLog_state d fn st :
  (collectLog d fn methodMap st).1 = collectDeallocations d fn methodMap st.
Proof.
  revert fn st. induction d as [|d IH]; intros fn st; simpl; [done|].
  destruct fn as [f|]; [|done]. destruct (decide _); [done|]. simpl.
  generalize ({| cs_result := addDeallocations (cs_result st) (Fn_Deallocations f);
                 cs_visited := {[Fn_Name f]} ∪ cs_visited st |}).
  induction (Fn_MethodCalls f) as [|name calls IHc]; intros s; simpl; [done|].
  destruct (methodMap !! name) as [g|]; simpl; [|apply IHc].
  rewrite IHc. by rewrite IH.
Qed.

(** *** The visited set and the result map grow by what the log records *)

Lemma callsLog_visited d calls st :
  (∀ g s, cs_visited (collectLog d (Some g) methodMap s).1
          = cs_visited s ∪ list_to_set (logNames (collectLog d (Some g) methodMap s).2)) →
  cs_visited (callsLog (run d) methodMap calls st).1
  = cs_visited st ∪ list_to_set (logNames (callsLog (run d) methodMap calls st).2).
Proof.
  intros Hrun. revert st. induction calls as [|name calls IH]; intros st; simpl.
  - set_solver.
  - destruct (methodMap !! name) as [g|]; simpl; [|apply IH].
    rewrite IH, Hrun, logNames_app, list_to_set_app_L. set_solver.
Qed.

Lemma collectLog_visited d fn st :
  cs_visited (collectLog d fn methodMap st).1
  = cs_visited st ∪ list_to_set (logNames (collectLog d fn methodMap st).2).
Proof.
  revert fn st. induction d as [|d IH]; intros fn st; [simpl; set_solver|].
  destruct fn as [f|]; [|simpl; set_solver].
  destruct (decide (Fn_Name f ∈ cs_visited st)) as [Hin|Hout].
  - rewrite collectLog_seen by done. simpl. set_solver.
  - rewrite collectLog_fresh by done. cbn zeta. cbn [fst snd].
    rewrite callsLog_visited by (intros; apply IH). simpl. set_solver.
Qed.

Lemma collectLog_visited_mono d fn st :
  cs_visited st ⊆ cs_visited (collectLog d fn methodMap st).1.
Proof. rewrite collectLog_visited. set_solver. Qed.

Lemma callsLog_visited_mono d calls st :
  cs_visited st ⊆ cs_visited (callsLog (run d) methodMap calls st).1.
Proof.
  rewrite callsLog_visited by (intros; apply collectLog_visited). set_solver.
Qed.


Lemma logDeletes_app l1 l2 k :
  logDeletes (l1 ++ l2) k ↔ logDeletes l1 k ∨ logDeletes l2 k.
Proof.
  unfold logDeletes. split.
  - intros (e & [H|H]%elem_of_app & Hd); [left|right]; by exists e.
  - intros [(e & H & Hd)|(e & H & Hd)]; exists e; rewrite elem_of_app; auto.
Qed.

Lemma callsLog_result d calls st k :
  (∀ g s, k ∈ dom (cs_result (collectLog d (Some g) methodMap s).1) ↔
          k ∈ dom (cs_result s) ∨ logDeletes (collectLog d (Some g) methodMap s).2 k) →
  k ∈ dom (cs_result (callsLog (run d) methodMap calls st).1) ↔
  k ∈ dom (cs_result st) ∨ logDeletes (callsLog (run d) methodMap calls st).2 k.
Proof.
  intros Hrun. revert st. induction calls as [|name calls IH]; intros st; simpl.
  - split; [by left|]. intros [H|(e & H & _)]; [done|]. by apply elem_of_nil in H.
  - destruct (methodMap !! name) as [g|]; simpl; [|apply IH].
    rewrite IH, Hrun, logDeletes_app. tauto.
Qed.

Lemma collectLog_result d fn st k :
  k ∈ dom (cs_result (collectLog d fn methodMap st).1) ↔
  k ∈ dom (cs_result st) ∨ logDeletes (collectLog d fn methodMap st).2 k.
Proof.
  assert (∀ s : CollectState, k ∈ dom (cs_result s) ↔
            k ∈ dom (cs_result s) ∨ logDeletes [] k) as Hnil.
  { intros s. split; [by left|]. intros [H|(e & H & _)]; [done|].
    by apply elem_of_nil in H. }
  revert fn st. induction d as [|d IH]; intros fn st; [apply Hnil|].
  destruct fn as [f|]; [|apply Hnil].
  destruct (decide (Fn_Name f ∈ cs_visited st)) as [Hin|Hout].
  - rewrite collectLog_seen by done. apply Hnil.
  - rewrite collectLog_fresh by done. cbn zeta. cbn [fst snd].
    rewrite callsLog_result by (intros; apply IH). simpl.
    rewrite addDeallocations_dom, elem_of_union, elem_of_list_to_set,
      list_elem_of_fmap.
    change ((f, S d) :: ?l) with ([(f, S d)] ++ l).
    rewrite logDeletes_app.
    assert ((∃ y, k = Dealloc_VarName y ∧ y ∈ Fn_Deallocations f)
            ↔ logDeletes [(f, S d)] k) as ->; [|tauto].
    unfold logDeletes, deletes. split.
    + intros (y & -> & Hy). exists (f, S d). split; [apply list_elem_of_here|].
      by exists y.
    + intros (e & ->%list_elem_of_singleton & y & Hy & <-). by exists y.
Qed.

(** *** The result map is the replay of the log *)

Lemma callsLog_replay d calls st :
  (∀ g s, cs_result (collectLog d (Some g) methodMap s).1
          = replayLog (cs_result s) (collectLog d (Some g) methodMap s).2) →
  cs_result (callsLog (run d) methodMap calls st).1
  = replayLog (cs_result st) (callsLog (run d) methodMap calls st).2.
Proof.
  intros Hrun. revert st. induction calls as [|name calls IH]; intros st; simpl; [done|].
  destruct (methodMap !! name) as [g|]; simpl; [|apply IH].
  rewrite IH, Hrun. unfold replayLog. by rewrite foldl_app.
Qed.

Lemma collectLog_replay d fn st :
  cs_result (collectLog d fn methodMap st).1
  = replayLog (cs_result st) (collectLog d fn methodMap st).2.
Proof.
  revert fn st. induction d as [|d IH]; intros fn st; [done|].
  destruct fn as [f|]; [|done].
  destruct (decide (Fn_Name f ∈ cs_visited st)) as [Hin|Hout].
  - by rewrite collectLog_seen.
  - rewrite collectLog_fresh by done. cbn zeta. cbn [fst snd].
    by rewrite callsLog_replay by (intros; apply IH).
Qed.

(** *** No function is processed twice *)

Lemma callsLog_NoDup d calls st :
  (∀ g s, NoDup (logNames (collectLog d (Some g) methodMap s).2) ∧
          ∀ n, n ∈ logNames (collectLog d (Some g) methodMap s).2 → n ∉ cs_visited s) →
  NoDup (logNames (callsLog (run d) methodMap calls st).2) ∧
  ∀ n, n ∈ logNames (callsLog (run d) methodMap calls st).2 → n ∉ cs_visited st.
Proof.
  intros Hrun. revert st. induction calls as [|name calls IH]; intros st; simpl.
  - split; [constructor|]. intros n Hn. by apply elem_of_nil in Hn.
  - destruct (methodMap !! name) as [g|]; simpl; [|apply IH].
    destruct (Hrun g st) as [Hnd Hdis].
    destruct (IH (collectLog d (Some g) methodMap st).1) as [Hnd' Hdis'].
    rewrite logNames_app. split.
    + apply NoDup_app. split_and!; [done| |done].
      intros n Hn Hn'. apply Hdis' in Hn'. apply Hn'.
      rewrite collectLog_visited, elem_of_union, elem_of_list_to_set. by right.
    + intros n [Hn|Hn]%elem_of_app; [by apply Hdis|].
      apply Hdis' in Hn. intros Hv. apply Hn.
      by apply collectLog_visited_mono.
Qed.

Lemma collectLog_NoDup d fn st :
  NoDup (logNames (collectLog d fn methodMap st).2) ∧
  ∀ n, n ∈ logNames (collectLog d fn methodMap st).2 → n ∉ cs_visited st.
Proof.
  assert (NoDup (logNames []) ∧ ∀ n, n ∈ logNames [] → n ∉ cs_visited st) as Hnil.
  { split; [constructor|]. intros n Hn. by apply elem_of_nil in Hn. }
  revert fn st Hnil. induction d as [|d IH]; intros fn st Hnil; [done|].
  destruct fn as [f|]; [|done].
  destruct (decide (Fn_Name f ∈ cs_visited st)) as [Hin|Hout].
  - by rewrite collectLog_seen.
  - rewrite collectLog_fresh by done. cbn zeta. cbn [fst snd].
    match goal with |- context [callsLog _ _ _ ?s] =>
      destruct (callsLog_NoDup d (Fn_MethodCalls f) s) as [Hnd Hdis] end.
    { intros g s. apply IH. split; [constructor|].
      intros n Hn. by apply elem_of_nil in Hn. }
    simpl in Hdis. cbn [logNames fmap list_fmap fst]. split.
    + constructor; [|done]. intros Hn. apply Hdis in Hn. set_solver.
    + intros n [->|Hn]%elem_of_cons; [done|]. apply Hdis in Hn. set_solver.
Qed.

(** *** Every processed function was reached within the budget *)

Lemma chain_cons k f g h name :
  name ∈ Fn_MethodCalls f → methodMap !! name = Some g →
  chain methodMap k g h → chain methodMap (S k) f h.
Proof.
  intros Hn Hg Hc. induction Hc as [g|k g g' h name' Hc IH Hn' Hh].
  - eapply chain_S; [apply chain_O|done|done].
  - eapply chain_S; [by apply IH|done|done].
Qed.

Lemma callsLog_budget d calls st (g : Function) (b : nat) :
  (∀ f s (g : Function) (b : nat), (g, b) ∈ (collectLog d (Some f) methodMap s).2 →
              1 ≤ b ≤ d ∧ chain methodMap (d - b) f g) →
  (g, b) ∈ (callsLog (run d) methodMap calls st).2 →
  1 ≤ b ≤ d ∧ ∃ name f, name ∈ calls ∧ methodMap !! name = Some f ∧
                        chain methodMap (d - b) f g.
Proof.
  intros Hrun. revert st. induction calls as [|name calls IH]; intros st; simpl.
  - intros H. by apply elem_of_nil in H.
  - destruct (methodMap !! name) as [f|] eqn:Hf; simpl.
    + intros [H|H]%elem_of_app.
      * apply Hrun in H as [Hb Hc]. split; [done|].
        exists name, f. split_and!; [apply list_elem_of_here|done|done].
      * apply IH in H as [Hb (name' & f' & Hn & Hf' & Hc)]. split; [done|].
        exists name', f'. split_and!; [by apply list_elem_of_further|done|done].
    + intros H. apply IH in H as [Hb (name' & f' & Hn & Hf' & Hc)]. split; [done|].
      exists name', f'. split_and!; [by apply list_elem_of_further|done|done].
Qed.

Lemma collectLog_budget d f st (g : Function) (b : nat) :
  (g, b) ∈ (collectLog d (Some f) methodMap st).2 →
  1 ≤ b ≤ d ∧ chain methodMap (d - b) f g.
Proof.
  revert f st g b. induction d as [|d IH]; intros f st g b; simpl.
  - intros H. by apply elem_of_nil in H.
  - destruct (decide _); simpl; [intros H; by apply elem_of_nil in H|].
    intros [[= -> ->]|H]%elem_of_cons.
    + split; [lia|]. replace (S d - S d) with 0 by lia. apply chain_O.
    + apply callsLog_budget in H as [Hb (name & f' & Hn & Hf' & Hc)]; [|apply IH].
      split; [lia|]. replace (S d - b) with (S (d - b)) by lia.
      by eapply chain_cons.
Qed.

(** *** A function entered with budget 2 or more has all its callees visited *)

Local Abbreviation calleesVisited := (allCalleesVisited methodMap).

Lemma collectLog_marks d f st :
  Fn_Name f ∈ cs_visited (collectLog (S d) (Some f) methodMap st).1.
Proof.
  destruct (decide (Fn_Name f ∈ cs_visited st)) as [Hin|Hout].
  - by rewrite collectLog_seen.
  - rewrite collectLog_fresh by done. cbn zeta. cbn [fst snd].
    apply callsLog_visited_mono. simpl. set_solver.
Qed.

Lemma callsLog_closed d calls st :
  (∀ f s (g : Function) (b : nat), (g, b) ∈ (collectLog d (Some f) methodMap s).2 → 2 ≤ b →
              calleesVisited g (collectLog d (Some f) methodMap s).1) →
  (∀ (g : Function) (b : nat), (g, b) ∈ (callsLog (run d) methodMap calls st).2 → 2 ≤ b →
          calleesVisited g (callsLog (run d) methodMap calls st).1) ∧
  (1 ≤ d → ∀ name h, name ∈ calls → methodMap !! name = Some h →
           Fn_Name h ∈ cs_visited (callsLog (run d) methodMap calls st).1).
Proof.
  intros Hrun. revert st. induction calls as [|name calls IH]; intros st; simpl.
  - split; [intros g b H; by apply elem_of_nil in H|].
    intros _ name h H. by apply elem_of_nil in H.
  - destruct (methodMap !! name) as [f|] eqn:Hf; simpl.
    + destruct (IH (collectLog d (Some f) methodMap st).1) as [IH1 IH2]. split.
      * intros g b [H|H]%elem_of_app Hb; [|by eapply IH1].
        intros name' h Hn Hh. apply callsLog_visited_mono.
        by eapply (Hrun f st g b).
      * intros Hd name' h [->|Hn]%elem_of_cons Hh; [|by eapply IH2].
        rewrite Hf in Hh. injection Hh as ->.
        apply callsLog_visited_mono. destruct d as [|d]; [lia|].
        apply collectLog_marks.
    + destruct (IH st) as [IH1 IH2]. split; [done|].
      intros Hd name' h [->|Hn]%elem_of_cons Hh; [congruence|by eapply IH2].
Qed.

Lemma collectLog_closed d f st (g : Function) (b : nat) :
  (g, b) ∈ (collectLog d (Some f) methodMap st).2 → 2 ≤ b →
  calleesVisited g (collectLog d (Some f) methodMap st).1.
Proof.
  revert f st g b. induction d as [|d IH]; intros f st g b; simpl.
  - intros H. by apply elem_of_nil in H.
  - destruct (decide _); simpl; [intros H; by apply elem_of_nil in H|].
    match goal with |- context [callsLog _ _ _ ?s] =>
      destruct (callsLog_closed d (Fn_MethodCalls f) s) as [H1 H2] end.
    { apply IH. }
    intros [[= -> ->]|H]%elem_of_cons Hb.
    + intros name h Hn Hh. eapply H2; [lia|done|done].
    + by eapply H1.
Qed.
End Collect.

(** ** The alias map and the release test *)

Lemma appendAlias_lookup k x (am : gmap string (list string)) v :
  default [] (appendAlias k x am !! v)
  = default [] (am !! v) ++ (if decide (k = v) then [x] else []).
Proof.
  unfold appendAlias. destruct (decide (k = v)) as [->|Hne].
  - by rewrite lookup_insert_eq.
  - rewrite lookup_insert_ne by done. by rewrite app_nil_r.
Qed.


Lemma collectAliasesFromFunc_lookup fn (am : gmap string (list string)) v a :
  a ∈ default [] (collectAliasesFromFunc am fn !! v) ↔
  a ∈ default [] (am !! v) ∨ ∃ alias, alias ∈ Fn_Aliases fn ∧ aliasJoins alias v a.
Proof.
  unfold collectAliasesFromFunc. revert am.
  induction (Fn_Aliases fn) as [|alias l IH]; intros am; simpl.
  - split; [by left|]. intros [H|(x & Hx & _)]; [done|]. by apply elem_of_nil in Hx.
  - rewrite IH, !appendAlias_lookup, !elem_of_app. unfold aliasJoins. split.
    + intros [[[H|H]|H]|(x & Hx & Hj)].
      * by left.
      * right. exists alias. split; [apply list_elem_of_here|].
        destruct (decide _) as [->|]; [|by apply elem_of_nil in H].
        apply list_elem_of_singleton in H as ->. by left.
      * right. exists alias. split; [apply list_elem_of_here|].
        destruct (decide _) as [->|]; [|by apply elem_of_nil in H].
        apply list_elem_of_singleton in H as ->. by right.
      * right. exists x. split; [by apply list_elem_of_further|done].
    + intros [H|(x & Hx & Hj)]; [by left; left; left|].
      apply elem_of_cons in Hx as [->|Hx]; [|right; by exists x].
      left. destruct Hj as [[<- <-]|[<- <-]].
      * left. right. rewrite decide_True by done. apply list_elem_of_here.
      * right. rewrite decide_True by done. apply list_elem_of_here.
Qed.

Lemma foldl_collectAliases_lookup fns (am : gmap string (list string)) v a :
  a ∈ default [] (foldl collectAliasesFromFunc am fns !! v) ↔
  a ∈ default [] (am !! v) ∨
  ∃ fn alias, fn ∈ fns ∧ alias ∈ Fn_Aliases fn ∧ aliasJoins alias v a.
Proof.
  revert am. induction fns as [|fn fns IH]; intros am; simpl.
  - split; [by left|]. intros [H|(x & ? & Hx & _)]; [done|]. by apply elem_of_nil in Hx.
  - rewrite IH, collectAliasesFromFunc_lookup. split.
    + intros [[H|(x & Hx & Hj)]|(fn' & x & Hf & Hx & Hj)].
      * by left.
      * right. exists fn, x. split_and!; [apply list_elem_of_here|done|done].
      * right. exists fn', x. split_and!; [by apply list_elem_of_further|done|done].
    + intros [H|(fn' & x & Hf & Hx & Hj)]; [by left; left|].
      apply elem_of_cons in Hf as [->|Hf].
      * left. right. by exists x.
      * right. by exists fn', x.
Qed.

Lemma buildAliasMap_fold class :
  buildAliasMap class = foldl collectAliasesFromFunc ∅ (allFunctions class).
Proof.
  unfold buildAliasMap, allFunctions. rewrite !foldl_app.
  by destruct (Class_Constructor class), (Class_Destructor class).
Qed.

(** [aliasMap[v]] lists exactly the names one alias edge away from [v]. *)
Lemma buildAliasMap_edge class v a :
  a ∈ default [] (buildAliasMap class !! v) ↔ aliasEdge class v a.
Proof.
  rewrite buildAliasMap_fold, foldl_collectAliases_lookup, lookup_empty.
  unfold aliasEdge, aliasJoins. split; [|by right].
  intros [H|H]; [by apply elem_of_nil in H | done].
Qed.

Lemma isDeleted_true dv v : isDeleted dv v = true ↔ is_Some (dv !! v).
Proof. unfold isDeleted. apply bool_decide_eq_true. Qed.

Lemma isVarDeallocated_true v dv (am : gmap string (list string)) :
  isVarDeallocated v dv am = true ↔
  is_Some (dv !! v) ∨ ∃ a, a ∈ default [] (am !! v) ∧ is_Some (dv !! a).
Proof.
  unfold isVarDeallocated. destruct (isDeleted dv v) eqn:Hd.
  - apply isDeleted_true in Hd. split; [by left|done].
  - assert (¬ is_Some (dv !! v)) as Hn.
    { intros H%isDeleted_true. congruence. }
    destruct (am !! v) as [aliases|]; simpl.
    + rewrite existsb_exists. split.
      * intros (a & Ha%list_elem_of_In & Hx%isDeleted_true). right. by exists a.
      * intros [H|(a & Ha & Hx)]; [done|]. exists a.
        split; [by apply list_elem_of_In | by apply isDeleted_true].
    + split; [done|]. intros [H|(a & Ha & _)]; [done|]. by apply elem_of_nil in Ha.
Qed.

Lemma isVarDeallocated_false v dv (am : gmap string (list string)) :
  isVarDeallocated v dv am = false ↔
  dv !! v = None ∧ ∀ a, a ∈ default [] (am !! v) → dv !! a = None.
Proof.
  rewrite <- not_true_iff_false, isVarDeallocated_true. split.
  - intros H. split.
    + apply eq_None_not_Some. intros Hs. apply H. by left.
    + intros a Ha. apply eq_None_not_Some. intros Hs. apply H. right. by exists a.
  - intros [H1 H2] [[d Hs]|(a & Ha & [d Hs])]; [congruence|].
    rewrite H2 in Hs; done.
Qed.

Lemma firstDeallocation_Some dv aliases :
  (∃ a, a ∈ aliases ∧ is_Some (dv !! a)) → is_Some (firstDeallocation dv aliases).
Proof.
  induction aliases as [|x l IH]; simpl.
  - intros (a & Ha & _). by apply elem_of_nil in Ha.
  - intros (a & Ha & Hs). destruct (dv !! x) eqn:Hx; [by eexists|].
    apply IH. apply elem_of_cons in Ha as [->|Ha]; [|by exists a].
    rewrite Hx in Hs. by destruct Hs.
Qed.

(** The deallocation of the first alias, in list order, that has one. *)
Lemma firstDeallocation_spec dv aliases d :
  firstDeallocation dv aliases = Some d ↔
  ∃ i a, aliases !! i = Some a ∧ dv !! a = Some d ∧
         ∀ j b, j < i → aliases !! j = Some b → dv !! b = None.
Proof.
  induction aliases as [|x l IH]; simpl.
  - split; [done|]. by intros (i & a & H & _).
  - destruct (dv !! x) as [d'|] eqn:Hx.
    + split.
      * intros [= <-]. exists 0, x. split_and!; [done|done|]. intros j b Hj. lia.
      * intros (i & a & Hi & Ha & Hmin). destruct i as [|i].
        -- injection Hi as <-. congruence.
        -- specialize (Hmin 0 x). rewrite Hx in Hmin. discriminate Hmin; [lia|done].
    + rewrite IH. split.
      * intros (i & a & Hi & Ha & Hmin). exists (S i), a. split_and!; [done|done|].
        intros [|j] b Hj Hb.
        -- injection Hb as <-. done.
        -- apply (Hmin j); [lia|done].
      * intros (i & a & Hi & Ha & Hmin). destruct i as [|i].
        -- injection Hi as <-. congruence.
        -- exists i, a. split_and!; [done|done|]. intros j b Hj Hb.
           apply (Hmin (S j)); [lia|done].
Qed.

(** A released variable always has a deallocation to compare with. *)
Lemma findDeallocation_released v dv (am : gmap string (list string)) :
  isVarDeallocated v dv am = true → is_Some (findDeallocation v dv am).
Proof.
  rewrite isVarDeallocated_true. unfold findDeallocation.
  destruct (dv !! v) eqn:Hv; [by eexists|].
  intros [[? H]|H]; [done|]. destruct (am !! v) as [aliases|]; simpl in *.
  - by apply firstDeallocation_Some.
  - destruct H as (a & Ha & _). by apply elem_of_nil in Ha.
Qed.

(** ** The leaks of the four rules *)

Lemma elem_of_flat_map {A B} (f : A → list B) (l : list A) (y : B) :
  y ∈ flat_map f l ↔ ∃ x, x ∈ l ∧ y ∈ f x.
Proof.
  rewrite list_elem_of_In, in_flat_map. split; intros (x & H1 & H2); exists x.
  - by rewrite !list_elem_of_In.
  - by rewrite <- !list_elem_of_In.
Qed.

Lemma rule1Body_leaks class k a l :
  l ∈ rule1Body class (k, a) → Leak_VarName l = k ∧ Leak_Reason l ∈ rule1Reasons.
Proof.
  unfold rule1Body, rule1Reasons. destruct (negb _).
  { intros ->%list_elem_of_singleton. simpl. split; [done|]. set_solver. }
  destruct (findDeallocation _ _ _) as [d|]; [|by intros ?%elem_of_nil].
  destruct (_ && _).
  { intros ->%list_elem_of_singleton. simpl. split; [done|]. set_solver. }
  destruct (_ && _); [|by intros ?%elem_of_nil].
  intros ->%list_elem_of_singleton. simpl. split; [done|]. set_solver.
Qed.

Lemma rule2_leaks class l :
  l ∈ rule2 class →
  ∃ method alloc, method ∈ Class_Methods class ∧ alloc ∈ Fn_Allocations method ∧
                  l ∈ rule2Body class method alloc.
Proof.
  unfold rule2. intros (m & Hm & (a & Ha & H)%elem_of_flat_map)%elem_of_flat_map.
  by exists m, a.
Qed.

Lemma rule3_leaks class l :
  l ∈ rule3 class →
  ∃ method alias, method ∈ Class_Methods class ∧ alias ∈ Fn_Aliases method ∧
                  l ∈ rule3Body class method alias.
Proof.
  unfold rule3. intros (m & Hm & (a & Ha & H)%elem_of_flat_map)%elem_of_flat_map.
  by exists m, a.
Qed.

Lemma rule2Body_reason class method alloc l :
  l ∈ rule2Body class method alloc → Leak_Reason l = reasonReassigned (Fn_Name method).
Proof.
  unfold rule2Body. repeat case_match; try by intros ?%elem_of_nil.
  by intros ->%list_elem_of_singleton.
Qed.

Lemma rule3Body_reason class method alias l :
  l ∈ rule3Body class method alias →
  Leak_Reason l = reasonDoubleFree (Alias_TargetVar alias).
Proof.
  unfold rule3Body. repeat case_match; try by intros ?%elem_of_nil.
  by intros ->%list_elem_of_singleton.
Qed.

Lemma rule4Body_reason class entry l :
  l ∈ rule4Body class entry → Leak_Reason l = reasonNoDestructor.
Proof.
  unfold rule4Body. case_match; [|by intros ?%elem_of_nil].
  by intros ->%list_elem_of_singleton.
Qed.

(** The reasons of Rules 2, 3 and 4 start with the word [pointer], those
    of Rule 1 with [allocated]. *)
Lemma reason_not_rule1 r :
  (∃ n, r = reasonReassigned n) ∨ (∃ t, r = reasonDoubleFree t) ∨ r = reasonNoDestructor →
  r ∉ rule1Reasons.
Proof.
  unfold rule1Reasons. rewrite !not_elem_of_cons.
  intros [[n ->]|[[t ->]| ->]]; split_and!; try discriminate; apply not_elem_of_nil.
Qed.

Lemma filter_none {A} (P : A → Prop) `{∀ x, Decision (P x)} (l : list A) :
  (∀ x, x ∈ l → ¬ P x) → filter P l = [].
Proof.
  induction l as [|x l IH]; [done|]. intros Hall.
  rewrite filter_cons_False by (apply Hall, list_elem_of_here).
  apply IH. intros y Hy. apply Hall. by apply list_elem_of_further.
Qed.

Lemma filter_all {A} (P : A → Prop) `{∀ x, Decision (P x)} (l : list A) :
  (∀ x, x ∈ l → P x) → filter P l = l.
Proof.
  induction l as [|x l IH]; [done|]. intros Hall.
  rewrite filter_cons_True by (apply Hall, list_elem_of_here).
  f_equal. apply IH. intros y Hy. apply Hall. by apply list_elem_of_further.
Qed.

(** Among the leaks of the Rule-1 loop, those about [v] are the ones its
    single iteration for [v] emitted. *)
Lemma rule1_filter class v (order : list (string * Allocation)) :
  NoDup order.*1 →
  filter (isRule1LeakFor v) (flat_map (rule1Body class) order)
  = match list_find (fun e => e.1 = v) order with
    | Some (_, e) => rule1Body class e
    | None => []
    end.
Proof.
  induction order as [|[k a] l IH]; [done|]. simpl. intros [Hk Hnd]%NoDup_cons.
  rewrite filter_app, IH by done. destruct (decide (k = v)) as [->|Hne]; simpl.
  - rewrite filter_all by (intros x Hx; by apply rule1Body_leaks in Hx).
    assert (list_find (fun e : string * Allocation => e.1 = v) l = None) as ->.
    { apply list_find_None, Forall_forall. intros [k' a'] Hin Heq.
      simpl in Heq. subst k'.
      apply Hk. apply list_elem_of_fmap. by exists (v, a'). }
    apply app_nil_r.
  - rewrite filter_none.
    2:{ intros x Hx [Hv _]. apply rule1Body_leaks in Hx as [Hx _]. congruence. }
    simpl. by destruct (list_find _ l) as [[? ?]|].
Qed.

Lemma analyzeClassOutput_canonical class :
  analyzeClassOutput class (analyzeClass class).
Proof. by exists (map_to_list (allocatedVars class)), (map_to_list (pointerMembers class)). Qed.

(** All the lists a run may return are rearrangements of one another. *)
Lemma analyzeClassOutput_Permutation class leaks :
  analyzeClassOutput class leaks → leaks ≡ₚ analyzeClass class.
Proof.
  intros (o1 & o4 & H1 & H4 & ->). unfold analyzeClass, analyzeClassWith.
  destruct (decide _); [done|].
  apply Permutation_app; [by apply Permutation_flat_map|].
  do 2 (apply Permutation_app; [done|]).
  destruct (Class_Destructor class); [done|]. by apply Permutation_flat_map.
Qed.

Lemma analyzeClassOutput_elem_of class leaks l :
  analyzeClassOutput class leaks →
  l ∈ leaks ↔
  pointerMembers class ≠ ∅ ∧
  ((∃ v alloc, allocatedVars class !! v = Some alloc ∧ l ∈ rule1Body class (v, alloc))
   ∨ l ∈ rule2 class
   ∨ l ∈ rule3 class
   ∨ (Class_Destructor class = None ∧
      ∃ name m, pointerMembers class !! name = Some m ∧ l ∈ rule4Body class (name, m))).
Proof.
  intros (o1 & o4 & H1 & H4 & ->). unfold analyzeClassWith.
  destruct (decide _) as [He|Hne].
  { split; [by intros ?%elem_of_nil | by intros [? _]]. }
  rewrite !elem_of_app, !elem_of_flat_map.
  assert ((∃ x, x ∈ o1 ∧ l ∈ rule1Body class x) ↔
          (∃ v alloc, allocatedVars class !! v = Some alloc
                      ∧ l ∈ rule1Body class (v, alloc))) as ->.
  { split.
    - intros ([v a] & Hx & Hl). exists v, a. split; [|done].
      apply elem_of_map_to_list. by rewrite <- H1.
    - intros (v & a & Hx & Hl). exists (v, a). split; [|done].
      rewrite H1. by apply elem_of_map_to_list. }
  assert (l ∈ match Class_Destructor class with
              | Some _ => []
              | None => flat_map (rule4Body class) o4
              end ↔
          (Class_Destructor class = None ∧
           ∃ name m, pointerMembers class !! name = Some m
                     ∧ l ∈ rule4Body class (name, m))) as ->.
  { destruct (Class_Destructor class).
    - split; [by intros ?%elem_of_nil | by intros [? _]].
    - rewrite elem_of_flat_map. split.
      + intros ([n m] & Hx & Hl). split; [done|]. exists n, m. split; [|done].
        apply elem_of_map_to_list. by rewrite <- H4.
      + intros [_ (n & m & Hx & Hl)]. exists (n, m). split; [|done].
        rewrite H4. by apply elem_of_map_to_list. }
  tauto.
Qed.

(** The Rule-1 leaks about [v] in any output: what the iteration for the
    entry of [v] in [allocatedVars] emitted, nothing if there is none. *)
Lemma analyzeClassOutput_rule1 class leaks v :
  analyzeClassOutput class leaks →
  pointerMembers class ≠ ∅ →
  filter (isRule1LeakFor v) leaks
  = match allocatedVars class !! v with
    | Some alloc => rule1Body class (v, alloc)
    | None => []
    end.
Proof.
  intros (o1 & o4 & H1 & H4 & ->) Hne. unfold analyzeClassWith.
  rewrite decide_False by done. rewrite !filter_app.
  rewrite (filter_none _ (rule2 class)), (filter_none _ (rule3 class)).
  - rewrite (filter_none _ (match Class_Destructor class with
                            | Some _ => [] | None => _ end)).
    + rewrite !app_nil_r, rule1_filter.
      2:{ rewrite H1. apply NoDup_fst_map_to_list. }
      destruct (list_find _ o1) as [[i [k a]]|] eqn:Hf.
      * apply list_find_Some in Hf as (Hi & Hk & _). simpl in Hk. subst k.
        assert ((v, a) ∈ o1) as Hin by (by eapply list_elem_of_lookup_2).
        rewrite H1 in Hin. apply elem_of_map_to_list in Hin. by rewrite Hin.
      * destruct (allocatedVars class !! v) as [a|] eqn:Ha; [|done].
        apply elem_of_map_to_list in Ha. rewrite <- H1 in Ha.
        eapply list_find_None, Forall_forall in Hf; [|done]. done.
    + intros x Hx [_ Hr]. revert Hr. apply reason_not_rule1.
      destruct (Class_Destructor class); [by apply elem_of_nil in Hx|].
      apply elem_of_flat_map in Hx as (e & _ & Hx%rule4Body_reason). auto.
  - intros x (m & a & _ & _ & Hx%rule3Body_reason)%rule3_leaks [_ Hr].
    revert Hr. apply reason_not_rule1. eauto.
  - intros x (m & a & _ & _ & Hx%rule2Body_reason)%rule2_leaks [_ Hr].
    revert Hr. apply reason_not_rule1. eauto.
Qed.

(** ** Rule 1 *)

Lemma deallocatedVars_visited class v :
  is_Some (deallocatedVars class !! v) ↔
  ∃ f, f ∈ visitedFunctions class ∧ deletes f v.
Proof.
  unfold deallocatedVars, visitedFunctions.
  destruct (Class_Destructor class) as [dtor|].
  - rewrite <- collectLog_state, <- elem_of_dom, collectLog_result. simpl.
    rewrite dom_empty_L. unfold logDeletes. split.
    + intros [H|(e & He & Hd)]; [by apply elem_of_empty in H|].
      exists e.1. split; [|done]. apply list_elem_of_fmap. by exists e.
    + intros (f & (e & -> & He)%list_elem_of_fmap & Hd). right. by exists e.
  - rewrite lookup_empty. split; [by intros [? ?]|].
    intros (f & Hf & _). by apply elem_of_nil in Hf.
Qed.

Lemma released_no_missing_leak class v alloc l :
  isVarDeallocated v (deallocatedVars class) (buildAliasMap class) = true →
  l ∈ rule1Body class (v, alloc) → Leak_Reason l ≠ reasonNotDeleted.
Proof.
  unfold rule1Body. intros ->. simpl.
  destruct (findDeallocation _ _ _) as [d|]; [|by intros ?%elem_of_nil].
  destruct (_ && _); [by intros ->%list_elem_of_singleton|].
  destruct (_ && _); [by intros ->%list_elem_of_singleton|].
  by intros ?%elem_of_nil.
Qed.

Lemma missing_leak_origin class leaks l :
  analyzeClassOutput class leaks → l ∈ leaks →
  Leak_Reason l = reasonNotDeleted →
  ∃ alloc, allocatedVars class !! Leak_VarName l = Some alloc ∧
           l ∈ rule1Body class (Leak_VarName l, alloc).
Proof.
  intros Hout Hl Hr. apply (analyzeClassOutput_elem_of _ _ l Hout) in Hl as [_ Hl].
  assert (Leak_Reason l ∈ rule1Reasons) as Hin.
  { rewrite Hr. unfold rule1Reasons. set_solver. }
  destruct Hl as [(v & alloc & Ha & Hb)|[H|[H|[_ (n & m & _ & H)]]]].
  - destruct (rule1Body_leaks _ _ _ _ Hb) as [<- _]. by exists alloc.
  - apply rule2_leaks in H as (m & a & _ & _ & H%rule2Body_reason).
    exfalso. revert Hin. apply reason_not_rule1. eauto.
  - apply rule3_leaks in H as (m & a & _ & _ & H%rule3Body_reason).
    exfalso. revert Hin. apply reason_not_rule1. eauto.
  - apply rule4Body_reason in H.
    exfalso. revert Hin. apply reason_not_rule1. eauto.
Qed.

Lemma alias_discharge_aux class leaks x y f l :
  analyzeClassOutput class leaks →
  y = x ∨ aliasEdge class x y →
  f ∈ visitedFunctions class →
  deletes f y →
  l ∈ leaks → ¬ (Leak_VarName l = x ∧ Leak_Reason l = reasonNotDeleted).
Proof.
  intros Hout Hy Hf Hd Hl [Hv Hr].
  destruct (missing_leak_origin _ _ _ Hout Hl Hr) as (alloc & _ & Hb).
  revert Hr. eapply released_no_missing_leak; [|exact Hb].
  rewrite Hv. apply isVarDeallocated_true.
  assert (is_Some (deallocatedVars class !! y)) as Hs.
  { apply deallocatedVars_visited. by exists f. }
  destruct Hy as [->|He]; [by left|]. right. exists y.
  by rewrite buildAliasMap_edge.
Qed.

(** C1 (as amended) — the release obligation on [x] is discharged, i.e. no
    output of the analyzer holds a missing-deallocation leak for [x],
    whenever [x] itself or a name joined to [x] by ONE alias edge is passed
    to [delete] in a function that the collection started at the destructor
    processes. *)
Theorem alias_discharge_one_edge class leaks x y f :
  analyzeClassOutput class leaks →
  y = x ∨ aliasEdge class x y →
  f ∈ visitedFunctions class →
  deletes f y →
  ∀ l, l ∈ leaks → ¬ (Leak_VarName l = x ∧ Leak_Reason l = reasonNotDeleted).
Proof. intros Hout Hy Hf Hd l. by eapply alias_discharge_aux. Qed.

Lemma alias_discharge_one_edge_witness :
  Forall (fun l => ¬ (Leak_VarName l = "x" ∧ Leak_Reason l = reasonNotDeleted))
         (analyzeClass aliasOnceClass).
Proof.
  apply Forall_forall.
  apply (alias_discharge_one_edge aliasOnceClass (analyzeClass aliasOnceClass)
           "x" "y"
           (plainFunction "~B" true 4 [] [mkDeallocation "y" false 4] []
              [mkPointerAlias "x" "y" 4])).
  - exists (map_to_list (allocatedVars aliasOnceClass)),
           (map_to_list (pointerMembers aliasOnceClass)). by split_and!.
  - right. exists (plainFunction "~B" true 4 [] [mkDeallocation "y" false 4] []
                     [mkPointerAlias "x" "y" 4]), (mkPointerAlias "x" "y" 4).
    split_and!; [|apply list_elem_of_here|left; split; reflexivity].
    vm_compute. apply list_elem_of_further, list_elem_of_here.
  - vm_compute. apply list_elem_of_here.
  - exists (mkDeallocation "y" false 4). split; [apply list_elem_of_here|reflexivity].
Defined.

(** C1 (as stated) fails: in [aliasChainClass] the destructor deletes [z],
    [z] is reachable from the allocated member [x] through the alias edges
    [x - y] and [y - z], and the analyzer still reports [x] as not deleted. *)
Lemma alias_discharge_transitive_counterexample :
  ¬ (∀ class leaks x z dtor k f,
       analyzeClassOutput class leaks →
       aliasReachable class x z →
       Class_Destructor class = Some dtor →
       chain (buildMethodMap class) k dtor f →
       deletes f z →
       ∀ l, l ∈ leaks → ¬ (Leak_VarName l = x ∧ Leak_Reason l = reasonNotDeleted)).
Proof.
  intros H.
  set (dtor := plainFunction "~A" true 4 [] [mkDeallocation "z" false 4] []
                 [mkPointerAlias "x" "y" 4; mkPointerAlias "y" "z" 4]).
  apply (H aliasChainClass (analyzeClass aliasChainClass) "x" "z" dtor 0 dtor
           (analyzeClassOutput_canonical _)) with
    (l := mkLeak "a.cpp" 3 "A" "x" reasonNotDeleted "error").
  - apply rtc_l with "y"; [|apply rtc_once].
    + exists dtor, (mkPointerAlias "x" "y" 4). split_and!.
      * vm_compute. apply list_elem_of_further, list_elem_of_here.
      * apply list_elem_of_here.
      * by left.
    + exists dtor, (mkPointerAlias "y" "z" 4). split_and!.
      * vm_compute. apply list_elem_of_further, list_elem_of_here.
      * apply list_elem_of_further, list_elem_of_here.
      * by left.
  - reflexivity.
  - apply chain_O.
  - exists (mkDeallocation "z" false 4). split; [apply list_elem_of_here|reflexivity].
  - vm_compute. apply list_elem_of_here.
  - by split.
Qed.

(** C1, second reading — with one alias edge only but the [delete] taken
    anywhere in the destructor's call closure the statement fails as well:
    [lateEntryClass] deletes [p] in [m], two invocation edges from the
    destructor, and [p] is reported as not deleted. *)
Lemma alias_discharge_closure_counterexample :
  ¬ (∀ class leaks x dtor k f,
       analyzeClassOutput class leaks →
       Class_Destructor class = Some dtor →
       chain (buildMethodMap class) k dtor f →
       deletes f x →
       ∀ l, l ∈ leaks → ¬ (Leak_VarName l = x ∧ Leak_Reason l = reasonNotDeleted)).
Proof.
  intros H.
  apply (H lateEntryClass (analyzeClass lateEntryClass) "p"
           (plainFunction "~D" true 4 [] [] ["x"; "c"] []) 2
           (plainFunction "m" false 9 [] [mkDeallocation "p" false 9] [] [])
           (analyzeClassOutput_canonical _)) with
    (l := mkLeak "d.cpp" 3 "D" "p" reasonNotDeleted "error").
  - reflexivity.
  - eapply chain_S with (name := "m");
      [eapply chain_S with (name := "c"); [apply chain_O| |]| |].
    + apply list_elem_of_further, list_elem_of_here.
    + reflexivity.
    + apply list_elem_of_here.
    + reflexivity.
  - exists (mkDeallocation "p" false 9). split; [apply list_elem_of_here|reflexivity].
  - vm_compute. apply list_elem_of_here.
  - by split.
Qed.

Lemma missing_leak_filter class leaks v alloc :
  analyzeClassOutput class leaks →
  pointerMembers class ≠ ∅ →
  allocatedVars class !! v = Some alloc →
  deallocatedVars class !! v = None →
  (∀ a, aliasEdge class v a → deallocatedVars class !! a = None) →
  filter (isRule1LeakFor v) leaks
  = [mkLeak (Class_File class) (Alloc_Line alloc) (Class_Name class) v
            reasonNotDeleted "error"].
Proof.
  intros Hout Hne Ha Hv Hal.
  assert (isVarDeallocated v (deallocatedVars class) (buildAliasMap class) = false)
    as Hrel.
  { apply isVarDeallocated_false. split; [done|].
    intros a Hin. by apply Hal, buildAliasMap_edge. }
  rewrite (analyzeClassOutput_rule1 _ _ _ Hout Hne), Ha.
  unfold rule1Body. by rewrite Hrel.
Qed.

Lemma missing_leak_present class leaks v alloc :
  analyzeClassOutput class leaks →
  pointerMembers class ≠ ∅ →
  allocatedVars class !! v = Some alloc →
  deallocatedVars class !! v = None →
  (∀ a, aliasEdge class v a → deallocatedVars class !! a = None) →
  mkLeak (Class_File class) (Alloc_Line alloc) (Class_Name class) v
         reasonNotDeleted "error" ∈ leaks.
Proof.
  intros Hout Hne Ha Hv Hal.
  pose proof (missing_leak_filter _ _ _ _ Hout Hne Ha Hv Hal) as Hf.
  assert (mkLeak (Class_File class) (Alloc_Line alloc) (Class_Name class) v
                 reasonNotDeleted "error" ∈ filter (isRule1LeakFor v) leaks) as Hin.
  { rewrite Hf. apply list_elem_of_here. }
  by apply list_elem_of_filter in Hin as [_ Hin].
Qed.

(** C2 — in a class with at least one pointer member, an entry
    [(v, alloc)] of [allocatedVars] whose name is not a key of the collected
    deallocation map, and none of whose alias neighbours is, yields exactly
    one Rule-1 leak about [v] in every output: severity [error], the reason
    "allocated with 'new' but not deleted in destructor", line
    [alloc.Line]. *)
Theorem rule1_missing_delete class leaks v alloc :
  analyzeClassOutput class leaks →
  pointerMembers class ≠ ∅ →
  allocatedVars class !! v = Some alloc →
  deallocatedVars class !! v = None →
  (∀ a, aliasEdge class v a → deallocatedVars class !! a = None) →
  let leak := mkLeak (Class_File class) (Alloc_Line alloc) (Class_Name class) v
                     reasonNotDeleted "error" in
  filter (isRule1LeakFor v) leaks = [leak] ∧
  leak ∈ leaks ∧
  length (filter (fun l => Leak_VarName l = v ∧ Leak_Reason l = reasonNotDeleted)
                 leaks) = 1.
Proof.
  intros Hout Hne Ha Hv Hal leak.
  pose proof (missing_leak_filter _ _ _ _ Hout Hne Ha Hv Hal) as Hf.
  split_and!; [done|by apply missing_leak_present|].
  assert (filter (fun l => Leak_VarName l = v ∧ Leak_Reason l = reasonNotDeleted) leaks
          = filter (fun l => Leak_Reason l = reasonNotDeleted)
                   (filter (isRule1LeakFor v) leaks)) as ->.
  { clear. induction leaks as [|l leaks IH]; [done|].
    rewrite !filter_cons. unfold isRule1LeakFor, rule1Reasons.
    repeat case_decide; rewrite ?filter_cons; repeat case_decide;
      try (rewrite IH; done); try (f_equal; done); exfalso; set_solver. }
  by rewrite Hf.
Qed.

Lemma rule1_missing_delete_witness :
  filter (isRule1LeakFor "ptr") (analyzeClass basicLeakClass)
  = [mkLeak "edge_cases.cpp" 6 "BasicLeak" "ptr" reasonNotDeleted "error"].
Proof.
  apply (rule1_missing_delete basicLeakClass (analyzeClass basicLeakClass) "ptr"
           (mkAllocation "ptr" false 6)).
  - exists (map_to_list (allocatedVars basicLeakClass)),
           (map_to_list (pointerMembers basicLeakClass)). by split_and!.
  - intros H. apply (f_equal (fun m => m !! "ptr")) in H. vm_compute in H. discriminate.
  - reflexivity.
  - reflexivity.
  - intros a _. reflexivity.
Defined.

(** What the collection records under a name is a [delete] of that name
    in one of the functions it processed. *)
Lemma replayLog_lookup_Some result log v d :
  replayLog result log !! v = Some d →
  result !! v = Some d ∨
  ∃ e, e ∈ log ∧ d ∈ Fn_Deallocations e.1 ∧ Dealloc_VarName d = v.
Proof.
  unfold replayLog. revert result.
  induction log as [|e log IH]; intros result; simpl; [by left|].
  intros [H|(e' & He' & Hd)]%IH.
  - unfold addDeallocations in H.
    apply insert_loop_lookup_Some in H as [H|[H1 H2]]; [by left|].
    right. exists e. split; [apply list_elem_of_here|done].
  - right. exists e'. split; [by apply list_elem_of_further|done].
Qed.

Lemma deallocatedVars_lookup_Some class v d :
  deallocatedVars class !! v = Some d →
  ∃ f, f ∈ visitedFunctions class ∧ d ∈ Fn_Deallocations f ∧ Dealloc_VarName d = v.
Proof.
  unfold deallocatedVars, visitedFunctions.
  destruct (Class_Destructor class) as [dtor|]; [|by rewrite lookup_empty].
  rewrite <- collectLog_state, collectLog_replay. simpl.
  intros [H|(e & He & Hd)]%replayLog_lookup_Some; [by rewrite lookup_empty in H|].
  exists e.1. split; [|done]. apply list_elem_of_fmap. by exists e.
Qed.

(** C3 — a released entry [(v, alloc)] always has a deallocation
    [d = findDeallocation v], and [d] is pinned: it is the deallocation
    collected for [v] itself when there is one, and otherwise the one
    collected for the first name of the alias list of [v] that has one; in
    both cases [d] is a [delete], recorded in a function the collection
    processed, of [v] or of a name joined to [v] by an alias.  The Rule-1
    leaks about [v] are then: one [error] at [d.Line] when [new[]] meets
    [delete], one [warning] at [d.Line] when [new] meets [delete[]], and
    none when the forms agree. *)
Theorem rule1_arity class leaks v alloc :
  analyzeClassOutput class leaks →
  pointerMembers class ≠ ∅ →
  allocatedVars class !! v = Some alloc →
  (is_Some (deallocatedVars class !! v) ∨
   ∃ a, aliasEdge class v a ∧ is_Some (deallocatedVars class !! a)) →
  ∃ d, findDeallocation v (deallocatedVars class) (buildAliasMap class) = Some d ∧
    (∀ d0, deallocatedVars class !! v = Some d0 → d = d0) ∧
    (deallocatedVars class !! v = None →
     ∃ i a, default [] (buildAliasMap class !! v) !! i = Some a ∧
            aliasEdge class v a ∧ deallocatedVars class !! a = Some d ∧
            ∀ j b, j < i → default [] (buildAliasMap class !! v) !! j = Some b →
                   deallocatedVars class !! b = None) ∧
    (∃ f, f ∈ visitedFunctions class ∧ d ∈ Fn_Deallocations f ∧
          (Dealloc_VarName d = v ∨ aliasEdge class v (Dealloc_VarName d))) ∧
    (Alloc_IsArray alloc = true → Dealloc_IsArray d = false →
       filter (isRule1LeakFor v) leaks
       = [mkLeak (Class_File class) (Dealloc_Line d) (Class_Name class) v
                 reasonArrayAsScalar "error"]) ∧
    (Alloc_IsArray alloc = false → Dealloc_IsArray d = true →
       filter (isRule1LeakFor v) leaks
       = [mkLeak (Class_File class) (Dealloc_Line d) (Class_Name class) v
                 reasonScalarAsArray "warning"]) ∧
    (Alloc_IsArray alloc = Dealloc_IsArray d →
       filter (isRule1LeakFor v) leaks = []).
Proof.
  intros Hout Hne Ha Hrel.
  assert (isVarDeallocated v (deallocatedVars class) (buildAliasMap class) = true)
    as Hdel.
  { apply isVarDeallocated_true. destruct Hrel as [H|(a & He & Hs)]; [by left|].
    right. exists a. by rewrite buildAliasMap_edge. }
  destruct (findDeallocation_released _ _ _ Hdel) as [d Hd]. exists d.
  assert (deallocatedVars class !! v = None →
          ∃ i a, default [] (buildAliasMap class !! v) !! i = Some a ∧
                 aliasEdge class v a ∧ deallocatedVars class !! a = Some d ∧
                 ∀ j b, j < i → default [] (buildAliasMap class !! v) !! j = Some b →
                        deallocatedVars class !! b = None) as Halias.
  { intros Hv. pose proof Hd as Hd'. unfold findDeallocation in Hd'. rewrite Hv in Hd'.
    destruct (buildAliasMap class !! v) as [aliases|] eqn:Ham; [|done]. simpl.
    apply firstDeallocation_spec in Hd' as (i & a & Hi & Hda & Hmin).
    exists i, a. split_and!; [done| |done|done].
    apply buildAliasMap_edge. rewrite Ham. simpl. by eapply list_elem_of_lookup_2. }
  split_and!.
  - done.
  - intros d0 Hv. unfold findDeallocation in Hd. rewrite Hv in Hd. by injection Hd.
  - done.
  - destruct (deallocatedVars class !! v) as [d0|] eqn:Hv.
    + unfold findDeallocation in Hd. rewrite Hv in Hd. injection Hd as ->.
      apply deallocatedVars_lookup_Some in Hv as (f & Hf & Hin & Hname).
      exists f. split_and!; [done|done|by left].
    + destruct (Halias eq_refl) as (i & a & _ & He & Hda & _).
      apply deallocatedVars_lookup_Some in Hda as (f & Hf & Hin & Hname).
      exists f. split_and!; [done|done|]. right. by rewrite Hname.
  - rewrite (analyzeClassOutput_rule1 _ _ _ Hout Hne), Ha.
    unfold rule1Body. rewrite Hdel, Hd. simpl. by intros -> ->.
  - rewrite (analyzeClassOutput_rule1 _ _ _ Hout Hne), Ha.
    unfold rule1Body. rewrite Hdel, Hd. simpl. by intros -> ->.
  - rewrite (analyzeClassOutput_rule1 _ _ _ Hout Hne), Ha.
    unfold rule1Body. rewrite Hdel, Hd. simpl.
    intros ->. by destruct (Dealloc_IsArray d).
Qed.

Lemma rule1_arity_witness :
  findDeallocation "arr" (deallocatedVars arrayMismatchNewArray)
    (buildAliasMap arrayMismatchNewArray) = Some (mkDeallocation "arr" false 7) ∧
  filter (isRule1LeakFor "arr") (analyzeClass arrayMismatchNewArray)
  = [mkLeak "edge_cases.cpp" 7 "ArrayMismatchNewArray" "arr"
            reasonArrayAsScalar "error"].
Proof.
  destruct (rule1_arity arrayMismatchNewArray (analyzeClass arrayMismatchNewArray)
              "arr" (mkAllocation "arr" true 6))
    as (d & Hd & Hpin & _ & _ & Herr & _ & _).
  - exists (map_to_list (allocatedVars arrayMismatchNewArray)),
           (map_to_list (pointerMembers arrayMismatchNewArray)). by split_and!.
  - intros H. apply (f_equal (fun m => m !! "arr")) in H. vm_compute in H. discriminate.
  - reflexivity.
  - left. by exists (mkDeallocation "arr" false 7).
  - rewrite (Hpin (mkDeallocation "arr" false 7) eq_refl) in Hd, Herr.
    split; [exact Hd|]. by apply Herr.
Defined.
(** ** The depth budget *)

Lemma chain_level methodMap k f g :
  chain methodMap k f g ↔ g ∈ level methodMap f k.
Proof.
  split.
  - induction 1 as [f|k f g h name Hc IH Hn Hh]; simpl; [apply list_elem_of_here|].
    apply elem_of_flat_map. exists g. split; [done|].
    unfold callees. apply list_elem_of_omap. by exists name.
  - revert g. induction k as [|k IH]; intros g; simpl.
    + intros ->%list_elem_of_singleton. apply chain_O.
    + intros (g' & Hg' & Hg)%elem_of_flat_map.
      unfold callees in Hg. apply list_elem_of_omap in Hg as (name & Hn & Hh).
      eapply chain_S; [by apply IH|done|done].
Qed.

Lemma chain_last methodMap k f h :
  chain methodMap k f h →
  (k = 0 ∧ h = f) ∨
  ∃ k' g name, k = S k' ∧ chain methodMap k' f g ∧
               name ∈ Fn_MethodCalls g ∧ methodMap !! name = Some h.
Proof. destruct 1; [by left|]. right. by eexists _, _, _. Qed.

(** *** Call paths and simple chains *)

Lemma callPath_snoc methodMap f path g name h :
  callPath methodMap f path g →
  name ∈ Fn_MethodCalls g → methodMap !! name = Some h →
  callPath methodMap f (path ++ [h]) h.
Proof.
  revert f. induction path as [|x path IH]; intros f; simpl.
  - intros -> Hn Hh. split; [by exists name|done].
  - intros [Hx Hp] Hn Hh. split; [done|by apply IH].
Qed.

Lemma callPath_chain methodMap f path g :
  callPath methodMap f path g → chain methodMap (length path) f g.
Proof.
  revert f. induction path as [|x path IH]; intros f; simpl.
  - intros ->. apply chain_O.
  - intros [(name & Hn & Hx) Hp]. eapply chain_cons; [done|done|by apply IH].
Qed.

Lemma simpleChain_chain methodMap k f g :
  simpleChain methodMap k f g → chain methodMap k f g.
Proof. intros (path & <- & Hp & _). by apply callPath_chain. Qed.

(** [simpleEnds] finds the end of every simple chain. *)
Lemma callPath_simpleEnds methodMap f path g seen :
  callPath methodMap f path g →
  NoDup (Fn_Name <$> f :: path) →
  (∀ h, h ∈ f :: path → Fn_Name h ∉ seen) →
  g ∈ simpleEnds methodMap (length path) seen f.
Proof.
  revert f seen. induction path as [|x path IH]; intros f seen; simpl.
  - intros -> _ Hseen. rewrite bool_decide_eq_false_2; [apply list_elem_of_here|].
    apply Hseen, list_elem_of_here.
  - intros [(name & Hn & Hx) Hp] Hnd Hseen.
    rewrite bool_decide_eq_false_2 by apply Hseen, list_elem_of_here.
    apply elem_of_flat_map. exists x. split.
    + unfold callees. apply list_elem_of_omap. by exists name.
    + apply IH; [done|by apply NoDup_cons in Hnd as [_ ?]|].
      intros h Hh [Heq|Hin]%elem_of_cons.
      * apply NoDup_cons in Hnd as [Hnd _]. apply Hnd. rewrite <- Heq.
        change (Fn_Name h ∈ Fn_Name <$> x :: path).
        apply list_elem_of_fmap. by exists h.
      * revert Hin. by apply (Hseen h), list_elem_of_further.
Qed.

Lemma simpleChain_simpleEnds methodMap k f g :
  simpleChain methodMap k f g → g ∈ simpleEnds methodMap k [] f.
Proof.
  intros (path & <- & Hp & Hnd). apply callPath_simpleEnds; [done|done|].
  intros h _ H. by apply elem_of_nil in H.
Qed.

(** *** Who entered a processed function *)

Section Entered.
Variable methodMap : gmap string Function.

Lemma callsLog_caller d calls st (g : Function) (b : nat) :
  (∀ f s (g : Function) (b : nat),
     (g, b) ∈ (collectLog d (Some f) methodMap s).2 →
     (g = f ∧ b = d) ∨
     ∃ g' name, (g', S b) ∈ (collectLog d (Some f) methodMap s).2 ∧
                name ∈ Fn_MethodCalls g' ∧ methodMap !! name = Some g) →
  (g, b) ∈ (callsLog (fun g s => collectLog d (Some g) methodMap s)
              methodMap calls st).2 →
  (b = d ∧ ∃ name, name ∈ calls ∧ methodMap !! name = Some g) ∨
  ∃ g' name,
    (g', S b) ∈ (callsLog (fun g s => collectLog d (Some g) methodMap s)
                   methodMap calls st).2 ∧
    name ∈ Fn_MethodCalls g' ∧ methodMap !! name = Some g.
Proof.
  intros Hrun. revert st. induction calls as [|name calls IH]; intros st; simpl.
  - intros H. by apply elem_of_nil in H.
  - destruct (methodMap !! name) as [f|] eqn:Hf; simpl.
    + intros [H|H]%elem_of_app.
      * apply Hrun in H as [[-> ->]|(g' & name' & Hlog & Hn & Hg)].
        -- left. split; [done|]. exists name. split; [apply list_elem_of_here|done].
        -- right. exists g', name'. split_and!; [|done|done].
           apply elem_of_app. by left.
      * apply IH in H as [[-> (name' & Hn & Hg)]|(g' & name' & Hlog & Hn & Hg)].
        -- left. split; [done|]. exists name'.
           split; [by apply list_elem_of_further|done].
        -- right. exists g', name'. split_and!; [|done|done].
           apply elem_of_app. by right.
    + intros H.
      apply IH in H as [[-> (name' & Hn & Hg)]|(g' & name' & Hlog & Hn & Hg)].
      * left. split; [done|]. exists name'.
        split; [by apply list_elem_of_further|done].
      * right. by exists g', name'.
Qed.

(** A processed function is the one the traversal started from, or was
    invoked by a function entered with one more of the budget. *)
Lemma collectLog_caller d f st (g : Function) (b : nat) :
  (g, b) ∈ (collectLog d (Some f) methodMap st).2 →
  (g = f ∧ b = d) ∨
  ∃ g' name, (g', S b) ∈ (collectLog d (Some f) methodMap st).2 ∧
             name ∈ Fn_MethodCalls g' ∧ methodMap !! name = Some g.
Proof.
  revert f st g b. induction d as [|d IH]; intros f st g b; simpl.
  - intros H. by apply elem_of_nil in H.
  - destruct (decide _); simpl; [intros H; by apply elem_of_nil in H|].
    intros [[= -> ->]|H]%elem_of_cons; [by left|]. right.
    apply callsLog_caller in H as [[-> (name & Hn & Hg)]|(g' & name & Hlog & Hn & Hg)];
      [| |apply IH].
    + exists f, name. split_and!; [apply list_elem_of_here|done|done].
    + exists g', name. split_and!; [by apply list_elem_of_further|done|done].
Qed.

Lemma logNames_inj (log : list (Function * nat)) e1 e2 :
  NoDup (logNames log) → e1 ∈ log → e2 ∈ log →
  Fn_Name e1.1 = Fn_Name e2.1 → e1 = e2.
Proof.
  unfold logNames. induction log as [|e log IH]; simpl.
  - intros _ H. by apply elem_of_nil in H.
  - intros [Hnot Hnd]%NoDup_cons [->|H1]%elem_of_cons [->|H2]%elem_of_cons Hname.
    + done.
    + exfalso. apply Hnot. apply list_elem_of_fmap. by exists e2.
    + exfalso. apply Hnot. apply list_elem_of_fmap. by exists e1.
    + by apply IH.
Qed.
End Entered.

Section Budget.
Variable methodMap : gmap string Function.
Variable root : Function.
Variable result0 : gmap string Deallocation.

Local Abbreviation final :=
  (collectLog MaxMethodDepth (Some root) methodMap (mkCollectState result0 ∅)).

(** The call stack at the entry of a processed function: a path from the
    root whose functions were entered with the budget going down by one
    from 5. *)
Lemma logged_stack k (g : Function) (b : nat) :
  (g, b) ∈ final.2 → b + k = MaxMethodDepth →
  ∃ path, length path = k ∧ callPath methodMap root path g ∧
          ∀ i h, (root :: path) !! i = Some h → (h, MaxMethodDepth - i) ∈ final.2.
Proof.
  revert g b. induction k as [|k IH]; intros g b Hlog Hb.
  - exists []. pose proof Hlog as Hlog'.
    apply collectLog_caller in Hlog as [[-> _]|(g' & name & Hlog & _)].
    + split_and!; [done|done|]. intros [|i] h Hi; [|done].
      injection Hi as <-. by replace (MaxMethodDepth - 0) with b by lia.
    + apply collectLog_budget in Hlog as [Hle _]. lia.
  - pose proof Hlog as Hlog'.
    apply collectLog_caller in Hlog as [[-> Hd]|(g' & name & Hlog & Hn & Hg)]; [lia|].
    destruct (IH g' (S b) Hlog ltac:(lia)) as (path & Hlen & Hpath & Hall).
    exists (path ++ [g]). split_and!.
    + rewrite length_app. simpl. lia.
    + by eapply callPath_snoc.
    + intros i h Hi. change (root :: path ++ [g]) with ((root :: path) ++ [g]) in Hi.
      apply lookup_app_Some in Hi as [Hi|[Hge Hi]]; [by apply Hall|].
      simpl in Hge, Hi. rewrite Hlen in Hge, Hi.
      apply list_lookup_singleton_Some in Hi as [Hi <-].
      by replace (MaxMethodDepth - i) with b by lia.
Qed.

(** The stack is a simple chain, since no name is entered twice. *)
Lemma logged_simple (g : Function) (b : nat) :
  (g, b) ∈ final.2 →
  1 ≤ b ≤ MaxMethodDepth ∧
  ∃ path, length path = MaxMethodDepth - b ∧ callPath methodMap root path g ∧
          NoDup (Fn_Name <$> root :: path) ∧
          ∀ h, h ∈ root :: path → h ∈ final.2.*1.
Proof.
  intros Hlog. pose proof (collectLog_budget _ _ _ _ _ _ Hlog) as [Hb _].
  split; [done|].
  destruct (logged_stack (MaxMethodDepth - b) g b Hlog ltac:(lia))
    as (path & Hlen & Hpath & Hall).
  exists path. split_and!; [done|done| |].
  - apply NoDup_alt. intros i j n Hi Hj.
    apply list_lookup_fmap_Some in Hi as (hi & -> & Hi).
    apply list_lookup_fmap_Some in Hj as (hj & Hname & Hj).
    pose proof (lookup_lt_Some _ _ _ Hi) as Hli.
    pose proof (lookup_lt_Some _ _ _ Hj) as Hlj.
    simpl in Hli, Hlj. rewrite Hlen in Hli, Hlj.
    pose proof (logNames_inj final.2 (hi, MaxMethodDepth - i) (hj, MaxMethodDepth - j)
                  (proj1 (collectLog_NoDup _ _ _ _)) (Hall _ _ Hi) (Hall _ _ Hj)
                  Hname) as Heq.
    injection Heq as _ Heq. lia.
  - intros h (i & Hi)%list_elem_of_lookup_1.
    apply list_elem_of_fmap. exists (h, MaxMethodDepth - i). split; [done|by apply Hall].
Qed.

Lemma logged_simpleChain (g : Function) (b : nat) :
  (g, b) ∈ final.2 → simpleChain methodMap (MaxMethodDepth - b) root g.
Proof.
  intros (_ & path & Hlen & Hpath & Hnd & _)%logged_simple. by exists path.
Qed.

(** What is processed was invoked with budget left. *)
Lemma logged_origin m :
  m ∈ final.2.*1 →
  m = root ∨ ∃ g b name, (g, b) ∈ final.2 ∧ 2 ≤ b ∧
                         name ∈ Fn_MethodCalls g ∧ methodMap !! name = Some m.
Proof.
  intros ([m' b] & -> & Hlog)%list_elem_of_fmap. simpl.
  pose proof (collectLog_budget _ _ _ _ _ _ Hlog) as [Hb _].
  apply collectLog_caller in Hlog as [[-> _]|(g' & name & Hlog & Hn & Hg)]; [by left|].
  right. exists g', (S b), name. split_and!; [done|lia|done|done].
Qed.

Lemma root_logged : (root, MaxMethodDepth) ∈ final.2.
Proof.
  unfold MaxMethodDepth. rewrite collectLog_fresh by (simpl; set_solver).
  apply list_elem_of_here.
Qed.

Hypothesis methodMap_keys : ∀ name f, methodMap !! name = Some f → Fn_Name f = name.
Hypothesis root_not_method : methodMap !! Fn_Name root = None.

(** Within one traversal a name stands for one function. *)
Lemma logged_by_name (h h' : Function) (b' : nat) name :
  methodMap !! name = Some h →
  (h', b') ∈ final.2 → Fn_Name h' = Fn_Name h → h' = h.
Proof.
  intros Hh Hlog Hname.
  pose proof (methodMap_keys _ _ Hh) as Hk.
  destruct (collectLog_budget _ _ _ _ _ _ Hlog) as [_ Hc].
  apply chain_last in Hc as [[_ ->]|(k' & g & name' & _ & _ & _ & Hh')].
  - rewrite Hname, Hk, Hh in root_not_method. done.
  - pose proof (methodMap_keys _ _ Hh') as Hk'.
    rewrite <- Hk', Hname, Hk, Hh in Hh'. by injection Hh'.
Qed.

Lemma callee_logged (g h : Function) (b : nat) name :
  (g, b) ∈ final.2 → 2 ≤ b →
  name ∈ Fn_MethodCalls g → methodMap !! name = Some h →
  ∃ b', (h, b') ∈ final.2.
Proof.
  intros Hlog Hb Hn Hh.
  pose proof (collectLog_closed _ _ _ _ _ _ Hlog Hb name h Hn Hh) as Hv.
  rewrite collectLog_visited in Hv. simpl in Hv.
  apply elem_of_union in Hv as [Hv|Hv]; [by apply elem_of_empty in Hv|].
  apply elem_of_list_to_set, elem_of_logNames in Hv as (h' & b' & Hlog' & Hname).
  exists b'. by rewrite <- (logged_by_name h h' b' name).
Qed.

Lemma roomy_logged g :
  roomyChain methodMap root g → ∃ b, 2 ≤ b ∧ (g, b) ∈ final.2.
Proof.
  induction 1 as [|g name h Hg [b [Hb Hlog]] Hn Hh Hroom].
  - exists MaxMethodDepth. split; [unfold MaxMethodDepth; lia|apply root_logged].
  - destruct (callee_logged g h b name Hlog Hb Hn Hh) as [b' Hlog'].
    exists b'. split; [|done].
    destruct (collectLog_budget _ _ _ _ _ _ Hlog') as [Hb' Hc].
    destruct (decide (b' = 1)) as [->|]; [|lia].
    destruct Hroom. by apply logged_simpleChain in Hlog'.
Qed.

(** A callee of a function on a roomy chain is processed. *)
Lemma roomy_callee_logged g name m :
  roomyChain methodMap root g →
  name ∈ Fn_MethodCalls g → methodMap !! name = Some m →
  m ∈ final.2.*1.
Proof.
  intros (b & Hb & Hlog)%roomy_logged Hn Hm.
  destruct (callee_logged g m b name Hlog Hb Hn Hm) as [b' Hlog'].
  apply list_elem_of_fmap. by exists (m, b').
Qed.

(** When no simple chain from the root has 5 edges, whatever the root
    reaches is processed: a function entered with the budget used up has
    all its callees on the stack. *)
Lemma short_chains_logged k m :
  (∀ f, ¬ simpleChain methodMap 5 root f) →
  chain methodMap k root m → m ∈ final.2.*1.
Proof.
  intros Hshort. revert m. induction k as [|k IH]; intros h Hc;
    apply chain_last in Hc as [[Hk ->]|(k' & g & name & Hk & Hg & Hn & Hh)];
    try discriminate.
  { apply list_elem_of_fmap. exists (root, MaxMethodDepth). split; [done|].
    apply root_logged. }
  injection Hk as <-. specialize (IH g Hg).
  apply list_elem_of_fmap in IH as ([g' b] & -> & Hlog). simpl in *.
  destruct (decide (2 ≤ b)) as [Hb|Hb].
  { destruct (callee_logged g' h b name Hlog Hb Hn Hh) as [b' Hlog'].
    apply list_elem_of_fmap. by exists (h, b'). }
  destruct (logged_simple g' b Hlog) as (Hb1 & path & Hlen & Hpath & Hnd & Hall).
  destruct (decide (Fn_Name h ∈ Fn_Name <$> root :: path)) as [Hin|Hout].
  - apply list_elem_of_fmap in Hin as (e & Hname & He).
    pose proof (Hall e He) as ([e' b'] & -> & Hlog')%list_elem_of_fmap. simpl in *.
    apply list_elem_of_fmap. exists (e', b'). split; [|done]. simpl.
    symmetry. by eapply (logged_by_name h e' b' name).
  - destruct (Hshort h). exists (path ++ [h]). split_and!.
    + rewrite length_app, Hlen. unfold MaxMethodDepth. simpl. lia.
    + by eapply callPath_snoc.
    + change (root :: path ++ [h]) with ((root :: path) ++ [h]).
      rewrite fmap_app. apply NoDup_app. split_and!; [done| |apply NoDup_singleton].
      intros n Hn1 Hn2%list_elem_of_singleton. by subst n.
Qed.
End Budget.

Lemma visitedFunctions_entered class f :
  f ∈ visitedFunctions class ↔ ∃ b, enteredWith class f b.
Proof.
  unfold visitedFunctions, enteredWith.
  destruct (Class_Destructor class) as [dtor|].
  - rewrite list_elem_of_fmap. split.
    + intros ([f' b] & -> & H). by exists b.
    + intros [b H]. by exists (f, b).
  - split; [by intros ?%elem_of_nil|]. intros [b H]. by apply elem_of_nil in H.
Qed.

Lemma visited_no_missing_leak class f v :
  f ∈ visitedFunctions class → deletes f v →
  is_Some (deallocatedVars class !! v) ∧ noMissingLeak class v.
Proof.
  intros Hf Hd. split; [apply deallocatedVars_visited; by exists f|].
  intros leaks l Hout Hl. by eapply (alias_discharge_aux class leaks v v f); [|left|..].
Qed.

Lemma visitedFunctions_bound class dtor f :
  Class_Destructor class = Some dtor →
  f ∈ visitedFunctions class →
  ∃ k, k ≤ 4 ∧ simpleChain (buildMethodMap class) k dtor f.
Proof.
  unfold visitedFunctions. intros ->.
  intros ([f' b] & -> & Hlog)%list_elem_of_fmap.
  pose proof (collectLog_budget _ _ _ _ _ _ Hlog) as [Hb _].
  apply logged_simpleChain in Hlog. unfold MaxMethodDepth in *.
  exists (5 - b). split; [lia|done].
Qed.




(** Seed scenario 4: the three members of [ThreadPool] are released three
    invocation edges below the destructor and the class is clean. *)
Example threadPool_clean : analyzeClass threadPoolClass = [].
Proof. by vm_compute. Qed.

(** Seed scenario 5: with the deallocation five edges below the
    destructor the member is reported. *)
Example sixLevel_reported :
  analyzeClass sixLevelClass
  = [mkLeak "e.cpp" 3 "E" "p" reasonNotDeleted "error"].
Proof. by vm_compute. Qed.

(** The same chain with an alias of [p] deleted in the destructor: the
    [delete p] five edges below is not collected, and yet nothing is
    reported, since the alias discharges the obligation. *)
Example sixLevelAlias_clean :
  deallocatedVars (parseOne "e.cpp" sixLevelAliasSource) !! "p" = None ∧
  analyzeClass (parseOne "e.cpp" sixLevelAliasSource) = [].
Proof. by vm_compute. Qed.

(** The condition on the destructor's name is needed: in [nameClashClass]
    the destructor invokes the method [F], which deletes [p], but [F] is
    also the destructor's own name and is already visited. *)
Example collection_name_clash :
  chain (buildMethodMap nameClashClass) 1
        (mkFunction "F" true 2 2 [] [] ["F"] [])
        (mkFunction "F" false 1 1 [] [mkDeallocation "p" false 1] [] []) ∧
  deallocatedVars nameClashClass !! "p" = None.
Proof.
  split; [|by vm_compute].
  eapply chain_S with (name := "F"); [apply chain_O|apply list_elem_of_here|reflexivity].
Qed.

(** ** The traversal visits each function once *)

Lemma collectLog_origin methodMap d f st (g : Function) (b : nat) :
  (g, b) ∈ (collectLog d (Some f) methodMap st).2 →
  g = f ∨ ∃ name, methodMap !! name = Some g.
Proof.
  intros [_ Hc]%collectLog_budget.
  apply chain_last in Hc as [[_ ->]|(k' & g' & name & _ & _ & _ & Hg)]; [by left|].
  right. by exists name.
Qed.

Lemma collectLog_length methodMap d fn st :
  length (collectLog d fn methodMap st).2 ≤ S (size methodMap).
Proof.
  destruct fn as [f|]; [|destruct d; simpl; lia].
  destruct (collectLog_NoDup methodMap d (Some f) st) as [Hnd _].
  assert (logNames (collectLog d (Some f) methodMap st).2
          ⊆+ Fn_Name f :: (Fn_Name <$> (map_to_list methodMap).*2)) as Hsub.
  { apply NoDup_submseteq; [done|].
    intros n (g & b & Hlog & <-)%elem_of_logNames.
    apply collectLog_origin in Hlog as [->|[name Hg]]; [apply list_elem_of_here|].
    apply list_elem_of_further, list_elem_of_fmap. exists g. split; [done|].
    apply list_elem_of_fmap. exists (name, g). split; [done|].
    by apply elem_of_map_to_list. }
  apply submseteq_length in Hsub. unfold logNames in Hsub.
  rewrite length_fmap in Hsub. simpl in Hsub.
  by rewrite !length_fmap, length_map_to_list in Hsub.
Qed.

(** C8 — [collectDeallocations] is a total function (the recursion is on
    the depth budget and each loop runs over a finite list), whatever the
    shape of the call graph.  The functions it processes, logged by
    [collectLog], have pairwise different names, none of which was in the
    visited set at the start; so there are at most as many as methods plus
    one, and the result map is the initial map with the deallocations of
    exactly these functions recorded once each, in the order of the log.  A
    function whose name is already visited leaves both maps as they are,
    and the calls of one function are run one after the other on the same
    pair of maps. *)
Theorem collection_visits_once methodMap depth fn st :
  (collectLog depth fn methodMap st).1 = collectDeallocations depth fn methodMap st ∧
  NoDup (logNames (collectLog depth fn methodMap st).2) ∧
  (∀ n, n ∈ logNames (collectLog depth fn methodMap st).2 → n ∉ cs_visited st) ∧
  cs_visited (collectDeallocations depth fn methodMap st)
  = cs_visited st ∪ list_to_set (logNames (collectLog depth fn methodMap st).2) ∧
  cs_result (collectDeallocations depth fn methodMap st)
  = replayLog (cs_result st) (collectLog depth fn methodMap st).2 ∧
  length (collectLog depth fn methodMap st).2 ≤ S (size methodMap) ∧
  (∀ f, Fn_Name f ∈ cs_visited st →
        collectDeallocations depth (Some f) methodMap st = st) ∧
  (∀ d f, Fn_Name f ∉ cs_visited st →
          collectDeallocations (S d) (Some f) methodMap st
          = foldl (fun s name =>
                     match methodMap !! name with
                     | Some g => collectDeallocations d (Some g) methodMap s
                     | None => s
                     end)
                  {| cs_result := addDeallocations (cs_result st) (Fn_Deallocations f);
                     cs_visited := {[ Fn_Name f ]} ∪ cs_visited st |}
                  (Fn_MethodCalls f)).
Proof.
  split_and!.
  - apply collectLog_state.
  - apply collectLog_NoDup.
  - apply collectLog_NoDup.
  - rewrite <- collectLog_state. apply collectLog_visited.
  - rewrite <- collectLog_state. apply collectLog_replay.
  - apply collectLog_length.
  - intros f Hf. rewrite <- collectLog_state. by rewrite collectLog_seen.
  - intros d f Hf. simpl. by rewrite decide_False.
Qed.

(** On the diamond with a cycle the shared callee [c] is processed once,
    under [a], and skipped under [b]. *)
Example diamond_log :
  logNames (collectLog MaxMethodDepth (Class_Destructor diamondClass)
              (buildMethodMap diamondClass) (mkCollectState ∅ ∅)).2
  = ["~G"; "a"; "c"; "b"].
Proof. by vm_compute. Qed.

(** ** Rules 2 and 3 *)

Lemma isPointerMember_nonempty class v :
  isPointerMember class v → pointerMembers class ≠ ∅.
Proof.
  intros [x Hx]%pointerMembers_is_Some Hempty.
  by rewrite Hempty, lookup_empty in Hx.
Qed.

Lemma hasDeleteBeforeNew_true method alloc :
  hasDeleteBeforeNew method alloc = true ↔ deletedBefore method alloc.
Proof.
  unfold hasDeleteBeforeNew, deletedBefore. rewrite existsb_exists. split.
  - intros (d & Hd%list_elem_of_In & H%andb_prop).
    destruct H as [H1%bool_decide_eq_true H2%bool_decide_eq_true]. by exists d.
  - intros (d & Hd & H1 & H2). exists d. split; [by apply list_elem_of_In|].
    apply andb_true_intro. by rewrite !bool_decide_eq_true.
Qed.

Lemma deletedIn_true method v : deletedIn method v = true ↔ deletes method v.
Proof.
  unfold deletedIn, deletes. rewrite existsb_exists. split.
  - intros (d & Hd%list_elem_of_In & H%bool_decide_eq_true). by exists d.
  - intros (d & Hd & H). exists d. split; [by apply list_elem_of_In|].
    by apply bool_decide_eq_true.
Qed.

Lemma rule2Body_spec class method alloc :
  (rule2Condition class method alloc ∧
   rule2Body class method alloc = [rule2Leak class method alloc]) ∨
  (¬ rule2Condition class method alloc ∧ rule2Body class method alloc = []).
Proof.
  unfold rule2Body, rule2Condition, isPointerMember, allocatedInConstructor.
  destruct (pointerMembers class !! Alloc_VarName alloc) as [pm|] eqn:Hpm.
  2:{ right. split; [|done]. intros [H%pointerMembers_is_Some _].
      rewrite Hpm in H. by destruct H. }
  destruct (hasDeleteBeforeNew method alloc) eqn:Hdel; simpl.
  { right. split; [|done]. intros (_ & H & _). by apply H, hasDeleteBeforeNew_true. }
  destruct (allocatedVars class !! Alloc_VarName alloc) as [a|] eqn:Hav.
  2:{ right. split; [|done]. intros (_ & _ & H%allocatedVars_is_Some).
      rewrite Hav in H. by destruct H. }
  left. split; [|done]. split_and!.
  - apply pointerMembers_is_Some. by rewrite Hpm.
  - intros H%hasDeleteBeforeNew_true. congruence.
  - apply allocatedVars_is_Some. by rewrite Hav.
Qed.




Lemma rule3Body_spec class method alias :
  isPointerMember class (Alias_SourceVar alias) →
  (deletes method (Alias_SourceVar alias) ∧ deletes method (Alias_TargetVar alias) ∧
   rule3Body class method alias = [rule3Leak class alias]) ∨
  ((¬ deletes method (Alias_SourceVar alias) ∨ ¬ deletes method (Alias_TargetVar alias)) ∧
   rule3Body class method alias = []).
Proof.
  intros [pm Hpm]%pointerMembers_is_Some. unfold rule3Body. rewrite Hpm.
  destruct (deletedIn method (Alias_SourceVar alias)) eqn:Hs; simpl.
  - destruct (deletedIn method (Alias_TargetVar alias)) eqn:Ht.
    + left. by rewrite <- !deletedIn_true.
    + right. split; [|done]. right. intros H%deletedIn_true. congruence.
  - right. split; [|done]. left. intros H%deletedIn_true. congruence.
Qed.

(** C6 — for a method [M] of the class and an alias recorded in it whose
    source is a pointer member: when [M] has a deallocation of the source
    and one of the target, wherever they stand, the iteration of Rule 3
    emits one [error] leak at the alias line, about the source, with the
    double-free reason, and every output holds it; when either deallocation
    is missing from [M] the iteration emits nothing. *)
Theorem rule3_double_free class method alias :
  method ∈ Class_Methods class →
  alias ∈ Fn_Aliases method →
  isPointerMember class (Alias_SourceVar alias) →
  (deletes method (Alias_SourceVar alias) →
   deletes method (Alias_TargetVar alias) →
     rule3Body class method alias
     = [mkLeak (Class_File class) (Alias_Line alias) (Class_Name class)
               (Alias_SourceVar alias)
               ("pointer aliased to '" +:+ Alias_TargetVar alias
                  +:+ "' and both are deleted (potential double-free)")
               "error"] ∧
     ∀ leaks, analyzeClassOutput class leaks → rule3Leak class alias ∈ leaks) ∧
  (¬ deletes method (Alias_SourceVar alias) ∨ ¬ deletes method (Alias_TargetVar alias) →
     rule3Body class method alias = []).
Proof.
  intros Hm Ha Hp. split.
  - intros Hs Ht.
    destruct (rule3Body_spec class method alias Hp) as [(_ & _ & Hb)|[[H|H] _]];
      [|done..].
    split; [done|]. intros leaks Hout.
    apply (analyzeClassOutput_elem_of _ _ _ Hout).
    split; [by eapply isPointerMember_nonempty|]. right. right. left.
    unfold rule3. apply elem_of_flat_map. exists method. split; [done|].
    apply elem_of_flat_map. exists alias. split; [done|].
    rewrite Hb. apply list_elem_of_here.
  - intros Hno.
    destruct (rule3Body_spec class method alias Hp) as [(Hs & Ht & _)|[_ Hb]];
      [|done]. by destruct Hno.
Qed.

Lemma rule3_double_free_witness :
  rule3Leak doubleDeleteClass (mkPointerAlias "original" "alias" 8)
  ∈ analyzeClass doubleDeleteClass.
Proof.
  destruct (rule3_double_free doubleDeleteClass
              (mkFunction "badFunction" false 7 11 []
                 [mkDeallocation "alias" false 9; mkDeallocation "original" false 10]
                 [] [mkPointerAlias "original" "alias" 8])
              (mkPointerAlias "original" "alias" 8)) as [H _].
  - apply list_elem_of_here.
  - apply list_elem_of_here.
  - exists (mkMember "original" EmptyString true false 3).
    split_and!; [apply list_elem_of_here|reflexivity|reflexivity].
  - apply H.
    + exists (mkDeallocation "original" false 10).
      split; [apply list_elem_of_further, list_elem_of_here|reflexivity].
    + exists (mkDeallocation "alias" false 9).
      split; [apply list_elem_of_here|reflexivity].
    + exists (map_to_list (allocatedVars doubleDeleteClass)),
             (map_to_list (pointerMembers doubleDeleteClass)). by split_and!.
Defined.

(** ** The parser on a destructor declaration *)

Section Looking.
Variable p : Parser.
Variable ts : list Token.
Hypothesis Hlook : lookingAt p ts.

Lemma lookingAt_lookup k t :
  ts !! k = Some t → p_tokens p !! (p_pos p + k) = Some t.
Proof.
  intros Hk. unfold lookingAt in Hlook. rewrite <- Hlook in Hk.
  apply lookup_take_Some in Hk as [Hk _]. by rewrite lookup_drop in Hk.
Qed.

Lemma lookingAt_tokenAt k t :
  ts !! k = Some t → tokenAt p (p_pos p + k) = t.
Proof. intros Hk. unfold tokenAt. by rewrite (lookingAt_lookup k t). Qed.

Lemma lookingAt_bound k t : ts !! k = Some t → p_pos p + k < p_len p.
Proof. intros Hk%lookingAt_lookup. by apply lookup_lt_Some in Hk. Qed.

Lemma lookingAt_current k t :
  ts !! k = Some t → current (setPos p (p_pos p + k)) = t.
Proof.
  intros Hk. unfold current. simpl.
  pose proof (lookingAt_bound k t Hk) as Hb. unfold p_len in *. simpl.
  destruct (Nat.ltb_spec (p_pos p + k) (length (p_tokens p))) as [_|?]; [|lia].
  unfold tokenAt. simpl. by rewrite (lookingAt_lookup k t).
Qed.

Lemma lookingAt_isAtEnd k t :
  ts !! k = Some t → Token_Type t ≠ TokenEOF →
  isAtEnd (setPos p (p_pos p + k)) = false.
Proof.
  intros Hk Hty. unfold isAtEnd. simpl.
  pose proof (lookingAt_bound k t Hk) as Hb. unfold p_len in *. simpl.
  destruct (Nat.leb_spec (length (p_tokens p)) (p_pos p + k)) as [?|_]; [lia|].
  unfold tokenAt. simpl. rewrite (lookingAt_lookup k t) by done. simpl.
  unfold typeIs. by rewrite bool_decide_eq_false.
Qed.

Lemma lookingAt_advance k t :
  ts !! k = Some t →
  advance (setPos p (p_pos p + k)) = setPos p (p_pos p + S k).
Proof.
  intros Hk. unfold advance. simpl.
  pose proof (lookingAt_bound k t Hk) as Hb. unfold p_len in *. simpl.
  destruct (Nat.ltb_spec (p_pos p + k) (length (p_tokens p))) as [_|?]; [|lia].
  unfold setPos. simpl. f_equal. lia.
Qed.

Lemma lookingAt_checkValue k t v :
  ts !! k = Some t → Token_Type t ≠ TokenEOF →
  checkValue (setPos p (p_pos p + k)) v = String.eqb (Token_Value t) v.
Proof.
  intros Hk Hty. unfold checkValue, valueIs.
  by rewrite (lookingAt_isAtEnd k t), (lookingAt_current k t).
Qed.

Lemma lookingAt_check k t ty :
  ts !! k = Some t → Token_Type t ≠ TokenEOF →
  check (setPos p (p_pos p + k)) ty = bool_decide (Token_Type t = ty).
Proof.
  intros Hk Hty. unfold check, typeIs.
  by rewrite (lookingAt_isAtEnd k t), (lookingAt_current k t).
Qed.
End Looking.

Lemma setPos_self p : setPos p (p_pos p + 0) = p.
Proof. destruct p. unfold setPos. simpl. f_equal. lia. Qed.

Lemma skipWhile_stop fuel keep p :
  keep p = false → skipWhile fuel keep p = p.
Proof. intros H. destruct fuel; simpl; [done|]. by rewrite H, andb_false_r. Qed.

(** On [~C();] the parser returns a destructor record without any
    deallocation, call or alias, and stands behind the semicolon. *)
Lemma parseDestructor_declaration p className l1 c1 l2 c2 l3 c3 l4 c4 l5 c5 :
  lookingAt p (destructorDeclaration className l1 c1 l2 c2 l3 c3 l4 c4 l5 c5) →
  isDestructorStart p className = true ∧
  parseDestructor p className
  = (Some (newFunction ("~" +:+ className) true l1), setPos p (p_pos p + 5)).
Proof.
  intros Hlook.
  pose proof (lookingAt_checkValue p _ Hlook) as HcV.
  pose proof (lookingAt_check p _ Hlook) as Hc.
  pose proof (lookingAt_current p _ Hlook) as Hcur.
  pose proof (lookingAt_advance p _ Hlook) as Hadv.
  pose proof (lookingAt_tokenAt p _ Hlook) as Htok.
  pose proof (lookingAt_bound p _ Hlook) as Hb.
  assert (∀ k, setPos (setPos p k) = setPos p) as Hset by done.
  split.
  - pose proof (HcV 0 _ "~" eq_refl) as H0. rewrite setPos_self in H0.
    unfold isDestructorStart. rewrite H0 by done. simpl.
    rewrite (Htok 1 _ eq_refl). unfold valueIs. simpl. rewrite String.eqb_refl.
    specialize (Hb 1 _ eq_refl). unfold p_len in *.
    destruct (Nat.ltb_spec (p_pos p + 1) (length (p_tokens p))); [done|lia].
  - assert (parseDestructor (setPos p (p_pos p + 0)) className
            = (Some (newFunction ("~" +:+ className) true l1), setPos p (p_pos p + 5)))
      as Hgoal; [|by rewrite setPos_self in Hgoal].
    unfold parseDestructor, checkKeyword, matchValue.
    rewrite (Hcur 0 _ eq_refl), (Hc 0 _ _ eq_refl) by done. simpl.
    rewrite (HcV 0 _ "~" eq_refl) by done. simpl.
    rewrite (Hadv 0 _ eq_refl). cbn [snd].
    rewrite (Hadv 1 _ eq_refl).
    rewrite (HcV 2 _ "(" eq_refl) by done. simpl.
    rewrite (Hadv 2 _ eq_refl).
    rewrite skipWhile_stop by (by rewrite (HcV 3 _ ")" eq_refl)).
    rewrite (HcV 3 _ ")" eq_refl) by done. simpl.
    rewrite (Hadv 3 _ eq_refl).
    rewrite (HcV 4 _ ";" eq_refl) by done. simpl.
    by rewrite (Hadv 4 _ eq_refl).
Qed.

Lemma classBodyStep_declaration p className l1 c1 l2 c2 l3 c3 l4 c4 l5 c5
    braceCount class :
  lookingAt p (destructorDeclaration className l1 c1 l2 c2 l3 c3 l4 c4 l5 c5) →
  classBodyStep className braceCount class p
  = (braceCount, setDestructor class (newFunction ("~" +:+ className) true l1),
     setPos p (p_pos p + 5)).
Proof.
  intros Hlook.
  destruct (parseDestructor_declaration _ _ _ _ _ _ _ _ _ _ _ _ Hlook) as [Hstart Hparse].
  pose proof (lookingAt_checkValue p _ Hlook 0 _ "{" eq_refl) as H1.
  pose proof (lookingAt_checkValue p _ Hlook 0 _ "}" eq_refl) as H2.
  pose proof (lookingAt_check p _ Hlook 0 _ TokenKeyword eq_refl) as H3.
  rewrite setPos_self in H1, H2, H3.
  unfold classBodyStep, checkKeyword.
  rewrite H1, H2, H3 by done. simpl. by rewrite Hstart, Hparse.
Qed.

Lemma parseDestructor_virtual_declaration p className
    l0 c0 l1 c1 l2 c2 l3 c3 l4 c4 l5 c5 :
  lookingAt p (virtualDestructorDeclaration className
                 l0 c0 l1 c1 l2 c2 l3 c3 l4 c4 l5 c5) →
  isDestructorStart p className = true ∧
  parseDestructor p className
  = (Some (newFunction ("~" +:+ className) true l0), setPos p (p_pos p + 6)).
Proof.
  intros Hlook.
  pose proof (lookingAt_checkValue p _ Hlook) as HcV.
  pose proof (lookingAt_check p _ Hlook) as Hc.
  pose proof (lookingAt_current p _ Hlook) as Hcur.
  pose proof (lookingAt_advance p _ Hlook) as Hadv.
  pose proof (lookingAt_tokenAt p _ Hlook) as Htok.
  pose proof (lookingAt_bound p _ Hlook) as Hb.
  split.
  - pose proof (HcV 0 _ "~" eq_refl) as H0.
    pose proof (Hc 0 _ TokenKeyword eq_refl) as H1.
    pose proof (Hcur 0 _ eq_refl) as H2.
    rewrite setPos_self in H0, H1, H2.
    unfold isDestructorStart, checkKeyword. rewrite H0, H1, H2 by done. simpl.
    rewrite (Htok 1 _ eq_refl). unfold valueIs. simpl.
    specialize (Hb 1 _ eq_refl). unfold p_len in *.
    destruct (Nat.ltb_spec (p_pos p + 1) (length (p_tokens p))); [done|lia].
  - assert (parseDestructor (setPos p (p_pos p + 0)) className
            = (Some (newFunction ("~" +:+ className) true l0), setPos p (p_pos p + 6)))
      as Hgoal; [|by rewrite setPos_self in Hgoal].
    unfold parseDestructor, checkKeyword, matchValue.
    rewrite (Hcur 0 _ eq_refl), (Hc 0 _ _ eq_refl) by done. simpl.
    rewrite (Hadv 0 _ eq_refl).
    rewrite (HcV 1 _ "~" eq_refl) by done. simpl.
    rewrite (Hadv 1 _ eq_refl). cbn [snd].
    rewrite (Hadv 2 _ eq_refl).
    rewrite (HcV 3 _ "(" eq_refl) by done. simpl.
    rewrite (Hadv 3 _ eq_refl).
    rewrite skipWhile_stop by (by rewrite (HcV 4 _ ")" eq_refl)).
    rewrite (HcV 4 _ ")" eq_refl) by done. simpl.
    rewrite (Hadv 4 _ eq_refl).
    rewrite (HcV 5 _ ";" eq_refl) by done. simpl.
    by rewrite (Hadv 5 _ eq_refl).
Qed.

Lemma classBodyStep_virtual_declaration p className
    l0 c0 l1 c1 l2 c2 l3 c3 l4 c4 l5 c5 braceCount class :
  lookingAt p (virtualDestructorDeclaration className
                 l0 c0 l1 c1 l2 c2 l3 c3 l4 c4 l5 c5) →
  classBodyStep className braceCount class p
  = (braceCount, setDestructor class (newFunction ("~" +:+ className) true l0),
     setPos p (p_pos p + 6)).
Proof.
  intros Hlook.
  destruct (parseDestructor_virtual_declaration _ _ _ _ _ _ _ _ _ _ _ _ _ _ Hlook)
    as [Hstart Hparse].
  pose proof (lookingAt_checkValue p _ Hlook 0 _ "{" eq_refl) as H1.
  pose proof (lookingAt_checkValue p _ Hlook 0 _ "}" eq_refl) as H2.
  pose proof (lookingAt_check p _ Hlook 0 _ TokenKeyword eq_refl) as H3.
  pose proof (lookingAt_current p _ Hlook 0 _ eq_refl) as H4.
  rewrite setPos_self in H1, H2, H3, H4.
  unfold classBodyStep, checkKeyword.
  rewrite H1, H2, H3, H4 by done. simpl. by rewrite Hstart, Hparse.
Qed.

Lemma deallocatedVars_bodyless class fn :
  Class_Destructor class = Some fn →
  Fn_Deallocations fn = [] → Fn_MethodCalls fn = [] →
  deallocatedVars class = ∅.
Proof.
  intros Hd Hdel Hcalls. unfold deallocatedVars, MaxMethodDepth. rewrite Hd. simpl.
  rewrite decide_False by set_solver. by rewrite Hdel, Hcalls.
Qed.

(** ** The loops of the lexer never run out of fuel *)

Lemma lx_advance_input l : lx_input (lx_advance l) = lx_input l.
Proof. unfold lx_advance. by repeat case_match. Qed.

Lemma lx_advance_len l : lx_len (lx_advance l) = lx_len l.
Proof. unfold lx_len. by rewrite lx_advance_input. Qed.

Lemma lx_advance_pos l :
  lx_pos l < lx_len l → lx_pos (lx_advance l) = S (lx_pos l).
Proof.
  intros H. unfold lx_advance.
  destruct (Nat.ltb_spec (lx_pos l) (lx_len l)); [|lia]. by case_match.
Qed.

Lemma lx_advance_end l : lx_len l ≤ lx_pos l → lx_advance l = l.
Proof.
  intros H. unfold lx_advance.
  destruct (Nat.ltb_spec (lx_pos l) (lx_len l)); [lia|done].
Qed.

Lemma lx_advance_bytesLeft l : bytesLeft (lx_advance l) = bytesLeft l - 1.
Proof.
  unfold bytesLeft. rewrite lx_advance_len.
  destruct (decide (lx_pos l < lx_len l)) as [H|H].
  - rewrite lx_advance_pos by done. lia.
  - rewrite lx_advance_end by lia. lia.
Qed.

Lemma ltb_bytesLeft l : (lx_pos l <? lx_len l) = true → 0 < bytesLeft l.
Proof. intros H%Nat.ltb_lt. unfold bytesLeft. lia. Qed.

Lemma bytesLeft_0 l : bytesLeft l = 0 → (lx_pos l <? lx_len l) = false.
Proof. unfold bytesLeft. intros H. apply Nat.ltb_ge. lia. Qed.

Lemma bytesLeft_0' l : bytesLeft l = 0 → (lx_pos l + 1 <? lx_len l) = false.
Proof. unfold bytesLeft. intros H. apply Nat.ltb_ge. lia. Qed.

(** One more unit of fuel than the bytes left changes nothing. *)
Lemma skipToNewline_fuel fuel l :
  bytesLeft l ≤ fuel → skipToNewline (S fuel) l = skipToNewline fuel l.
Proof.
  revert l. induction fuel as [|fuel IH]; intros l Hb.
  - simpl. rewrite bytesLeft_0 by lia. done.
  - change (skipToNewline (S (S fuel)) l) with
      (if (lx_pos l <? lx_len l) && negb (byteAt l (lx_pos l) =? "010")%char
       then skipToNewline (S fuel) (lx_advance l) else l).
    simpl. destruct (_ && _); [|done].
    apply IH. rewrite lx_advance_bytesLeft. lia.
Qed.

Lemma skipBlockComment_fuel fuel l :
  bytesLeft l ≤ fuel → skipBlockComment (S fuel) l = skipBlockComment fuel l.
Proof.
  revert l. induction fuel as [|fuel IH]; intros l Hb.
  - simpl. rewrite bytesLeft_0' by lia. done.
  - change (skipBlockComment (S (S fuel)) l) with
      (if lx_pos l + 1 <? lx_len l then
         if (byteAt l (lx_pos l) =? "*")%char && (lx_peek l =? "/")%char
         then lx_advance (lx_advance l)
         else skipBlockComment (S fuel) (lx_advance l)
       else l).
    simpl. destruct (_ <? _); [|done]. destruct (_ && _); [done|].
    apply IH. rewrite lx_advance_bytesLeft. lia.
Qed.

Lemma skipPreprocessorLoop_fuel fuel l :
  bytesLeft l ≤ fuel → skipPreprocessorLoop (S fuel) l = skipPreprocessorLoop fuel l.
Proof.
  revert l. induction fuel as [|fuel IH]; intros l Hb.
  - simpl. rewrite bytesLeft_0 by lia. done.
  - change (skipPreprocessorLoop (S (S fuel)) l) with
      (if (lx_pos l <? lx_len l) && negb (byteAt l (lx_pos l) =? "010")%char then
         if (byteAt l (lx_pos l) =? "\")%char && (lx_peek l =? "010")%char
         then skipPreprocessorLoop (S fuel) (lx_advance (lx_advance l))
         else skipPreprocessorLoop (S fuel) (lx_advance l)
       else l).
    simpl. destruct (_ && negb _); [|done].
    destruct (_ && _); apply IH; rewrite !lx_advance_bytesLeft; lia.
Qed.

Lemma advanceWhile_fuel fuel keep l :
  bytesLeft l ≤ fuel → advanceWhile (S fuel) keep l = advanceWhile fuel keep l.
Proof.
  revert l. induction fuel as [|fuel IH]; intros l Hb.
  - simpl. rewrite bytesLeft_0 by lia. done.
  - change (advanceWhile (S (S fuel)) keep l) with
      (if (lx_pos l <? lx_len l) && keep (byteAt l (lx_pos l))
       then advanceWhile (S fuel) keep (lx_advance l) else l).
    simpl. destruct (_ && _); [|done].
    apply IH. rewrite lx_advance_bytesLeft. lia.
Qed.

Lemma readStringLoop_S fuel quote sb l :
  readStringLoop (S fuel) quote sb l =
  if lx_pos l <? lx_len l then
    if (byteAt l (lx_pos l) =? "\")%char && (lx_pos l + 1 <? lx_len l) then
      if lx_pos (lx_advance l) <? lx_len (lx_advance l) then
        readStringLoop fuel quote
          (sb ++ [byteAt l (lx_pos l); byteAt (lx_advance l) (lx_pos (lx_advance l))])
          (lx_advance (lx_advance l))
      else readStringLoop fuel quote (sb ++ [byteAt l (lx_pos l)]) (lx_advance l)
    else if (byteAt l (lx_pos l) =? quote)%char
         then (sb ++ [byteAt l (lx_pos l)], lx_advance l)
    else if (byteAt l (lx_pos l) =? "010")%char then (sb, l)
    else readStringLoop fuel quote (sb ++ [byteAt l (lx_pos l)]) (lx_advance l)
  else (sb, l).
Proof. reflexivity. Qed.

Lemma readStringLoop_fuel fuel quote sb l :
  bytesLeft l ≤ fuel →
  readStringLoop (S fuel) quote sb l = readStringLoop fuel quote sb l.
Proof.
  revert sb l. induction fuel as [|fuel IH]; intros sb l Hb.
  - simpl. rewrite bytesLeft_0 by lia. done.
  - rewrite (readStringLoop_S (S fuel) quote sb l), (readStringLoop_S fuel quote sb l).
    destruct (lx_pos l <? lx_len l) eqn:Hlt; [|done].
    apply ltb_bytesLeft in Hlt.
    destruct (_ && _).
    + destruct (_ <? _); apply IH; rewrite !lx_advance_bytesLeft; lia.
    + destruct (_ =? quote)%char; [done|].
      destruct (_ =? "010")%char; [done|].
      apply IH; rewrite !lx_advance_bytesLeft; lia.
Qed.

(** *** Every helper moves forward on the same input *)

Lemma lexerAhead_refl l : lexerAhead l l.
Proof. by split. Qed.

Lemma lexerAhead_trans l1 l2 l3 :
  lexerAhead l1 l2 → lexerAhead l2 l3 → lexerAhead l1 l3.
Proof. intros [H1 H2] [H3 H4]. split; [congruence|lia]. Qed.

Lemma lexerAhead_advance l : lexerAhead l (lx_advance l).
Proof. split; [apply lx_advance_input|rewrite lx_advance_bytesLeft; lia]. Qed.

Lemma lexerAhead_advance_strict l l' :
  0 < bytesLeft l → lexerAhead (lx_advance l) l' →
  lx_input l' = lx_input l ∧ bytesLeft l' < bytesLeft l.
Proof.
  intros Hpos [H1 H2]. rewrite lx_advance_input in H1.
  rewrite lx_advance_bytesLeft in H2. split; [done|lia].
Qed.

Lemma lexerAhead_pushToken l t : lexerAhead l (pushToken l t).
Proof. by split. Qed.

Lemma lexerAhead_skipToNewline fuel l : lexerAhead l (skipToNewline fuel l).
Proof.
  revert l. induction fuel as [|fuel IH]; intros l; simpl; [apply lexerAhead_refl|].
  destruct (_ && _); [|apply lexerAhead_refl].
  eapply lexerAhead_trans; [apply lexerAhead_advance|apply IH].
Qed.

Lemma lexerAhead_skipBlockComment fuel l : lexerAhead l (skipBlockComment fuel l).
Proof.
  revert l. induction fuel as [|fuel IH]; intros l; simpl; [apply lexerAhead_refl|].
  destruct (_ <? _); [|apply lexerAhead_refl]. destruct (_ && _).
  - eapply lexerAhead_trans; apply lexerAhead_advance.
  - eapply lexerAhead_trans; [apply lexerAhead_advance|apply IH].
Qed.

Lemma lexerAhead_skipPreprocessorLoop fuel l :
  lexerAhead l (skipPreprocessorLoop fuel l).
Proof.
  revert l. induction fuel as [|fuel IH]; intros l; simpl; [apply lexerAhead_refl|].
  destruct (_ && negb _); [|apply lexerAhead_refl]. destruct (_ && _).
  - eapply lexerAhead_trans; [apply lexerAhead_advance|].
    eapply lexerAhead_trans; [apply lexerAhead_advance|apply IH].
  - eapply lexerAhead_trans; [apply lexerAhead_advance|apply IH].
Qed.

Lemma lexerAhead_advanceWhile fuel keep l : lexerAhead l (advanceWhile fuel keep l).
Proof.
  revert l. induction fuel as [|fuel IH]; intros l; simpl; [apply lexerAhead_refl|].
  destruct (_ && _); [|apply lexerAhead_refl].
  eapply lexerAhead_trans; [apply lexerAhead_advance|apply IH].
Qed.

Lemma lexerAhead_readStringLoop fuel quote sb l :
  lexerAhead l (readStringLoop fuel quote sb l).2.
Proof.
  revert sb l. induction fuel as [|fuel IH]; intros sb l; [apply lexerAhead_refl|].
  rewrite readStringLoop_S.
  destruct (lx_pos l <? lx_len l); [|apply lexerAhead_refl].
  destruct (_ && _).
  - destruct (_ <? _).
    + eapply lexerAhead_trans; [apply lexerAhead_advance|].
      eapply lexerAhead_trans; [apply lexerAhead_advance|apply IH].
    + eapply lexerAhead_trans; [apply lexerAhead_advance|apply IH].
  - destruct (_ =? quote)%char; [apply lexerAhead_advance|].
    destruct (_ =? "010")%char; [apply lexerAhead_refl|].
    eapply lexerAhead_trans; [apply lexerAhead_advance|apply IH].
Qed.

Lemma skipWhitespaceAndCommentsLoop_S fuel l :
  skipWhitespaceAndCommentsLoop (S fuel) l =
  if lx_pos l <? lx_len l then
    if isSpace (byteAt l (lx_pos l)) then
      skipWhitespaceAndCommentsLoop fuel (lx_advance l)
    else if (byteAt l (lx_pos l) =? "/")%char && (lx_peek l =? "/")%char then
      skipWhitespaceAndCommentsLoop fuel (skipToNewline (bytesLeft l) l)
    else if (byteAt l (lx_pos l) =? "/")%char && (lx_peek l =? "*")%char then
      skipWhitespaceAndCommentsLoop fuel
        (skipBlockComment (bytesLeft (lx_advance (lx_advance l)))
                          (lx_advance (lx_advance l)))
    else l
  else l.
Proof. reflexivity. Qed.

(** A line comment starts with a slash, which is not a newline: the loop
    that skips it makes at least one round. *)
Lemma skipToNewline_strict l :
  (lx_pos l <? lx_len l) = true →
  (byteAt l (lx_pos l) =? "/")%char = true →
  lexerAhead (lx_advance l) (skipToNewline (bytesLeft l) l).
Proof.
  intros Hlt Hc. pose proof (ltb_bytesLeft _ Hlt) as Hpos.
  destruct (bytesLeft l) as [|n] eqn:Hn; [lia|]. simpl. rewrite Hlt.
  apply Ascii.eqb_eq in Hc. rewrite Hc. simpl. apply lexerAhead_skipToNewline.
Qed.

Lemma lexerAhead_skipWhitespaceAndCommentsLoop fuel l :
  lexerAhead l (skipWhitespaceAndCommentsLoop fuel l).
Proof.
  revert l. induction fuel as [|fuel IH]; intros l; [apply lexerAhead_refl|].
  rewrite skipWhitespaceAndCommentsLoop_S.
  destruct (lx_pos l <? lx_len l); [|apply lexerAhead_refl].
  destruct (isSpace _).
  { eapply lexerAhead_trans; [apply lexerAhead_advance|apply IH]. }
  destruct (_ && _).
  { eapply lexerAhead_trans; [apply lexerAhead_skipToNewline|apply IH]. }
  destruct (_ && _); [|apply lexerAhead_refl].
  eapply lexerAhead_trans; [apply lexerAhead_advance|].
  eapply lexerAhead_trans; [apply lexerAhead_advance|].
  eapply lexerAhead_trans; [apply lexerAhead_skipBlockComment|apply IH].
Qed.

Lemma skipWhitespaceAndCommentsLoop_fuel fuel l :
  bytesLeft l ≤ fuel →
  skipWhitespaceAndCommentsLoop (S fuel) l = skipWhitespaceAndCommentsLoop fuel l.
Proof.
  revert l. induction fuel as [|fuel IH]; intros l Hb.
  - simpl. rewrite bytesLeft_0 by lia. done.
  - rewrite (skipWhitespaceAndCommentsLoop_S (S fuel) l),
            (skipWhitespaceAndCommentsLoop_S fuel l).
    destruct (lx_pos l <? lx_len l) eqn:Hlt; [|done].
    pose proof (ltb_bytesLeft _ Hlt) as Hpos.
    destruct (isSpace _).
    { apply IH. rewrite lx_advance_bytesLeft. lia. }
    destruct ((byteAt l (lx_pos l) =? "/")%char && (lx_peek l =? "/")%char) eqn:Hline.
    { apply IH. apply andb_prop in Hline as [Hc _].
      destruct (lexerAhead_advance_strict l _ Hpos (skipToNewline_strict l Hlt Hc)).
      lia. }
    destruct ((byteAt l (lx_pos l) =? "/")%char && (lx_peek l =? "*")%char); [|done].
    apply IH.
    destruct (lexerAhead_skipBlockComment
                (bytesLeft (lx_advance (lx_advance l))) (lx_advance (lx_advance l)))
      as [_ Hle].
    etrans; [exact Hle|]. rewrite !lx_advance_bytesLeft. lia.
Qed.

Lemma lexerAhead_skipWhitespaceAndComments l :
  lexerAhead l (skipWhitespaceAndComments l).
Proof. apply lexerAhead_skipWhitespaceAndCommentsLoop. Qed.

(** *** Every round of [Tokenize] consumes a byte *)

Lemma lexerMoved_advance l l' :
  0 < bytesLeft l → lexerAhead (lx_advance l) l' → lexerMoved l l'.
Proof. apply lexerAhead_advance_strict. Qed.

Lemma lexerMoved_pushToken l l' t : lexerMoved l l' → lexerMoved l (pushToken l' t).
Proof. done. Qed.

Lemma lexerAhead_advance_pushToken l t :
  lexerAhead (lx_advance l) (lx_advance (pushToken l t)).
Proof.
  split.
  - by rewrite !lx_advance_input.
  - rewrite !lx_advance_bytesLeft. done.
Qed.

Lemma advanceWhile_strict keep l :
  (lx_pos l <? lx_len l) = true → keep (byteAt l (lx_pos l)) = true →
  lexerAhead (lx_advance l) (advanceWhile (bytesLeft l) keep l).
Proof.
  intros Hlt Hk. pose proof (ltb_bytesLeft _ Hlt) as Hpos.
  destruct (bytesLeft l) as [|n] eqn:Hn; [lia|]. simpl. rewrite Hlt, Hk. simpl.
  apply lexerAhead_advanceWhile.
Qed.

Lemma skipPreprocessor_strict l :
  (lx_pos l <? lx_len l) = true →
  (byteAt l (lx_pos l) =? "#")%char = true →
  lexerAhead (lx_advance l) (skipPreprocessor l).
Proof.
  intros Hlt Hc. pose proof (ltb_bytesLeft _ Hlt) as Hpos.
  unfold skipPreprocessor.
  destruct (bytesLeft l) as [|n] eqn:Hn; [lia|]. simpl. rewrite Hlt.
  apply Ascii.eqb_eq in Hc. rewrite Hc. simpl.
  apply lexerAhead_skipPreprocessorLoop.
Qed.

Lemma readString_moved quote l :
  (lx_pos l <? lx_len l) = true → lexerMoved l (readString quote l).
Proof.
  intros Hlt%ltb_bytesLeft. unfold readString.
  pose proof (lexerAhead_readStringLoop (bytesLeft (lx_advance l)) quote [quote]
                (lx_advance l)) as Hloop.
  destruct (readStringLoop _ _ _ _) as [sb l2]. simpl in Hloop.
  apply lexerMoved_pushToken. by apply lexerMoved_advance.
Qed.

Lemma readIdentifier_moved l :
  (lx_pos l <? lx_len l) = true →
  isLetter (byteAt l (lx_pos l)) || (byteAt l (lx_pos l) =? "_")%char = true →
  lexerMoved l (readIdentifier l).
Proof.
  intros Hlt Hc. unfold readIdentifier. apply lexerMoved_pushToken.
  apply lexerMoved_advance; [by apply ltb_bytesLeft|].
  apply advanceWhile_strict; [done|].
  apply orb_prop in Hc as [->| ->]; [done|]. by rewrite orb_true_r.
Qed.

Lemma readNumber_moved l :
  (lx_pos l <? lx_len l) = true → isDigit (byteAt l (lx_pos l)) = true →
  lexerMoved l (readNumber l).
Proof.
  intros Hlt Hc. unfold readNumber. apply lexerMoved_pushToken.
  apply lexerMoved_advance; [by apply ltb_bytesLeft|].
  apply advanceWhile_strict; [done|]. unfold isNumberByte. by rewrite Hc.
Qed.

Lemma readOperator_moved l :
  (lx_pos l <? lx_len l) = true → lexerMoved l (readOperator l).
Proof.
  intros Hlt%ltb_bytesLeft. unfold readOperator. destruct (_ && _).
  - apply lexerMoved_pushToken. apply lexerMoved_advance; [done|].
    apply lexerAhead_advance.
  - apply lexerMoved_pushToken. apply lexerMoved_advance; [done|].
    apply lexerAhead_refl.
Qed.

Lemma tokenizeStep_progress l :
  match tokenizeStep l with
  | Continue l' => lexerMoved l l'
  | Break l' => lx_input l' = lx_input l ∧ bytesLeft l' = 0
  end.
Proof.
  unfold tokenizeStep.
  destruct (lexerAhead_skipWhitespaceAndComments l) as [Hin Hle].
  set (l1 := skipWhitespaceAndComments l) in *.
  destruct (lx_pos l1 <? lx_len l1) eqn:Hlt; simpl.
  2:{ split; [done|]. apply Nat.ltb_ge in Hlt. unfold bytesLeft. lia. }
  assert (∀ l', lexerMoved l1 l' → lexerMoved l l') as Hmove.
  { intros l' [H1 H2]. split; [congruence|lia]. }
  pose proof (ltb_bytesLeft _ Hlt) as Hpos.
  destruct (_ && _).
  { apply Hmove, lexerMoved_advance; [done|].
    eapply lexerAhead_trans; [apply lexerAhead_advance_pushToken|].
    apply lexerAhead_advance. }
  destruct (_ || _).
  { by apply Hmove, readString_moved. }
  destruct (byteAt l1 (lx_pos l1) =? "#")%char eqn:Hhash.
  { apply Hmove, lexerMoved_advance; [done|]. by apply skipPreprocessor_strict. }
  destruct (isLetter (byteAt l1 (lx_pos l1)) || (byteAt l1 (lx_pos l1) =? "_")%char)
    eqn:Hletter.
  { by apply Hmove, readIdentifier_moved. }
  destruct (isDigit (byteAt l1 (lx_pos l1))) eqn:Hdigit.
  { by apply Hmove, readNumber_moved. }
  destruct (isOperator _).
  { by apply Hmove, readOperator_moved. }
  destruct (isPunctuation _).
  { apply Hmove, lexerMoved_advance; [done|]. apply lexerAhead_advance_pushToken. }
  apply Hmove, lexerMoved_advance; [done|]. apply lexerAhead_refl.
Qed.

Lemma tokenizeLoop_total fuel l :
  bytesLeft l < fuel →
  lx_input (tokenizeLoop fuel l) = lx_input l ∧ bytesLeft (tokenizeLoop fuel l) = 0.
Proof.
  revert l. induction fuel as [|fuel IH]; intros l Hb; [lia|]. simpl.
  destruct (lx_pos l <? lx_len l) eqn:Hlt.
  2:{ split; [done|]. apply Nat.ltb_ge in Hlt. unfold bytesLeft. lia. }
  pose proof (tokenizeStep_progress l) as Hstep.
  destruct (tokenizeStep l) as [l'|l']; [|done].
  destruct Hstep as [Hin Hlt']. destruct (IH l') as [H1 H2]; [lia|].
  split; [congruence|done].
Qed.

(** The lexer is total: on every input the loop of [Tokenize] stops
    because no byte is left, and the token list ends with the end token. *)
Theorem Tokenize_total input :
  lx_input (TokenizeState input) = input ∧
  bytesLeft (TokenizeState input) = 0 ∧
  ∃ tokens line column,
    lx_tokens (TokenizeState input) = tokens ++ [mkToken TokenEOF EmptyString line column].
Proof.
  unfold TokenizeState.
  destruct (tokenizeLoop_total (S (length input)) (NewLexer input)) as [H1 H2].
  { unfold bytesLeft, lx_len. simpl. lia. }
  split_and!; [done|done|]. by eexists _, _, _.
Qed.

(** ** The lexer on a block comment that is never closed *)

Lemma letter_class c :
  isLetter c = true →
  isSpace c = false ∧ (c =? "/")%char = false ∧ (c =? ":")%char = false ∧
  (c =? "034")%char = false ∧ (c =? "'")%char = false ∧ (c =? "#")%char = false ∧
  (c =? "010")%char = false.
Proof.
  destruct c as [[] [] [] [] [] [] [] []]; vm_compute; intros H; try discriminate H;
    by repeat split.
Qed.

Lemma single_letter_not_keyword c : isKeyword (String c EmptyString) = false.
Proof.
  unfold isKeyword. apply bool_decide_eq_false. unfold keywords.
  rewrite !not_elem_of_cons. split_and!; try discriminate. apply not_elem_of_nil.
Qed.

Lemma lx_advance_tokens l : lx_tokens (lx_advance l) = lx_tokens l.
Proof. unfold lx_advance. by repeat case_match. Qed.

Section Unterminated.
Variable body : list ascii.
Variable last : ascii.
Hypothesis no_star : Forall (fun b => b ≠ "*"%char) body.
Hypothesis last_letter : isLetter last = true.

Local Abbreviation input := (unterminatedComment body last).

Lemma input_length : length input = length body + 3.
Proof. unfold unterminatedComment. simpl. rewrite length_app. simpl. lia. Qed.

Lemma byteAt_body l k b :
  lx_input l = input → body !! k = Some b → byteAt l (2 + k) = b.
Proof.
  intros Hin Hk. unfold byteAt. rewrite Hin. unfold unterminatedComment. simpl.
  by rewrite lookup_app_l, Hk by (by eapply lookup_lt_Some).
Qed.

Lemma byteAt_last l :
  lx_input l = input → byteAt l (2 + length body) = last.
Proof.
  intros Hin. unfold byteAt. rewrite Hin. unfold unterminatedComment. simpl.
  rewrite lookup_app_r by lia. by rewrite Nat.sub_diag.
Qed.

Lemma skipBlockComment_body fuel k l :
  lx_input l = input → lx_pos l = 2 + k → k ≤ length body →
  length body - k ≤ fuel →
  ∃ line column,
    skipBlockComment fuel l = mkLexer input (2 + length body) line column (lx_tokens l).
Proof.
  revert k l. induction fuel as [|fuel IH]; intros k l Hin Hpos Hk Hfuel.
  - assert (k = length body) as -> by lia. exists (lx_line l), (lx_column l).
    destruct l; simpl in *. by subst.
  - simpl. unfold lx_len. rewrite Hin, input_length, Hpos.
    destruct (Nat.ltb_spec (2 + k + 1) (length body + 3)) as [Hlt|Hge].
    + destruct (lookup_lt_is_Some_2 body k) as [b Hb]; [lia|].
      rewrite (byteAt_body l k b Hin Hb).
      assert ((b =? "*")%char = false) as ->.
      { apply Ascii.eqb_neq. eapply Forall_forall in no_star; [done|].
        by eapply list_elem_of_lookup_2. }
      simpl.
      destruct (IH (S k) (lx_advance l)) as (line & col & ->).
      * by rewrite lx_advance_input.
      * rewrite lx_advance_pos; [lia|]. unfold lx_len. rewrite Hin, input_length. lia.
      * lia.
      * lia.
      * exists line, col. by rewrite lx_advance_tokens.
    + assert (k = length body) as -> by lia. exists (lx_line l), (lx_column l).
      destruct l; simpl in *. by subst.
Qed.

Lemma skipWhitespaceAndComments_unterminated :
  ∃ line column,
    skipWhitespaceAndComments (NewLexer input)
    = mkLexer input (2 + length body) line column [].
Proof.
  destruct (letter_class last last_letter) as (Hsp & Hsl & _).
  unfold skipWhitespaceAndComments.
  assert (bytesLeft (NewLexer input) = S (S (S (length body)))) as ->.
  { unfold bytesLeft, lx_len. simpl. rewrite length_app. simpl. lia. }
  rewrite skipWhitespaceAndCommentsLoop_S.
  change (lx_pos (NewLexer input) <? lx_len (NewLexer input)) with true.
  change (isSpace (byteAt (NewLexer input) (lx_pos (NewLexer input)))) with false.
  change (lx_peek (NewLexer input)) with "*"%char.
  change (byteAt (NewLexer input) (lx_pos (NewLexer input))) with "/"%char.
  cbn [Ascii.eqb Bool.eqb andb].
  change (lx_advance (lx_advance (NewLexer input))) with (mkLexer input 2 1 3 []).
  destruct (skipBlockComment_body (bytesLeft (mkLexer input 2 1 3 [])) 0
              (mkLexer input 2 1 3 [])) as (line & col & ->); [done|done|lia| |].
  { unfold bytesLeft, lx_len. simpl. rewrite length_app. simpl. lia. }
  exists line, col.
  rewrite skipWhitespaceAndCommentsLoop_S. unfold lx_len, lx_peek. cbn [lx_input lx_pos].
  rewrite input_length.
  destruct (Nat.ltb_spec (2 + length body) (length body + 3)); [|lia].
  rewrite byteAt_last by done. by rewrite Hsp, Hsl.
Qed.

Lemma drop_to_last : drop (2 + length body) input = [last].
Proof. unfold unterminatedComment. simpl. by rewrite drop_app_length. Qed.

Lemma tokenizeLoop_done fuel l :
  lx_len l ≤ lx_pos l → tokenizeLoop fuel l = l.
Proof.
  intros H. destruct fuel; simpl; [done|].
  destruct (Nat.ltb_spec (lx_pos l) (lx_len l)); [lia|done].
Qed.

Lemma Tokenize_unterminated :
  ∃ line column,
    lx_tokens (TokenizeState input)
    = [mkToken TokenIdent (String last EmptyString) line column;
       mkToken TokenEOF EmptyString line (column + 1)%Z].
Proof.
  destruct (letter_class last last_letter) as (Hsp & Hsl & Hco & Hdq & Hsq & Hha & Hnl).
  destruct skipWhitespaceAndComments_unterminated as (line & col & Hskip).
  exists line, col. unfold TokenizeState.
  change (tokenizeLoop (S (length input)) (NewLexer input)) with
    (match tokenizeStep (NewLexer input) with
     | Continue l' => tokenizeLoop (length input) l'
     | Break l' => l'
     end).
  unfold tokenizeStep. rewrite Hskip.
  set (l1 := mkLexer input (2 + length body) line col []).
  assert (lx_len l1 = length body + 3) as Hlen by apply input_length.
  assert (byteAt l1 (lx_pos l1) = last) as Hbyte by (by apply byteAt_last).
  assert ((lx_pos l1 <? lx_len l1) = true) as Hlt.
  { apply Nat.ltb_lt. rewrite Hlen. simpl. lia. }
  rewrite Hlt, Hbyte, Hco, Hdq, Hsq, Hha, last_letter. cbn [negb andb orb].
  assert (lx_advance l1 = mkLexer input (3 + length body) line (col + 1) []) as Hadv.
  { unfold lx_advance. by rewrite Hlt, Hbyte, Hnl. }
  assert (readIdentifier l1
          = mkLexer input (3 + length body) line (col + 1)
              [mkToken TokenIdent (String last EmptyString) line col]) as ->.
  { unfold readIdentifier.
    assert (bytesLeft l1 = 1) as ->.
    { unfold bytesLeft. rewrite Hlen. simpl. lia. }
    cbn [advanceWhile]. rewrite Hlt, Hbyte, last_letter. cbn [andb orb].
    rewrite Hadv. unfold slice. cbn [lx_pos lx_input l1].
    replace (3 + length body - (2 + length body)) with 1 by lia.
    rewrite drop_to_last. cbn [take string_of_list_ascii].
    by rewrite single_letter_not_keyword. }
  rewrite tokenizeLoop_done; [done|].
  unfold lx_len. cbn [lx_input lx_pos]. rewrite input_length. lia.
Qed.
End Unterminated.

(** ** The registry merge *)

Example isHeaderFile_examples :
  isHeaderFile "include/w.HPP" = true ∧ isHeaderFile "a/b.hxx" = true ∧
  isHeaderFile "w.h" = true ∧ isHeaderFile "src/w.cpp" = false ∧
  isHeaderFile "dir.h/w" = false ∧ isHeaderFile "w.cpp, w.h" = true.
Proof. by vm_compute. Qed.

(** C7 (as amended) — when the incoming record [S] comes from a header
    and the held record [T] does not, the merge replaces [T.Members] with
    [S.Members] if [S.Members] is not empty and keeps [T.Members] if it is
    empty; when [T] comes from a header and [S] does not, [T.Members] is
    kept. *)
Theorem merge_members_prefers_header cap T S :
  (isHeaderFile (Class_File S) = true → isHeaderFile (Class_File T) = false →
     Class_Members S ≠ [] →
     Class_Members (mergeClassInto cap T S) = Class_Members S) ∧
  (isHeaderFile (Class_File S) = true → isHeaderFile (Class_File T) = false →
     Class_Members S = [] →
     Class_Members (mergeClassInto cap T S) = Class_Members T) ∧
  (isHeaderFile (Class_File T) = true → isHeaderFile (Class_File S) = false →
     Class_Members (mergeClassInto cap T S) = Class_Members T).
Proof.
  unfold mergeClassInto, mergeMembers. simpl. split_and!.
  - intros -> -> Hne. simpl. by destruct (Class_Members S).
  - intros -> -> ->. done.
  - intros -> ->. done.
Qed.

Lemma merge_members_prefers_header_witness :
  Class_Members (mergeClassInto 0 implRecord headerRecordWithMembers)
  = [mkMember "buf" "Buffer" true false 2] ∧
  Class_Members (mergeClassInto 0 headerRecordWithMembers implRecord)
  = [mkMember "buf" "Buffer" true false 2].
Proof.
  split.
  - destruct (merge_members_prefers_header 0 implRecord headerRecordWithMembers)
      as (H & _ & _).
    apply H; [reflexivity|reflexivity|discriminate].
  - destruct (merge_members_prefers_header 0 headerRecordWithMembers implRecord)
      as (_ & _ & H).
    apply H; reflexivity.
Defined.

(** C7 (as stated) fails: merging the member-less header record into the
    record of the implementation file leaves the members of the latter in
    place instead of replacing them with the empty list. *)
Lemma merge_members_empty_header_counterexample :
  ¬ (∀ cap T S,
       isHeaderFile (Class_File S) = true → isHeaderFile (Class_File T) = false →
       Class_Members (mergeClassInto cap T S) = Class_Members S).
Proof.
  intros H. specialize (H 0 implRecord headerRecord eq_refl eq_refl).
  vm_compute in H. discriminate.
Qed.

(** C9 — an input that ends inside a block comment is not consumed to
    its end by the comment loop: the loop stops one byte early.  For every
    comment body without a star and every letter as the last byte, that
    byte is lexed as an identifier, so the token stream holds a token for a
    byte of the unterminated comment before the end token. *)
Theorem unterminated_comment_last_byte (body : list ascii) (last : ascii) :
  Forall (fun b => b ≠ "*"%char) body →
  isLetter last = true →
  ∃ line column,
    Tokenize (string_of_list_ascii (unterminatedComment body last))
    = [mkToken TokenIdent (String last EmptyString) line column;
       mkToken TokenEOF EmptyString line (column + 1)%Z].
Proof.
  intros Hbody Hlast. unfold Tokenize.
  rewrite list_ascii_of_string_of_list_ascii.
  by apply Tokenize_unterminated.
Qed.

Lemma unterminated_comment_last_byte_witness :
  ∃ line column,
    Tokenize "/* never closed"
    = [mkToken TokenIdent "d" line column;
       mkToken TokenEOF EmptyString line (column + 1)%Z].
Proof.
  apply (unterminated_comment_last_byte
           (list_ascii_of_string " never close") "d"%char).
  - repeat constructor; discriminate.
  - reflexivity.
Defined.

(** The shortest such input, evaluated: the comment loop leaves the lexer
    at position 2 of 3, and the last byte becomes a token. *)
Example unterminated_comment_evaluated :
  Tokenize "/*a"
  = [mkToken TokenIdent "a" 1 3; mkToken TokenEOF EmptyString 1 4] ∧
  lx_pos (TokenizeState (list_ascii_of_string "/*a")) = 3 ∧
  lx_pos (skipWhitespaceAndComments (NewLexer (list_ascii_of_string "/*a"))) = 2.
Proof. by vm_compute. Qed.

(** With white space as the last byte the comment is consumed as the
    specification says, and a closed comment leaves no token. *)
Example unterminated_comment_examples :
  Tokenize "x /* never closed" =
    [mkToken TokenIdent "x" 1 1; mkToken TokenIdent "d" 1 17;
     mkToken TokenEOF EmptyString 1 18] ∧
  Tokenize "x /* never closed " =
    [mkToken TokenIdent "x" 1 1; mkToken TokenEOF EmptyString 1 19] ∧
  Tokenize "x /* closed */ y" =
    [mkToken TokenIdent "x" 1 1; mkToken TokenIdent "y" 1 16;
     mkToken TokenEOF EmptyString 1 17].
Proof. by vm_compute. Qed.

(* ================================================================== *)
(** * Further properties: the analyzer as a whole *)

(** ** The release test and the deallocation it compares with *)

(** X1: [isVarDeallocated] answers yes exactly when [findDeallocation]
    returns a deallocation.  A [delete] of the variable itself is the one
    returned; without one, the deallocation returned is that of the first
    alias, in the order of the alias list, that has one. *)
Theorem release_test_agrees_with_lookup v dv (am : gmap string (list string)) :
  (isVarDeallocated v dv am = true ↔ is_Some (findDeallocation v dv am)) ∧
  (∀ d, dv !! v = Some d → findDeallocation v dv am = Some d) ∧
  (dv !! v = None →
   ∀ d, findDeallocation v dv am = Some d ↔
        ∃ i a, default [] (am !! v) !! i = Some a ∧ dv !! a = Some d ∧
               ∀ j b, j < i → default [] (am !! v) !! j = Some b → dv !! b = None).
Proof.
  split_and!.
  - split; [apply findDeallocation_released|].
    intros [d Hd]. apply isVarDeallocated_true. unfold findDeallocation in Hd.
    destruct (dv !! v) eqn:Hv; [left; by eexists|]. right.
    destruct (am !! v) as [aliases|]; [|done]. simpl.
    apply firstDeallocation_spec in Hd as (i & a & Hi & Ha & _).
    exists a. split; [by eapply list_elem_of_lookup_2 | by eexists].
  - intros d Hd. unfold findDeallocation. by rewrite Hd.
  - intros Hv d. unfold findDeallocation. rewrite Hv.
    destruct (am !! v) as [aliases|]; simpl.
    + apply firstDeallocation_spec.
    + split; [done|]. by intros (i & a & H & _).
Qed.

(** ** The alias map *)

Lemma appendAlias_nonempty k x (am : gmap string (list string)) :
  (∀ v l, am !! v = Some l → l ≠ []) →
  ∀ v l, appendAlias k x am !! v = Some l → l ≠ [].
Proof.
  intros H v l. unfold appendAlias. destruct (decide (k = v)) as [->|Hne].
  - rewrite lookup_insert_eq. intros [= <-]. by destruct (default [] (am !! v)).
  - rewrite lookup_insert_ne by done. apply H.
Qed.

Lemma collectAliasesFromFunc_nonempty fn (am : gmap string (list string)) :
  (∀ v l, am !! v = Some l → l ≠ []) →
  ∀ v l, collectAliasesFromFunc am fn !! v = Some l → l ≠ [].
Proof.
  unfold collectAliasesFromFunc. revert am.
  induction (Fn_Aliases fn) as [|alias l IH]; intros am H; simpl; [done|].
  apply IH. by do 2 apply appendAlias_nonempty.
Qed.

(** X2: the alias map is symmetric, and a name is a key of it only with
    at least one alias. *)
Theorem alias_map_symmetric class x y :
  (y ∈ default [] (buildAliasMap class !! x) ↔
   x ∈ default [] (buildAliasMap class !! y)) ∧
  (∀ l, buildAliasMap class !! x = Some l → l ≠ []).
Proof.
  split.
  - rewrite !buildAliasMap_edge. unfold aliasEdge, aliasJoins.
    split; intros (fn & alias & Hf & Ha & Hj); exists fn, alias; tauto.
  - rewrite buildAliasMap_fold.
    assert (∀ fns (am : gmap string (list string)),
      (∀ v l, am !! v = Some l → l ≠ []) →
      ∀ v l, foldl collectAliasesFromFunc am fns !! v = Some l → l ≠ []) as H.
    { induction fns as [|fn fns IH]; intros am Ham; simpl; [done|].
      apply IH. by apply collectAliasesFromFunc_nonempty. }
    apply H. intros v l. by rewrite lookup_empty.
Qed.

(** ** The entry points of the analyzer *)

Lemma foldl_app_flat_map {A B} (f : A → list B) (l : list A) (acc : list B) :
  foldl (fun acc x => acc ++ f x) acc l = acc ++ flat_map f l.
Proof.
  revert acc. induction l as [|x l IH]; intros acc; simpl.
  - by rewrite app_nil_r.
  - by rewrite IH, app_assoc.
Qed.

Lemma AnalyzeClasses_flat_map classes :
  AnalyzeClasses classes = flat_map analyzeClass classes.
Proof. unfold AnalyzeClasses, Analyze. simpl. by rewrite foldl_app_flat_map. Qed.

Lemma AnalyzeOutput_elem_of classes leaks l :
  AnalyzeOutput classes leaks → l ∈ leaks →
  ∃ class classLeaks, class ∈ classes ∧ analyzeClassOutput class classLeaks ∧
                      l ∈ classLeaks.
Proof.
  induction 1 as [|class classes classLeaks leaks Hc Hrest IH].
  - by intros ?%elem_of_nil.
  - intros [Hl|Hl]%elem_of_app.
    + exists class, classLeaks. split_and!; [apply list_elem_of_here|done|done].
    + destruct (IH Hl) as (c & ls & Hin & Hout & Hls).
      exists c, ls. split_and!; [by apply list_elem_of_further|done|done].
Qed.

Lemma AnalyzeOutput_canonical classes :
  AnalyzeOutput classes (AnalyzeClasses classes).
Proof.
  rewrite AnalyzeClasses_flat_map. induction classes as [|c cs IH]; simpl.
  - constructor.
  - constructor; [apply analyzeClassOutput_canonical | done].
Qed.

(** X3: whatever the order in which the Go maps are visited, a run of
    [Analyze] returns a rearrangement of one and the same list, so the
    number of leaks is the same for every run; and the leaks of a batch
    of classes are those of its parts, one after the other. *)
Theorem analysis_independent_of_map_order classes leaks :
  AnalyzeOutput classes leaks →
  leaks ≡ₚ AnalyzeClasses classes ∧
  length leaks = length (AnalyzeClasses classes) ∧
  ∀ classes1 classes2, classes = classes1 ++ classes2 →
    AnalyzeClasses classes = AnalyzeClasses classes1 ++ AnalyzeClasses classes2.
Proof.
  intros Hout.
  assert (leaks ≡ₚ AnalyzeClasses classes) as Hperm.
  { rewrite AnalyzeClasses_flat_map.
    induction Hout as [|class classes classLeaks leaks Hc Hrest IH]; [done|].
    simpl. apply Permutation_app; [by apply analyzeClassOutput_Permutation | done]. }
  split_and!; [done | by rewrite Hperm |].
  intros c1 c2 ->. rewrite !AnalyzeClasses_flat_map. apply flat_map_app.
Qed.

Lemma analysis_independent_of_map_order_witness :
  AnalyzeOutput [basicLeakClass; arrayMismatchNewArray]
    (AnalyzeClasses [basicLeakClass; arrayMismatchNewArray]) ∧
  length (AnalyzeClasses [basicLeakClass; arrayMismatchNewArray]) = 2.
Proof.
  split; [apply AnalyzeOutput_canonical|].
  pose proof (analysis_independent_of_map_order
                [basicLeakClass; arrayMismatchNewArray] _
                (AnalyzeOutput_canonical _)) as (_ & _ & H).
  rewrite (H [basicLeakClass] [arrayMismatchNewArray] eq_refl).
  by vm_compute.
Defined.

(** *** What a reported leak carries *)

Lemma rule1Body_fields class k a l :
  l ∈ rule1Body class (k, a) →
  Leak_File l = Class_File class ∧ Leak_ClassName l = Class_Name class ∧
  ((Leak_Severity l = "error" ∧
    (Leak_Reason l = reasonNotDeleted ∨ Leak_Reason l = reasonArrayAsScalar))
   ∨ (Leak_Severity l = "warning" ∧ Leak_Reason l = reasonScalarAsArray)).
Proof.
  unfold rule1Body. destruct (negb _).
  { intros ->%list_elem_of_singleton. simpl. tauto. }
  destruct (findDeallocation _ _ _) as [d|]; [|by intros ?%elem_of_nil].
  destruct (_ && _).
  { intros ->%list_elem_of_singleton. simpl. tauto. }
  destruct (_ && _); [|by intros ?%elem_of_nil].
  intros ->%list_elem_of_singleton. simpl. tauto.
Qed.

Lemma rule2Body_fields class method alloc l :
  l ∈ rule2Body class method alloc →
  Leak_File l = Class_File class ∧ Leak_ClassName l = Class_Name class ∧
  Leak_Severity l = "warning" ∧ Leak_Reason l = reasonReassigned (Fn_Name method).
Proof.
  unfold rule2Body. repeat case_match; try by intros ?%elem_of_nil.
  by intros ->%list_elem_of_singleton.
Qed.

Lemma rule3Body_fields class method alias l :
  l ∈ rule3Body class method alias →
  Leak_File l = Class_File class ∧ Leak_ClassName l = Class_Name class ∧
  Leak_Severity l = "error" ∧ Leak_Reason l = reasonDoubleFree (Alias_TargetVar alias).
Proof.
  unfold rule3Body. repeat case_match; try by intros ?%elem_of_nil.
  by intros ->%list_elem_of_singleton.
Qed.

Lemma rule4Body_fields class entry l :
  l ∈ rule4Body class entry →
  Leak_File l = Class_File class ∧ Leak_ClassName l = Class_Name class ∧
  Leak_Severity l = "error" ∧ Leak_Reason l = reasonNoDestructor.
Proof.
  unfold rule4Body. case_match; [|by intros ?%elem_of_nil].
  by intros ->%list_elem_of_singleton.
Qed.

(** X4: every leak that [Analyze] returns is about one of the classes it
    was given, a class with at least one pointer member: it carries the
    file and the name of that class, and its severity is fixed by its
    reason: [error] for a missing delete, [new[]] released by [delete],
    a missing destructor and a double free, [warning] for [new] released
    by [delete[]] and for a reassignment. *)
Theorem reported_leak_fields classes leaks l :
  AnalyzeOutput classes leaks → l ∈ leaks →
  ∃ class, class ∈ classes ∧ pointerMembers class ≠ ∅ ∧
    Leak_File l = Class_File class ∧ Leak_ClassName l = Class_Name class ∧
    ((Leak_Severity l = "error" ∧ errorReason class (Leak_Reason l)) ∨
     (Leak_Severity l = "warning" ∧ warningReason class (Leak_Reason l))).
Proof.
  intros Hout Hl.
  destruct (AnalyzeOutput_elem_of _ _ _ Hout Hl) as (class & ls & Hin & Hc & Hls).
  exists class. split; [done|].
  apply (analyzeClassOutput_elem_of _ _ l Hc) in Hls as [Hne Hrule].
  split; [done|]. unfold errorReason, warningReason.
  destruct Hrule as [(v & a & _ & H)|[H|[H|(_ & n & m & _ & H)]]].
  - apply rule1Body_fields in H as (-> & -> & [[-> [->| ->]]|[-> ->]]); tauto.
  - apply rule2_leaks in H as (m & a & Hm & _ & H).
    apply rule2Body_fields in H as (-> & -> & -> & ->).
    split_and!; [done|done|]. right. split; [done|]. right. by exists m.
  - apply rule3_leaks in H as (m & a & Hm & Ha & H).
    apply rule3Body_fields in H as (-> & -> & -> & ->).
    split_and!; [done|done|]. left. split; [done|]. do 3 right. by exists m, a.
  - apply rule4Body_fields in H as (-> & -> & -> & ->). tauto.
Qed.

Lemma reported_leak_fields_witness :
  ∃ class, class ∈ [reassignClass] ∧ pointerMembers class ≠ ∅ ∧
    "edge_cases.cpp" = Class_File class ∧ "Reassign" = Class_Name class ∧
    (("warning" = "error" ∧ errorReason class (reasonReassigned "reassign")) ∨
     ("warning" = "warning" ∧ warningReason class (reasonReassigned "reassign"))).
Proof.
  apply (reported_leak_fields [reassignClass] (AnalyzeClasses [reassignClass])
           (mkLeak "edge_cases.cpp" 4 "Reassign" "ptr"
                   (reasonReassigned "reassign") "warning")).
  - apply AnalyzeOutput_canonical.
  - vm_compute. apply list_elem_of_here.
Defined.

(** *** Classes without pointer members *)

Lemma pointerMembers_empty class :
  pointerMembers class = ∅ ↔ existsb Member_IsPointer (Class_Members class) = false.
Proof.
  split.
  - intros He. apply not_true_iff_false. intros (m & Hm & Hp)%existsb_exists.
    assert (is_Some (pointerMembers class !! Member_Name m)) as [x Hx].
    { apply pointerMembers_is_Some. exists m. by rewrite list_elem_of_In. }
    by rewrite He, lookup_empty in Hx.
  - intros Hex. apply map_eq. intros k. rewrite lookup_empty.
    apply eq_None_not_Some. intros (m & Hm & Hp & _)%pointerMembers_is_Some.
    apply not_true_iff_false in Hex. apply Hex, existsb_exists.
    exists m. by rewrite <- list_elem_of_In.
Qed.

Lemma countClassesWithPointers_filter classes count :
  foldl (fun count c =>
           if existsb Member_IsPointer (Class_Members c) then S count else count)
        count classes
  = count + length (filter (fun c => pointerMembers c ≠ ∅) classes).
Proof.
  revert count. induction classes as [|c cs IH]; intros count; simpl; [lia|].
  rewrite IH. destruct (existsb _ _) eqn:Hex.
  - rewrite filter_cons_True; [simpl; lia|].
    intros He%pointerMembers_empty. congruence.
  - rewrite filter_cons_False; [lia|].
    intros Hne. by apply Hne, pointerMembers_empty.
Qed.

(** X5: the count that [main] prints is the number of classes for which
    [analyzeClass] goes past its first test, and when that count is zero
    no run of the analysis reports a leak, whatever the constructors
    allocate. *)
Theorem no_pointer_member_no_leak classes leaks :
  AnalyzeOutput classes leaks →
  countClassesWithPointers classes
    = length (filter (fun c => pointerMembers c ≠ ∅) classes) ∧
  (countClassesWithPointers classes = 0 → leaks = []).
Proof.
  intros Hout. unfold countClassesWithPointers.
  rewrite countClassesWithPointers_filter. split; [done|]. simpl. intros Hz.
  destruct leaks as [|l leaks]; [done|]. exfalso.
  destruct (AnalyzeOutput_elem_of _ _ l Hout) as (c & ls & Hin & Hc & Hl);
    [apply list_elem_of_here|].
  apply (analyzeClassOutput_elem_of _ _ l Hc) in Hl as [Hne _].
  assert (c ∈ filter (fun c => pointerMembers c ≠ ∅) classes) as Hf.
  { by apply list_elem_of_filter. }
  destruct (filter _ classes); [by apply elem_of_nil in Hf | done].
Qed.

Lemma no_pointer_member_no_leak_witness :
  countClassesWithPointers [noMemberClass] = 0 ∧ AnalyzeClasses [noMemberClass] = [].
Proof.
  destruct (no_pointer_member_no_leak [noMemberClass] (AnalyzeClasses [noMemberClass])
              (AnalyzeOutput_canonical _)) as [Hcount Hnone].
  split; [reflexivity|]. apply Hnone. reflexivity.
Defined.

(** *** Rule 4 *)

Lemma deallocatedVars_no_destructor class :
  Class_Destructor class = None → deallocatedVars class = ∅.
Proof. unfold deallocatedVars. by intros ->. Qed.

Lemma rule1Body_no_destructor class v alloc :
  Class_Destructor class = None →
  rule1Body class (v, alloc)
  = [mkLeak (Class_File class) (Alloc_Line alloc) (Class_Name class) v
            reasonNotDeleted "error"].
Proof.
  intros Hd. unfold rule1Body.
  assert (isVarDeallocated v (deallocatedVars class) (buildAliasMap class) = false)
    as ->; [|done].
  apply isVarDeallocated_false. rewrite deallocatedVars_no_destructor by done.
  split; [apply lookup_empty|]. intros a _. apply lookup_empty.
Qed.

Lemma pointerMembers_lookup_name class k m :
  pointerMembers class !! k = Some m → Member_Name m = k.
Proof.
  unfold pointerMembers.
  assert (∀ l (pm : gmap string Member),
    (∀ k x, pm !! k = Some x → Member_Name x = k) →
    ∀ k x, foldl (fun pm m => if Member_IsPointer m
                              then <[Member_Name m := m]> pm else pm) pm l !! k
           = Some x → Member_Name x = k) as H.
  { induction l as [|a l IH]; intros pm Hpm; simpl; [done|].
    apply IH. destruct (Member_IsPointer a); [|done].
    intros k' x. destruct (decide (Member_Name a = k')) as [<-|Hne].
    - rewrite lookup_insert_eq. by intros [= <-].
    - rewrite lookup_insert_ne by done. apply Hpm. }
  apply H. intros k' x. by rewrite lookup_empty.
Qed.

(** X6: a leak with the reason of Rule 4 is reported for a variable
    exactly when the class has no destructor and the variable is a pointer
    member that the constructor allocates.  Such a member is reported
    twice: Rule 1 adds a leak at the line of the allocation, Rule 4 one at
    the line of the declaration. *)
Theorem missing_destructor_reported_twice class leaks v :
  analyzeClassOutput class leaks →
  ((∃ l, l ∈ leaks ∧ Leak_VarName l = v ∧ Leak_Reason l = reasonNoDestructor) ↔
   Class_Destructor class = None ∧ isPointerMember class v ∧
   allocatedInConstructor class v) ∧
  (Class_Destructor class = None →
   ∀ m alloc, pointerMembers class !! v = Some m →
              allocatedVars class !! v = Some alloc →
     mkLeak (Class_File class) (Member_Line m) (Class_Name class) v
            reasonNoDestructor "error" ∈ leaks ∧
     mkLeak (Class_File class) (Alloc_Line alloc) (Class_Name class) v
            reasonNotDeleted "error" ∈ leaks).
Proof.
  intros Hout.
  assert (∀ m, pointerMembers class !! v = Some m → Member_Name m = v) as Hname
    by (intros m; apply pointerMembers_lookup_name).
  split.
  - split.
    + intros (l & Hl & Hv & Hr).
      apply (analyzeClassOutput_elem_of _ _ l Hout) in Hl as [Hne Hrule].
      destruct Hrule as [(k & a & _ & H)|[H|[H|(Hd & n & m & Hm & H)]]].
      * apply rule1Body_fields in H as (_ & _ & [[_ [H|H]]|[_ H]]);
          rewrite H in Hr; discriminate.
      * apply rule2_leaks in H as (m & a & _ & _ & H%rule2Body_reason).
        rewrite H in Hr. discriminate.
      * apply rule3_leaks in H as (m & a & _ & _ & H%rule3Body_reason).
        rewrite H in Hr. discriminate.
      * unfold rule4Body in H. simpl in H.
        destruct (allocatedVars class !! Member_Name m) eqn:Ha;
          [|by apply elem_of_nil in H].
        apply list_elem_of_singleton in H. subst l. simpl in Hv. subst v.
        split_and!; [done| |].
        -- apply pointerMembers_is_Some.
           rewrite (pointerMembers_lookup_name _ _ _ Hm). by eexists.
        -- apply allocatedVars_is_Some. by eexists.
    + intros (Hd & [m Hm]%pointerMembers_is_Some & [a Ha]%allocatedVars_is_Some).
      exists (mkLeak (Class_File class) (Member_Line m) (Class_Name class) v
                     reasonNoDestructor "error").
      split; [|done]. apply (analyzeClassOutput_elem_of _ _ _ Hout).
      split; [intros He; by rewrite He, lookup_empty in Hm|].
      do 3 right. split; [done|]. exists v, m. split; [done|].
      unfold rule4Body. simpl. rewrite (Hname m Hm), Ha. apply list_elem_of_here.
  - intros Hd m alloc Hm Ha. split.
    + apply (analyzeClassOutput_elem_of _ _ _ Hout).
      split; [intros He; by rewrite He, lookup_empty in Hm|].
      do 3 right. split; [done|]. exists v, m. split; [done|].
      unfold rule4Body. simpl. rewrite (Hname m Hm), Ha. apply list_elem_of_here.
    + apply (analyzeClassOutput_elem_of _ _ _ Hout).
      split; [intros He; by rewrite He, lookup_empty in Hm|].
      left. exists v, alloc. split; [done|].
      rewrite rule1Body_no_destructor by done. apply list_elem_of_here.
Qed.

Lemma missing_destructor_reported_twice_witness :
  mkLeak "leak_sample.cpp" 2 "NoDestructor" "leaked" reasonNoDestructor "error"
    ∈ analyzeClass noDestructorClass ∧
  mkLeak "leak_sample.cpp" 3 "NoDestructor" "leaked" reasonNotDeleted "error"
    ∈ analyzeClass noDestructorClass.
Proof.
  destruct (missing_destructor_reported_twice noDestructorClass
              (analyzeClass noDestructorClass) "leaked"
              (analyzeClassOutput_canonical _)) as [_ H].
  apply (H eq_refl (mkMember "leaked" EmptyString true false 2)
           (mkAllocation "leaked" true 3)); reflexivity.
Defined.

(** *** The maps built by loops of assignments *)

Lemma insert_loop_last {A} (key : A → string) (l : list A) (m : gmap string A) k :
  foldl (fun m a => <[key a := a]> m) m l !! k
  = match last (filter (fun a => key a = k) l) with
    | Some a => Some a
    | None => m !! k
    end.
Proof.
  revert m. induction l as [|a l IH]; intros m; simpl; [done|].
  rewrite IH. destruct (decide (key a = k)) as [Hk|Hk].
  - rewrite filter_cons_True by done.
    destruct (filter _ l) as [|b l'] eqn:Hf; simpl.
    + by rewrite <- Hk, lookup_insert_eq.
    + by destruct (last (b :: l')) eqn:Hl; [|by apply last_None in Hl].
  - rewrite filter_cons_False by done.
    destruct (last _); [done|]. by rewrite lookup_insert_ne.
Qed.

(** X7: each of the three maps that [analyzeClass] fills by a loop of
    assignments keeps, for a name, the last entry of the slice with that
    name: the last [new] of a variable in the constructor, the last method
    of a name, overloads included, and the last pointer member of a
    name. *)
Theorem map_loops_keep_last_entry class name :
  allocatedVars class !! name
  = match Class_Constructor class with
    | Some ctor => last (filter (fun a => Alloc_VarName a = name) (Fn_Allocations ctor))
    | None => None
    end ∧
  buildMethodMap class !! name
  = last (filter (fun f => Fn_Name f = name) (Class_Methods class)) ∧
  pointerMembers class !! name
  = last (filter (fun m => Member_IsPointer m = true ∧ Member_Name m = name)
                 (Class_Members class)).
Proof.
  split_and!.
  - unfold allocatedVars. destruct (Class_Constructor class) as [ctor|]; [|done].
    rewrite insert_loop_last, lookup_empty. by destruct (last _).
  - unfold buildMethodMap. rewrite insert_loop_last, lookup_empty. by destruct (last _).
  - unfold pointerMembers.
    assert (∀ l (pm : gmap string Member),
      foldl (fun pm m => if Member_IsPointer m
                         then <[Member_Name m := m]> pm else pm) pm l !! name
      = match last (filter (fun m => Member_IsPointer m = true ∧ Member_Name m = name) l)
        with Some m => Some m | None => pm !! name end) as H.
    { induction l as [|a l IH]; intros pm; simpl; [done|].
      rewrite IH. destruct (Member_IsPointer a) eqn:Hp.
      - destruct (decide (Member_Name a = name)) as [Hk|Hk].
        + rewrite filter_cons_True by done.
          destruct (filter _ l) as [|b l'] eqn:Hf; simpl.
          * by rewrite <- Hk, lookup_insert_eq.
          * by destruct (last (b :: l')) eqn:Hl; [|by apply last_None in Hl].
        + rewrite filter_cons_False by tauto.
          destruct (last _); [done|]. by rewrite lookup_insert_ne.
      - rewrite filter_cons_False; [done|]. intros [? _]. congruence. }
    rewrite H, lookup_empty. by destruct (last _).
Qed.

(* ================================================================== *)
(** * Further properties: the registry *)

(** ** Merging the methods of two records of a class *)

Lemma indexMethods_lookup methods i0 (m : gmap string nat) name i :
  indexMethods i0 methods m !! name = Some i →
  (m !! name = Some i ∧ name ∉ Fn_Name <$> methods) ∨
  (i0 ≤ i ∧ ∃ f, methods !! (i - i0) = Some f ∧ Fn_Name f = name).
Proof.
  revert i0 m. induction methods as [|f l IH]; intros i0 m; simpl.
  - intros H. left. split; [done|]. apply not_elem_of_nil.
  - intros [[H Hn]|[Hle (g & Hg & Hname)]]%IH.
    + destruct (decide (Fn_Name f = name)) as [Hf|Hf].
      * rewrite <- Hf, lookup_insert_eq in H. injection H as <-.
        right. split; [lia|]. exists f. by rewrite Nat.sub_diag.
      * rewrite lookup_insert_ne in H by done. left. split; [done|].
        rewrite not_elem_of_cons. done.
    + right. split; [lia|]. exists g. split; [|done].
      replace (i - i0) with (S (i - S i0)) by lia. done.
Qed.

Lemma indexMethods_is_Some methods i0 (m : gmap string nat) name :
  is_Some (indexMethods i0 methods m !! name) ↔
  is_Some (m !! name) ∨ name ∈ Fn_Name <$> methods.
Proof.
  revert i0 m. induction methods as [|f l IH]; intros i0 m; simpl.
  - split; [by left|]. intros [H|H]; [done|]. by apply elem_of_nil in H.
  - rewrite IH, elem_of_cons. destruct (decide (Fn_Name f = name)) as [Hf|Hf].
    + rewrite <- Hf, lookup_insert_eq. split; [intros _; right; by left|].
      intros _. left. by eexists.
    + rewrite lookup_insert_ne by done. split; [tauto|].
      intros [H|[H|H]]; [tauto|congruence|tauto].
Qed.

(** The target's method of a name that the index of [mergeClassInto]
    points to. *)
Lemma methodIndex_lookup targetMethods name i :
  indexMethods 0 targetMethods ∅ !! name = Some i →
  ∃ f, targetMethods !! i = Some f ∧ Fn_Name f = name.
Proof.
  intros [[H _]|[_ (f & Hf & Hn)]]%indexMethods_lookup.
  - by rewrite lookup_empty in H.
  - exists f. by rewrite Nat.sub_0_r in Hf.
Qed.

Lemma methodIndex_is_Some targetMethods name :
  is_Some (indexMethods 0 targetMethods ∅ !! name) ↔
  name ∈ Fn_Name <$> targetMethods.
Proof.
  rewrite indexMethods_is_Some. split; [|by right].
  intros [[? H]|H]; [by rewrite lookup_empty in H | done].
Qed.

Lemma mergeMethodStep_merged cap targetMethods seen merged shared method :
  methodsMerged targetMethods seen merged →
  methodsMerged targetMethods (seen ++ [method])
    (mergeMethodStep cap (indexMethods 0 targetMethods ∅) (merged, shared) method).1.
Proof.
  intros (Hnames & Hdrop & Hold). unfold mergeMethodStep.
  assert (length targetMethods ≤ length merged) as Hlen.
  { apply (f_equal length) in Hnames.
    rewrite !length_fmap, length_take in Hnames. lia. }
  destruct (indexMethods 0 targetMethods ∅ !! Fn_Name method) as [i|] eqn:Hi.
  - assert (Fn_Name method ∈ Fn_Name <$> targetMethods) as Hin.
    { apply methodIndex_is_Some. by eexists. }
    apply methodIndex_lookup in Hi as (g & Hg & Hgn).
    assert (i < length targetMethods) as Hlt by (by eapply lookup_lt_Some).
    assert (filter (fun f => Fn_Name f ∉ Fn_Name <$> targetMethods) (seen ++ [method])
            = filter (fun f => Fn_Name f ∉ Fn_Name <$> targetMethods) seen) as Hf.
    { rewrite filter_app, filter_cons_False by tauto. by rewrite filter_nil, app_nil_r. }
    destruct ((0 <? _) || (0 <? _)) eqn:Hinfo; simpl.
    2:{ split_and!; [done|by rewrite Hf|].
        intros j f Hj Hm. destruct (Hold j f Hj Hm) as [H|[H1 H2]]; [by left|].
        right. split; [|done]. rewrite elem_of_app. by left. }
    destruct shared; simpl.
    2:{ split_and!; [done|by rewrite Hf|].
        intros j f Hj Hm. destruct (Hold j f Hj Hm) as [H|[H1 H2]]; [by left|].
        right. split; [|done]. rewrite elem_of_app. by left. }
    split_and!.
    + rewrite take_insert_lt by done. rewrite list_fmap_insert, <- Hgn.
      rewrite Hnames. apply list_insert_id. rewrite list_lookup_fmap, Hg. done.
    + rewrite drop_insert_lt by lia. by rewrite Hf.
    + intros j f Hj. destruct (decide (i = j)) as [<-|Hne].
      * rewrite list_lookup_insert_eq by lia. intros [= <-]. right.
        split; [rewrite elem_of_app; right; apply list_elem_of_here|].
        apply orb_true_iff in Hinfo as [H%Nat.ltb_lt|H%Nat.ltb_lt].
        -- left. intros He. rewrite He in H. simpl in H. lia.
        -- right. intros He. rewrite He in H. simpl in H. lia.
      * rewrite list_lookup_insert_ne by done. intros Hm.
        destruct (Hold j f Hj Hm) as [H|[H1 H2]]; [by left|].
        right. split; [|done]. rewrite elem_of_app. by left.
  - assert (Fn_Name method ∉ Fn_Name <$> targetMethods) as Hin.
    { intros H%methodIndex_is_Some. rewrite Hi in H. by destruct H. }
    simpl. split_and!.
    + by rewrite take_app_le.
    + rewrite drop_app_le by done. rewrite Hdrop, filter_app.
      by rewrite filter_cons_True, filter_nil.
    + intros j f Hj. rewrite lookup_app_l by lia. intros Hm.
      destruct (Hold j f Hj Hm) as [H|[H1 H2]]; [by left|].
      right. split; [|done]. rewrite elem_of_app. by left.
Qed.

Lemma mergeMethods_fold cap targetMethods seen rest st :
  methodsMerged targetMethods seen st.1 →
  methodsMerged targetMethods (seen ++ rest)
    (foldl (mergeMethodStep cap (indexMethods 0 targetMethods ∅)) st rest).1.
Proof.
  revert seen st. induction rest as [|method rest IH]; intros seen st H; simpl.
  - by rewrite app_nil_r.
  - replace (seen ++ method :: rest) with ((seen ++ [method]) ++ rest)
      by (by rewrite <- app_assoc).
    apply IH. destruct st as [merged shared]. by apply mergeMethodStep_merged.
Qed.

Lemma mergeMethods_merged cap targetMethods sourceMethods :
  methodsMerged targetMethods sourceMethods
    (mergeMethods cap targetMethods sourceMethods).
Proof.
  unfold mergeMethods.
  apply (mergeMethods_fold cap targetMethods [] sourceMethods (targetMethods, true)).
  unfold methodsMerged. simpl. rewrite firstn_all, drop_all. split_and!; try done.
  intros i f _ H. by left.
Qed.

(** X8: [mergeClassInto] loses no method.  The methods of the target
    keep their places and their names, the methods of the source whose
    name the target does not have follow them in their order, and a method
    of the target is only ever replaced by a method of the source that has
    the same name and records an allocation or a deallocation. *)
Theorem merge_keeps_every_method cap T S :
  let merged := Class_Methods (mergeClassInto cap T S) in
  Fn_Name <$> take (length (Class_Methods T)) merged = Fn_Name <$> Class_Methods T ∧
  drop (length (Class_Methods T)) merged
  = filter (fun f => Fn_Name f ∉ Fn_Name <$> Class_Methods T) (Class_Methods S) ∧
  (∀ name, name ∈ Fn_Name <$> merged ↔
           name ∈ Fn_Name <$> Class_Methods T ∨ name ∈ Fn_Name <$> Class_Methods S) ∧
  (∀ i t f, Class_Methods T !! i = Some t → merged !! i = Some f →
            f = t ∨ (f ∈ Class_Methods S ∧ Fn_Name f = Fn_Name t ∧
                     (Fn_Allocations f ≠ [] ∨ Fn_Deallocations f ≠ []))).
Proof.
  simpl. destruct (mergeMethods_merged cap (Class_Methods T) (Class_Methods S))
    as (Hnames & Hdrop & Hold).
  set (merged := mergeMethods cap (Class_Methods T) (Class_Methods S)) in *.
  split_and!; [done|done| |].
  - intros name. rewrite <- (take_drop (length (Class_Methods T)) merged) at 1.
    rewrite fmap_app, elem_of_app, Hnames, Hdrop. split.
    + intros [H|H]; [by left|]. right.
      apply list_elem_of_fmap in H as (f & -> & Hf%list_elem_of_filter).
      apply list_elem_of_fmap. exists f. tauto.
    + intros [H|H]; [by left|].
      destruct (decide (name ∈ Fn_Name <$> Class_Methods T)) as [Hin|Hin]; [by left|].
      right. apply list_elem_of_fmap in H as (f & -> & Hf).
      apply list_elem_of_fmap. exists f. split; [done|].
      by apply list_elem_of_filter.
  - intros i t f Ht Hf.
    assert (i < length (Class_Methods T)) as Hlt by (by eapply lookup_lt_Some).
    destruct (Hold i f Hlt Hf) as [H|[H1 H2]]; [left; congruence|].
    right. split_and!; [done| |done].
    assert ((Fn_Name <$> take (length (Class_Methods T)) merged) !! i
            = Some (Fn_Name f)) as Hn.
    { rewrite list_lookup_fmap, lookup_take_lt by done. by rewrite Hf. }
    rewrite Hnames, list_lookup_fmap, Ht in Hn. by injection Hn.
Qed.

(** *** Updates after the slice has moved *)

Lemma mergeMethodStep_unshared cap methodMap merged method n :
  n ≤ length merged →
  (mergeMethodStep cap methodMap (merged, false) method).2 = false ∧
  n ≤ length (mergeMethodStep cap methodMap (merged, false) method).1 ∧
  take n (mergeMethodStep cap methodMap (merged, false) method).1 = take n merged.
Proof.
  intros Hn. unfold mergeMethodStep.
  destruct (methodMap !! Fn_Name method) as [i|]; simpl.
  - by destruct (_ || _).
  - rewrite length_app, take_app_le by done. split_and!; [done|lia|done].
Qed.

Lemma mergeMethods_unshared cap methodMap merged rest n :
  n ≤ length merged →
  take n (foldl (mergeMethodStep cap methodMap) (merged, false) rest).1
  = take n merged.
Proof.
  revert merged. induction rest as [|method rest IH]; intros merged Hn; [done|].
  cbn [foldl].
  destruct (mergeMethodStep_unshared cap methodMap merged method n Hn)
    as (Hs & Hlen & Htake).
  destruct (mergeMethodStep cap methodMap (merged, false) method) as [merged' shared'].
  simpl in *. subst shared'. rewrite IH by done. done.
Qed.

Lemma mergeMethods_length cap methodMap st rest :
  length st.1 ≤ length (foldl (mergeMethodStep cap methodMap) st rest).1.
Proof.
  revert st. induction rest as [|method rest IH]; intros st; [done|].
  cbn [foldl]. etrans; [|apply IH]. destruct st as [merged shared]. unfold mergeMethodStep.
  destruct (methodMap !! Fn_Name method) as [i|]; simpl.
  - destruct (_ || _); simpl; [|done]. destruct shared; [|done].
    by rewrite length_insert.
  - rewrite length_app. lia.
Qed.

(** X9: once [append] has moved [target.Methods] to a new array, the
    pointers of the method index refer to the array left behind, and no
    later method of the source updates a method of the target.  With a
    slice that is full ([cap] is at most its length) the first method of
    the source whose name is new to the target is such an append: the
    methods that follow it in the source leave the methods of the target
    as they were before it. *)
Theorem merge_update_lost_after_growth cap T S before fresh rest :
  cap ≤ length (Class_Methods T) →
  Class_Methods S = before ++ fresh :: rest →
  Fn_Name fresh ∉ Fn_Name <$> Class_Methods T →
  take (length (Class_Methods T)) (Class_Methods (mergeClassInto cap T S))
  = take (length (Class_Methods T)) (mergeMethods cap (Class_Methods T) before).
Proof.
  intros Hcap HS Hfresh. cbn [mergeClassInto Class_Methods]. unfold mergeMethods.
  rewrite HS, foldl_app. cbn [foldl].
  pose proof (mergeMethods_length cap (indexMethods 0 (Class_Methods T) ∅)
                (Class_Methods T, true) before) as Hlen. simpl in Hlen.
  destruct (foldl _ (Class_Methods T, true) before) as [merged shared].
  cbn [fst] in *. unfold mergeMethodStep at 2.
  destruct (indexMethods 0 (Class_Methods T) ∅ !! Fn_Name fresh) as [i|] eqn:Hi.
  { exfalso. apply Hfresh, methodIndex_is_Some. by eexists. }
  assert ((length merged <? cap) = false) as -> by (apply Nat.ltb_ge; lia).
  rewrite andb_false_r, mergeMethods_unshared by (rewrite length_app; lia).
  by rewrite take_app_le.
Qed.

(** *** Constructor and destructor *)

Lemma mergeFunction_cases count t s :
  mergeFunction count t s = t ∨ mergeFunction count t s = s.
Proof.
  unfold mergeFunction. destruct t, s; try tauto. destruct (_ && _); tauto.
Qed.

Lemma mergeFunction_body count t s :
  (∃ f, mergeFunction count t s = Some f ∧ 0 < count f) ↔
  (∃ f, t = Some f ∧ 0 < count f) ∨ (∃ f, s = Some f ∧ 0 < count f).
Proof.
  unfold mergeFunction. destruct t as [t|], s as [s|].
  - destruct (Nat.ltb_spec 0 (count s)), (Nat.eqb_spec (count t) 0); simpl;
      naive_solver lia.
  - naive_solver.
  - naive_solver.
  - naive_solver.
Qed.

Lemma length_pos_iff {A} (l : list A) : 0 < length l ↔ l ≠ [].
Proof. destruct l; simpl; split; (done || lia || intros; lia). Qed.

(** X10: merging never loses a constructor or a destructor, nor the
    body of one: the merged class has a constructor when one of the two
    records has, it is the constructor of one of them, and it records an
    allocation when one of theirs does; likewise for the destructor and
    its deallocations.  The function of the target is given up only for
    one of the source that records an allocation (a deallocation) when it
    records none itself. *)
Theorem merge_keeps_function_bodies cap T S :
  let M := mergeClassInto cap T S in
  (Class_Constructor M = Class_Constructor T ∨
   Class_Constructor M = Class_Constructor S) ∧
  (Class_Destructor M = Class_Destructor T ∨
   Class_Destructor M = Class_Destructor S) ∧
  (is_Some (Class_Constructor M) ↔
   is_Some (Class_Constructor T) ∨ is_Some (Class_Constructor S)) ∧
  (is_Some (Class_Destructor M) ↔
   is_Some (Class_Destructor T) ∨ is_Some (Class_Destructor S)) ∧
  (recordsAllocation (Class_Constructor M) ↔
   recordsAllocation (Class_Constructor T) ∨ recordsAllocation (Class_Constructor S)) ∧
  (recordsDeallocation (Class_Destructor M) ↔
   recordsDeallocation (Class_Destructor T) ∨ recordsDeallocation (Class_Destructor S)) ∧
  (∀ t, Class_Constructor T = Some t → Class_Constructor M ≠ Some t →
        Fn_Allocations t = [] ∧ recordsAllocation (Class_Constructor S)) ∧
  (∀ t, Class_Destructor T = Some t → Class_Destructor M ≠ Some t →
        Fn_Deallocations t = [] ∧ recordsDeallocation (Class_Destructor S)).
Proof.
  simpl. unfold recordsAllocation, recordsDeallocation.
  split_and!.
  - apply mergeFunction_cases.
  - apply mergeFunction_cases.
  - unfold mergeFunction. destruct (Class_Constructor T), (Class_Constructor S);
      try destruct (_ && _); split; try tauto; try (intros _; by eexists);
      intros [[? H]|[? H]]; done.
  - unfold mergeFunction. destruct (Class_Destructor T), (Class_Destructor S);
      try destruct (_ && _); split; try tauto; try (intros _; by eexists);
      intros [[? H]|[? H]]; done.
  - pose proof (mergeFunction_body (fun f => length (Fn_Allocations f))
                  (Class_Constructor T) (Class_Constructor S)) as H.
    setoid_rewrite length_pos_iff in H. done.
  - pose proof (mergeFunction_body (fun f => length (Fn_Deallocations f))
                  (Class_Destructor T) (Class_Destructor S)) as H.
    setoid_rewrite length_pos_iff in H. done.
  - intros t Ht Hne. rewrite Ht in Hne. unfold mergeFunction in Hne.
    destruct (Class_Constructor S) as [s|]; [|done].
    destruct (Nat.ltb_spec 0 (length (Fn_Allocations s))),
      (Nat.eqb_spec (length (Fn_Allocations t)) 0); simpl in Hne; try done.
    split; [by destruct (Fn_Allocations t)|]. exists s. split; [done|].
    by apply length_pos_iff.
  - intros t Ht Hne. rewrite Ht in Hne. unfold mergeFunction in Hne.
    destruct (Class_Destructor S) as [s|]; [|done].
    destruct (Nat.ltb_spec 0 (length (Fn_Deallocations s))),
      (Nat.eqb_spec (length (Fn_Deallocations t)) 0); simpl in Hne; try done.
    split; [by destruct (Fn_Deallocations t)|]. exists s. split; [done|].
    by apply length_pos_iff.
Qed.

(** ** The registry *)

Lemma mergeStep_mergedFrom cap seen merged class :
  mergedFrom seen merged → mergedFrom (seen ++ [class]) (mergeStep cap merged class).
Proof.
  intros Hinv name. specialize (Hinv name). unfold mergeStep.
  destruct (list_find (fun c => Class_Name c = name) seen) as [[i first]|] eqn:Hfind.
  - rewrite (list_find_app_l _ _ _ _ _ Hfind).
    destruct Hinv as (c & Hc & Hn & Hs & He).
    destruct (decide (Class_Name class = name)) as [Heq|Hne].
    + rewrite Heq, Hc, lookup_insert_eq. by eexists.
    + destruct (merged !! Class_Name class); rewrite lookup_insert_ne by done;
        by exists c.
  - rewrite (list_find_app_r _ _ _ Hfind). simpl.
    destruct (decide (Class_Name class = name)) as [Heq|Hne]; simpl.
    + rewrite Heq, Hinv, lookup_insert_eq. by eexists.
    + destruct (merged !! Class_Name class); by rewrite lookup_insert_ne.
Qed.

Lemma mergeLoop_mergedFrom capAt i seen merged classes :
  mergedFrom seen merged →
  mergedFrom (seen ++ classes) (mergeLoop capAt i merged classes).
Proof.
  revert i seen merged. induction classes as [|class rest IH]; intros i seen merged H.
  - by rewrite app_nil_r.
  - simpl. replace (seen ++ class :: rest) with ((seen ++ [class]) ++ rest)
      by (by rewrite <- app_assoc).
    apply IH. by apply mergeStep_mergedFrom.
Qed.

Lemma mergedFrom_names seen merged :
  mergedFrom seen merged →
  Class_Name <$> (map_to_list merged).*2 = (map_to_list merged).*1.
Proof.
  intros Hinv. rewrite <- list_fmap_compose. apply list_fmap_ext.
  intros i [k c] Hkc. simpl.
  assert (merged !! k = Some c) as Hc.
  { apply elem_of_map_to_list. by eapply list_elem_of_lookup_2. }
  specialize (Hinv k). destruct (list_find _ seen) as [[? first]|].
  - destruct Hinv as (c' & Hc' & Hn & _). congruence.
  - congruence.
Qed.

Lemma list_find_name_is_Some (classes : list Class) name :
  is_Some (list_find (fun c => Class_Name c = name) classes) ↔
  name ∈ Class_Name <$> classes.
Proof.
  split.
  - intros [[i c] (Hi & Hn & _)%list_find_Some]. apply list_elem_of_fmap.
    exists c. split; [done|]. by eapply list_elem_of_lookup_2.
  - intros (c & -> & Hc)%list_elem_of_fmap.
    destruct (list_find (fun c' => Class_Name c' = Class_Name c) classes) eqn:Hf;
      [by eexists|].
    eapply list_find_None, Forall_forall in Hf; [|done]. done.
Qed.

(** X11: [MergeClasses] returns exactly one class for every class name
    in the registry: the names of the result are pairwise different and
    are the names that were added.  The class returned for a name carries
    the start and end lines of the first class added under that name. *)
Theorem merge_one_class_per_name r result :
  MergeClassesOutput r result →
  NoDup (Class_Name <$> result) ∧
  (∀ name, name ∈ Class_Name <$> result ↔ name ∈ Class_Name <$> allClasses r) ∧
  (∀ c, c ∈ result →
     ∃ i first, list_find (fun c' => Class_Name c' = Class_Name c) (allClasses r)
                = Some (i, first) ∧
                Class_StartLine c = Class_StartLine first ∧
                Class_EndLine c = Class_EndLine first).
Proof.
  intros [capAt Hperm]. unfold MergeClassesWith in Hperm.
  pose proof (mergeLoop_mergedFrom capAt 0 [] ∅ (allClasses r)) as Hinv.
  simpl in Hinv. set (merged := mergeLoop capAt 0 ∅ (allClasses r)) in *.
  assert (mergedFrom (allClasses r) merged) as Hm.
  { apply Hinv. intros name. simpl. apply lookup_empty. }
  clear Hinv. split_and!.
  - rewrite Hperm, (mergedFrom_names _ _ Hm). apply NoDup_fst_map_to_list.
  - intros name. rewrite Hperm, (mergedFrom_names _ _ Hm).
    rewrite <- list_find_name_is_Some. specialize (Hm name).
    split.
    + intros ([k c] & -> & Hkc%elem_of_map_to_list)%list_elem_of_fmap. simpl in *.
      destruct (list_find _ (allClasses r)); [by eexists|congruence].
    + intros [[i first] Hf]. rewrite Hf in Hm. destruct Hm as (c & Hc & _).
      apply list_elem_of_fmap. exists (name, c). split; [done|].
      by apply elem_of_map_to_list.
  - intros c Hc. rewrite Hperm in Hc.
    apply list_elem_of_fmap in Hc as ([k c'] & -> & Hkc%elem_of_map_to_list).
    simpl in *. pose proof (Hm k) as Hk.
    destruct (list_find (fun c => Class_Name c = k) (allClasses r))
      as [[i first]|] eqn:Hf; [|congruence].
    destruct Hk as (c'' & Hc'' & Hn & Hs & He).
    assert (c'' = c') as -> by congruence. rewrite Hn. by exists i, first.
Qed.

(** *** Classes whose names are all different *)

Lemma mergeLoop_fresh capAt i merged classes :
  NoDup (Class_Name <$> classes) →
  (∀ c, c ∈ classes → merged !! Class_Name c = None) →
  (map_to_list (mergeLoop capAt i merged classes)).*2
  ≡ₚ (map_to_list merged).*2 ++ classes.
Proof.
  revert i merged. induction classes as [|class rest IH]; intros i merged Hnd Hfresh.
  - simpl. by rewrite app_nil_r.
  - simpl. apply NoDup_cons in Hnd as [Hhead Hnd].
    assert (merged !! Class_Name class = None) as Hnone
      by apply Hfresh, list_elem_of_here.
    unfold mergeStep. rewrite Hnone. rewrite IH.
    + rewrite map_to_list_insert by done. simpl.
      by rewrite Permutation_middle.
    + done.
    + intros c Hc. rewrite lookup_insert_ne.
      * apply Hfresh. by apply list_elem_of_further.
      * intros Heq. apply Hhead. rewrite Heq. apply list_elem_of_fmap. by exists c.
Qed.

Lemma allClasses_AddClasses r classes :
  allClasses (ClassRegistry_AddClasses r classes) = allClasses r ++ classes.
Proof.
  unfold ClassRegistry_AddClasses. revert r.
  induction classes as [|c cs IH]; intros r; simpl.
  - by rewrite app_nil_r.
  - rewrite IH. simpl. by rewrite <- app_assoc.
Qed.

Lemma classesByName_AddClasses r classes name :
  default [] (classesByName (ClassRegistry_AddClasses r classes) !! name)
  = default [] (classesByName r !! name)
    ++ filter (fun c => Class_Name c = name) classes.
Proof.
  unfold ClassRegistry_AddClasses. revert r.
  induction classes as [|c cs IH]; intros r; simpl.
  - by rewrite app_nil_r.
  - rewrite IH. simpl. destruct (decide (Class_Name c = name)) as [Heq|Hne].
    + rewrite filter_cons_True by done.
      rewrite Heq, lookup_insert_eq. simpl. by rewrite <- app_assoc.
    + rewrite filter_cons_False by done. by rewrite lookup_insert_ne.
Qed.

(** X12: what [AddClasses] stores is what was added, in the order of
    the calls, whatever the names: [allClasses] is the list of all classes
    added, and the index by name lists, under each name, the classes of
    that name in the order they were added.  When all the names in the
    registry are different, [MergeClasses] has nothing to merge and
    returns the classes as they were added, in some order. *)
Theorem registry_round_trip r classes :
  allClasses (ClassRegistry_AddClasses r classes) = allClasses r ++ classes ∧
  (∀ name,
     default [] (classesByName (ClassRegistry_AddClasses r classes) !! name)
     = default [] (classesByName r !! name)
       ++ filter (fun c => Class_Name c = name) classes) ∧
  (NoDup (Class_Name <$> (allClasses r ++ classes)) →
   ∀ result, MergeClassesOutput (ClassRegistry_AddClasses r classes) result ↔
             result ≡ₚ allClasses r ++ classes).
Proof.
  split_and!.
  - apply allClasses_AddClasses.
  - intros name. apply classesByName_AddClasses.
  - intros Hnd result.
    unfold MergeClassesOutput, MergeClassesWith. rewrite allClasses_AddClasses.
    assert (∀ capAt, (map_to_list (mergeLoop capAt 0 ∅ (allClasses r ++ classes))).*2
                     ≡ₚ allClasses r ++ classes) as Hall.
    { intros capAt. rewrite mergeLoop_fresh; [|done|intros; apply lookup_empty].
      by rewrite map_to_list_empty. }
    split.
    + intros [capAt H]. by rewrite H, Hall.
    + intros H. exists (fun _ => 0). by rewrite H, Hall.
Qed.

Lemma merge_update_lost_after_growth_witness :
  take 1 (Class_Methods (mergeClassInto 1 declaredMethodClass definedMethodsClass))
  = [newFunction "release" false 3] ∧
  take 1 (Class_Methods (mergeClassInto 2 declaredMethodClass definedMethodsClass))
  = [plainFunction "release" false 2 [] [mkDeallocation "p" false 2] [] []].
Proof.
  split; [|reflexivity].
  apply (merge_update_lost_after_growth 1 declaredMethodClass definedMethodsClass []
           (plainFunction "helper" false 1 [] [] [] [])
           [plainFunction "release" false 2 [] [mkDeallocation "p" false 2] [] []]).
  - simpl. lia.
  - reflexivity.
  - simpl. rewrite not_elem_of_cons. split; [discriminate|apply not_elem_of_nil].
Defined.

Lemma merge_one_class_per_name_witness :
  MergeClassesOutput crossFileRegistry (MergeClassesWith (fun _ => 0) crossFileRegistry) ∧
  NoDup (Class_Name <$> MergeClassesWith (fun _ => 0) crossFileRegistry).
Proof.
  assert (MergeClassesOutput crossFileRegistry
            (MergeClassesWith (fun _ => 0) crossFileRegistry)) as H
    by (by exists (fun _ => 0)).
  split; [done|]. apply (merge_one_class_per_name _ _ H).
Defined.

Lemma registry_round_trip_witness :
  default [] (classesByName
                (ClassRegistry_AddClasses NewClassRegistry
                   [headerRecordWithMembers; basicLeakClass; implRecord]) !! "W")
  = [headerRecordWithMembers; implRecord] ∧
  MergeClassesOutput
    (ClassRegistry_AddClasses NewClassRegistry [basicLeakClass; arrayMismatchNewArray])
    [arrayMismatchNewArray; basicLeakClass].
Proof.
  split.
  - by rewrite (proj1 (proj2 (registry_round_trip NewClassRegistry
                                [headerRecordWithMembers; basicLeakClass; implRecord]))).
  - apply (proj2 (proj2 (registry_round_trip NewClassRegistry
                           [basicLeakClass; arrayMismatchNewArray]))).
    + simpl. apply NoDup_cons. split; [|apply NoDup_singleton].
      rewrite list_elem_of_singleton. discriminate.
    + simpl. apply Permutation_swap.
Defined.

(* ================================================================== *)
(** * Further properties: the file scanner *)

(** ** Go strings *)

Lemma append_nil_l (b : string) : EmptyString +:+ b = b.
Proof. reflexivity. Qed.

Lemma append_cons (x : ascii) (a b : string) : String x a +:+ b = String x (a +:+ b).
Proof. reflexivity. Qed.

Ltac string_simpl :=
  rewrite ?append_nil_l, ?append_cons; simpl; rewrite ?append_nil_l, ?append_cons.

Lemma append_assoc (a b c : string) : (a +:+ b) +:+ c = a +:+ (b +:+ c).
Proof. induction a as [|x a IH]; string_simpl; [done|]. by rewrite IH. Qed.

Lemma append_empty_r (a : string) : a +:+ EmptyString = a.
Proof. induction a as [|x a IH]; string_simpl; [done|]. by rewrite IH. Qed.

Lemma length_append (a b : string) :
  String.length (a +:+ b) = String.length a + String.length b.
Proof. induction a as [|x a IH]; string_simpl; [done|]. by rewrite IH. Qed.

Lemma list_ascii_of_string_append (a b : string) :
  list_ascii_of_string (a +:+ b) = list_ascii_of_string a ++ list_ascii_of_string b.
Proof. induction a as [|x a IH]; string_simpl; [done|]. by rewrite IH. Qed.

Lemma prefix_append (sub s : string) :
  String.prefix sub s = true ↔ ∃ post, s = sub +:+ post.
Proof.
  revert sub. induction s as [|y s IH]; intros sub.
  - destruct sub as [|x sub]; simpl.
    + split; [intros _; by exists EmptyString | done].
    + split; [done|]. intros [post H]. rewrite append_cons in H. discriminate H.
  - destruct sub as [|x sub]; simpl.
    + split; [intros _; by exists (String y s) | done].
    + destruct (ascii_dec x y) as [->|Hne].
      * rewrite IH. split; intros [post H]; exists post.
        -- by rewrite append_cons, <- H.
        -- rewrite append_cons in H. by injection H.
      * split; [done|]. intros [post H]. rewrite append_cons in H. congruence.
Qed.

(** [strings.Contains]: the substring occurs somewhere. *)
Lemma strings_Contains_spec (s sub : string) :
  strings_Contains s sub = true ↔ ∃ pre post, s = pre +:+ sub +:+ post.
Proof.
  induction s as [|c s IH].
  - change (strings_Contains EmptyString sub)
      with (if String.prefix sub EmptyString then true else false).
    destruct (String.prefix sub EmptyString) eqn:Hp.
    + split; [|done]. intros _. apply prefix_append in Hp as [post Hp].
      by exists EmptyString, post.
    + split; [done|]. intros (pre & post & H).
      destruct pre; [|rewrite append_cons in H; discriminate H].
      rewrite append_nil_l in H.
      assert (String.prefix sub EmptyString = true) as Ht
        by (apply prefix_append; by exists post).
      congruence.
  - change (strings_Contains (String c s) sub)
      with (if String.prefix sub (String c s) then true else strings_Contains s sub).
    destruct (String.prefix sub (String c s)) eqn:Hp.
    + split; [|done]. intros _. apply prefix_append in Hp as [post Hp].
      by exists EmptyString, post.
    + rewrite IH. split.
      * intros (pre & post & ->). by exists (String c pre), post.
      * intros (pre & post & H). destruct pre as [|x pre].
        -- rewrite append_nil_l in H.
           assert (String.prefix sub (String c s) = true) as Ht
             by (apply prefix_append; by exists post).
           congruence.
        -- rewrite append_cons in H. injection H as -> ->. by exists pre, post.
Qed.

Lemma substring_all (s : string) : substring 0 (String.length s) s = s.
Proof. induction s as [|c s IH]; simpl; [done|]. by rewrite IH. Qed.

Lemma substring_append (pre suffix : string) :
  substring (String.length pre) (String.length suffix) (pre +:+ suffix) = suffix.
Proof.
  induction pre as [|x pre IH]; string_simpl; [apply substring_all | done].
Qed.

Lemma substring_split (n : nat) (s : string) :
  n ≤ String.length s →
  s = substring 0 n s +:+ substring n (String.length s - n) s.
Proof.
  revert n. induction s as [|c s IH]; intros n; simpl.
  - intros H. by destruct n.
  - intros H. destruct n as [|n]; string_simpl.
    + by rewrite substring_all.
    + f_equal. apply IH. lia.
Qed.

(** [strings.HasSuffix] *)
Lemma strings_HasSuffix_spec (s suffix : string) :
  strings_HasSuffix s suffix = true ↔ ∃ pre, s = pre +:+ suffix.
Proof.
  unfold strings_HasSuffix. rewrite andb_true_iff, Nat.leb_le, String.eqb_eq. split.
  - intros [Hlen Heq].
    exists (substring 0 (String.length s - String.length suffix) s).
    pose proof (substring_split (String.length s - String.length suffix) s) as H.
    replace (String.length s - (String.length s - String.length suffix))
      with (String.length suffix) in H by lia.
    rewrite Heq in H. apply H. lia.
  - intros [pre ->]. rewrite length_append. split; [lia|].
    replace (String.length pre + String.length suffix - String.length suffix)
      with (String.length pre) by lia.
    apply substring_append.
Qed.

(** ** Path elements *)

Lemma pathElements_nonempty path : pathElements path ≠ [].
Proof.
  destruct path as [|c rest]; simpl; [done|].
  destruct (isPathSeparator c); [done|]. by destruct (pathElements rest).
Qed.

Lemma pathElements_plain name : plainName name → pathElements name = [name].
Proof.
  unfold plainName. induction name as [|c name IH]; simpl; [done|].
  intros [Hc Hrest]%Forall_cons. rewrite Hc, IH by done. done.
Qed.

Lemma pathElements_slash (a b : string) :
  pathElements (a +:+ "/" +:+ b) = pathElements a ++ pathElements b.
Proof.
  induction a as [|c a IH]; simpl; [done|].
  destruct (isPathSeparator c); [by rewrite IH|].
  rewrite IH. destruct (pathElements a) as [|first others] eqn:Ha; [|done].
  by apply pathElements_nonempty in Ha.
Qed.

Lemma joinElements_cons e rest :
  rest ≠ [] → joinElements (e :: rest) = e +:+ "/" +:+ joinElements rest.
Proof. by destruct rest. Qed.

Lemma joinElements_pathElements path : joinElements (pathElements path) = path.
Proof.
  induction path as [|c rest IH]; simpl; [done|].
  destruct (isPathSeparator c) eqn:Hc.
  - rewrite joinElements_cons by apply pathElements_nonempty. simpl.
    unfold isPathSeparator in Hc. apply Ascii.eqb_eq in Hc as ->. by rewrite IH.
  - destruct (pathElements rest) as [|first others] eqn:Hr.
    { by apply pathElements_nonempty in Hr. }
    destruct others as [|second others]; simpl in *; by rewrite <- IH.
Qed.

Lemma joinElements_app xs ys :
  xs ≠ [] → ys ≠ [] →
  joinElements (xs ++ ys) = joinElements xs +:+ "/" +:+ joinElements ys.
Proof.
  intros Hx Hy. induction xs as [|x xs IH]; [done|].
  destruct xs as [|x' xs].
  - simpl. by destruct ys.
  - change ((x :: x' :: xs) ++ ys) with (x :: (x' :: xs) ++ ys).
    rewrite (joinElements_cons x ((x' :: xs) ++ ys)) by (simpl; discriminate).
    rewrite IH by done.
    rewrite (joinElements_cons x (x' :: xs)) by done. by rewrite !append_assoc.
Qed.

(** One exclusion pattern without a slash excludes a path exactly when it
    is the base name of the path or one of its elements after the first. *)
Lemma excludedBy_elements path exclude :
  plainName exclude →
  excludedBy path exclude = true ↔
  filepath_Base path = exclude ∨ exclude ∈ tail (pathElements path).
Proof.
  intros Hplain. unfold excludedBy.
  rewrite !orb_true_iff, String.eqb_eq, strings_Contains_spec, strings_HasSuffix_spec.
  split.
  - intros [[H|(pre & post & ->)]|(pre & ->)]; [by left| |]; right.
    + rewrite !append_assoc. change ("/" +:+ exclude +:+ "/" +:+ post)
        with ("/" +:+ (exclude +:+ "/" +:+ post)).
      rewrite !pathElements_slash, (pathElements_plain exclude) by done.
      destruct (pathElements pre) as [|first others] eqn:Hp.
      { by apply pathElements_nonempty in Hp. }
      simpl. rewrite elem_of_app. right. apply list_elem_of_here.
    + rewrite pathElements_slash, (pathElements_plain exclude) by done.
      destruct (pathElements pre) as [|first others] eqn:Hp.
      { by apply pathElements_nonempty in Hp. }
      simpl. rewrite elem_of_app. right. apply list_elem_of_here.
  - intros [H|H]; [by left; left|].
    destruct (pathElements path) as [|first others] eqn:Hp; [by apply elem_of_nil in H|].
    simpl in H. apply list_elem_of_split in H as (before & after & ->).
    rewrite <- (joinElements_pathElements path), Hp.
    change (first :: before ++ exclude :: after)
      with ((first :: before) ++ (exclude :: after)).
    rewrite joinElements_app by done.
    destruct after as [|next after].
    + right. simpl. by exists (joinElements (first :: before)).
    + left. right. rewrite (joinElements_cons exclude (next :: after)) by done.
      exists (joinElements (first :: before)), (joinElements (next :: after)).
      by rewrite !append_assoc.
Qed.

Lemma lastElement_plain e rest acc :
  Forall (fun c => isPathSeparator c = false) e →
  lastElement (rev e ++ rest) acc = lastElement rest (e ++ acc).
Proof.
  revert rest. induction e as [|x e IH]; intros rest; [done|].
  intros [Hx He]%Forall_cons. simpl. rewrite <- app_assoc, IH by done.
  simpl. by rewrite Hx.
Qed.

Lemma filepath_Base_slash dir name :
  plainName name → name ≠ EmptyString →
  filepath_Base (dir +:+ "/" +:+ name) = name.
Proof.
  intros Hplain Hne. unfold filepath_Base.
  assert (String.eqb (dir +:+ "/" +:+ name) EmptyString = false) as ->.
  { apply String.eqb_neq. intros H%(f_equal String.length).
    rewrite !length_append in H. simpl in H. lia. }
  rewrite !list_ascii_of_string_append, !rev_app_distr. simpl.
  rewrite <- !app_assoc. simpl.
  destruct name as [|c name]; [done|]. clear Hne.
  unfold plainName in Hplain. simpl in Hplain.
  pose proof Hplain as [Hc Hrest]%Forall_cons.
  change (list_ascii_of_string (String c name)) with (c :: list_ascii_of_string name).
  assert (dropSeparators (rev (c :: list_ascii_of_string name)
                          ++ "/"%char :: rev (list_ascii_of_string dir))
          = rev (c :: list_ascii_of_string name)
            ++ "/"%char :: rev (list_ascii_of_string dir)) as ->.
  { destruct (rev (c :: list_ascii_of_string name)) as [|y ys] eqn:Hrev.
    { apply (f_equal (@length ascii)) in Hrev. rewrite length_rev in Hrev. done. }
    assert (y ∈ c :: list_ascii_of_string name) as Hy.
    { apply elem_of_reverse. unfold reverse. rewrite <- rev_alt, Hrev. apply list_elem_of_here. }
    simpl. by rewrite (proj1 (Forall_forall _ _) Hplain y Hy). }
  rewrite lastElement_plain by done. rewrite app_nil_r.
  change (lastElement ("/"%char :: ?r) ?acc) with acc. simpl.
  by rewrite string_of_list_ascii_of_string.
Qed.

(** X13: with patterns that hold no slash, [shouldExclude] matches
    whole path elements only: a path is excluded exactly when one of the
    patterns is its base name or is one of its elements after the first.
    Whatever the patterns, a path [dir/e/rest], in which the pattern [e] is
    a directory element behind a slash, is excluded.  The first element of
    a path is never compared: a path [first/name] is excluded exactly when
    [name] is a pattern, also when [first] is one.  Nothing is excluded
    without patterns. *)
Theorem exclusion_matches_whole_elements s path :
  Forall plainName (Excludes s) →
  (shouldExclude s path = true ↔
   ∃ e, e ∈ Excludes s ∧
        (filepath_Base path = e ∨ e ∈ tail (pathElements path))) ∧
  (∀ e dir rest, e ∈ Excludes s →
     shouldExclude s (dir +:+ "/" +:+ e +:+ "/" +:+ rest) = true) ∧
  (∀ first name, plainName first → plainName name → name ≠ EmptyString →
     (shouldExclude s (first +:+ "/" +:+ name) = true ↔ name ∈ Excludes s)) ∧
  (Excludes s = [] → shouldExclude s path = false).
Proof.
  intros Hplain.
  assert (∀ path', shouldExclude s path' = true ↔
            ∃ e, e ∈ Excludes s ∧
                 (filepath_Base path' = e ∨ e ∈ tail (pathElements path'))) as Hiff.
  { intros path'. unfold shouldExclude. rewrite existsb_exists. split.
    - intros (e & He%list_elem_of_In & Hx). exists e. split; [done|].
      apply excludedBy_elements; [|done].
      by eapply Forall_forall in Hplain.
    - intros (e & He & Hx). exists e. split; [by apply list_elem_of_In|].
      apply excludedBy_elements; [|done].
      by eapply Forall_forall in Hplain. }
  split_and!.
  - apply Hiff.
  - intros e dir rest He. apply existsb_exists. exists e.
    split; [by apply list_elem_of_In|]. unfold excludedBy.
    apply orb_true_iff. left. apply orb_true_iff. right.
    apply strings_Contains_spec. exists dir, rest. by rewrite !append_assoc.
  - intros first name Hfirst Hname Hne. rewrite Hiff.
    rewrite filepath_Base_slash, pathElements_slash by done.
    rewrite (pathElements_plain first), (pathElements_plain name) by done. simpl.
    split.
    + intros (e & He & [Hb|Ht]); [by rewrite Hb|].
      apply list_elem_of_singleton in Ht. by rewrite <- Ht.
    + intros He. exists name. split; [done|by left].
  - unfold shouldExclude. by intros ->.
Qed.

Lemma exclusion_matches_whole_elements_witness :
  shouldExclude (NewScanner ["vendor"; "build"]) "src/build/a.cpp" = true ∧
  shouldExclude (NewScanner ["vendor"; "build"]) "src/rebuild/a.cpp" = false ∧
  shouldExclude (NewScanner ["vendor"; "build"]) "build/a.cpp" = false.
Proof.
  assert (Forall plainName (Excludes (NewScanner ["vendor"; "build"]))) as Hplain.
  { repeat constructor. }
  split_and!.
  - destruct (exclusion_matches_whole_elements _ "src/build/a.cpp" Hplain) as (_ & H & _).
    apply (H "build" "src" "a.cpp"). simpl. set_solver.
  - reflexivity.
  - destruct (exclusion_matches_whole_elements _ "build/a.cpp" Hplain)
      as (_ & _ & H & _).
    apply not_true_is_false. intros Hx.
    apply (H "build" "a.cpp") in Hx; [| repeat constructor..| discriminate].
    simpl in Hx. set_solver.
Defined.

(** ** File extensions *)

Lemma extScan_extension e rest acc :
  Forall (fun c => (c =? ".")%char = false ∧ isPathSeparator c = false) e →
  extScan (rev e ++ rest) acc = extScan rest (e ++ acc).
Proof.
  revert rest. induction e as [|x e IH]; intros rest; [done|].
  intros [[Hd Hs] He]%Forall_cons. simpl. rewrite <- app_assoc, IH by done.
  simpl. by rewrite Hs, Hd.
Qed.

Lemma filepath_Ext_append stem e :
  extensionName e → filepath_Ext (stem +:+ "." +:+ e) = "." +:+ e.
Proof.
  intros He. unfold filepath_Ext.
  rewrite !list_ascii_of_string_append, !rev_app_distr. simpl.
  rewrite <- !app_assoc, extScan_extension by done. simpl.
  by rewrite app_nil_r, string_of_list_ascii_of_string.
Qed.

Lemma filepath_Ext_no_dot dir name :
  extensionName name →
  filepath_Ext name = EmptyString ∧ filepath_Ext (dir +:+ "/" +:+ name) = EmptyString.
Proof.
  intros He. unfold filepath_Ext. split.
  - rewrite <- (app_nil_r (rev _)), extScan_extension by done. done.
  - rewrite !list_ascii_of_string_append, !rev_app_distr. simpl.
    rewrite <- !app_assoc, extScan_extension by done. done.
Qed.

Lemma strings_ToLower_cons c s :
  strings_ToLower (String c s) = String (toLowerByte c) (strings_ToLower s).
Proof. reflexivity. Qed.

Lemma strings_ToLower_dot e : strings_ToLower ("." +:+ e) = "." +:+ strings_ToLower e.
Proof. reflexivity. Qed.

Lemma append_dot_inj (a b : string) : "." +:+ a = "." +:+ b ↔ a = b.
Proof.
  change ("." +:+ a) with (String "." a). change ("." +:+ b) with (String "." b).
  split; [by intros [= ->] | by intros ->].
Qed.

(** X14: the two tests on file names look at the extension only, and do
    not tell upper from lower case.  A name [stem.e] is a C++ file exactly
    when [e], in lower case, is one of [cpp], [h], [hpp], [cc], [cxx],
    [hxx], and a header exactly when it is one of [h], [hpp], [hxx],
    whatever [stem] is; a name whose last element has no dot is neither;
    and every header is a C++ file, so the scanner hands the registry
    every header it can tell from an implementation. *)
Theorem files_classified_by_extension path :
  (isHeaderFile path = true → isCppFile path = true) ∧
  (∀ stem e, extensionName e →
     (isCppFile (stem +:+ "." +:+ e) = true ↔ strings_ToLower e ∈ cppExtensions) ∧
     (isHeaderFile (stem +:+ "." +:+ e) = true ↔ strings_ToLower e ∈ headerExtensions)) ∧
  (∀ dir name, extensionName name →
     isCppFile name = false ∧ isCppFile (dir +:+ "/" +:+ name) = false ∧
     isHeaderFile name = false ∧ isHeaderFile (dir +:+ "/" +:+ name) = false).
Proof.
  split_and!.
  - unfold isHeaderFile, isCppFile. rewrite !orb_true_iff. tauto.
  - intros stem e He. unfold isCppFile, isHeaderFile, cppExtensions, headerExtensions.
    rewrite filepath_Ext_append, strings_ToLower_dot by done.
    rewrite !orb_true_iff, !String.eqb_eq, !elem_of_cons, !elem_of_nil.
    change ".cpp" with ("." +:+ "cpp"). change ".h" with ("." +:+ "h").
    change ".hpp" with ("." +:+ "hpp"). change ".cc" with ("." +:+ "cc").
    change ".cxx" with ("." +:+ "cxx"). change ".hxx" with ("." +:+ "hxx").
    rewrite !append_dot_inj. tauto.
  - intros dir name He. unfold isCppFile, isHeaderFile.
    destruct (filepath_Ext_no_dot dir name He) as [-> ->]. done.
Qed.

(** ** Scanning several paths *)

Lemma addUnique_state abs st f :
  scanState st →
  scanState (addUnique abs st f) ∧
  ∃ extra, (addUnique abs st f).1 = st.1 ++ extra ∧ extra `sublist_of` [abs f] ∧
           ∀ g, g ∈ (addUnique abs st f).1 ↔ g ∈ st.1 ∨ g = abs f.
Proof.
  intros [Hnd Hseen]. unfold addUnique. destruct (decide (abs f ∈ st.2)) as [Hin|Hin].
  - split; [done|]. exists []. split_and!; [by rewrite app_nil_r|apply sublist_nil_l|].
    intros g. split; [by left|]. intros [H| ->]; [done|]. by apply Hseen.
  - split.
    + split; simpl.
      * apply NoDup_app. split_and!; [done| |apply NoDup_singleton].
        intros g Hg ->%list_elem_of_singleton. by apply Hin, Hseen.
      * intros g. rewrite elem_of_union, elem_of_singleton, elem_of_app,
          list_elem_of_singleton, Hseen. tauto.
    + exists [abs f]. simpl. split_and!; [done|done|].
      intros g. by rewrite elem_of_app, list_elem_of_singleton.
Qed.

Lemma foldl_addUnique_state abs st files :
  scanState st →
  scanState (foldl (addUnique abs) st files) ∧
  ∃ extra, (foldl (addUnique abs) st files).1 = st.1 ++ extra ∧
           extra `sublist_of` (abs <$> files) ∧
           ∀ g, g ∈ (foldl (addUnique abs) st files).1 ↔ g ∈ st.1 ∨ g ∈ abs <$> files.
Proof.
  revert st. induction files as [|f files IH]; intros st Hst; simpl.
  - split; [done|]. exists []. split_and!; [by rewrite app_nil_r|done|].
    intros g. rewrite elem_of_nil. tauto.
  - destruct (addUnique_state abs st f Hst) as (Hst1 & e1 & He1 & Hs1 & Hm1).
    destruct (IH _ Hst1) as (Hst2 & e2 & He2 & Hs2 & Hm2).
    split; [done|]. exists (e1 ++ e2). split_and!.
    + by rewrite He2, He1, app_assoc.
    + apply (sublist_app e1 [abs f] e2 (abs <$> files)); done.
    + intros g. rewrite Hm2, Hm1, elem_of_cons. tauto.
Qed.

Lemma scanPathsLoop_spec scanPath abs paths st :
  scanState st →
  match scanPathsLoop scanPath abs paths st with
  | None => ∃ path, path ∈ paths ∧ scanPath path = None
  | Some files =>
      Forall (fun path => is_Some (scanPath path)) paths ∧
      NoDup files ∧
      ∃ extra, files = st.1 ++ extra ∧
               extra `sublist_of` (abs <$> concat (omap scanPath paths)) ∧
               ∀ g, g ∈ files ↔ g ∈ st.1 ∨ g ∈ abs <$> concat (omap scanPath paths)
  end.
Proof.
  revert st. induction paths as [|path rest IH]; intros st Hst; simpl.
  - split_and!; [done|apply Hst|]. exists []. split_and!; [by rewrite app_nil_r|done|].
    intros g. rewrite elem_of_nil. tauto.
  - destruct (scanPath path) as [found|] eqn:Hp.
    2:{ exists path. split; [apply list_elem_of_here|done]. }
    destruct (foldl_addUnique_state abs st found Hst) as (Hst1 & e1 & He1 & Hs1 & Hm1).
    specialize (IH _ Hst1).
    destruct (scanPathsLoop scanPath abs rest _) as [files|].
    + destruct IH as (Hall & Hnd & e2 & He2 & Hs2 & Hm2). simpl. split_and!.
      * apply Forall_cons. split; [by eexists|done].
      * done.
      * exists (e1 ++ e2). split_and!.
        -- by rewrite He2, He1, app_assoc.
        -- rewrite fmap_app. by apply sublist_app.
        -- intros g. rewrite Hm2, Hm1, fmap_app, elem_of_app. tauto.
    + destruct IH as (p & Hin & Hnone). exists p.
      split; [by apply list_elem_of_further|done].
Qed.

(** X15: [ScanPaths] fails as a whole as soon as one of the paths cannot
    be scanned, and returns no file then.  Otherwise it returns the
    absolute names of the files found under the paths, each name once, in
    the order in which they were first found. *)
Theorem scan_paths_lists_each_file_once scanPath abs paths :
  (ScanPaths scanPath abs paths = None ↔
   ∃ path, path ∈ paths ∧ scanPath path = None) ∧
  (∀ files, ScanPaths scanPath abs paths = Some files →
     NoDup files ∧
     files `sublist_of` (abs <$> concat (omap scanPath paths)) ∧
     ∀ f, f ∈ files ↔
          ∃ path found g, path ∈ paths ∧ scanPath path = Some found ∧
                          g ∈ found ∧ f = abs g).
Proof.
  assert (scanState ([], ∅)) as H0.
  { split; [apply NoDup_nil_2|]. intros f. simpl. set_solver. }
  pose proof (scanPathsLoop_spec scanPath abs paths ([], ∅) H0) as H.
  unfold ScanPaths. destruct (scanPathsLoop scanPath abs paths ([], ∅)) as [files|].
  - destruct H as (Hall & Hnd & extra & He & Hsub & Hmem). simpl in He. subst extra.
    split.
    + split; [done|]. intros (path & Hin & Hnone).
      eapply Forall_forall in Hall; [|done]. rewrite Hnone in Hall. by destruct Hall.
    + intros ? [= <-]. split_and!; [done|done|].
      intros f. rewrite Hmem. simpl. rewrite elem_of_nil, list_elem_of_fmap. split.
      * intros [[]|(g & -> & Hg)].
        apply list_elem_of_In, in_concat in Hg as (found & Hfound & Hg).
        apply list_elem_of_In, list_elem_of_omap in Hfound as (path & Hpath & Hscan).
        apply list_elem_of_In in Hg.
        by exists path, found, g.
      * intros (path & found & g & Hpath & Hscan & Hg & ->). right. exists g.
        split; [done|]. apply list_elem_of_In, in_concat. exists found.
        split; [|by apply list_elem_of_In].
        apply list_elem_of_In, list_elem_of_omap. by exists path.
  - split; [|done]. split; [by intros _|done].
Qed.

(* ================================================================== *)
(** * Further properties: the lexer *)

(** ** Where the lexer stands *)

Lemma byteAt_lookup l k : k < lx_len l → lx_input l !! k = Some (byteAt l k).
Proof.
  intros Hk. unfold byteAt. destruct (lx_input l !! k) eqn:Hl; [done|].
  apply lookup_ge_None in Hl. unfold lx_len in Hk. lia.
Qed.

Lemma lineOf_S input k c :
  input !! k = Some c →
  lineOf input (S k) = (if (c =? "010")%char then lineOf input k + 1 else lineOf input k)%Z.
Proof.
  intros Hc. unfold lineOf, newlinesIn. rewrite (take_S_r _ _ _ Hc), filter_app, length_app.
  destruct (Ascii.eqb_spec c "010") as [->|Hne].
  - rewrite filter_cons_True by done. simpl. lia.
  - rewrite filter_cons_False by done. simpl. lia.
Qed.

Lemma columnOf_S input k c :
  input !! k = Some c →
  columnOf input (S k) = (if (c =? "010")%char then 1 else columnOf input k + 1)%Z.
Proof.
  intros Hc. unfold columnOf, lastLineLength. rewrite (take_S_r _ _ _ Hc), foldl_snoc.
  destruct (c =? "010")%char; lia.
Qed.

Lemma lexerRuns_refl l : lexerRuns l l.
Proof. by split_and!. Qed.

Lemma lexerRuns_trans l1 l2 l3 : lexerRuns l1 l2 → lexerRuns l2 l3 → lexerRuns l1 l3.
Proof.
  intros (H1 & H2 & H3 & H4) (K1 & K2 & K3 & K4).
  split_and!; [congruence|congruence|lia|auto].
Qed.

Lemma lexerRuns_advance l : lexerRuns l (lx_advance l).
Proof.
  split_and!.
  - apply lx_advance_input.
  - apply lx_advance_tokens.
  - unfold lx_advance. repeat case_match; simpl; lia.
  - intros (Hle & Hline & Hcol). unfold lx_advance.
    destruct (Nat.ltb_spec (lx_pos l) (lx_len l)) as [Hlt|Hge]; [|done].
    pose proof (byteAt_lookup l _ Hlt) as Hb.
    unfold lexerPositioned, lx_len.
    destruct (byteAt l (lx_pos l) =? "010")%char eqn:Hnl; simpl;
      rewrite (lineOf_S _ _ _ Hb), (columnOf_S _ _ _ Hb), Hnl;
      unfold lx_len in Hlt; split_and!; (lia || congruence).
Qed.

Lemma lexerRuns_len l l' : lexerRuns l l' → lx_len l' = lx_len l.
Proof. intros (H & _). unfold lx_len. by rewrite H. Qed.

Lemma lexerRuns_byteAt l l' k : lexerRuns l l' → byteAt l' k = byteAt l k.
Proof. intros (H & _). unfold byteAt. by rewrite H. Qed.

(** *** The loops that skip *)

Lemma lexerRuns_skipToNewline fuel l : lexerRuns l (skipToNewline fuel l).
Proof.
  revert l. induction fuel as [|fuel IH]; intros l; simpl; [apply lexerRuns_refl|].
  destruct (_ && _); [|apply lexerRuns_refl].
  eapply lexerRuns_trans; [apply lexerRuns_advance | apply IH].
Qed.

Lemma lexerRuns_skipBlockComment fuel l : lexerRuns l (skipBlockComment fuel l).
Proof.
  revert l. induction fuel as [|fuel IH]; intros l; simpl; [apply lexerRuns_refl|].
  destruct (_ <? _); [|apply lexerRuns_refl]. destruct (_ && _).
  - eapply lexerRuns_trans; apply lexerRuns_advance.
  - eapply lexerRuns_trans; [apply lexerRuns_advance | apply IH].
Qed.

Lemma lexerRuns_skipPreprocessorLoop fuel l :
  lexerRuns l (skipPreprocessorLoop fuel l).
Proof.
  revert l. induction fuel as [|fuel IH]; intros l; simpl; [apply lexerRuns_refl|].
  destruct (_ && negb _); [|apply lexerRuns_refl]. destruct (_ && _).
  - eapply lexerRuns_trans; [apply lexerRuns_advance|].
    eapply lexerRuns_trans; [apply lexerRuns_advance | apply IH].
  - eapply lexerRuns_trans; [apply lexerRuns_advance | apply IH].
Qed.

Lemma lexerRuns_skipWhitespaceAndCommentsLoop fuel l :
  lexerRuns l (skipWhitespaceAndCommentsLoop fuel l).
Proof.
  revert l. induction fuel as [|fuel IH]; intros l; [apply lexerRuns_refl|].
  rewrite skipWhitespaceAndCommentsLoop_S.
  destruct (_ <? _); [|apply lexerRuns_refl].
  destruct (isSpace _).
  { eapply lexerRuns_trans; [apply lexerRuns_advance | apply IH]. }
  destruct (_ && _).
  { eapply lexerRuns_trans; [apply lexerRuns_skipToNewline | apply IH]. }
  destruct (_ && _); [|apply lexerRuns_refl].
  eapply lexerRuns_trans; [apply lexerRuns_advance|].
  eapply lexerRuns_trans; [apply lexerRuns_advance|].
  eapply lexerRuns_trans; [apply lexerRuns_skipBlockComment | apply IH].
Qed.

(** ** What the token list says about the input *)

Lemma tokensUpTo_impl (P Q : nat → nat → Token → Prop) tokens k :
  (∀ k n t, P k n t → Q k n t) → tokensUpTo P tokens k → tokensUpTo Q tokens k.
Proof.
  intros HPQ. induction 1 as [|tokens k k' _ IH Hle|tokens k n t _ IH Ht].
  - constructor.
  - by eapply tokensUpTo_skip.
  - apply tokensUpTo_token; [done|by apply HPQ].
Qed.

Lemma inputSlice_cons input k n c :
  input !! k = Some c → inputSlice input k (S n) = c :: inputSlice input (S k) n.
Proof.
  intros Hc. unfold inputSlice. rewrite (drop_S _ _ _ Hc). done.
Qed.

Lemma inputSlice_snoc input k n c :
  input !! (k + n) = Some c → inputSlice input k (S n) = inputSlice input k n ++ [c].
Proof.
  intros Hc. unfold inputSlice. apply take_S_r. by rewrite lookup_drop.
Qed.

Lemma lexerSound_runs l l' : lexerRuns l l' → lexerSound l → lexerSound l'.
Proof.
  intros (Hin & Htok & Hpos & Hkeep) [Hp Ht]. split; [auto|].
  rewrite Hin, Htok. by eapply tokensUpTo_skip.
Qed.

(** A token pushed for the bytes between [l] and [l']. *)
Lemma lexerSound_push l l' t :
  lexerSound l → lexerRuns l l' → lexerPositioned l →
  tokenSpans (lx_input l) (lx_pos l) (lx_pos l' - lx_pos l) t →
  tokenShape (lx_input l) (lx_pos l) (lx_pos l' - lx_pos l) t →
  lexerSound (pushToken l' t).
Proof.
  intros [_ Ht] (Hin & Htok & Hpos & Hkeep) Hp Hspan Hshape. split.
  - apply (Hkeep Hp).
  - simpl. rewrite Hin, Htok.
    replace (lx_pos l') with (lx_pos l + (lx_pos l' - lx_pos l)) by lia.
    by apply tokensUpTo_token.
Qed.

(** *** The loops that read a token *)

Lemma advanceWhile_spec fuel keep l :
  lexerRuns l (advanceWhile fuel keep l) ∧
  Forall (fun c => keep c = true)
    (inputSlice (lx_input l) (lx_pos l) (lx_pos (advanceWhile fuel keep l) - lx_pos l)) ∧
  (bytesLeft l ≤ fuel → stopsAt keep (lx_input l) (lx_pos (advanceWhile fuel keep l))) ∧
  (0 < fuel → lx_pos l < lx_len l → keep (byteAt l (lx_pos l)) = true →
   lx_pos l < lx_pos (advanceWhile fuel keep l)).
Proof.
  revert l. induction fuel as [|fuel IH]; intros l; simpl.
  - split_and!; [apply lexerRuns_refl| |intros Hb|lia].
    + rewrite Nat.sub_diag. constructor.
    + intros c Hc. apply lookup_lt_Some in Hc. unfold bytesLeft, lx_len in Hb. lia.
  - destruct (Nat.ltb_spec (lx_pos l) (lx_len l)) as [Hlt|Hge]; simpl.
    2:{ split_and!; [apply lexerRuns_refl| |intros _|lia].
        - rewrite Nat.sub_diag. constructor.
        - intros c Hc. apply lookup_lt_Some in Hc. unfold lx_len in Hge. lia. }
    destruct (keep (byteAt l (lx_pos l))) eqn:Hk.
    2:{ split_and!; [apply lexerRuns_refl| |intros _|congruence].
        - rewrite Nat.sub_diag. constructor.
        - intros c Hc. rewrite (byteAt_lookup l _ Hlt) in Hc. congruence. }
    destruct (IH (lx_advance l)) as (Hruns & Hall & Hstop & _).
    pose proof (lx_advance_pos l Hlt) as Hpos.
    rewrite lx_advance_input, Hpos in Hall. rewrite lx_advance_input in Hstop.
    pose proof Hruns as (_ & _ & Hle & _). rewrite Hpos in Hle.
    split_and!.
    + eapply lexerRuns_trans; [apply lexerRuns_advance|done].
    + replace (lx_pos (advanceWhile fuel keep (lx_advance l)) - lx_pos l)
        with (S (lx_pos (advanceWhile fuel keep (lx_advance l)) - S (lx_pos l))) by lia.
      rewrite (inputSlice_cons _ _ _ _ (byteAt_lookup l _ Hlt)).
      by constructor.
    + intros Hb. apply Hstop. rewrite lx_advance_bytesLeft. lia.
    + intros _ _ _. lia.
Qed.

Lemma lexerPositioned_token l :
  lexerPositioned l →
  ∀ ty value n, 0 < n → lx_pos l + n ≤ lx_len l →
    value = string_of_list_ascii (inputSlice (lx_input l) (lx_pos l) n) →
    tokenSpans (lx_input l) (lx_pos l) n (mkToken ty value (lx_line l) (lx_column l)).
Proof.
  intros (_ & Hline & Hcol) ty value n Hn Hlen ->. unfold tokenSpans, lx_len in *.
  simpl. by split_and!.
Qed.

Lemma lexerRuns_bound l l' :
  lexerRuns l l' → lexerPositioned l → lx_pos l' ≤ lx_len l.
Proof.
  intros Hruns Hp. pose proof (lexerRuns_len _ _ Hruns) as Hlen.
  destruct Hruns as (_ & _ & _ & Hkeep). destruct (Hkeep Hp) as (H & _). lia.
Qed.

Lemma readIdentifier_sound l :
  lexerSound l → lx_pos l < lx_len l →
  isLetter (byteAt l (lx_pos l)) || (byteAt l (lx_pos l) =? "_")%char = true →
  lexerSound (readIdentifier l).
Proof.
  intros Hs Hlt Hfirst. unfold readIdentifier.
  change (fun ch => isLetter ch || isDigit ch || (ch =? "_")%char) with identByte.
  destruct (advanceWhile_spec (bytesLeft l) identByte l) as (Hruns & Hall & Hstop & Hmove).
  set (l1 := advanceWhile (bytesLeft l) identByte l) in *.
  assert (lx_pos l < lx_pos l1) as Hgt.
  { apply Hmove; [unfold bytesLeft; lia|done|].
    unfold identByte. apply orb_true_iff in Hfirst as [->| ->]; [done|].
    by rewrite orb_true_r. }
  pose proof (lexerRuns_bound _ _ Hruns (proj1 Hs)) as Hbound.
  eapply lexerSound_push; [done|done|apply Hs| |].
  - apply lexerPositioned_token; [apply Hs|lia|lia|done].
  - replace (lx_pos l1 - lx_pos l) with (S (lx_pos l1 - S (lx_pos l))) in * by lia.
    rewrite (inputSlice_cons _ _ _ _ (byteAt_lookup l _ Hlt)) in Hall.
    apply Forall_cons in Hall as [_ Hrest].
    assert ((∃ c rest,
               inputSlice (lx_input l) (lx_pos l) (S (lx_pos l1 - S (lx_pos l)))
               = c :: rest ∧ isLetter c || (c =? "_")%char = true ∧
               Forall (fun b => identByte b = true) rest) ∧
            stopsAt identByte (lx_input l)
                    (lx_pos l + S (lx_pos l1 - S (lx_pos l)))) as [H1 H2].
    { split.
      - eexists _, _. split; [by apply inputSlice_cons, byteAt_lookup|done].
      - replace (lx_pos l + S (lx_pos l1 - S (lx_pos l))) with (lx_pos l1) by lia.
        by apply Hstop. }
    unfold tokenShape, isKeyword. simpl.
    destruct (bool_decide _) eqn:Hk; simpl.
    + apply bool_decide_eq_true in Hk. by split_and!.
    + apply bool_decide_eq_false in Hk. split_and!; [done|done|]. by split.
Qed.

Lemma readNumber_sound l :
  lexerSound l → lx_pos l < lx_len l → isDigit (byteAt l (lx_pos l)) = true →
  lexerSound (readNumber l).
Proof.
  intros Hs Hlt Hfirst. unfold readNumber.
  destruct (advanceWhile_spec (bytesLeft l) isNumberByte l)
    as (Hruns & Hall & Hstop & Hmove).
  set (l1 := advanceWhile (bytesLeft l) isNumberByte l) in *.
  assert (lx_pos l < lx_pos l1) as Hgt.
  { apply Hmove; [unfold bytesLeft; lia|done|]. unfold isNumberByte. by rewrite Hfirst. }
  pose proof (lexerRuns_bound _ _ Hruns (proj1 Hs)) as Hbound.
  eapply lexerSound_push; [done|done|apply Hs| |].
  - apply lexerPositioned_token; [apply Hs|lia|lia|done].
  - replace (lx_pos l1 - lx_pos l) with (S (lx_pos l1 - S (lx_pos l))) in * by lia.
    rewrite (inputSlice_cons _ _ _ _ (byteAt_lookup l _ Hlt)) in Hall.
    apply Forall_cons in Hall as [_ Hrest].
    unfold tokenShape. simpl. split.
    + eexists _, _. split; [by apply inputSlice_cons, byteAt_lookup|done].
    + replace (lx_pos l + S (lx_pos l1 - S (lx_pos l))) with (lx_pos l1) by lia.
      by apply Hstop.
Qed.

Lemma lx_advance_pushToken l t : lx_advance (pushToken l t) = pushToken (lx_advance l) t.
Proof. unfold lx_advance, pushToken, lx_len, byteAt. simpl. by repeat case_match. Qed.

Lemma lx_peek_Some l c :
  lx_peek l = c → c ≠ zero →
  lx_pos l + 1 < lx_len l ∧ lx_input l !! (lx_pos l + 1) = Some c.
Proof.
  unfold lx_peek. destruct (Nat.ltb_spec (lx_pos l + 1) (lx_len l)) as [Hlt|Hge].
  - intros <- _. split; [done|]. by apply byteAt_lookup.
  - intros <- Hne. done.
Qed.

Lemma inputSlice_one input k c : input !! k = Some c → inputSlice input k 1 = [c].
Proof. intros Hc. rewrite (inputSlice_cons _ _ _ _ Hc). done. Qed.

Lemma inputSlice_two input k c d :
  input !! k = Some c → input !! (k + 1) = Some d → inputSlice input k 2 = [c; d].
Proof.
  intros Hc Hd. rewrite (inputSlice_cons _ _ _ _ Hc).
  rewrite (inputSlice_one _ (S k) d); [done|]. by rewrite <- Nat.add_1_r.
Qed.

Lemma lx_advance_twice_pos l :
  lx_pos l + 1 < lx_len l → lx_pos (lx_advance (lx_advance l)) = lx_pos l + 2.
Proof.
  intros Hlt. rewrite lx_advance_pos; rewrite ?lx_advance_len, lx_advance_pos; lia.
Qed.

Lemma readOperator_sound l :
  lexerSound l → lx_pos l < lx_len l → isOperator (byteAt l (lx_pos l)) = true →
  lexerSound (readOperator l).
Proof.
  intros Hs Hlt Hop. unfold readOperator.
  destruct (Nat.ltb_spec (lx_pos l + 1) (lx_len l)) as [Hlt2|Hge]; simpl.
  - destruct (bool_decide _) eqn:Htwo.
    + apply bool_decide_eq_true in Htwo.
      assert (lexerRuns l (lx_advance (lx_advance l))) as Hruns.
      { eapply lexerRuns_trans; apply lexerRuns_advance. }
      pose proof (lx_advance_twice_pos l Hlt2) as Hpos.
      eapply lexerSound_push; [done|done|apply Hs| |]; rewrite Hpos;
        replace (lx_pos l + 2 - lx_pos l) with 2 in * by lia.
      * apply lexerPositioned_token; [apply Hs|lia|lia|].
        unfold slice, inputSlice. by replace (lx_pos l + 2 - lx_pos l) with 2 by lia.
      * unfold tokenShape. simpl. by left.
    + assert (lexerRuns l (lx_advance l)) as Hruns by apply lexerRuns_advance.
      pose proof (lx_advance_pos l Hlt) as Hpos.
      eapply lexerSound_push; [done|done|apply Hs| |]; rewrite Hpos;
        replace (S (lx_pos l) - lx_pos l) with 1 in * by lia.
      * apply lexerPositioned_token; [apply Hs|lia|lia|].
        unfold slice, inputSlice. by replace (S (lx_pos l) - lx_pos l) with 1 by lia.
      * unfold tokenShape. simpl. right. split; [done|]. eexists.
        split; [by apply inputSlice_one, byteAt_lookup|done].
  - assert (lexerRuns l (lx_advance l)) as Hruns by apply lexerRuns_advance.
    pose proof (lx_advance_pos l Hlt) as Hpos.
    eapply lexerSound_push; [done|done|apply Hs| |]; rewrite Hpos;
      replace (S (lx_pos l) - lx_pos l) with 1 in * by lia.
    + apply lexerPositioned_token; [apply Hs|lia|lia|].
      unfold slice, inputSlice. by replace (S (lx_pos l) - lx_pos l) with 1 by lia.
    + unfold tokenShape. simpl. right. split; [done|]. eexists.
      split; [by apply inputSlice_one, byteAt_lookup|done].
Qed.

Lemma inputSlice_app input k n m :
  inputSlice input k (n + m) = inputSlice input k n ++ inputSlice input (k + n) m.
Proof.
  unfold inputSlice. rewrite <- drop_drop, <- take_take_drop. done.
Qed.

Lemma readStringLoop_spec fuel quote sb l :
  lexerRuns l (readStringLoop fuel quote sb l).2 ∧
  (readStringLoop fuel quote sb l).1
  = sb ++ inputSlice (lx_input l) (lx_pos l)
            (lx_pos (readStringLoop fuel quote sb l).2 - lx_pos l).
Proof.
  revert sb l. induction fuel as [|fuel IH]; intros sb l.
  { simpl. split; [apply lexerRuns_refl|]. by rewrite Nat.sub_diag, app_nil_r. }
  rewrite readStringLoop_S.
  destruct (Nat.ltb_spec (lx_pos l) (lx_len l)) as [Hlt|Hge].
  2:{ simpl. split; [apply lexerRuns_refl|]. by rewrite Nat.sub_diag, app_nil_r. }
  pose proof (byteAt_lookup l _ Hlt) as Hb.
  pose proof (lx_advance_pos l Hlt) as Hpos.
  assert (∀ sb1 l2,
    lexerRuns (lx_advance l) l2 →
    sb1 = (sb ++ [byteAt l (lx_pos l)])
          ++ inputSlice (lx_input l) (S (lx_pos l)) (lx_pos l2 - S (lx_pos l)) →
    lexerRuns l l2 ∧
    sb1 = sb ++ inputSlice (lx_input l) (lx_pos l) (lx_pos l2 - lx_pos l)) as Hone.
  { intros sb1 l2 Hruns ->. split.
    - eapply lexerRuns_trans; [apply lexerRuns_advance|done].
    - destruct Hruns as (_ & _ & Hle & _). rewrite Hpos in Hle.
      replace (lx_pos l2 - lx_pos l) with (S (lx_pos l2 - S (lx_pos l))) by lia.
      rewrite (inputSlice_cons _ _ _ _ Hb). by rewrite <- app_assoc. }
  destruct ((byteAt l (lx_pos l) =? "\")%char && (lx_pos l + 1 <? lx_len l)) eqn:Hesc.
  - apply andb_true_iff in Hesc as [_ Hlt2%Nat.ltb_lt].
    assert (lx_pos (lx_advance l) < lx_len (lx_advance l)) as Hlt1.
    { rewrite lx_advance_len, Hpos. lia. }
    destruct (Nat.ltb_spec (lx_pos (lx_advance l)) (lx_len (lx_advance l))); [|lia].
    destruct (IH (sb ++ [byteAt l (lx_pos l);
                         byteAt (lx_advance l) (lx_pos (lx_advance l))])
                 (lx_advance (lx_advance l))) as [Hruns Hsb].
    set (r := readStringLoop fuel quote _ (lx_advance (lx_advance l))) in *.
    pose proof (lx_advance_twice_pos l Hlt2) as Hpos2.
    rewrite !lx_advance_input, Hpos2 in Hsb.
    split.
    + eapply lexerRuns_trans; [apply lexerRuns_advance|].
      eapply lexerRuns_trans; [apply lexerRuns_advance|done].
    + rewrite Hsb. destruct Hruns as (_ & _ & Hle & _). rewrite Hpos2 in Hle.
      replace (lx_pos r.2 - lx_pos l) with (2 + (lx_pos r.2 - (lx_pos l + 2))) by lia.
      rewrite inputSlice_app.
      rewrite (inputSlice_two _ _ (byteAt l (lx_pos l))
                 (byteAt (lx_advance l) (lx_pos (lx_advance l)))).
      * by rewrite <- app_assoc.
      * done.
      * rewrite Hpos. unfold byteAt at 1. rewrite lx_advance_input.
        replace (lx_pos l + 1) with (S (lx_pos l)) by lia.
        apply byteAt_lookup. lia.
  - destruct (byteAt l (lx_pos l) =? quote)%char.
    { simpl. apply Hone; [apply lexerRuns_refl|].
      by rewrite Hpos, Nat.sub_diag, app_nil_r. }
    destruct (byteAt l (lx_pos l) =? "010")%char.
    { simpl. split; [apply lexerRuns_refl|]. by rewrite Nat.sub_diag, app_nil_r. }
    destruct (IH (sb ++ [byteAt l (lx_pos l)]) (lx_advance l)) as [Hruns Hsb].
    apply Hone; [done|]. by rewrite Hsb, lx_advance_input, Hpos.
Qed.

Lemma readString_sound l :
  lexerSound l → lx_pos l < lx_len l →
  byteAt l (lx_pos l) = "034"%char ∨ byteAt l (lx_pos l) = "'"%char →
  lexerSound (readString (byteAt l (lx_pos l)) l).
Proof.
  intros Hs Hlt Hq. unfold readString.
  destruct (readStringLoop_spec (bytesLeft (lx_advance l)) (byteAt l (lx_pos l))
              [byteAt l (lx_pos l)] (lx_advance l)) as [Hruns Hsb].
  destruct (readStringLoop _ _ _ _) as [sb l2]. simpl in *.
  pose proof (lx_advance_pos l Hlt) as Hpos.
  rewrite lx_advance_input, Hpos in Hsb.
  assert (lexerRuns l l2) as Hruns2.
  { eapply lexerRuns_trans; [apply lexerRuns_advance|done]. }
  pose proof (lexerRuns_bound _ _ Hruns2 (proj1 Hs)) as Hbound.
  destruct Hruns as (_ & _ & Hle & _). rewrite Hpos in Hle.
  assert (sb = inputSlice (lx_input l) (lx_pos l) (lx_pos l2 - lx_pos l)) as Hval.
  { rewrite Hsb. replace (lx_pos l2 - lx_pos l) with (S (lx_pos l2 - S (lx_pos l))) by lia.
    by rewrite (inputSlice_cons _ _ _ _ (byteAt_lookup l _ Hlt)). }
  eapply lexerSound_push; [done|done|apply Hs| |].
  - apply lexerPositioned_token; [apply Hs|lia|lia|by rewrite Hval].
  - unfold tokenShape. simpl.
    replace (lx_pos l2 - lx_pos l) with (S (lx_pos l2 - S (lx_pos l))) by lia.
    rewrite (inputSlice_cons _ _ _ _ (byteAt_lookup l _ Hlt)). by eexists _, _.
Qed.

(** *** One round of [Tokenize], and all of them *)

Lemma tokenizeStep_sound l :
  lexerSound l →
  match tokenizeStep l with
  | Continue l' => lexerSound l'
  | Break l' => lexerSound l'
  end.
Proof.
  intros Hs0. unfold tokenizeStep.
  assert (lexerSound (skipWhitespaceAndComments l)) as Hs.
  { eapply lexerSound_runs; [apply lexerRuns_skipWhitespaceAndCommentsLoop|done]. }
  set (l1 := skipWhitespaceAndComments l) in *. clearbody l1. clear Hs0 l.
  destruct (Nat.ltb_spec (lx_pos l1) (lx_len l1)) as [Hlt|Hge]; simpl; [|done].
  pose proof (byteAt_lookup l1 _ Hlt) as Hb.
  pose proof (lx_advance_pos l1 Hlt) as Hpos.
  destruct ((byteAt l1 (lx_pos l1) =? ":")%char && (lx_peek l1 =? ":")%char) eqn:Hscope.
  { apply andb_true_iff in Hscope as [Hc%Ascii.eqb_eq Hp%Ascii.eqb_eq].
    destruct (lx_peek_Some l1 ":"%char Hp) as [Hlt2 Hb2]; [done|].
    unfold addToken. rewrite !lx_advance_pushToken.
    assert (lexerRuns l1 (lx_advance (lx_advance l1))) as Hruns.
    { eapply lexerRuns_trans; apply lexerRuns_advance. }
    pose proof (lx_advance_twice_pos l1 Hlt2) as Hpos2.
    rewrite Hc in Hb.
    eapply lexerSound_push; [done|done|apply Hs| |]; rewrite Hpos2;
      replace (lx_pos l1 + 2 - lx_pos l1) with 2 in * by lia.
    - apply lexerPositioned_token; [apply Hs|lia|lia|].
      by rewrite (inputSlice_two _ _ _ _ Hb Hb2).
    - unfold tokenShape. simpl. left. split; [done|]. unfold twoCharOperators.
      apply list_elem_of_here. }
  destruct ((byteAt l1 (lx_pos l1) =? "034")%char || (byteAt l1 (lx_pos l1) =? "'")%char)
    eqn:Hquote.
  { apply readString_sound; [done|done|].
    apply orb_true_iff in Hquote as [H%Ascii.eqb_eq|H%Ascii.eqb_eq]; tauto. }
  destruct (byteAt l1 (lx_pos l1) =? "#")%char.
  { eapply lexerSound_runs; [apply lexerRuns_skipPreprocessorLoop|done]. }
  destruct (isLetter (byteAt l1 (lx_pos l1)) || (byteAt l1 (lx_pos l1) =? "_")%char)
    eqn:Hletter.
  { by apply readIdentifier_sound. }
  destruct (isDigit (byteAt l1 (lx_pos l1))) eqn:Hdigit.
  { by apply readNumber_sound. }
  destruct (isOperator (byteAt l1 (lx_pos l1))) eqn:Hop.
  { by apply readOperator_sound. }
  destruct (isPunctuation (byteAt l1 (lx_pos l1))) eqn:Hpunct.
  { unfold addToken. rewrite lx_advance_pushToken.
    assert (lexerRuns l1 (lx_advance l1)) as Hruns by apply lexerRuns_advance.
    eapply lexerSound_push; [done|done|apply Hs| |]; rewrite Hpos;
      replace (S (lx_pos l1) - lx_pos l1) with 1 in * by lia.
    - apply lexerPositioned_token; [apply Hs|lia|lia|].
      by rewrite (inputSlice_one _ _ _ Hb).
    - unfold tokenShape. simpl. split; [done|]. eexists.
      split; [by apply inputSlice_one|done]. }
  eapply lexerSound_runs; [apply lexerRuns_advance|done].
Qed.

Lemma tokenizeLoop_sound fuel l : lexerSound l → lexerSound (tokenizeLoop fuel l).
Proof.
  revert l. induction fuel as [|fuel IH]; intros l Hs; simpl; [done|].
  destruct (_ <? _); [|done].
  pose proof (tokenizeStep_sound l Hs) as Hstep.
  destruct (tokenizeStep l); [by apply IH | done].
Qed.

Lemma NewLexer_sound input : lexerSound (NewLexer input).
Proof.
  split.
  - unfold lexerPositioned, lineOf, columnOf. simpl. split_and!; [lia|done|done].
  - simpl. constructor.
Qed.

(** The state in which the loop of [Tokenize] stops: at the end of the
    input, with tokens that are the pieces of the input. *)
Lemma Tokenize_sound input :
  let l := tokenizeLoop (S (length input)) (NewLexer input) in
  lx_input l = input ∧ lx_pos l = length input ∧ lexerSound l ∧
  Tokenize (string_of_list_ascii input)
  = lx_tokens l ++ [mkToken TokenEOF EmptyString (lineOf input (length input))
                                     (columnOf input (length input))].
Proof.
  simpl. destruct (tokenizeLoop_total (S (length input)) (NewLexer input)) as [Hin H0].
  { unfold bytesLeft, lx_len. simpl. lia. }
  pose proof (tokenizeLoop_sound (S (length input)) _ (NewLexer_sound input)) as Hs.
  set (l := tokenizeLoop (S (length input)) (NewLexer input)) in *. simpl in Hin.
  destruct Hs as [(Hle & Hline & Hcol) Ht].
  assert (lx_pos l = length input) as Hpos.
  { unfold bytesLeft, lx_len in *. rewrite Hin in *. lia. }
  split_and!; [done|done|by split| ].
  unfold Tokenize, TokenizeState. rewrite list_ascii_of_string_of_list_ascii.
  fold l. simpl. by rewrite Hline, Hcol, Hin, Hpos.
Qed.

(** X16: the tokens are pieces of the input, in order and without
    overlap.  Every token but the last is the text of a non-empty run of
    bytes of the input, stamped with the line and the column of the first
    byte of the run (a line is one more than the number of newlines before
    it, a column one more than the number of bytes since the last
    newline); the runs follow one another in the order of the list.  The
    last token is the end token, with an empty text and the line and
    column of the end of the input. *)
Theorem tokens_are_pieces_of_the_input (s : string) :
  let input := list_ascii_of_string s in
  ∃ tokens,
    Tokenize s = tokens ++ [mkToken TokenEOF EmptyString
                                    (lineOf input (length input))
                                    (columnOf input (length input))] ∧
    tokensUpTo (tokenSpans input) tokens (length input).
Proof.
  simpl. destruct (Tokenize_sound (list_ascii_of_string s)) as (Hin & Hpos & [_ Ht] & Heq).
  rewrite string_of_list_ascii_of_string in Heq.
  eexists. split; [exact Heq|]. rewrite Hin, Hpos in Ht.
  eapply tokensUpTo_impl; [|exact Ht]. by intros k n t [H _].
Qed.

Lemma tokensUpTo_Forall (P : nat → nat → Token → Prop) (Q : Token → Prop) tokens k :
  (∀ k n t, P k n t → Q t) → tokensUpTo P tokens k → Forall Q tokens.
Proof.
  intros HPQ. induction 1 as [|tokens k k' _ IH Hle|tokens k n t _ IH Ht].
  - constructor.
  - done.
  - apply Forall_app. split; [done|]. apply Forall_singleton. by eapply HPQ.
Qed.

(** X17: the type of a token fits its text.  A word is a longest run
    of letters, digits and underscores that starts with a letter or an
    underscore, and it is a keyword exactly when it is in the table of
    keywords; a number is a longest run of number bytes that starts with a
    digit; a string starts with its quote; an operator is one operator
    byte or one of the fourteen two-byte operators; a punctuation is one
    punctuation byte.  The end token is the last token and the only one of
    its type, and no token has the type [TokenNewline]. *)
Theorem token_types_fit_their_text (s : string) :
  let input := list_ascii_of_string s in
  ∃ tokens eof,
    Tokenize s = tokens ++ [eof] ∧ Token_Type eof = TokenEOF ∧
    tokensUpTo (tokenShape input) tokens (length input) ∧
    Forall (fun t => Token_Type t ≠ TokenEOF ∧ Token_Type t ≠ TokenNewline) tokens.
Proof.
  simpl. destruct (Tokenize_sound (list_ascii_of_string s)) as (Hin & Hpos & [_ Ht] & Heq).
  rewrite string_of_list_ascii_of_string in Heq.
  eexists _, _. split; [exact Heq|]. split; [done|]. rewrite Hin, Hpos in Ht.
  assert (tokensUpTo (tokenShape (list_ascii_of_string s))
            (lx_tokens (tokenizeLoop (S (length (list_ascii_of_string s)))
                          (NewLexer (list_ascii_of_string s))))
            (length (list_ascii_of_string s))) as Hshape.
  { eapply tokensUpTo_impl; [|exact Ht]. by intros k n t [_ H]. }
  split; [done|]. eapply tokensUpTo_Forall; [|exact Hshape].
  intros k n t. unfold tokenShape. by destruct (Token_Type t).
Qed.

(** *** Source order *)

Lemma positionBefore_S input k : k < length input → positionBefore input k (S k).
Proof.
  intros Hk. destruct (lookup_lt_is_Some_2 input k Hk) as [c Hc].
  unfold positionBefore. rewrite (lineOf_S _ _ _ Hc), (columnOf_S _ _ _ Hc).
  destruct (c =? "010")%char; lia.
Qed.

Lemma positionBefore_trans input i j k :
  positionBefore input i j → positionBefore input j k → positionBefore input i k.
Proof. unfold positionBefore. lia. Qed.

Lemma positionBefore_lt input j k :
  j < k → k ≤ length input → positionBefore input j k.
Proof.
  induction k as [|k IH]; [lia|]. intros Hj Hk.
  destruct (decide (j = k)) as [->|Hne]; [apply positionBefore_S; lia|].
  eapply positionBefore_trans; [apply IH; lia | apply positionBefore_S; lia].
Qed.

Lemma position_lower_bound input k : (1 ≤ lineOf input k ∧ 1 ≤ columnOf input k)%Z.
Proof. unfold lineOf, columnOf. lia. Qed.

(** Tokens that are pieces of the first [k] bytes stand in source order,
    each before offset [k]. *)
Lemma tokensUpTo_sorted input tokens k :
  tokensUpTo (tokenSpans input) tokens k → k ≤ length input →
  sourceOrdered tokens ∧
  Forall (fun t => ∃ j, j < k ∧ Token_Line t = lineOf input j
                        ∧ Token_Column t = columnOf input j) tokens.
Proof.
  induction 1 as [|tokens k k' _ IH Hle|tokens k n t _ IH Ht]; intros Hk.
  - split; [|constructor]. intros i j a b _ Ha. done.
  - destruct IH as [Hs Hall]; [lia|]. split; [done|].
    eapply Forall_impl; [exact Hall|]. intros t (j & Hj & H). exists j. split; [lia|done].
  - destruct Ht as (Hn & Hlen & _ & Hline & Hcol).
    destruct IH as [Hs Hall]; [lia|]. split.
    + intros i j a b Hij Ha Hb.
      assert (i < length tokens) as Hi.
      { apply lookup_lt_Some in Hb. rewrite length_app in Hb. simpl in Hb. lia. }
      rewrite lookup_app_l in Ha by done.
      destruct (decide (j < length tokens)) as [Hj|Hj].
      * rewrite lookup_app_l in Hb by done. exact (Hs i j a b Hij Ha Hb).
      * rewrite lookup_app_r in Hb by lia.
        destruct (j - length tokens) as [|m]; [|done]. injection Hb as <-.
        eapply Forall_forall in Hall; [|by eapply list_elem_of_lookup_2].
        destruct Hall as (j' & Hj' & Hjl & Hjc).
        unfold tokenBefore. rewrite Hjl, Hjc, Hline, Hcol.
        apply positionBefore_lt; lia.
    + apply Forall_app. split.
      * eapply Forall_impl; [exact Hall|]. intros a (j & Hj & H). exists j.
        split; [lia|done].
      * apply Forall_singleton. exists k. split; [lia|done].
Qed.

(** X18: the tokens come in source order.  Along the list returned by
    [Tokenize], end token included, the pair of line and column grows
    strictly, so the lines never decrease; every line and column is at
    least 1; and the line of the end token is one more than the number of
    newlines of the input. *)
Theorem tokens_in_source_order (s : string) :
  sourceOrdered (Tokenize s) ∧
  (∀ i j a b, i ≤ j → Tokenize s !! i = Some a → Tokenize s !! j = Some b →
              (Token_Line a ≤ Token_Line b)%Z) ∧
  Forall (fun t => (1 ≤ Token_Line t ∧ 1 ≤ Token_Column t)%Z) (Tokenize s) ∧
  ∃ eof, last (Tokenize s) = Some eof ∧ Token_Type eof = TokenEOF ∧
         Token_Line eof = (1 + Z.of_nat (newlinesIn (list_ascii_of_string s)))%Z.
Proof.
  destruct (Tokenize_sound (list_ascii_of_string s)) as (Hin & Hpos & [_ Ht] & Heq).
  rewrite string_of_list_ascii_of_string in Heq. rewrite Hin, Hpos in Ht.
  set (input := list_ascii_of_string s) in *.
  set (tokens := lx_tokens (tokenizeLoop (S (length input)) (NewLexer input))) in *.
  assert (tokensUpTo (tokenSpans input) tokens (length input)) as Hspans.
  { eapply tokensUpTo_impl; [|exact Ht]. by intros k n t [H _]. }
  destruct (tokensUpTo_sorted _ _ _ Hspans) as [Hs Hall]; [done|].
  assert (sourceOrdered (Tokenize s)) as Hsorted.
  { rewrite Heq. intros i j a b Hij Ha Hb.
    assert (i < length tokens) as Hi.
    { apply lookup_lt_Some in Hb. rewrite length_app in Hb. simpl in Hb. lia. }
    rewrite lookup_app_l in Ha by done.
    destruct (decide (j < length tokens)) as [Hj|Hj].
    - rewrite lookup_app_l in Hb by done. exact (Hs i j a b Hij Ha Hb).
    - rewrite lookup_app_r in Hb by lia.
      destruct (j - length tokens) as [|m]; [|done]. injection Hb as <-.
      eapply Forall_forall in Hall; [|by eapply list_elem_of_lookup_2].
      destruct Hall as (j' & Hj' & Hjl & Hjc).
      unfold tokenBefore. simpl. rewrite Hjl, Hjc.
      apply positionBefore_lt; lia. }
  split_and!.
  - done.
  - intros i j a b Hij Ha Hb. destruct (decide (i = j)) as [->|Hne].
    + assert (a = b) as -> by congruence. lia.
    + assert (i < j) as Hlt by lia.
      destruct (Hsorted i j a b Hlt Ha Hb) as [H|[H _]]; lia.
  - rewrite Heq. apply Forall_app. split.
    + eapply Forall_impl; [exact Hall|]. intros t (j & _ & -> & ->).
      apply position_lower_bound.
    + apply Forall_singleton. simpl. apply position_lower_bound.
  - eexists. rewrite Heq, last_snoc. split; [done|]. split; [done|]. simpl.
    unfold lineOf. by rewrite firstn_all.
Qed.

(* ================================================================== *)
(** * Further properties: the parser *)

(** ** The parser moves forward *)

Lemma parserAhead_refl p : parserAhead p p.
Proof. by split_and!. Qed.

Lemma parserAhead_trans p1 p2 p3 :
  parserAhead p1 p2 → parserAhead p2 p3 → parserAhead p1 p3.
Proof.
  intros (H1 & H2 & H3 & H4) (K1 & K2 & K3 & K4).
  split_and!; [congruence|congruence|congruence|lia].
Qed.

Lemma parserMoved_ahead p p' : parserMoved p p' → parserAhead p p'.
Proof. intros (H1 & H2 & H3 & H4). split_and!; [done|done|done|lia]. Qed.

Lemma parserMoved_then p1 p2 p3 :
  parserMoved p1 p2 → parserAhead p2 p3 → parserMoved p1 p3.
Proof.
  intros (H1 & H2 & H3 & H4) (K1 & K2 & K3 & K4).
  split_and!; [congruence|congruence|congruence|lia].
Qed.

Lemma parserAhead_then p1 p2 p3 :
  parserAhead p1 p2 → parserMoved p2 p3 → parserMoved p1 p3.
Proof.
  intros (H1 & H2 & H3 & H4) (K1 & K2 & K3 & K4).
  split_and!; [congruence|congruence|congruence|lia].
Qed.

Lemma isAtEnd_false p : isAtEnd p = false → p_pos p < p_len p.
Proof. unfold isAtEnd. intros [H%Nat.leb_gt _]%orb_false_iff. done. Qed.

Lemma isAtEnd_tokensLeft p : isAtEnd p = false → 0 < tokensLeft p.
Proof. intros H%isAtEnd_false. unfold tokensLeft. lia. Qed.

Lemma tokensLeft_0 p : tokensLeft p = 0 → isAtEnd p = true.
Proof.
  intros H. destruct (isAtEnd p) eqn:He; [done|].
  apply isAtEnd_tokensLeft in He. lia.
Qed.

Lemma parserAhead_advance p : parserAhead p (advance p).
Proof.
  unfold advance. destruct (Nat.ltb_spec (p_pos p) (p_len p)); [|apply parserAhead_refl].
  unfold parserAhead, tokensLeft, p_len. simpl. split_and!; [done|done|done|lia].
Qed.

Lemma parserMoved_advance p : isAtEnd p = false → parserMoved p (advance p).
Proof.
  intros H%isAtEnd_false. unfold advance.
  destruct (Nat.ltb_spec (p_pos p) (p_len p)); [|lia].
  unfold parserMoved, tokensLeft, p_len in *. simpl. split_and!; [done|done|done|lia].
Qed.

Lemma tokensLeft_advance p : tokensLeft (advance p) = tokensLeft p - 1.
Proof.
  unfold advance. destruct (Nat.ltb_spec (p_pos p) (p_len p)).
  - unfold tokensLeft, p_len. simpl. lia.
  - unfold tokensLeft. lia.
Qed.

Lemma check_not_at_end p ty : check p ty = true → isAtEnd p = false.
Proof. unfold check. intros [H _]%andb_true_iff. by apply negb_true_iff. Qed.

Lemma checkValue_not_at_end p v : checkValue p v = true → isAtEnd p = false.
Proof. unfold checkValue. intros [H _]%andb_true_iff. by apply negb_true_iff. Qed.

Lemma checkKeyword_not_at_end p k : checkKeyword p k = true → isAtEnd p = false.
Proof. unfold checkKeyword. intros [H _]%andb_true_iff. by eapply check_not_at_end. Qed.

Lemma parserAhead_matchValue p v : parserAhead p (matchValue p v).2.
Proof.
  unfold matchValue. destruct (checkValue p v); simpl;
    [apply parserAhead_advance | apply parserAhead_refl].
Qed.

Lemma parserMoved_matchValue p v :
  (matchValue p v).1 = true → parserMoved p (matchValue p v).2.
Proof.
  unfold matchValue. destruct (checkValue p v) eqn:Hc; simpl; [|done].
  intros _. by apply parserMoved_advance, (checkValue_not_at_end p v).
Qed.

Lemma parserMoved_matchKeyword p k :
  (matchKeyword p k).1 = true → parserMoved p (matchKeyword p k).2.
Proof.
  unfold matchKeyword. destruct (checkKeyword p k) eqn:Hc; simpl; [|done].
  intros _. by apply parserMoved_advance, (checkKeyword_not_at_end p k).
Qed.

(** *** The loops stop before their fuel is used up *)

Lemma skipWhile_ahead fuel keep p : parserAhead p (skipWhile fuel keep p).
Proof.
  revert p. induction fuel as [|fuel IH]; intros p; simpl; [apply parserAhead_refl|].
  destruct (_ && _); [|apply parserAhead_refl].
  eapply parserAhead_trans; [apply parserAhead_advance | apply IH].
Qed.

Lemma skipWhile_fuel fuel keep p :
  tokensLeft p ≤ fuel → skipWhile (S fuel) keep p = skipWhile fuel keep p.
Proof.
  revert p. induction fuel as [|fuel IH]; intros p Hb.
  - simpl. rewrite tokensLeft_0 by lia. done.
  - change (skipWhile (S (S fuel)) keep p)
      with (if negb (isAtEnd p) && keep p
            then skipWhile (S fuel) keep (advance p) else p).
    simpl. destruct (_ && _); [|done]. apply IH. rewrite tokensLeft_advance. lia.
Qed.

Lemma skipParens_ahead fuel parenCount p : parserAhead p (skipParens fuel parenCount p).
Proof.
  revert parenCount p. induction fuel as [|fuel IH]; intros parenCount p; simpl;
    [apply parserAhead_refl|].
  destruct (_ && _); [|apply parserAhead_refl].
  eapply parserAhead_trans; [apply parserAhead_advance | apply IH].
Qed.

Lemma skipParens_fuel fuel parenCount p :
  tokensLeft p ≤ fuel → skipParens (S fuel) parenCount p = skipParens fuel parenCount p.
Proof.
  revert parenCount p. induction fuel as [|fuel IH]; intros parenCount p Hb.
  - simpl. rewrite tokensLeft_0 by lia. done.
  - change (skipParens (S (S fuel)) parenCount p)
      with (if negb (isAtEnd p) && (0 <? parenCount)
            then skipParens (S fuel)
                   (if checkValue p "(" then S parenCount
                    else if checkValue p ")" then parenCount - 1 else parenCount)
                   (advance p)
            else p).
    simpl. destruct (_ && _); [|done]. apply IH. rewrite tokensLeft_advance. lia.
Qed.

Lemma skipStatement_ahead fuel isArray p :
  parserAhead p (skipStatement fuel isArray p).2.
Proof.
  revert isArray p. induction fuel as [|fuel IH]; intros isArray p; simpl;
    [apply parserAhead_refl|].
  destruct (_ && _); [|apply parserAhead_refl].
  eapply parserAhead_trans; [apply parserAhead_advance | apply IH].
Qed.

Lemma skipStatement_fuel fuel isArray p :
  tokensLeft p ≤ fuel → skipStatement (S fuel) isArray p = skipStatement fuel isArray p.
Proof.
  revert isArray p. induction fuel as [|fuel IH]; intros isArray p Hb.
  - simpl. rewrite tokensLeft_0 by lia. done.
  - change (skipStatement (S (S fuel)) isArray p)
      with (if negb (isAtEnd p) && negb (checkValue p ";") && negb (checkValue p "{")
            then skipStatement (S fuel) (if checkValue p "[" then true else isArray)
                   (advance p)
            else (isArray, p)).
    simpl. destruct (_ && _); [|done]. apply IH. rewrite tokensLeft_advance. lia.
Qed.

Lemma skipQualifiers_ahead fuel p : parserAhead p (skipQualifiers fuel p).
Proof.
  revert p. induction fuel as [|fuel IH]; intros p; simpl; [apply parserAhead_refl|].
  destruct (_ || _); [|apply parserAhead_refl].
  destruct (_ || _); [apply parserAhead_refl|].
  eapply parserAhead_trans; [apply parserAhead_advance | apply IH].
Qed.

Lemma skipQualifiers_fuel fuel p :
  tokensLeft p ≤ fuel → skipQualifiers (S fuel) p = skipQualifiers fuel p.
Proof.
  revert p. induction fuel as [|fuel IH]; intros p Hb.
  - simpl. destruct (checkKeyword p "const" || check p TokenIdent) eqn:Hc; [|done].
    exfalso. apply orb_true_iff in Hc as [Hc%checkKeyword_not_at_end|Hc%check_not_at_end];
      apply isAtEnd_tokensLeft in Hc; lia.
  - change (skipQualifiers (S (S fuel)) p)
      with (if checkKeyword p "const" || check p TokenIdent then
              if checkValue p "{" || checkValue p ";" then p
              else skipQualifiers (S fuel) (advance p)
            else p).
    simpl. destruct (_ || _); [|done]. destruct (_ || _); [done|].
    apply IH. rewrite tokensLeft_advance. lia.
Qed.

Lemma scanClassName_ahead fuel className p :
  parserAhead p (scanClassName fuel className p).2.
Proof.
  revert className p. induction fuel as [|fuel IH]; intros className p; simpl;
    [apply parserAhead_refl|].
  destruct (_ && _); [|apply parserAhead_refl].
  eapply parserAhead_trans; [apply parserAhead_advance | apply IH].
Qed.

Lemma scanClassName_fuel fuel className p :
  tokensLeft p ≤ fuel →
  scanClassName (S fuel) className p = scanClassName fuel className p.
Proof.
  revert className p. induction fuel as [|fuel IH]; intros className p Hb.
  - simpl. rewrite tokensLeft_0 by lia. done.
  - change (scanClassName (S (S fuel)) className p)
      with (if negb (isAtEnd p) && negb (checkValue p "::")
            then scanClassName (S fuel)
                   (if check p TokenIdent then Token_Value (current p) else className)
                   (advance p)
            else (className, p)).
    simpl. destruct (_ && _); [|done]. apply IH. rewrite tokensLeft_advance. lia.
Qed.

(** *** Function bodies *)

Lemma parseAllocation_moved p :
  isAtEnd p = false → parserMoved p (parseAllocation p).2.
Proof.
  intros He. unfold parseAllocation.
  pose proof (parserMoved_advance p He) as Hm.
  destruct (String.eqb _ _); [done|].
  pose proof (skipStatement_ahead (tokensLeft (advance p))
                (checkValue (advance p) "[") (advance p)) as Ha.
  destruct (skipStatement _ _ _) as [isArray p']. simpl in *.
  by eapply parserMoved_then.
Qed.

Lemma parseDeallocation_moved p :
  isAtEnd p = false → parserMoved p (parseDeallocation p).2.
Proof.
  intros He. unfold parseDeallocation.
  pose proof (parserMoved_advance p He) as Hm.
  set (p1 := advance p) in *.
  assert (parserAhead p1
            (if checkValue p1 "[" then (true, (matchValue (advance p1) "]").2)
             else (false, p1)).2) as Ha.
  { destruct (checkValue p1 "["); simpl; [|apply parserAhead_refl].
    eapply parserAhead_trans; [apply parserAhead_advance | apply parserAhead_matchValue]. }
  destruct (if checkValue p1 "[" then _ else _) as [isArray p2]. simpl in Ha.
  assert (parserAhead p2
            (if checkKeyword p2 "this" then
               if checkValue (advance p2) "->" then
                 if check (advance (advance p2)) TokenIdent
                 then (Token_Value (current (advance (advance p2))), advance (advance p2))
                 else (EmptyString, advance (advance p2))
               else (EmptyString, advance p2)
             else if check p2 TokenIdent then (Token_Value (current p2), p2)
                  else (EmptyString, p2)).2) as Hb.
  { destruct (checkKeyword p2 "this").
    - destruct (checkValue (advance p2) "->").
      + destruct (check _ _); simpl;
          (eapply parserAhead_trans; apply parserAhead_advance).
      + simpl. apply parserAhead_advance.
    - destruct (check p2 TokenIdent); apply parserAhead_refl. }
  destruct (if checkKeyword p2 "this" then _ else _) as [varName p3]. simpl in Hb.
  assert (parserMoved p p3) as Hall.
  { eapply parserMoved_then; [|exact Hb]. by eapply parserMoved_then. }
  by destruct (String.eqb _ _).
Qed.

Lemma functionBodyStep_moved braceCount fn p :
  isAtEnd p = false → parserMoved p (functionBodyStep braceCount fn p).2.
Proof.
  intros He. unfold functionBodyStep.
  pose proof (parserMoved_advance p He) as Hm.
  destruct (checkValue p "{"); [done|].
  destruct (checkValue p "}"); [done|].
  destruct (checkKeyword p "new").
  { pose proof (parseAllocation_moved p He) as Ha.
    by destruct (parseAllocation p) as [alloc p']. }
  destruct (checkKeyword p "delete").
  { pose proof (parseDeallocation_moved p He) as Ha.
    by destruct (parseDeallocation p) as [dealloc p']. }
  by destruct (check p TokenIdent).
Qed.

Lemma functionBodyLoop_S fuel braceCount fn p :
  functionBodyLoop (S fuel) braceCount fn p
  = if negb (isAtEnd p) && (0 <? braceCount) then
      functionBodyLoop fuel (functionBodyStep braceCount fn p).1.1
                            (functionBodyStep braceCount fn p).1.2
                            (functionBodyStep braceCount fn p).2
    else (fn, p).
Proof.
  simpl. destruct (_ && _); [|done].
  by destruct (functionBodyStep braceCount fn p) as [[? ?] ?].
Qed.

Lemma functionBodyLoop_ahead fuel braceCount fn p :
  parserAhead p (functionBodyLoop fuel braceCount fn p).2.
Proof.
  revert braceCount fn p. induction fuel as [|fuel IH]; intros braceCount fn p.
  { apply parserAhead_refl. }
  rewrite functionBodyLoop_S.
  destruct (isAtEnd p) eqn:He; simpl; [apply parserAhead_refl|].
  destruct (0 <? braceCount); [|apply parserAhead_refl].
  eapply parserAhead_trans; [|apply IH].
  by apply parserMoved_ahead, functionBodyStep_moved.
Qed.

Lemma functionBodyLoop_fuel fuel braceCount fn p :
  tokensLeft p ≤ fuel →
  functionBodyLoop (S fuel) braceCount fn p = functionBodyLoop fuel braceCount fn p.
Proof.
  revert braceCount fn p. induction fuel as [|fuel IH]; intros braceCount fn p Hb.
  - rewrite functionBodyLoop_S. rewrite tokensLeft_0 by lia. done.
  - rewrite (functionBodyLoop_S (S fuel)), (functionBodyLoop_S fuel braceCount fn p).
    destruct (isAtEnd p) eqn:He; simpl; [done|].
    destruct (0 <? braceCount); [|done].
    apply IH. destruct (functionBodyStep_moved braceCount fn p He) as (_ & _ & _ & H).
    lia.
Qed.

Lemma parseFunctionBody_ahead fn p : parserAhead p (parseFunctionBody fn p).2.
Proof.
  unfold parseFunctionBody.
  pose proof (parserAhead_matchValue p "{") as Hm.
  destruct (matchValue p "{") as [matched p1]. simpl in Hm.
  destruct matched; simpl; [|done].
  eapply parserAhead_trans; [done | apply functionBodyLoop_ahead].
Qed.

(** *** Destructor, constructor, member, method *)

Lemma isDestructorStart_not_at_end p className :
  isDestructorStart p className = true → isAtEnd p = false.
Proof.
  unfold isDestructorStart. intros [H|H]%orb_true_iff.
  - apply andb_true_iff in H as [[H _]%andb_true_iff _].
    by eapply checkValue_not_at_end.
  - apply andb_true_iff in H as [[H _]%andb_true_iff _].
    by eapply checkKeyword_not_at_end.
Qed.

(** What follows the parameter list of a destructor or constructor. *)
Lemma parseTail_ahead fn p :
  parserAhead p
    (if checkValue p ";" then (Some fn, advance p)
     else if checkValue p "{"
          then (let '(fn, p) := parseFunctionBody fn p in (Some fn, p))
          else (Some fn, p)).2.
Proof.
  destruct (checkValue p ";"); [apply parserAhead_advance|].
  destruct (checkValue p "{"); [|apply parserAhead_refl].
  pose proof (parseFunctionBody_ahead fn p) as H.
  by destruct (parseFunctionBody fn p).
Qed.

Lemma parseDestructor_moved p className :
  isDestructorStart p className = true → parserMoved p (parseDestructor p className).2.
Proof.
  intros Hstart. pose proof (isDestructorStart_not_at_end _ _ Hstart) as He.
  unfold parseDestructor.
  set (p1 := if checkKeyword p "virtual" then advance p else p).
  assert (parserAhead p p1) as H1.
  { unfold p1. destruct (checkKeyword p "virtual");
      [apply parserAhead_advance | apply parserAhead_refl]. }
  set (p2 := (matchValue p1 "~").2).
  assert (parserAhead p1 p2) as H2 by apply parserAhead_matchValue.
  assert (parserMoved p (advance p2)) as H3.
  { unfold isDestructorStart in Hstart.
    destruct (checkKeyword p "virtual") eqn:Hv.
    - eapply parserMoved_then; [by apply parserMoved_advance|].
      eapply parserAhead_trans; [exact H2 | apply parserAhead_advance].
    - simpl in Hstart. rewrite orb_false_r in Hstart.
      apply andb_true_iff in Hstart as [[Ht _]%andb_true_iff _].
      unfold p2, p1, matchValue. rewrite Ht. simpl.
      eapply parserMoved_then; [by apply parserMoved_advance | apply parserAhead_advance]. }
  pose proof (parserAhead_matchValue (advance p2) "(") as H4.
  destruct (matchValue (advance p2) "(") as [matched p3]. simpl in H4.
  destruct matched; simpl; [|by eapply parserMoved_then].
  set (p4 := skipWhile (tokensLeft p3) _ p3).
  assert (parserAhead p3 p4) as H5 by apply skipWhile_ahead.
  set (p5 := (matchValue p4 ")").2).
  assert (parserAhead p4 p5) as H6 by apply parserAhead_matchValue.
  eapply parserMoved_then; [exact H3|].
  eapply parserAhead_trans; [exact H4|].
  eapply parserAhead_trans; [exact H5|].
  eapply parserAhead_trans; [exact H6|].
  apply (parseTail_ahead (newFunction ("~" +:+ className) true (Token_Line (current p))) p5).
Qed.

Lemma skipInitializerList_ahead p : parserAhead p (skipInitializerList p).
Proof.
  unfold skipInitializerList. destruct (checkValue p ":"); [|apply parserAhead_refl].
  eapply parserAhead_trans; [apply parserAhead_advance | apply skipWhile_ahead].
Qed.

Lemma parseConstructor_moved p className :
  isAtEnd p = false → parserMoved p (parseConstructor p className).2.
Proof.
  intros He. unfold parseConstructor.
  pose proof (parserMoved_advance p He) as H1.
  pose proof (parserAhead_matchValue (advance p) "(") as H2.
  destruct (matchValue (advance p) "(") as [matched p3]. simpl in H2.
  destruct matched; simpl; [|by eapply parserMoved_then].
  set (p4 := skipWhile (tokensLeft p3) _ p3).
  assert (parserAhead p3 p4) as H5 by apply skipWhile_ahead.
  set (p5 := (matchValue p4 ")").2).
  assert (parserAhead p4 p5) as H6 by apply parserAhead_matchValue.
  pose proof (skipInitializerList_ahead p5) as H7.
  eapply parserMoved_then; [exact H1|].
  eapply parserAhead_trans; [exact H2|].
  eapply parserAhead_trans; [exact H5|].
  eapply parserAhead_trans; [exact H6|].
  eapply parserAhead_trans; [exact H7|].
  apply (parseTail_ahead (newFunction className false (Token_Line (current p)))
           (skipInitializerList p5)).
Qed.

Lemma drop_current p :
  p_pos p < p_len p →
  drop (p_pos p) (p_tokens p) = current p :: drop (S (p_pos p)) (p_tokens p).
Proof.
  intros Hlt. unfold current, tokenAt.
  destruct (Nat.ltb_spec (p_pos p) (p_len p)); [|lia].
  destruct (p_tokens p !! p_pos p) as [t|] eqn:Ht.
  - by apply drop_S.
  - apply lookup_ge_None in Ht. unfold p_len in Hlt. lia.
Qed.

Lemma isMemberDeclaration_current p :
  isAtEnd p = false → isMemberDeclaration p = true → checkValue p ";" = false.
Proof.
  intros He Hm. unfold isMemberDeclaration in Hm.
  rewrite (drop_current p (isAtEnd_false p He)) in Hm. simpl in Hm.
  unfold checkValue. rewrite He. simpl. by destruct (valueIs (current p) ";").
Qed.

Lemma skipWhile_first keep p :
  isAtEnd p = false → keep p = true →
  parserMoved p (skipWhile (tokensLeft p) keep p).
Proof.
  intros He Hk. pose proof (isAtEnd_tokensLeft p He) as Hpos.
  destruct (tokensLeft p) as [|n]; [lia|]. simpl. rewrite He, Hk. simpl.
  eapply parserMoved_then; [by apply parserMoved_advance | apply skipWhile_ahead].
Qed.

Lemma parseMember_moved p :
  isAtEnd p = false → isMemberDeclaration p = true → parserMoved p (parseMember p).2.
Proof.
  intros He Hm. unfold parseMember.
  set (p1 := skipWhile (tokensLeft p) _ p).
  assert (parserMoved p p1) as H1.
  { apply skipWhile_first; [done|]. by rewrite (isMemberDeclaration_current p He Hm). }
  assert (parserMoved p (matchValue p1 ";").2) as H2.
  { eapply parserMoved_then; [exact H1 | apply parserAhead_matchValue]. }
  destruct (_ <? 2); [done|].
  destruct (memberScan _ _ _ _ _) as [[[isPointer isArray] varName] typeTokens].
  by destruct (_ || _).
Qed.

Lemma isFunctionStart_current p :
  isAtEnd p = false → isFunctionStart p = true →
  checkValue p ";" = false ∧ (checkValue p "(" = true ∨ checkValue p "{" = false).
Proof.
  intros He Hf. unfold isFunctionStart in Hf.
  rewrite (drop_current p (isAtEnd_false p He)) in Hf. simpl in Hf.
  unfold checkValue. rewrite He. simpl.
  destruct (valueIs (current p) ";"); [done|].
  destruct (valueIs (current p) "("); [by split; [|left]|].
  destruct (valueIs (current p) "{"); [done|]. by split; [|right].
Qed.

Lemma parseMethod_moved p :
  isAtEnd p = false → isFunctionStart p = true → parserMoved p (parseMethod p).2.
Proof.
  intros He Hf. destruct (isFunctionStart_current p He Hf) as [Hsemi Hparen].
  unfold parseMethod.
  set (keep := fun q => negb (checkValue q "(") && negb (checkValue q ";")
                        && negb (checkValue q "{")).
  set (p1 := skipWhile (tokensLeft p) keep p).
  assert (parserAhead p p1) as H1 by apply skipWhile_ahead.
  destruct (checkValue p1 ";") eqn:Hs1.
  { simpl. eapply parserAhead_then; [exact H1|].
    by apply parserMoved_advance, (checkValue_not_at_end p1 ";"). }
  assert (parserMoved p (matchValue p1 "(").2 ∨ (matchValue p1 "(").1 = false ∧ parserMoved p p1)
    as Hmatch.
  { destruct (checkValue p "(") eqn:Hp.
    - left. assert (p1 = p) as ->.
      { unfold p1. apply skipWhile_stop. unfold keep. by rewrite Hp. }
      apply parserMoved_matchValue. unfold matchValue. by rewrite Hp.
    - assert (parserMoved p p1) as Hm.
      { apply skipWhile_first; [done|]. unfold keep. rewrite Hp, Hsemi. simpl.
        destruct Hparen as [? | ->]; [congruence|done]. }
      destruct (matchValue p1 "(").1 eqn:Hm1.
      + left. eapply parserMoved_then; [exact Hm | apply parserAhead_matchValue].
      + by right. }
  pose proof (parserAhead_matchValue p1 "(") as Hx.
  destruct (matchValue p1 "(") as [matched p2]. simpl in Hmatch, Hx.
  destruct matched; simpl.
  2:{ destruct Hmatch as [H|[_ H]]; [done|]. by eapply parserMoved_then. }
  destruct Hmatch as [Hm|[? _]]; [|done].
  set (p3 := skipParens (tokensLeft p2) 1 p2).
  assert (parserAhead p2 p3) as H3 by apply skipParens_ahead.
  set (p4 := skipQualifiers (tokensLeft p3) p3).
  assert (parserAhead p3 p4) as H4 by apply skipQualifiers_ahead.
  eapply parserMoved_then; [exact Hm|].
  eapply parserAhead_trans; [exact H3|].
  eapply parserAhead_trans; [exact H4|].
  apply (parseTail_ahead _ p4).
Qed.

(** *** Classes *)

Lemma classBodyStep_moved className braceCount class p :
  isAtEnd p = false → parserMoved p (classBodyStep className braceCount class p).2.
Proof.
  intros He. unfold classBodyStep.
  pose proof (parserMoved_advance p He) as Hm.
  destruct (checkValue p "{"); [done|].
  destruct (checkValue p "}"); [done|].
  destruct (_ || _).
  { simpl. eapply parserMoved_then; [exact Hm | apply parserAhead_matchValue]. }
  destruct (isDestructorStart p className) eqn:Hd.
  { pose proof (parseDestructor_moved p className Hd) as H.
    by destruct (parseDestructor p className). }
  destruct (isConstructorStart p className).
  { pose proof (parseConstructor_moved p className He) as H.
    by destruct (parseConstructor p className). }
  destruct (isMemberDeclaration p) eqn:Hmem.
  { pose proof (parseMember_moved p He Hmem) as H. by destruct (parseMember p). }
  destruct (isFunctionStart p) eqn:Hfun.
  { pose proof (parseMethod_moved p He Hfun) as H. by destruct (parseMethod p). }
  done.
Qed.

Lemma classBodyLoop_S fuel className braceCount class p :
  classBodyLoop (S fuel) className braceCount class p
  = if negb (isAtEnd p) && (0 <? braceCount) then
      classBodyLoop fuel className
        (classBodyStep className braceCount class p).1.1
        (classBodyStep className braceCount class p).1.2
        (classBodyStep className braceCount class p).2
    else (class, p).
Proof.
  simpl. destruct (_ && _); [|done].
  by destruct (classBodyStep className braceCount class p) as [[? ?] ?].
Qed.

Lemma classBodyLoop_ahead fuel className braceCount class p :
  parserAhead p (classBodyLoop fuel className braceCount class p).2.
Proof.
  revert braceCount class p. induction fuel as [|fuel IH]; intros braceCount class p.
  { apply parserAhead_refl. }
  rewrite classBodyLoop_S.
  destruct (isAtEnd p) eqn:He; simpl; [apply parserAhead_refl|].
  destruct (0 <? braceCount); [|apply parserAhead_refl].
  eapply parserAhead_trans; [|apply IH].
  by apply parserMoved_ahead, classBodyStep_moved.
Qed.

Lemma classBodyLoop_fuel fuel className braceCount class p :
  tokensLeft p ≤ fuel →
  classBodyLoop (S fuel) className braceCount class p
  = classBodyLoop fuel className braceCount class p.
Proof.
  revert braceCount class p. induction fuel as [|fuel IH]; intros braceCount class p Hb.
  - rewrite classBodyLoop_S. rewrite tokensLeft_0 by lia. done.
  - rewrite (classBodyLoop_S (S fuel)), (classBodyLoop_S fuel className braceCount class p).
    destruct (isAtEnd p) eqn:He; simpl; [done|].
    destruct (0 <? braceCount); [|done].
    apply IH.
    destruct (classBodyStep_moved className braceCount class p He) as (_ & _ & _ & H).
    lia.
Qed.

Lemma parseClass_ahead p : parserAhead p (parseClass p).2.
Proof.
  unfold parseClass. destruct (check p TokenIdent); simpl; [|apply parserAhead_refl].
  set (p1 := skipWhile (tokensLeft (advance p)) _ (advance p)).
  assert (parserAhead p p1) as H1.
  { eapply parserAhead_trans; [apply parserAhead_advance | apply skipWhile_ahead]. }
  destruct (checkValue p1 ";"); [done|].
  pose proof (parserAhead_matchValue p1 "{") as H2.
  destruct (matchValue p1 "{") as [matched p2]. simpl in H2.
  destruct matched; simpl; [|by eapply parserAhead_trans].
  pose proof (classBodyLoop_ahead (tokensLeft p2) (Token_Value (current p)) 1
                (mkClass (Token_Value (current p)) (p_file p2)
                         (Token_Line (current p)) 0 [] None None []) p2) as H3.
  destruct (classBodyLoop _ _ _ _ _) as [class p3]. simpl in *.
  eapply parserAhead_trans; [exact H1|]. by eapply parserAhead_trans.
Qed.

(** *** The top level *)

Lemma parserAhead_on p p' : parserAhead p p' → parserOn p p'.
Proof. intros (H1 & H2 & _ & H4). by split_and!. Qed.

Lemma parserOn_setClasses p p' classes : parserOn p p' → parserOn p (setClasses p' classes).
Proof. done. Qed.

Lemma parseOutOfClassMethod_on p :
  parserOn p (parseOutOfClassMethod p) ∧
  (isAtEnd p = false → checkValue p "::" = false →
   tokensLeft (parseOutOfClassMethod p) < tokensLeft p).
Proof.
  unfold parseOutOfClassMethod.
  pose proof (scanClassName_ahead (tokensLeft p) EmptyString p) as H1.
  assert (isAtEnd p = false → checkValue p "::" = false →
          tokensLeft (scanClassName (tokensLeft p) EmptyString p).2 < tokensLeft p) as Hs.
  { intros He Hc. pose proof (isAtEnd_tokensLeft p He) as Hpos.
    destruct (tokensLeft p) as [|n] eqn:Hn; [lia|]. simpl. rewrite He, Hc. simpl.
    destruct (scanClassName_ahead n
                (if check p TokenIdent then Token_Value (current p) else EmptyString)
                (advance p)) as (_ & _ & _ & Hle).
    rewrite tokensLeft_advance in Hle. lia. }
  destruct (scanClassName (tokensLeft p) EmptyString p) as [className p1]. simpl in *.
  assert (∀ q, parserOn p1 q →
               parserOn p q ∧ (isAtEnd p = false → checkValue p "::" = false →
                               tokensLeft q < tokensLeft p)) as Hfrom.
  { intros q (K1 & K2 & K3). destruct H1 as (J1 & J2 & _ & J4). split.
    - split_and!; [congruence|congruence|lia].
    - intros He Hc. specialize (Hs He Hc). lia. }
  destruct (String.eqb className EmptyString).
  { apply Hfrom, parserAhead_on, parserAhead_refl. }
  pose proof (parserAhead_matchValue p1 "::") as H2.
  destruct (matchValue p1 "::") as [matched p2]. simpl in H2.
  destruct matched; simpl; [|by apply Hfrom, parserAhead_on].
  set (p3 := if checkValue p2 "~" then advance p2 else p2).
  assert (parserAhead p2 p3) as H3.
  { unfold p3. destruct (checkValue p2 "~");
      [apply parserAhead_advance | apply parserAhead_refl]. }
  assert (parserAhead p1 p3) as H13 by (by eapply parserAhead_trans).
  destruct (check p3 TokenIdent); simpl; [|by apply Hfrom, parserAhead_on].
  pose proof (parserAhead_matchValue (advance p3) "(") as H4.
  destruct (matchValue (advance p3) "(") as [matched p4]. simpl in H4.
  assert (parserAhead p1 p4) as H14.
  { eapply parserAhead_trans; [exact H13|].
    eapply parserAhead_trans; [apply parserAhead_advance | exact H4]. }
  destruct matched; simpl; [|by apply Hfrom, parserAhead_on].
  set (p5 := skipParens (tokensLeft p4) 1 p4).
  set (p6 := if checkValue p5 ":" && negb (checkValue p2 "~")
             then skipInitializerList p5 else p5).
  assert (parserAhead p1 p6) as H16.
  { eapply parserAhead_trans; [exact H14|].
    eapply parserAhead_trans; [apply skipParens_ahead|]. unfold p6.
    destruct (_ && _); [apply skipInitializerList_ahead | apply parserAhead_refl]. }
  destruct (checkValue p6 "{"); simpl; [|by apply Hfrom, parserAhead_on].
  pose proof (parseFunctionBody_ahead
                (newFunction (Token_Value (current p3)) (checkValue p2 "~")
                             (Token_Line (current p))) p6) as H7.
  destruct (parseFunctionBody _ p6) as [fn p7]. simpl in H7.
  assert (parserOn p1 p7) as H17.
  { apply parserAhead_on. by eapply parserAhead_trans. }
  destruct (attachToFirst _ _ _); by apply Hfrom.
Qed.

Lemma parseOutOfClassMethod_stuck p :
  checkValue p "::" = true → parseOutOfClassMethod p = p.
Proof.
  intros Hc. unfold parseOutOfClassMethod.
  assert (scanClassName (tokensLeft p) EmptyString p = (EmptyString, p)) as ->; [|done].
  destruct (tokensLeft p); simpl; [done|]. by rewrite Hc, andb_false_r.
Qed.

Lemma checkValue_checkKeyword p v k :
  checkValue p v = true → v ≠ k → checkKeyword p k = false.
Proof.
  unfold checkValue, checkKeyword, valueIs.
  intros [_ Hv%String.eqb_eq]%andb_true_iff Hne.
  apply andb_false_iff. right. apply String.eqb_neq. congruence.
Qed.

(** One round of [parse] consumes a token, unless the parser stands at a
    [::] that starts what looks like a method defined out of its class:
    then the round changes nothing. *)
Lemma parseStep_progress p :
  isAtEnd p = false →
  parserOn p (parseStep p) ∧
  (tokensLeft (parseStep p) < tokensLeft p ∨
   (checkValue p "::" = true ∧ isOutOfClassMethod p = true ∧ parseStep p = p)).
Proof.
  intros He. unfold parseStep.
  assert (∀ q, parserMoved p q →
     let '(class, p2) := parseClass q in
     parserOn p (match class with
                 | Some c => setClasses p2 (p_classes p2 ++ [c])
                 | None => p2
                 end) ∧
     tokensLeft (match class with
                 | Some c => setClasses p2 (p_classes p2 ++ [c])
                 | None => p2
                 end) < tokensLeft p) as Hclass.
  { intros q Hq. pose proof (parseClass_ahead q) as Ha.
    destruct (parseClass q) as [class p2]. simpl in Ha.
    pose proof (parserMoved_then _ _ _ Hq Ha) as (K1 & K2 & _ & K4).
    destruct class; (split; [unfold parserOn; split_and!; [done|done|]|]);
      unfold tokensLeft, p_len in *; simpl; lia. }
  destruct (matchKeyword p "class") as [isClass p1] eqn:Hk1.
  destruct isClass.
  { pose proof (parserMoved_matchKeyword p "class") as Hm. rewrite Hk1 in Hm.
    specialize (Hclass p1 (Hm eq_refl)). destruct (parseClass p1) as [class p2].
    destruct Hclass as [H1 H2]. split; [done|by left]. }
  destruct (matchKeyword p "struct") as [isStruct p1'] eqn:Hk2.
  destruct isStruct.
  { pose proof (parserMoved_matchKeyword p "struct") as Hm. rewrite Hk2 in Hm.
    specialize (Hclass p1' (Hm eq_refl)). destruct (parseClass p1') as [class p2].
    destruct Hclass as [H1 H2]. split; [done|by left]. }
  destruct (isOutOfClassMethod p) eqn:Hout.
  - destruct (parseOutOfClassMethod_on p) as [Hon Hlt]. split; [done|].
    destruct (checkValue p "::") eqn:Hc.
    + right. split_and!; [done|done|]. by apply parseOutOfClassMethod_stuck.
    + left. by apply Hlt.
  - destruct (parserMoved_advance p He) as (K1 & K2 & _ & K4).
    split; [unfold parserOn; split_and!; [done|done|lia] | by left].
Qed.

Lemma parseLoop_stuck fuel p :
  isAtEnd p = false → parseStep p = p → parseLoop fuel p = None.
Proof.
  intros He Hstep. induction fuel as [|fuel IH]; simpl; rewrite He; [done|].
  by rewrite Hstep.
Qed.

Lemma parseLoop_more fuel p classes :
  parseLoop fuel p = Some classes → parseLoop (S fuel) p = Some classes.
Proof.
  revert p. induction fuel as [|fuel IH]; intros p.
  - simpl. by destruct (isAtEnd p).
  - intros H. change (parseLoop (S (S fuel)) p)
      with (if isAtEnd p then Some (p_classes p) else parseLoop (S fuel) (parseStep p)).
    simpl in H. destruct (isAtEnd p); [done|]. by apply IH.
Qed.

Lemma parseLoop_mono fuel fuel' p classes :
  parseLoop fuel p = Some classes → fuel ≤ fuel' → parseLoop fuel' p = Some classes.
Proof.
  intros H Hle. induction Hle as [|m Hle IH]; [done|]. by apply parseLoop_more.
Qed.

(** *** Termination *)

Lemma checkValue_token p v :
  checkValue p v = true →
  ∃ t, p_tokens p !! p_pos p = Some t ∧ Token_Value t = v.
Proof.
  intros Hc. pose proof (checkValue_not_at_end p v Hc) as He.
  pose proof (isAtEnd_false p He) as Hlt.
  unfold checkValue, valueIs, current, tokenAt in Hc. rewrite He in Hc. simpl in Hc.
  destruct (Nat.ltb_spec (p_pos p) (p_len p)); [|lia].
  destruct (p_tokens p !! p_pos p) as [t|] eqn:Ht.
  - exists t. split; [done|]. by apply String.eqb_eq.
  - apply lookup_ge_None in Ht. unfold p_len in Hlt. lia.
Qed.

Lemma parseLoop_total fuel p :
  tokensLeft p ≤ fuel →
  Forall (fun t => Token_Value t ≠ "::") (p_tokens p) →
  ∃ classes, parseLoop fuel p = Some classes.
Proof.
  revert p. induction fuel as [|fuel IH]; intros p Hb Hall.
  - exists (p_classes p). simpl. by rewrite tokensLeft_0 by lia.
  - simpl. destruct (isAtEnd p) eqn:He; [by eexists|].
    destruct (parseStep_progress p He) as [(Ht & _ & _) [Hlt|(Hc & _)]].
    + apply IH; [lia|by rewrite Ht].
    + exfalso. apply checkValue_token in Hc as (t & Ht' & Hv).
      eapply Forall_forall in Hall; [|by eapply list_elem_of_lookup_2]. done.
Qed.

Lemma parseLoop_stable fuel p classes :
  parseLoop (tokensLeft p) p = Some classes → tokensLeft p ≤ fuel →
  parseLoop fuel p = Some classes.
Proof. intros H Hle. by eapply parseLoop_mono. Qed.

(** A token with the text [::] comes from two colons in the input. *)
Lemma tokensUpTo_scope input tokens k t :
  tokensUpTo (tokenSpans input) tokens k → t ∈ tokens → Token_Value t = "::" →
  ∃ pre post, input = pre ++ [":"; ":"]%char ++ post.
Proof.
  induction 1 as [|tokens k k' _ IH Hle|tokens k n t' _ IH Ht]; intros Hin Hv.
  - by apply elem_of_nil in Hin.
  - by apply IH.
  - apply elem_of_app in Hin as [Hin|Hin]; [by apply IH|].
    apply list_elem_of_singleton in Hin as ->.
    destruct Ht as (Hn & Hlen & Hval & _). rewrite Hv in Hval.
    apply (f_equal list_ascii_of_string) in Hval.
    rewrite list_ascii_of_string_of_list_ascii in Hval. simpl in Hval.
    exists (take k input), (drop (k + n) input).
    assert (n = 2) as ->.
    { apply (f_equal length) in Hval. unfold inputSlice in Hval.
      rewrite length_take, length_drop in Hval. simpl in Hval. lia. }
    rewrite Hval. unfold inputSlice.
    rewrite <- drop_drop, take_drop, take_drop. done.
Qed.

Lemma tokensUpTo_length input tokens k :
  tokensUpTo (tokenSpans input) tokens k → length tokens ≤ k.
Proof.
  induction 1 as [|tokens k k' _ IH Hle|tokens k n t _ IH Ht].
  - done.
  - lia.
  - destruct Ht as (Hn & _). rewrite length_app. simpl. lia.
Qed.

Lemma string_of_list_ascii_app (a b : list ascii) :
  string_of_list_ascii (a ++ b) = string_of_list_ascii a +:+ string_of_list_ascii b.
Proof. induction a as [|x a IH]; simpl; [done|]. by rewrite IH. Qed.

(** X19: [parse] comes to an end on every list of tokens that holds no
    [::], within as many rounds as there are tokens, and with the same
    classes however many more rounds it is allowed; so [ParseFile] comes
    to an end on every file in which no two colons stand together. *)
Theorem parse_terminates_without_scope_operator file :
  (∀ tokens, Forall (fun t => Token_Value t ≠ "::") tokens →
     ∃ classes, ∀ fuel, length tokens ≤ fuel →
                parseLoop fuel (mkParser tokens 0 file []) = Some classes) ∧
  (∀ content, strings_Contains content "::" = false →
     ∃ classes, ∀ fuel, S (String.length content) ≤ fuel →
                parseSource fuel file content = Some classes).
Proof.
  assert (∀ tokens, Forall (fun t => Token_Value t ≠ "::") tokens →
     ∃ classes, ∀ fuel, length tokens ≤ fuel →
                parseLoop fuel (mkParser tokens 0 file []) = Some classes) as Htokens.
  { intros tokens Hall.
    destruct (parseLoop_total (length tokens) (mkParser tokens 0 file [])) as [classes Hc].
    - unfold tokensLeft, p_len. simpl. lia.
    - done.
    - exists classes. intros fuel Hle. by eapply parseLoop_mono. }
  split; [done|]. intros content Hno. unfold parseSource.
  destruct (Tokenize_sound (list_ascii_of_string content)) as (Hin & Hpos & [_ Ht] & Heq).
  rewrite string_of_list_ascii_of_string in Heq. rewrite Hin, Hpos in Ht.
  set (input := list_ascii_of_string content) in *.
  set (tokens := lx_tokens (tokenizeLoop (S (length input)) (NewLexer input))) in *.
  assert (tokensUpTo (tokenSpans input) tokens (length input)) as Hspans.
  { eapply tokensUpTo_impl; [|exact Ht]. by intros k n t [H _]. }
  destruct (Htokens (Tokenize content)) as [classes Hc].
  - rewrite Heq. apply Forall_app. split; [|by apply Forall_singleton].
    apply Forall_forall. intros t Hin' Hv.
    destruct (tokensUpTo_scope _ _ _ _ Hspans Hin' Hv) as (pre & post & Hsplit).
    apply not_true_iff_false in Hno. apply Hno, strings_Contains_spec.
    exists (string_of_list_ascii pre), (string_of_list_ascii post).
    rewrite <- (string_of_list_ascii_of_string content). fold input. rewrite Hsplit.
    by rewrite !string_of_list_ascii_app.
  - exists classes. intros fuel Hle. apply Hc. rewrite Heq, length_app. simpl.
    pose proof (tokensUpTo_length _ _ _ Hspans) as Hlen.
    assert (length input = String.length content) as Hl.
    { unfold input. clear. induction content as [|c s IH]; simpl; [done|]. by rewrite IH. }
    lia.
Qed.

Lemma parseSteps_stuck n p : parseStep p = p → parseSteps n p = p.
Proof. intros H. induction n as [|n IH]; simpl; [done|]. by rewrite H. Qed.

Lemma parseLoop_steps n fuel p :
  (∀ m, m < n → isAtEnd (parseSteps m p) = false) →
  parseLoop (n + fuel) p = parseLoop fuel (parseSteps n p).
Proof.
  revert p. induction n as [|n IH]; intros p Hrun; [done|].
  pose proof (Hrun 0) as H0. simpl in H0. simpl. rewrite H0 by lia.
  apply IH. intros m Hm. apply (Hrun (S m)). lia.
Qed.

Lemma parseLoop_None fuel p :
  tokensLeft p ≤ fuel → parseLoop fuel p = None →
  ∃ n, stuckAtScope (parseSteps n p) ∧
       ∀ m, m < n → isAtEnd (parseSteps m p) = false.
Proof.
  revert p. induction fuel as [|fuel IH]; intros p Hb Hnone.
  - simpl in Hnone. by rewrite tokensLeft_0 in Hnone by lia.
  - simpl in Hnone. destruct (isAtEnd p) eqn:He; [done|].
    destruct (parseStep_progress p He) as [_ [Hlt|(Hc & Hout & Hst)]].
    + destruct (IH (parseStep p)) as (n & Hstuck & Hrun); [lia|done|].
      exists (S n). split; [done|]. intros [|m] Hm; [done|]. apply Hrun. lia.
    + exists 0. split; [done|]. intros m Hm. lia.
Qed.

(** X20: [parse] does not come to an end when it arrives at a [::] that
    starts what [isOutOfClassMethod] takes for a method defined out of its
    class (a [(] among the four tokens after the [::], no [;] before it):
    [parseOutOfClassMethod] finds no class name before the [::] and
    returns without having consumed a token, and the loop of [parse]
    repeats the same round for ever.  This is the only way in which
    [parse] fails to come to an end. *)
Theorem parse_hangs_at_leading_scope_operator p :
  (stuckAtScope p → parseStep p = p ∧ ∀ fuel, parseLoop fuel p = None) ∧
  ((∃ fuel, tokensLeft p ≤ fuel ∧ parseLoop fuel p = None) ↔
   ∃ n, stuckAtScope (parseSteps n p) ∧
        ∀ m, m < n → isAtEnd (parseSteps m p) = false) ∧
  ((∃ n, stuckAtScope (parseSteps n p) ∧
         ∀ m, m < n → isAtEnd (parseSteps m p) = false) →
   ∀ fuel, parseLoop fuel p = None).
Proof.
  assert (∀ q, stuckAtScope q → parseStep q = q ∧ ∀ fuel, parseLoop fuel q = None)
    as Hstuck.
  { intros q (He & Hc & Hout).
    destruct (parseStep_progress q He) as [_ [Hlt|(_ & _ & Hst)]].
    - exfalso. unfold parseStep in Hlt.
      rewrite (surjective_pairing (matchKeyword q "class")) in Hlt.
      unfold matchKeyword in Hlt.
      rewrite (checkValue_checkKeyword q "::" "class" Hc) in Hlt by done.
      rewrite (checkValue_checkKeyword q "::" "struct" Hc) in Hlt by done.
      simpl in Hlt. rewrite Hout, parseOutOfClassMethod_stuck in Hlt by done. lia.
    - split; [done|]. intros fuel. by apply parseLoop_stuck. }
  assert ((∃ n, stuckAtScope (parseSteps n p) ∧
                ∀ m, m < n → isAtEnd (parseSteps m p) = false) →
          ∀ fuel, parseLoop fuel p = None) as Hnever.
  { intros (n & Hs & Hrun) fuel. destruct (Hstuck _ Hs) as [Hfix Hnone].
    destruct (decide (n ≤ fuel)) as [Hle|Hgt].
    - replace fuel with (n + (fuel - n)) by lia.
      rewrite parseLoop_steps by done. apply Hnone.
    - destruct (parseLoop fuel p) as [classes|] eqn:Hl; [|done].
      apply (parseLoop_mono _ (n + 0)) in Hl; [|lia].
      rewrite parseLoop_steps, Hnone in Hl by done. done. }
  split_and!; [apply Hstuck| |done].
  split.
  - intros (fuel & Hb & Hnone). by eapply parseLoop_None.
  - intros H. exists (tokensLeft p). split; [done|]. by apply Hnever.
Qed.

Lemma parse_terminates_without_scope_operator_witness :
  ∃ classes, parseSource 21 "a.cpp" plainSource = Some classes ∧
             parseSource 400 "a.cpp" plainSource = Some classes.
Proof.
  destruct (proj2 (parse_terminates_without_scope_operator "a.cpp") plainSource)
    as [classes Hc].
  - by vm_compute.
  - exists classes. split; apply Hc; vm_compute; lia.
Defined.

Lemma parse_hangs_at_leading_scope_operator_witness :
  stuckAtScope (parseSteps 5 scopeParser) ∧
  parseSource 400 "a.cpp" scopeSource = None.
Proof.
  assert (stuckAtScope (parseSteps 5 scopeParser)) as Hstuck.
  { by vm_compute. }
  split; [done|].
  apply (proj2 (proj2 (parse_hangs_at_leading_scope_operator scopeParser))).
  exists 5. split; [done|]. intros m Hm.
  do 5 (destruct m as [|m]; [by vm_compute|]). lia.
Defined.

(** ** What the parser returns *)

Lemma functionKept_refl fn : functionKept fn fn.
Proof. by split_and!. Qed.

Lemma functionKept_trans f1 f2 f3 :
  functionKept f1 f2 → functionKept f2 f3 → functionKept f1 f3.
Proof.
  intros (H1 & H2 & H3) (K1 & K2 & K3). split_and!; [congruence|congruence|auto].
Qed.

Lemma parseAllocation_named p a :
  (parseAllocation p).1 = Some a → Alloc_VarName a ≠ EmptyString.
Proof.
  unfold parseAllocation.
  destruct (String.eqb_spec (findAssignmentTarget (advance p)) EmptyString) as [|Hne];
    [done|].
  destruct (skipStatement _ _ _) as [isArray p']. simpl. by intros [= <-].
Qed.

Lemma parseDeallocation_named p d :
  (parseDeallocation p).1 = Some d → Dealloc_VarName d ≠ EmptyString.
Proof.
  unfold parseDeallocation.
  destruct (if checkValue (advance p) "[" then _ else _) as [isArray p2].
  destruct (if checkKeyword p2 "this" then _ else _) as [varName p3].
  destruct (String.eqb_spec varName EmptyString) as [|Hne]; [done|].
  simpl. by intros [= <-].
Qed.

Lemma functionBodyStep_kept braceCount fn p :
  functionKept fn (functionBodyStep braceCount fn p).1.2.
Proof.
  unfold functionBodyStep.
  destruct (checkValue p "{"); [apply functionKept_refl|].
  destruct (checkValue p "}").
  { simpl. destruct (_ =? 0); [|apply functionKept_refl]. by split_and!. }
  destruct (checkKeyword p "new").
  { pose proof (parseAllocation_named p) as Hn.
    destruct (parseAllocation p) as [[a|] p']; simpl in *; [|apply functionKept_refl].
    split_and!; [done|done|]. intros [Ha Hd]. split; [|done]. simpl.
    apply Forall_app. split; [done|]. apply Forall_singleton. by apply Hn. }
  destruct (checkKeyword p "delete").
  { pose proof (parseDeallocation_named p) as Hn.
    destruct (parseDeallocation p) as [[d|] p']; simpl in *; [|apply functionKept_refl].
    split_and!; [done|done|]. intros [Ha Hd]. split; [done|]. simpl.
    apply Forall_app. split; [done|]. apply Forall_singleton. by apply Hn. }
  destruct (check p TokenIdent); [|apply functionKept_refl]. simpl.
  eapply functionKept_trans.
  - instantiate (1 := if (p_pos p + 1 <? p_len p) && valueIs (tokenAt p (p_pos p + 1)) "("
                      then addMethodCall fn (Token_Value (current p)) else fn).
    destruct (_ && _); [by split_and!|apply functionKept_refl].
  - destruct (checkPointerAlias _ _ _); [by split_and!|apply functionKept_refl].
Qed.

Lemma functionBodyLoop_kept fuel braceCount fn p :
  functionKept fn (functionBodyLoop fuel braceCount fn p).1.
Proof.
  revert braceCount fn p. induction fuel as [|fuel IH]; intros braceCount fn p.
  { apply functionKept_refl. }
  rewrite functionBodyLoop_S. destruct (_ && _); [|apply functionKept_refl].
  eapply functionKept_trans; [apply functionBodyStep_kept | apply IH].
Qed.

Lemma parseFunctionBody_kept fn p : functionKept fn (parseFunctionBody fn p).1.
Proof.
  unfold parseFunctionBody. destruct (matchValue p "{") as [matched p1].
  destruct matched; simpl; [apply functionBodyLoop_kept | apply functionKept_refl].
Qed.

Lemma newFunction_wellFormed name isDestructor line :
  functionWellFormed (newFunction name isDestructor line).
Proof. split; constructor. Qed.

(** What follows the parameter list keeps the name and the flag. *)
Lemma parseTail_kept fn p f :
  (if checkValue p ";" then (Some fn, advance p)
   else if checkValue p "{"
        then (let '(fn, p) := parseFunctionBody fn p in (Some fn, p))
        else (Some fn, p)).1 = Some f →
  functionKept fn f.
Proof.
  destruct (checkValue p ";"); [intros [= <-]; apply functionKept_refl|].
  destruct (checkValue p "{"); [|intros [= <-]; apply functionKept_refl].
  pose proof (parseFunctionBody_kept fn p) as H.
  destruct (parseFunctionBody fn p). simpl in *. by intros [= <-].
Qed.

Lemma parseDestructor_wellFormed p className f :
  (parseDestructor p className).1 = Some f →
  Fn_IsDestructor f = true ∧ functionWellFormed f.
Proof.
  unfold parseDestructor.
  destruct (matchValue (advance _) "(") as [matched p3].
  destruct matched; simpl; [|done].
  intros (Hn & Hd & Hwf)%parseTail_kept. split; [by rewrite Hd|].
  apply Hwf, newFunction_wellFormed.
Qed.

Lemma parseConstructor_wellFormed p className f :
  (parseConstructor p className).1 = Some f →
  Fn_IsDestructor f = false ∧ Fn_Name f = className ∧ functionWellFormed f.
Proof.
  unfold parseConstructor.
  destruct (matchValue (advance p) "(") as [matched p3].
  destruct matched; simpl; [|done].
  intros (Hn & Hd & Hwf)%parseTail_kept. split_and!; [by rewrite Hd|by rewrite Hn|].
  apply Hwf, newFunction_wellFormed.
Qed.

Lemma parseMethod_wellFormed p f :
  (parseMethod p).1 = Some f → Fn_IsDestructor f = false ∧ functionWellFormed f.
Proof.
  unfold parseMethod. destruct (checkValue _ ";"); [done|].
  destruct (matchValue _ "(") as [matched p2].
  destruct matched; simpl; [|done].
  intros (Hn & Hd & Hwf)%parseTail_kept. split; [by rewrite Hd|].
  apply Hwf, newFunction_wellFormed.
Qed.

Lemma parseMember_pointer p m :
  (parseMember p).1 = Some m →
  Member_IsPointer m = true ∧ Member_Name m ≠ EmptyString.
Proof.
  unfold parseMember. destruct (_ <? 2); [done|].
  destruct (memberScan _ _ _ _ _) as [[[isPointer isArray] varName] typeTokens].
  destruct isPointer; simpl; [|done].
  destruct (String.eqb_spec varName EmptyString) as [|Hne]; [done|].
  simpl. by intros [= <-].
Qed.

Lemma classBodyStep_wellFormed file className braceCount class p :
  Class_Name class = className → classWellFormed file class →
  Class_Name (classBodyStep className braceCount class p).1.2 = className ∧
  classWellFormed file (classBodyStep className braceCount class p).1.2.
Proof.
  intros Hname Hwf. pose proof Hwf as (Hfile & Hmem & Hctor & Hdtor & Hmeth).
  unfold classBodyStep.
  destruct (checkValue p "{"); [done|].
  destruct (checkValue p "}").
  { simpl. destruct (_ =? 0); [|done]. by split. }
  destruct (_ || _); [done|].
  destruct (isDestructorStart p className).
  { pose proof (parseDestructor_wellFormed p className) as Hf.
    destruct (parseDestructor p className) as [[f|] p']; simpl in *; [|done].
    split; [done|]. unfold classWellFormed. simpl. split_and!; try done;
      intros ? [= <-]; by apply Hf. }
  destruct (isConstructorStart p className).
  { pose proof (parseConstructor_wellFormed p className) as Hf.
    destruct (parseConstructor p className) as [[f|] p']; simpl in *; [|done].
    split; [done|]. unfold classWellFormed. simpl. split_and!; try done;
      intros ? [= <-]; rewrite Hname; by apply Hf. }
  destruct (isMemberDeclaration p).
  { pose proof (parseMember_pointer p) as Hm.
    destruct (parseMember p) as [[m|] p']; simpl in *; [|done].
    split; [done|]. unfold classWellFormed. simpl. split_and!; try done;
      apply Forall_app; (split; [done|]); apply Forall_singleton; by apply Hm. }
  destruct (isFunctionStart p); [|done].
  pose proof (parseMethod_wellFormed p) as Hf.
  destruct (parseMethod p) as [[f|] p']; simpl in *; [|done].
  split; [done|]. unfold classWellFormed. simpl. split_and!; try done;
    apply Forall_app; (split; [done|]); apply Forall_singleton; by apply Hf.
Qed.

Lemma classBodyLoop_wellFormed fuel file className braceCount class p :
  Class_Name class = className → classWellFormed file class →
  classWellFormed file (classBodyLoop fuel className braceCount class p).1.
Proof.
  revert braceCount class p. induction fuel as [|fuel IH]; intros braceCount class p Hn Hwf.
  { done. }
  rewrite classBodyLoop_S. destruct (_ && _); [|done].
  destruct (classBodyStep_wellFormed file className braceCount class p Hn Hwf) as [H1 H2].
  by apply IH.
Qed.

Lemma parseClass_wellFormed p c :
  (parseClass p).1 = Some c → classWellFormed (p_file p) c.
Proof.
  unfold parseClass. destruct (check p TokenIdent); simpl; [|done].
  set (p1 := skipWhile (tokensLeft (advance p)) _ (advance p)).
  assert (p_file p1 = p_file p) as Hf1.
  { destruct (skipWhile_ahead (tokensLeft (advance p))
                (fun q => negb (checkValue q "{") && negb (checkValue q ";")) (advance p))
      as (_ & H & _).
    destruct (parserAhead_advance p) as (_ & H' & _). fold p1 in H. congruence. }
  destruct (checkValue p1 ";"); [done|].
  pose proof (parserAhead_matchValue p1 "{") as (_ & Hf2 & _).
  destruct (matchValue p1 "{") as [matched p2]. simpl in Hf2.
  destruct matched; simpl; [|done].
  pose proof (classBodyLoop_wellFormed (tokensLeft p2) (p_file p) (Token_Value (current p)) 1
                (mkClass (Token_Value (current p)) (p_file p2)
                         (Token_Line (current p)) 0 [] None None []) p2) as Hloop.
  destruct (classBodyLoop _ _ _ _ _) as [class p3]. simpl in *.
  intros [= <-]. apply Hloop; [done|].
  unfold classWellFormed. simpl. split_and!; [congruence|constructor|done|done|constructor].
Qed.

Lemma attachMethod_wellFormed file className methodName isDestructor fn class :
  Class_Name class = className → classWellFormed file class →
  Fn_Name fn = methodName → Fn_IsDestructor fn = isDestructor → functionWellFormed fn →
  classWellFormed file (attachMethod className methodName isDestructor fn class).
Proof.
  intros Hname (Hfile & Hmem & Hctor & Hdtor & Hmeth) Hfn Hflag Hwf.
  unfold attachMethod. destruct isDestructor.
  { unfold classWellFormed. simpl. split_and!; try done. by intros ? [= <-]. }
  destruct (String.eqb_spec methodName className) as [Heq|Hne].
  { unfold classWellFormed. simpl. split_and!; try done. intros ? [= <-].
    split_and!; [done|congruence|done]. }
  unfold classWellFormed. simpl. split_and!; try done.
  apply Forall_app. split; [done|]. by apply Forall_singleton.
Qed.

Lemma attachToFirst_wellFormed file className attach classes classes' :
  (∀ c, Class_Name c = className → classWellFormed file c → classWellFormed file (attach c)) →
  Forall (classWellFormed file) classes →
  attachToFirst className attach classes = Some classes' →
  Forall (classWellFormed file) classes'.
Proof.
  intros Hattach. revert classes'.
  induction classes as [|c rest IH]; intros classes' Hall; simpl; [done|].
  apply Forall_cons in Hall as [Hc Hrest].
  destruct (String.eqb_spec (Class_Name c) className) as [Heq|Hne].
  - intros [= <-]. apply Forall_cons. split; [by apply Hattach | done].
  - destruct (attachToFirst className attach rest) as [rest'|]; [|done].
    intros [= <-]. apply Forall_cons. split; [done|by apply IH].
Qed.

Lemma parseOutOfClassMethod_wellFormed p :
  Forall (classWellFormed (p_file p)) (p_classes p) →
  Forall (classWellFormed (p_file p)) (p_classes (parseOutOfClassMethod p)).
Proof.
  intros Hall. unfold parseOutOfClassMethod.
  pose proof (scanClassName_ahead (tokensLeft p) EmptyString p) as H1.
  destruct (scanClassName (tokensLeft p) EmptyString p) as [className p1]. simpl in H1.
  assert (∀ q, parserAhead p1 q →
               Forall (classWellFormed (p_file p)) (p_classes q) ∧ p_file q = p_file p)
    as Hfrom.
  { intros q Hq. destruct (parserAhead_trans _ _ _ H1 Hq) as (_ & Hf & Hc & _).
    by rewrite Hc. }
  destruct (String.eqb className EmptyString).
  { apply Hfrom, parserAhead_refl. }
  pose proof (parserAhead_matchValue p1 "::") as H2.
  destruct (matchValue p1 "::") as [matched p2]. simpl in H2.
  destruct matched; simpl; [|by apply Hfrom].
  set (p3 := if checkValue p2 "~" then advance p2 else p2).
  assert (parserAhead p1 p3) as H13.
  { eapply parserAhead_trans; [exact H2|]. unfold p3.
    destruct (checkValue p2 "~"); [apply parserAhead_advance | apply parserAhead_refl]. }
  destruct (check p3 TokenIdent); simpl; [|by apply Hfrom].
  pose proof (parserAhead_matchValue (advance p3) "(") as H4.
  destruct (matchValue (advance p3) "(") as [matched p4]. simpl in H4.
  assert (parserAhead p1 p4) as H14.
  { eapply parserAhead_trans; [exact H13|].
    eapply parserAhead_trans; [apply parserAhead_advance | exact H4]. }
  destruct matched; simpl; [|by apply Hfrom].
  set (p5 := skipParens (tokensLeft p4) 1 p4).
  set (p6 := if checkValue p5 ":" && negb (checkValue p2 "~")
             then skipInitializerList p5 else p5).
  assert (parserAhead p1 p6) as H16.
  { eapply parserAhead_trans; [exact H14|].
    eapply parserAhead_trans; [apply skipParens_ahead|]. unfold p6.
    destruct (_ && _); [apply skipInitializerList_ahead | apply parserAhead_refl]. }
  destruct (checkValue p6 "{"); simpl; [|by apply Hfrom].
  pose proof (parseFunctionBody_ahead
                (newFunction (Token_Value (current p3)) (checkValue p2 "~")
                             (Token_Line (current p))) p6) as H7.
  pose proof (parseFunctionBody_kept
                (newFunction (Token_Value (current p3)) (checkValue p2 "~")
                             (Token_Line (current p))) p6) as (Kn & Kd & Kwf).
  destruct (parseFunctionBody _ p6) as [fn p7]. simpl in *.
  destruct (Hfrom p7) as [Hall7 Hfile7]; [by eapply parserAhead_trans|].
  specialize (Kwf (newFunction_wellFormed _ _ _)).
  assert (∀ c, Class_Name c = className → classWellFormed (p_file p) c →
               classWellFormed (p_file p)
                 (attachMethod className (Token_Value (current p3))
                               (checkValue p2 "~") fn c)) as Hattach.
  { intros c Hn Hc. by apply attachMethod_wellFormed. }
  destruct (attachToFirst _ _ (p_classes p7)) as [classes'|] eqn:Hfirst; simpl.
  - by eapply attachToFirst_wellFormed.
  - apply Forall_app. split; [done|]. apply Forall_singleton. apply Hattach; [done|].
    unfold classWellFormed. simpl. split_and!; [done|constructor|done|done|constructor].
Qed.

Lemma parseStep_wellFormed p :
  Forall (classWellFormed (p_file p)) (p_classes p) →
  p_file (parseStep p) = p_file p ∧
  Forall (classWellFormed (p_file p)) (p_classes (parseStep p)).
Proof.
  intros Hall. unfold parseStep.
  assert (∀ q, parserAhead p q →
     p_file (match parseClass q with
             | (Some c, p2) => setClasses p2 (p_classes p2 ++ [c])
             | (None, p2) => p2
             end) = p_file p ∧
     Forall (classWellFormed (p_file p))
       (p_classes (match parseClass q with
                   | (Some c, p2) => setClasses p2 (p_classes p2 ++ [c])
                   | (None, p2) => p2
                   end))) as Hclass.
  { intros q Hq. pose proof (parseClass_ahead q) as Ha.
    pose proof (parseClass_wellFormed q) as Hwf.
    destruct (parseClass q) as [class p2]. simpl in Ha, Hwf.
    destruct (parserAhead_trans _ _ _ Hq Ha) as (_ & K2 & K3 & _).
    destruct Hq as (_ & J2 & _).
    destruct class as [c|]; simpl; (split; [done|]); rewrite K3; [|done].
    apply Forall_app. split; [done|]. apply Forall_singleton.
    rewrite <- J2. by apply Hwf. }
  destruct (matchKeyword p "class") as [isClass p1] eqn:Hk1.
  destruct isClass.
  { apply Hclass. apply parserMoved_ahead.
    pose proof (parserMoved_matchKeyword p "class") as Hm. rewrite Hk1 in Hm. by apply Hm. }
  destruct (matchKeyword p "struct") as [isStruct p1'] eqn:Hk2.
  destruct isStruct.
  { apply Hclass. apply parserMoved_ahead.
    pose proof (parserMoved_matchKeyword p "struct") as Hm. rewrite Hk2 in Hm. by apply Hm. }
  destruct (isOutOfClassMethod p).
  - split; [apply parseOutOfClassMethod_on | by apply parseOutOfClassMethod_wellFormed].
  - destruct (parserAhead_advance p) as (_ & K2 & K3 & _). by rewrite K3.
Qed.

Lemma parseLoop_wellFormed fuel p classes :
  Forall (classWellFormed (p_file p)) (p_classes p) →
  parseLoop fuel p = Some classes →
  Forall (classWellFormed (p_file p)) classes.
Proof.
  revert p. induction fuel as [|fuel IH]; intros p Hall; simpl.
  - destruct (isAtEnd p); [by intros [= <-] | done].
  - destruct (isAtEnd p); [by intros [= <-]|].
    destruct (parseStep_wellFormed p Hall) as [Hf Hall']. rewrite <- Hf in *.
    by apply IH.
Qed.

(** X21: the classes that [ParseFile] returns are well formed.  Each
    carries the name of the file; each of its members is a pointer with a
    name, so that the analyzer takes every member for a pointer member; its
    constructor bears the name of the class; its destructor, and no other
    function of it, is flagged as a destructor; and every allocation and
    deallocation recorded in its functions names a variable. *)
Theorem parsed_classes_are_well_formed fuel file content classes :
  parseSource fuel file content = Some classes →
  Forall (classWellFormed file) classes ∧
  Forall (fun c => pointerMembers c = ∅ ↔ Class_Members c = []) classes ∧
  countClassesWithPointers classes
  = length (filter (fun c => Class_Members c ≠ []) classes).
Proof.
  unfold parseSource. intros Hparse.
  assert (Forall (classWellFormed file) classes) as Hwf.
  { apply (parseLoop_wellFormed fuel (mkParser (Tokenize content) 0 file []));
      [constructor | done]. }
  assert (∀ c, classWellFormed file c →
               (pointerMembers c = ∅ ↔ Class_Members c = [])) as Hmembers.
  { intros c (_ & Hmem & _). rewrite pointerMembers_empty. split.
    - intros Hex. destruct (Class_Members c) as [|m rest]; [done|].
      apply Forall_cons in Hmem as [[Hp _] _]. simpl in Hex. by rewrite Hp in Hex.
    - by intros ->. }
  split_and!; [done| |].
  - eapply Forall_impl; [exact Hwf | exact Hmembers].
  - unfold countClassesWithPointers. rewrite countClassesWithPointers_filter. simpl.
    clear Hparse. induction Hwf as [|c rest Hc Hrest IH]; [done|].
    destruct (decide (Class_Members c = [])) as [He|Hne].
    + rewrite !filter_cons_False; [done|by intros H; apply H|].
      intros H. by apply H, Hmembers.
    + rewrite !filter_cons_True; [simpl; by rewrite IH|done|].
      intros H. by apply Hne, Hmembers.
Qed.

Lemma parsed_classes_are_well_formed_witness :
  Forall (classWellFormed "edge_cases.cpp") [reassignClass] ∧
  countClassesWithPointers [reassignClass] = 1.
Proof.
  destruct (parsed_classes_are_well_formed 500 "edge_cases.cpp" reassignSource
              [reassignClass]) as (H1 & _ & H3).
  - by vm_compute.
  - split; [done|]. rewrite H3. reflexivity.
Defined.

(* ================================================================== *)
(** * The destructor declaration, from the parser to the report *)

(** ** The destructor declaration in the loop over the class body *)

Lemma classBodySteps_S n className s :
  classBodySteps (S n) className s
  = if classBodyRunning s
    then classBodySteps n className (classBodyStep className s.1.1 s.1.2 s.2)
    else s.
Proof. done. Qed.

Lemma classBodySteps_stopped n className s :
  classBodyRunning s = false → classBodySteps n className s = s.
Proof. intros H. destruct n; [done|]. by rewrite classBodySteps_S, H. Qed.

Lemma classBodySteps_add m k className s :
  classBodySteps (m + k) className s
  = classBodySteps k className (classBodySteps m className s).
Proof.
  revert s. induction m as [|m IH]; intros s; [done|].
  change (S m + k) with (S (m + k)). rewrite !classBodySteps_S.
  destruct (classBodyRunning s) eqn:Hr; [apply IH|].
  by rewrite classBodySteps_stopped.
Qed.

(** The loop of the code is the iteration of its rounds. *)
Lemma classBodyLoop_steps fuel className braceCount class p :
  classBodyLoop fuel className braceCount class p
  = ((classBodySteps fuel className (braceCount, class, p)).1.2,
     (classBodySteps fuel className (braceCount, class, p)).2).
Proof.
  revert braceCount class p. induction fuel as [|fuel IH]; intros braceCount class p.
  { done. }
  rewrite classBodyLoop_S, classBodySteps_S. unfold classBodyRunning. simpl.
  destruct (negb (isAtEnd p) && (0 <? braceCount)); [|done].
  rewrite IH. by destruct (classBodyStep className braceCount class p) as [[? ?] ?].
Qed.

Lemma classBodySteps_adequate fuel className s :
  tokensLeft s.2 ≤ fuel →
  classBodyRunning (classBodySteps fuel className s) = false.
Proof.
  revert s. induction fuel as [|fuel IH]; intros [[braceCount class] p] Hb.
  - simpl in *. unfold classBodyRunning. simpl. by rewrite tokensLeft_0 by lia.
  - rewrite classBodySteps_S.
    destruct (classBodyRunning (braceCount, class, p)) eqn:Hr; [|done].
    apply IH. unfold classBodyRunning in Hr. simpl in *.
    apply andb_true_iff in Hr as [He%negb_true_iff _].
    destruct (classBodyStep_moved className braceCount class p He) as (_ & _ & _ & H).
    lia.
Qed.

Lemma parseClass_loop q c :
  (parseClass q).1 = Some c →
  parseClass q
  = (Some (classBodyLoop (tokensLeft (classBodyEntry q)) (Token_Value (current q)) 1
             (emptyClass q) (classBodyEntry q)).1,
     (classBodyLoop (tokensLeft (classBodyEntry q)) (Token_Value (current q)) 1
        (emptyClass q) (classBodyEntry q)).2).
Proof.
  unfold parseClass, emptyClass, classBodyEntry.
  destruct (check q TokenIdent); simpl; [|done].
  destruct (checkValue _ ";"); [done|].
  destruct (matchValue _ "{") as [matched p2]. simpl.
  destruct matched; simpl; [|done].
  by destruct (classBodyLoop _ _ _ _ _) as [class p3].
Qed.

(** Only a round that stands at a destructor start touches the destructor
    of the class. *)
Lemma classBodyStep_destructor className braceCount class p :
  isDestructorStart p className = false →
  Class_Destructor (classBodyStep className braceCount class p).1.2
  = Class_Destructor class.
Proof.
  intros Hd. unfold classBodyStep. rewrite Hd.
  destruct (checkValue p "{"); [done|].
  destruct (checkValue p "}"); [simpl; by destruct (_ =? 0)|].
  destruct (_ || _); [done|].
  destruct (isConstructorStart p className).
  { by destruct (parseConstructor p className) as [[f|] p']. }
  destruct (isMemberDeclaration p).
  { by destruct (parseMember p) as [[m|] p']. }
  destruct (isFunctionStart p); [|done].
  by destruct (parseMethod p) as [[f|] p'].
Qed.

Lemma noTildeAhead_start p className :
  noTildeAhead p → isDestructorStart p className = false.
Proof.
  unfold noTildeAhead, isDestructorStart. intros Hno.
  apply orb_false_iff. split.
  - destruct (checkValue p "~") eqn:Hc; [|done]. exfalso.
    apply checkValue_token in Hc as (t & Ht & Hv).
    rewrite Forall_forall in Hno. apply (Hno t); [|done].
    apply (list_elem_of_lookup_2 _ 0). by rewrite lookup_drop, Nat.add_0_r.
  - destruct (checkKeyword p "virtual"); [|done]. simpl.
    destruct (Nat.ltb_spec (p_pos p + 1) (p_len p)) as [Hlt|]; [|done]. simpl.
    unfold valueIs, tokenAt.
    destruct (p_tokens p !! (p_pos p + 1)) as [t|] eqn:Ht.
    + simpl. apply String.eqb_neq. rewrite Forall_forall in Hno. apply Hno.
      apply (list_elem_of_lookup_2 _ 1). by rewrite lookup_drop.
    + apply lookup_ge_None in Ht. unfold p_len in Hlt. lia.
Qed.

Lemma noTildeAhead_on p p' :
  parserOn p p' → noTildeAhead p → noTildeAhead p'.
Proof.
  unfold noTildeAhead. intros (Ht & _ & Hleft) Hno. rewrite Ht.
  unfold tokensLeft, p_len in Hleft. rewrite Ht in Hleft.
  destruct (decide (p_pos p ≤ p_pos p')) as [Hle|Hgt].
  - replace (p_pos p') with (p_pos p + (p_pos p' - p_pos p)) by lia.
    rewrite <- drop_drop. by apply Forall_drop.
  - rewrite drop_ge by lia. constructor.
Qed.

Lemma noTildeAhead_ahead p p' :
  parserAhead p p' → noTildeAhead p → noTildeAhead p'.
Proof. intros H. by apply noTildeAhead_on, parserAhead_on. Qed.

Lemma noTildeAhead_check p : noTildeAhead p → checkValue p "~" = false.
Proof.
  intros Hno. destruct (checkValue p "~") eqn:Hc; [|done]. exfalso.
  apply checkValue_token in Hc as (t & Ht & Hv).
  unfold noTildeAhead in Hno. rewrite Forall_forall in Hno. apply (Hno t); [|done].
  apply (list_elem_of_lookup_2 _ 0). by rewrite lookup_drop, Nat.add_0_r.
Qed.

Lemma classBodySteps_ahead n className s :
  parserAhead s.2 (classBodySteps n className s).2.
Proof.
  revert s. induction n as [|n IH]; intros [[braceCount class] p].
  { apply parserAhead_refl. }
  rewrite classBodySteps_S.
  destruct (classBodyRunning (braceCount, class, p)) eqn:Hr; [|apply parserAhead_refl].
  unfold classBodyRunning in Hr. simpl in *.
  apply andb_true_iff in Hr as [He%negb_true_iff _].
  eapply parserAhead_trans; [|apply IH].
  by apply parserMoved_ahead, classBodyStep_moved.
Qed.

(** From the round after the declaration on, the destructor is the one
    of the declaration. *)
Lemma classBodySteps_declared n m className s fn :
  classBodyRunning (classBodySteps n className s) = true →
  classBodyStep className (classBodySteps n className s).1.1
    (classBodySteps n className s).1.2 (classBodySteps n className s).2
  = ((classBodySteps n className s).1.1,
     setDestructor (classBodySteps n className s).1.2 fn,
     (classBodyStep className (classBodySteps n className s).1.1
        (classBodySteps n className s).1.2 (classBodySteps n className s).2).2) →
  noLaterDestructor n className s →
  n < m →
  Class_Destructor (classBodySteps m className s).1.2 = Some fn.
Proof.
  intros Hrun Hstep Hlater Hnm.
  replace m with (S n + (m - S n)) by lia.
  induction (m - S n) as [|k IH].
  - rewrite Nat.add_0_r. replace (S n) with (n + 1) by lia.
    rewrite classBodySteps_add. cbn [classBodySteps]. rewrite Hrun, Hstep. done.
  - replace (S n + S k) with ((S n + k) + 1) by lia.
    rewrite classBodySteps_add. cbn [classBodySteps].
    destruct (classBodyRunning (classBodySteps (S n + k) className s)) eqn:Hr; [|done].
    rewrite classBodyStep_destructor; [done|]. apply Hlater; [lia|done].
Qed.

(** *** The top level keeps the destructor *)

Lemma classBodyStep_name className braceCount class p :
  Class_Name (classBodyStep className braceCount class p).1.2 = Class_Name class.
Proof.
  unfold classBodyStep.
  destruct (checkValue p "{"); [done|].
  destruct (checkValue p "}"); [simpl; by destruct (_ =? 0)|].
  destruct (_ || _); [done|].
  destruct (isDestructorStart p className).
  { by destruct (parseDestructor p className) as [[f|] p']. }
  destruct (isConstructorStart p className).
  { by destruct (parseConstructor p className) as [[f|] p']. }
  destruct (isMemberDeclaration p).
  { by destruct (parseMember p) as [[m|] p']. }
  destruct (isFunctionStart p); [|done].
  by destruct (parseMethod p) as [[f|] p'].
Qed.

Lemma classBodySteps_name n className s :
  Class_Name (classBodySteps n className s).1.2 = Class_Name s.1.2.
Proof.
  revert s. induction n as [|n IH]; intros s; [done|].
  rewrite classBodySteps_S. destruct (classBodyRunning s); [|done].
  by rewrite IH, classBodyStep_name.
Qed.

Lemma attachToFirst_lookup className attach classes classes' idx c :
  (∀ x, Class_Name (attach x) = Class_Name x ∧
        Class_Destructor (attach x) = Class_Destructor x) →
  attachToFirst className attach classes = Some classes' →
  classes !! idx = Some c →
  ∃ c', classes' !! idx = Some c' ∧ Class_Name c' = Class_Name c ∧
        Class_Destructor c' = Class_Destructor c.
Proof.
  intros Hattach. revert classes' idx.
  induction classes as [|x rest IH]; intros classes' idx; simpl; [done|].
  destruct (String.eqb (Class_Name x) className).
  - intros [= <-]. destruct idx as [|idx]; simpl.
    + intros [= ->]. exists (attach c). split; [done|apply Hattach].
    + intros Hc. by exists c.
  - destruct (attachToFirst className attach rest) as [rest'|]; [|done].
    intros [= <-]. destruct idx as [|idx]; simpl.
    + intros [= ->]. by exists c.
    + by apply IH.
Qed.

Lemma parseOutOfClassMethod_keeps idx cn fn p :
  keepsDestructor idx cn fn p → keepsDestructor idx cn fn (parseOutOfClassMethod p).
Proof.
  intros [Hno (c & Hc & Hname & Hd)]. unfold parseOutOfClassMethod.
  pose proof (scanClassName_ahead (tokensLeft p) EmptyString p) as H1.
  destruct (scanClassName (tokensLeft p) EmptyString p) as [className p1]. simpl in H1.
  assert (∀ q, parserAhead p1 q → keepsDestructor idx cn fn q) as Hfrom.
  { intros q Hq. pose proof (parserAhead_trans _ _ _ H1 Hq) as Hpq. split.
    - by eapply noTildeAhead_ahead.
    - destruct Hpq as (_ & _ & Hcl & _). rewrite Hcl. by exists c. }
  destruct (String.eqb className EmptyString).
  { apply Hfrom, parserAhead_refl. }
  pose proof (parserAhead_matchValue p1 "::") as H2.
  destruct (matchValue p1 "::") as [matched p2]. simpl in H2.
  destruct matched; simpl; [|by apply Hfrom].
  rewrite (noTildeAhead_check p2) by (by apply Hfrom).
  destruct (check p2 TokenIdent); simpl; [|by apply Hfrom].
  pose proof (parserAhead_matchValue (advance p2) "(") as H4.
  destruct (matchValue (advance p2) "(") as [matched p4]. simpl in H4.
  assert (parserAhead p1 p4) as H14.
  { eapply parserAhead_trans; [exact H2|].
    eapply parserAhead_trans; [apply parserAhead_advance | exact H4]. }
  destruct matched; simpl; [|by apply Hfrom].
  set (p5 := skipParens (tokensLeft p4) 1 p4).
  set (p6 := if checkValue p5 ":" && true then skipInitializerList p5 else p5).
  assert (parserAhead p1 p6) as H16.
  { eapply parserAhead_trans; [exact H14|].
    eapply parserAhead_trans; [apply skipParens_ahead|]. unfold p6.
    destruct (_ && _); [apply skipInitializerList_ahead | apply parserAhead_refl]. }
  destruct (checkValue p6 "{"); simpl; [|by apply Hfrom].
  pose proof (parseFunctionBody_ahead
                (newFunction (Token_Value (current p2)) false (Token_Line (current p)))
                p6) as H7.
  destruct (parseFunctionBody _ p6) as [fn' p7]. simpl in H7.
  destruct (Hfrom p7) as [Hno7 (c7 & Hc7 & Hname7 & Hd7)]; [by eapply parserAhead_trans|].
  assert (∀ x, Class_Name (attachMethod className (Token_Value (current p2)) false fn' x)
               = Class_Name x ∧
               Class_Destructor (attachMethod className (Token_Value (current p2))
                                   false fn' x)
               = Class_Destructor x) as Hattach.
  { intros x. unfold attachMethod. by destruct (String.eqb _ _). }
  destruct (attachToFirst _ _ (p_classes p7)) as [classes'|] eqn:Hfirst.
  - destruct (attachToFirst_lookup _ _ _ _ idx c7 Hattach Hfirst Hc7)
      as (c' & Hc' & Hn' & Hd').
    split; [done|]. exists c'. simpl. split_and!; [done|congruence|congruence].
  - split; [done|]. exists c7. simpl. split_and!; [|done|done].
    by apply lookup_app_l_Some.
Qed.

Lemma parseStep_keeps idx cn fn p :
  keepsDestructor idx cn fn p → keepsDestructor idx cn fn (parseStep p).
Proof.
  intros Hk. pose proof Hk as [Hno (c & Hc & Hname & Hd)]. unfold parseStep.
  assert (∀ q, parserAhead p q →
     keepsDestructor idx cn fn
       (match parseClass q with
        | (Some c, p2) => setClasses p2 (p_classes p2 ++ [c])
        | (None, p2) => p2
        end)) as Hclass.
  { intros q Hq. pose proof (parseClass_ahead q) as Ha.
    destruct (parseClass q) as [class p2]. simpl in Ha.
    pose proof (parserAhead_trans _ _ _ Hq Ha) as Hp2.
    assert (noTildeAhead p2) as Hno2 by (by eapply noTildeAhead_ahead).
    destruct Hp2 as (_ & _ & Hcl & _).
    destruct class as [c2|]; (split; [done|]); exists c; simpl; rewrite Hcl;
      split_and!; try done.
    by apply lookup_app_l_Some. }
  destruct (matchKeyword p "class") as [isClass p1] eqn:Hk1.
  destruct isClass.
  { apply Hclass. apply parserMoved_ahead.
    pose proof (parserMoved_matchKeyword p "class") as Hm. rewrite Hk1 in Hm. by apply Hm. }
  destruct (matchKeyword p "struct") as [isStruct p1'] eqn:Hk2.
  destruct isStruct.
  { apply Hclass. apply parserMoved_ahead.
    pose proof (parserMoved_matchKeyword p "struct") as Hm. rewrite Hk2 in Hm. by apply Hm. }
  destruct (isOutOfClassMethod p).
  - by apply parseOutOfClassMethod_keeps.
  - pose proof (parserAhead_advance p) as Ha. split; [by eapply noTildeAhead_ahead|].
    destruct Ha as (_ & _ & Hcl & _). rewrite Hcl. by exists c.
Qed.

Lemma parseLoop_keeps fuel idx cn fn p classes :
  keepsDestructor idx cn fn p → parseLoop fuel p = Some classes →
  ∃ c, classes !! idx = Some c ∧ Class_Name c = cn ∧ Class_Destructor c = Some fn.
Proof.
  revert p. induction fuel as [|fuel IH]; intros p Hk; simpl.
  - destruct (isAtEnd p); [|done]. intros [= <-]. apply Hk.
  - destruct (isAtEnd p); [intros [= <-]; apply Hk|].
    apply IH. by apply parseStep_keeps.
Qed.




(** From the source text to the report. *)
Example declaredOnly_end_to_end :
  analyzeClass (parseOne "c.h" declaredOnlySource)
  = [mkLeak "c.h" 1 "C" "p" reasonNotDeleted "error"].
Proof. by vm_compute. Qed.

Example virtualDeclaredOnly_end_to_end :
  analyzeClass (parseOne "v.h" virtualDeclaredOnlySource)
  = [mkLeak "v.h" 1 "V" "s" reasonNotDeleted "error"].
Proof. by vm_compute. Qed.

(** Behind [inline] the declaration is taken for a method named [C]: no
    destructor is stored, and the member is reported by Rule 1 and by
    Rule 4. *)
Example inlineDeclared_end_to_end :
  Class_Destructor (parseOne "c.h" inlineDeclaredSource) = None ∧
  analyzeClass (parseOne "c.h" inlineDeclaredSource)
  = [mkLeak "c.h" 1 "C" "p" reasonNotDeleted "error";
     mkLeak "c.h" 1 "C" "p" reasonNoDestructor "error"].
Proof. by vm_compute. Qed.
